(** * Meal-nutrient optimisation core of the mealgen service

    A shallow embedding of the serving selector, the portion scaler, the
    macro rebalancer, the macro aggregator and the concurrent food resolver
    of [services/mealgen-service/main.go], and the properties the
    specification states about them.

    Layout: the binary64 arithmetic of Go's [float64] (the Standard
    Library's [SpecFloat] at precision 53), a model of the two [strconv]/[fmt]
    conversions and the [strings] helpers the program calls, the data model,
    the program, the interleaving semantics of [batchFetchFoods], and then
    the theorems. *)

From Stdlib Require Import ZArith QArith Qabs Qpower Lia Lqa Bool Ascii String List.
From Stdlib Require Import Floats.SpecFloat.
From stdpp Require Import base option list strings gmap.

Local Open Scope string_scope.
Local Open Scope Z_scope.

(* stdpp's solvers clear hypotheses that may be gone already. *)
Set Warnings "-clear-no-such-hyp".

(* ===================================================================== *)
(** ** float64: IEEE 754 binary64 *)
(* ===================================================================== *)

Module F64.

Definition prec : Z := 53.
Definition emax : Z := 1024.

Definition t : Type := spec_float.

Definition add : t -> t -> t := SFadd prec emax.
Definition sub : t -> t -> t := SFsub prec emax.
Definition mul : t -> t -> t := SFmul prec emax.
Definition div : t -> t -> t := SFdiv prec emax.

(** Go's [<], [<=], [>] and [==] on float64; all are false on NaN. *)
Definition ltb : t -> t -> bool := SFltb.
Definition leb : t -> t -> bool := SFleb.
Definition eqb : t -> t -> bool := SFeqb.
Definition gtb (x y : t) : bool := SFltb y x.

Definition zero : t := S754_zero false.

(** [float64(n)] for an integer [n]. *)
Definition of_Z (n : Z) : t := binary_normalize prec emax n 0 false.

(** The float64 nearest to the rational [n / d] ([d > 0]), ties to even:
    the quotient is rounded once, from the exact integers. *)
Definition of_ratio (neg : bool) (n d : positive) : t :=
  SFdiv prec emax (S754_finite neg n 0) (S754_finite false d 0).

(** The value of a decimal constant of the source text, [n / 10^k]. *)
Definition of_decimal (n : positive) (k : nat) : t :=
  of_ratio false n (Pos.pow 10 (Pos.of_nat k)).

(** The float64 a constant expression of the source denotes: Go evaluates
    untyped constants exactly and rounds once, at the conversion. *)
Definition of_Q (q : Q) : t :=
  match Qnum q with
  | Z0 => S754_zero false
  | Z.pos n => of_ratio false n (Qden q)
  | Z.neg n => of_ratio true n (Qden q)
  end.

Definition one : t := of_Z 1.
Definition hundred : t := of_Z 100.

(** [2^e] as a rational. *)
Definition pow2 (e : Z) : Q := Qpower 2 e.

(** The absolute value of a finite float as a rational; 0 for the others. *)
Definition magnitude (x : t) : Q :=
  match x with
  | S754_finite _ m e => inject_Z (Z.pos m) * pow2 e
  | _ => 0%Q
  end.

(** The sign bit. *)
Definition negative (x : t) : bool :=
  match x with
  | S754_finite s _ _ | S754_zero s | S754_infinity s => s
  | S754_nan => false
  end.

(** The exact value of a finite float as a rational; 0 for the others. *)
Definition to_Q (x : t) : Q := if negative x then Qopp (magnitude x) else magnitude x.

Definition exponent (x : t) : Z :=
  match x with
  | S754_finite _ _ e => e
  | _ => 0
  end.

(** A normal number of binary64: a mantissa of exactly 53 bits. *)
Definition normal (x : t) : Prop :=
  match x with
  | S754_finite _ m e => digits2_pos m = 53%positive ∧ -1074 ≤ e ≤ 971
  | _ => False
  end.

Definition is_zero (x : t) : Prop :=
  match x with
  | S754_zero _ => True
  | _ => False
  end.

(** [2^-52]: it bounds the relative error of every rounding to a normal
    number. *)
Definition u : Q := 1 # (2 ^ 52).

Definition is_finite (x : t) : bool :=
  match x with
  | S754_finite _ _ _ | S754_zero _ => true
  | _ => false
  end.

End F64.

Abbreviation float64 := F64.t.

(* ===================================================================== *)
(** ** The Go library functions the program calls *)
(* ===================================================================== *)

(** Go strings are byte sequences; [string] is a sequence of 8-bit [ascii]. *)

Module Strings.

Definition code (c : ascii) : Z := Z.of_N (N_of_ascii c).

Definition isUpper (c : ascii) : bool := (65 <=? code c) && (code c <=? 90).

Definition lowerByte (c : ascii) : ascii :=
  if isUpper c then ascii_of_N (N_of_ascii c + 32) else c.

(** [strings.ToLower] on ASCII text: the letters A-Z are mapped to a-z,
    every other byte is kept. *)
Fixpoint ToLower (s : string) : string :=
  match s with
  | EmptyString => EmptyString
  | String c r => String (lowerByte c) (ToLower r)
  end.

(** [strings.EqualFold] on ASCII text: equality under simple case folding. *)
Definition EqualFold (s u : string) : bool := String.eqb (ToLower s) (ToLower u).

Fixpoint HasPrefix (s p : string) : bool :=
  match p, s with
  | EmptyString, _ => true
  | String a p', String b s' => Ascii.eqb a b && HasPrefix s' p'
  | String _ _, EmptyString => false
  end.

(** [strings.Contains]: [sub] occurs in [s] as a contiguous byte sequence. *)
Fixpoint Contains (s sub : string) : bool :=
  HasPrefix s sub ||
  match s with
  | EmptyString => false
  | String _ r => Contains r sub
  end.

End Strings.

Module Strconv.
Import Strings.

Definition isDigit (c : ascii) : bool := (48 <=? code c) && (code c <=? 57).

(** [lower(c)] of package strconv: [c | ('x' - 'X')]. *)
Definition lower (c : ascii) : ascii := ascii_of_N (N.lor (N_of_ascii c) 32).

Definition isHexLetter (c : ascii) : bool :=
  (97 <=? code (lower c)) && (code (lower c) <=? 102).

(** [commonPrefixLenIgnoreCase(s, prefix)], [prefix] in lower case. *)
Fixpoint commonPrefixLenIgnoreCase (s prefix : list ascii) : nat :=
  match s, prefix with
  | c :: s', p :: prefix' =>
      if Ascii.eqb (lowerByte c) p then S (commonPrefixLenIgnoreCase s' prefix') else O
  | _, _ => O
  end.

(** [special]: the value and the number of bytes read when [s] starts
    with an optionally signed infinity or with a NaN. *)
Definition special (s : list ascii) : option (float64 * nat) :=
  let inf (neg : bool) (nsign : nat) (r : list ascii) :=
    let n := commonPrefixLenIgnoreCase r (list_ascii_of_string "infinity") in
    let n := if (3 <? n)%nat && (n <? 8)%nat then 3%nat else n in
    if (n =? 3)%nat || (n =? 8)%nat
    then Some (S754_infinity neg, (nsign + n)%nat) else None in
  match s with
  | [] => None
  | c :: r =>
      if Ascii.eqb c "+" then inf false 1%nat r
      else if Ascii.eqb c "-" then inf true 1%nat r
      else if Ascii.eqb (lowerByte c) "i" then inf false 0%nat s
      else if Ascii.eqb (lowerByte c) "n" then
        if (commonPrefixLenIgnoreCase s (list_ascii_of_string "nan") =? 3)%nat
        then Some (S754_nan, 3%nat) else None
      else None
  end.

(** The state of the digit loop of [readFloat].  The mantissa is kept
    exactly, where Go keeps its first 19 (16) digits and a truncation
    flag and leaves the rest to its exact slow path. *)
Record digits_state := {
  mantissa : Z;
  nd : Z;
  dp : Z;
  sawdot : bool;
  sawdigits : bool;
  underscores : bool
}.

Fixpoint readDigits (hex : bool) (st : digits_state) (s : list ascii)
  : digits_state * list ascii :=
  match s with
  | [] => (st, [])
  | c :: r =>
      if Ascii.eqb c "_" then
        readDigits hex {| mantissa := mantissa st; nd := nd st; dp := dp st;
                          sawdot := sawdot st; sawdigits := sawdigits st;
                          underscores := true |} r
      else if Ascii.eqb c "." then
        if sawdot st then (st, s)
        else readDigits hex {| mantissa := mantissa st; nd := nd st; dp := nd st;
                               sawdot := true; sawdigits := sawdigits st;
                               underscores := underscores st |} r
      else if isDigit c then
        if Ascii.eqb c "0" && (nd st =? 0) then
          readDigits hex {| mantissa := mantissa st; nd := nd st; dp := dp st - 1;
                            sawdot := sawdot st; sawdigits := true;
                            underscores := underscores st |} r
        else
          readDigits hex {| mantissa := mantissa st * (if hex then 16 else 10)
                                        + (code c - 48);
                            nd := nd st + 1; dp := dp st;
                            sawdot := sawdot st; sawdigits := true;
                            underscores := underscores st |} r
      else if hex && isHexLetter c then
        readDigits hex {| mantissa := mantissa st * 16 + (code (lower c) - 97 + 10);
                          nd := nd st + 1; dp := dp st;
                          sawdot := sawdot st; sawdigits := true;
                          underscores := underscores st |} r
      else (st, s)
  end.

(** The digits of the exponent, with Go's cap on the accumulated value. *)
Fixpoint readExponent (e : Z) (us : bool) (s : list ascii) : Z * bool * list ascii :=
  match s with
  | c :: r =>
      if Ascii.eqb c "_" then readExponent e true r
      else if isDigit c then
        readExponent (if e <? 10000 then e * 10 + (code c - 48) else e) us r
      else (e, us, s)
  | [] => (e, us, [])
  end.

(** [underscoreOK]: underscores only between digits, or between a base
    prefix and a digit.  [saw] is the last kind of byte seen. *)
Inductive seen := seen_start | seen_digit | seen_underscore | seen_other.

Fixpoint underscoreLoop (hex : bool) (saw : seen) (s : list ascii) : bool :=
  match s with
  | [] => match saw with seen_underscore => false | _ => true end
  | c :: r =>
      if isDigit c || (hex && isHexLetter c) then underscoreLoop hex seen_digit r
      else if Ascii.eqb c "_" then
        match saw with
        | seen_digit => underscoreLoop hex seen_underscore r
        | _ => false
        end
      else
        match saw with
        | seen_underscore => false
        | _ => underscoreLoop hex seen_other r
        end
  end.

Definition underscoreOK (s : list ascii) : bool :=
  let s := match s with
           | c :: r => if Ascii.eqb c "-" || Ascii.eqb c "+" then r else s
           | [] => s
           end in
  match s with
  | z :: b :: r =>
      if Ascii.eqb z "0" &&
         (Ascii.eqb (lower b) "b" || Ascii.eqb (lower b) "o" || Ascii.eqb (lower b) "x")
      then underscoreLoop (Ascii.eqb (lower b) "x") seen_digit r
      else underscoreLoop false seen_start s
  | _ => underscoreLoop false seen_start s
  end.

(** What [readFloat] returns on success, when it has read all of [s]:
    sign, base, mantissa and exponent of the base (10, or 2 for hex). *)
Record number := { neg : bool; hex : bool; mant : Z; exp : Z; point : Z }.

(** The optional sign. *)
Definition readSign (s : list ascii) : bool * list ascii :=
  match s with
  | c :: r =>
      if Ascii.eqb c "+" then (false, r)
      else if Ascii.eqb c "-" then (true, r)
      else (false, s)
  | [] => (false, s)
  end.

(** The base prefix [0x], which needs a byte after it. *)
Definition readBase (s : list ascii) : bool * list ascii :=
  match s with
  | z :: x :: (_ :: _) as r =>
      if Ascii.eqb z "0" && Ascii.eqb (lower x) "x" then (true, r) else (false, s)
  | _ => (false, s)
  end.

(** The optional exponent, which moves the decimal point [dp]; a
    hexadecimal mantissa must have one.  [None] is a syntax error. *)
Definition readExponentPart (ishex : bool) (dp : Z) (us : bool) (s : list ascii)
  : option (Z * bool * list ascii) :=
  match s with
  | c :: r =>
      if Ascii.eqb (lower c) (if ishex then "p" else "e")%char then
        match r with
        | [] => None
        | c1 :: r1 =>
            let '(esign, s4) :=
              if Ascii.eqb c1 "+" then (1, r1)
              else if Ascii.eqb c1 "-" then (-1, r1)
              else (1, r) in
            match s4 with
            | d :: _ =>
                if isDigit d then
                  let '(e, us', s5) := readExponent 0 us s4 in
                  Some (dp + e * esign, us', s5)
                else None
            | [] => None
            end
        end
      else if ishex then None else Some (dp, us, s)
  | [] => if ishex then None else Some (dp, us, s)
  end.

Definition readFloat (s : list ascii) : option number :=
  match s with
  | [] => None
  | _ :: _ =>
      let '(sign, s1) := readSign s in
      let '(ishex, s2) := readBase s1 in
      let '(st, s3) :=
        readDigits ishex {| mantissa := 0; nd := 0; dp := 0; sawdot := false;
                            sawdigits := false; underscores := false |} s2 in
      if negb (sawdigits st) then None else
      let dp0 := if sawdot st then dp st else nd st in
      let dp1 := if ishex then dp0 * 4 else dp0 in
      let ndm := if ishex then nd st * 4 else nd st in
      match readExponentPart ishex dp1 (underscores st) s3 with
      | None => None
      | Some (dp2, us, rest) =>
          match rest with
          | _ :: _ => None
          | [] =>
              if us && negb (underscoreOK s) then None
              else Some {| neg := sign; hex := ishex; mant := mantissa st;
                           exp := if mantissa st =? 0 then 0 else dp2 - ndm;
                           point := dp2 |}
          end
      end
  end.

(** The float64 nearest to the number read, ties to even. *)
Definition toFloat (n : number) : float64 :=
  match mant n with
  | Z.pos m =>
      if hex n then binary_normalize F64.prec F64.emax (if neg n then Z.neg m else Z.pos m)
                      (exp n) false
      else if 310 <? point n then S754_infinity (neg n)
      else if point n <? -330 then S754_zero (neg n)
      else
        match exp n with
        | Z.neg k => F64.of_ratio (neg n) m (Pos.pow 10 k)
        | e => binary_normalize F64.prec F64.emax
                 ((if neg n then Z.neg m else Z.pos m) * 10 ^ e) 0 false
        end
  | _ => S754_zero (neg n)
  end.

(** [strconv.ParseFloat(s, 64)]: [None] when it returns an error (bad
    syntax, or a value out of range). *)
Definition ParseFloat (s : string) : option float64 :=
  let l := list_ascii_of_string s in
  match special l with
  | Some (v, n) => if (n =? length l)%nat then Some v else None
  | None =>
      match readFloat l with
      | None => None
      | Some n =>
          match toFloat n with
          | S754_infinity _ => None
          | v => Some v
          end
      end
  end.

(** The decimal digits of a natural number, most significant first. *)
Definition digitChar (d : Z) : ascii := ascii_of_N (Z.to_N (48 + d)).

Fixpoint digitsFuel (fuel : nat) (n : Z) (acc : string) : string :=
  match fuel with
  | O => acc
  | S f =>
      let acc' := String (digitChar (n mod 10)) acc in
      if n <? 10 then acc' else digitsFuel f (n / 10) acc'
  end.

Definition decimal (n : Z) : string := digitsFuel (S (Z.to_nat (Z.log2 n))) n "".

(** The integer nearest to [n / d] ([d > 0]), ties to even. *)
Definition roundHalfEven (n d : Z) : Z :=
  let q := n / d in
  let r := n mod d in
  match 2 * r ?= d with
  | Lt => q
  | Gt => q + 1
  | Eq => if Z.even q then q else q + 1
  end.

(** The thousandths of the magnitude of a finite float, rounded. *)
Definition thousandths (m : positive) (e : Z) : Z :=
  match e with
  | Z.neg k => roundHalfEven (1000 * Z.pos m) (Z.pos (Pos.pow 2 k))
  | _ => 1000 * Z.pos m * 2 ^ e
  end.

Definition fixed3 (neg : bool) (n : Z) : string :=
  (if neg then "-" else "") ++ decimal (n / 1000) ++ "." ++
  String (digitChar (n / 100 mod 10))
    (String (digitChar (n / 10 mod 10)) (String (digitChar (n mod 10)) "")).

(** [fmt.Sprintf("%.3f", x)]. *)
Definition FormatFixed3 (x : float64) : string :=
  match x with
  | S754_nan => "NaN"
  | S754_infinity false => "+Inf"
  | S754_infinity true => "-Inf"
  | S754_zero s => fixed3 s 0
  | S754_finite s m e => fixed3 s (thousandths m e)
  end.

End Strconv.

(** The library functions the program relies on, as an interface: the
    program below is written against it, and [go_std] instantiates it with
    the models above. *)
Class GoLib := {
  (** [strconv.ParseFloat(s, 64)]; [None] when [err != nil]. *)
  ParseFloat : string -> option float64;
  (** [fmt.Sprintf("%.3f", x)]. *)
  Sprintf3 : float64 -> string;
  (** [strings.ToLower]. *)
  ToLower : string -> string;
  (** [strings.EqualFold]. *)
  EqualFold : string -> string -> bool
}.

Definition go_std : GoLib :=
  {| ParseFloat := Strconv.ParseFloat;
     Sprintf3 := Strconv.FormatFixed3;
     ToLower := Strings.ToLower;
     EqualFold := Strings.EqualFold |}.

(* ===================================================================== *)
(** ** Data model (package models) *)
(* ===================================================================== *)

Module Serving.

(** All fields are strings, as the lookup service returns them. *)
Record t := mk {
  ServingID : string;
  ServingDescription : string;
  MeasurementDescription : string;
  MetricServingAmount : string;
  MetricServingUnit : string;
  NumberOfUnits : string;
  Calories : string;
  Protein : string;
  Carbohydrate : string;
  Fat : string;
  Sugar : string;
  Fiber : string;
  SaturatedFat : string;
  MonounsaturatedFat : string;
  PolyunsaturatedFat : string;
  Cholesterol : string;
  Sodium : string;
  Potassium : string;
  Calcium : string;
  Iron : string;
  VitaminA : string;
  VitaminB : string;
  VitaminC : string;
  VitaminD : string
}.

(** Field assignment, [s.F = v]. *)
Definition set_ServingID (v : string) (s : t) : t :=
  let '(mk _ a1 a2 a3 a4 a5 a6 a7 a8 a9 a10 a11 a12 a13 a14 a15 a16 a17 a18 a19 a20 a21 a22 a23) := s in
  mk v a1 a2 a3 a4 a5 a6 a7 a8 a9 a10 a11 a12 a13 a14 a15 a16 a17 a18 a19 a20 a21 a22 a23.
Definition set_ServingDescription (v : string) (s : t) : t :=
  let '(mk a0 _ a2 a3 a4 a5 a6 a7 a8 a9 a10 a11 a12 a13 a14 a15 a16 a17 a18 a19 a20 a21 a22 a23) := s in
  mk a0 v a2 a3 a4 a5 a6 a7 a8 a9 a10 a11 a12 a13 a14 a15 a16 a17 a18 a19 a20 a21 a22 a23.
Definition set_MeasurementDescription (v : string) (s : t) : t :=
  let '(mk a0 a1 _ a3 a4 a5 a6 a7 a8 a9 a10 a11 a12 a13 a14 a15 a16 a17 a18 a19 a20 a21 a22 a23) := s in
  mk a0 a1 v a3 a4 a5 a6 a7 a8 a9 a10 a11 a12 a13 a14 a15 a16 a17 a18 a19 a20 a21 a22 a23.
Definition set_MetricServingAmount (v : string) (s : t) : t :=
  let '(mk a0 a1 a2 _ a4 a5 a6 a7 a8 a9 a10 a11 a12 a13 a14 a15 a16 a17 a18 a19 a20 a21 a22 a23) := s in
  mk a0 a1 a2 v a4 a5 a6 a7 a8 a9 a10 a11 a12 a13 a14 a15 a16 a17 a18 a19 a20 a21 a22 a23.
Definition set_MetricServingUnit (v : string) (s : t) : t :=
  let '(mk a0 a1 a2 a3 _ a5 a6 a7 a8 a9 a10 a11 a12 a13 a14 a15 a16 a17 a18 a19 a20 a21 a22 a23) := s in
  mk a0 a1 a2 a3 v a5 a6 a7 a8 a9 a10 a11 a12 a13 a14 a15 a16 a17 a18 a19 a20 a21 a22 a23.
Definition set_NumberOfUnits (v : string) (s : t) : t :=
  let '(mk a0 a1 a2 a3 a4 _ a6 a7 a8 a9 a10 a11 a12 a13 a14 a15 a16 a17 a18 a19 a20 a21 a22 a23) := s in
  mk a0 a1 a2 a3 a4 v a6 a7 a8 a9 a10 a11 a12 a13 a14 a15 a16 a17 a18 a19 a20 a21 a22 a23.
Definition set_Calories (v : string) (s : t) : t :=
  let '(mk a0 a1 a2 a3 a4 a5 _ a7 a8 a9 a10 a11 a12 a13 a14 a15 a16 a17 a18 a19 a20 a21 a22 a23) := s in
  mk a0 a1 a2 a3 a4 a5 v a7 a8 a9 a10 a11 a12 a13 a14 a15 a16 a17 a18 a19 a20 a21 a22 a23.
Definition set_Protein (v : string) (s : t) : t :=
  let '(mk a0 a1 a2 a3 a4 a5 a6 _ a8 a9 a10 a11 a12 a13 a14 a15 a16 a17 a18 a19 a20 a21 a22 a23) := s in
  mk a0 a1 a2 a3 a4 a5 a6 v a8 a9 a10 a11 a12 a13 a14 a15 a16 a17 a18 a19 a20 a21 a22 a23.
Definition set_Carbohydrate (v : string) (s : t) : t :=
  let '(mk a0 a1 a2 a3 a4 a5 a6 a7 _ a9 a10 a11 a12 a13 a14 a15 a16 a17 a18 a19 a20 a21 a22 a23) := s in
  mk a0 a1 a2 a3 a4 a5 a6 a7 v a9 a10 a11 a12 a13 a14 a15 a16 a17 a18 a19 a20 a21 a22 a23.
Definition set_Fat (v : string) (s : t) : t :=
  let '(mk a0 a1 a2 a3 a4 a5 a6 a7 a8 _ a10 a11 a12 a13 a14 a15 a16 a17 a18 a19 a20 a21 a22 a23) := s in
  mk a0 a1 a2 a3 a4 a5 a6 a7 a8 v a10 a11 a12 a13 a14 a15 a16 a17 a18 a19 a20 a21 a22 a23.
Definition set_Sugar (v : string) (s : t) : t :=
  let '(mk a0 a1 a2 a3 a4 a5 a6 a7 a8 a9 _ a11 a12 a13 a14 a15 a16 a17 a18 a19 a20 a21 a22 a23) := s in
  mk a0 a1 a2 a3 a4 a5 a6 a7 a8 a9 v a11 a12 a13 a14 a15 a16 a17 a18 a19 a20 a21 a22 a23.
Definition set_Fiber (v : string) (s : t) : t :=
  let '(mk a0 a1 a2 a3 a4 a5 a6 a7 a8 a9 a10 _ a12 a13 a14 a15 a16 a17 a18 a19 a20 a21 a22 a23) := s in
  mk a0 a1 a2 a3 a4 a5 a6 a7 a8 a9 a10 v a12 a13 a14 a15 a16 a17 a18 a19 a20 a21 a22 a23.
Definition set_SaturatedFat (v : string) (s : t) : t :=
  let '(mk a0 a1 a2 a3 a4 a5 a6 a7 a8 a9 a10 a11 _ a13 a14 a15 a16 a17 a18 a19 a20 a21 a22 a23) := s in
  mk a0 a1 a2 a3 a4 a5 a6 a7 a8 a9 a10 a11 v a13 a14 a15 a16 a17 a18 a19 a20 a21 a22 a23.
Definition set_MonounsaturatedFat (v : string) (s : t) : t :=
  let '(mk a0 a1 a2 a3 a4 a5 a6 a7 a8 a9 a10 a11 a12 _ a14 a15 a16 a17 a18 a19 a20 a21 a22 a23) := s in
  mk a0 a1 a2 a3 a4 a5 a6 a7 a8 a9 a10 a11 a12 v a14 a15 a16 a17 a18 a19 a20 a21 a22 a23.
Definition set_PolyunsaturatedFat (v : string) (s : t) : t :=
  let '(mk a0 a1 a2 a3 a4 a5 a6 a7 a8 a9 a10 a11 a12 a13 _ a15 a16 a17 a18 a19 a20 a21 a22 a23) := s in
  mk a0 a1 a2 a3 a4 a5 a6 a7 a8 a9 a10 a11 a12 a13 v a15 a16 a17 a18 a19 a20 a21 a22 a23.
Definition set_Cholesterol (v : string) (s : t) : t :=
  let '(mk a0 a1 a2 a3 a4 a5 a6 a7 a8 a9 a10 a11 a12 a13 a14 _ a16 a17 a18 a19 a20 a21 a22 a23) := s in
  mk a0 a1 a2 a3 a4 a5 a6 a7 a8 a9 a10 a11 a12 a13 a14 v a16 a17 a18 a19 a20 a21 a22 a23.
Definition set_Sodium (v : string) (s : t) : t :=
  let '(mk a0 a1 a2 a3 a4 a5 a6 a7 a8 a9 a10 a11 a12 a13 a14 a15 _ a17 a18 a19 a20 a21 a22 a23) := s in
  mk a0 a1 a2 a3 a4 a5 a6 a7 a8 a9 a10 a11 a12 a13 a14 a15 v a17 a18 a19 a20 a21 a22 a23.
Definition set_Potassium (v : string) (s : t) : t :=
  let '(mk a0 a1 a2 a3 a4 a5 a6 a7 a8 a9 a10 a11 a12 a13 a14 a15 a16 _ a18 a19 a20 a21 a22 a23) := s in
  mk a0 a1 a2 a3 a4 a5 a6 a7 a8 a9 a10 a11 a12 a13 a14 a15 a16 v a18 a19 a20 a21 a22 a23.
Definition set_Calcium (v : string) (s : t) : t :=
  let '(mk a0 a1 a2 a3 a4 a5 a6 a7 a8 a9 a10 a11 a12 a13 a14 a15 a16 a17 _ a19 a20 a21 a22 a23) := s in
  mk a0 a1 a2 a3 a4 a5 a6 a7 a8 a9 a10 a11 a12 a13 a14 a15 a16 a17 v a19 a20 a21 a22 a23.
Definition set_Iron (v : string) (s : t) : t :=
  let '(mk a0 a1 a2 a3 a4 a5 a6 a7 a8 a9 a10 a11 a12 a13 a14 a15 a16 a17 a18 _ a20 a21 a22 a23) := s in
  mk a0 a1 a2 a3 a4 a5 a6 a7 a8 a9 a10 a11 a12 a13 a14 a15 a16 a17 a18 v a20 a21 a22 a23.
Definition set_VitaminA (v : string) (s : t) : t :=
  let '(mk a0 a1 a2 a3 a4 a5 a6 a7 a8 a9 a10 a11 a12 a13 a14 a15 a16 a17 a18 a19 _ a21 a22 a23) := s in
  mk a0 a1 a2 a3 a4 a5 a6 a7 a8 a9 a10 a11 a12 a13 a14 a15 a16 a17 a18 a19 v a21 a22 a23.
Definition set_VitaminB (v : string) (s : t) : t :=
  let '(mk a0 a1 a2 a3 a4 a5 a6 a7 a8 a9 a10 a11 a12 a13 a14 a15 a16 a17 a18 a19 a20 _ a22 a23) := s in
  mk a0 a1 a2 a3 a4 a5 a6 a7 a8 a9 a10 a11 a12 a13 a14 a15 a16 a17 a18 a19 a20 v a22 a23.
Definition set_VitaminC (v : string) (s : t) : t :=
  let '(mk a0 a1 a2 a3 a4 a5 a6 a7 a8 a9 a10 a11 a12 a13 a14 a15 a16 a17 a18 a19 a20 a21 _ a23) := s in
  mk a0 a1 a2 a3 a4 a5 a6 a7 a8 a9 a10 a11 a12 a13 a14 a15 a16 a17 a18 a19 a20 a21 v a23.
Definition set_VitaminD (v : string) (s : t) : t :=
  let '(mk a0 a1 a2 a3 a4 a5 a6 a7 a8 a9 a10 a11 a12 a13 a14 a15 a16 a17 a18 a19 a20 a21 a22 _) := s in
  mk a0 a1 a2 a3 a4 a5 a6 a7 a8 a9 a10 a11 a12 a13 a14 a15 a16 a17 a18 a19 a20 a21 a22 v.

(** The zero value [Serving{}]. *)
Definition empty : t :=
  mk "" "" "" "" "" "" "" "" "" "" "" "" "" "" "" "" "" "" "" "" "" "" "" "".

(** The six descriptive fields and the eighteen nutrient fields. *)
Definition descriptive (s : t) : list string :=
  [ServingID s; ServingDescription s; MeasurementDescription s;
   MetricServingAmount s; MetricServingUnit s; NumberOfUnits s].

Definition nutrients (s : t) : list string :=
  [Calories s; Protein s; Carbohydrate s; Fat s; Sugar s; Fiber s;
   SaturatedFat s; MonounsaturatedFat s; PolyunsaturatedFat s; Cholesterol s;
   Sodium s; Potassium s; Calcium s; Iron s;
   VitaminA s; VitaminB s; VitaminC s; VitaminD s].

End Serving.

Module Food.
Record t := mk {
  FoodID : string;
  FoodName : string;
  FoodType : string;
  BrandName : string;
  Servings : list Serving.t
}.

Definition set_Servings (v : list Serving.t) (f : t) : t :=
  mk (FoodID f) (FoodName f) (FoodType f) (BrandName f) v.
End Food.

Module FoodWithPortion.
Record t := mk {
  Name : string;
  PortionRatio : Z
}.
End FoodWithPortion.

Module MacroTarget.
Record t := mk {
  Calories : float64;
  Carbs : float64;
  Fats : float64;
  Proteins : float64
}.
End MacroTarget.

(* ===================================================================== *)
(** ** The program (package main) *)
(* ===================================================================== *)

Section Program.
Context `{GoLib}.

Import Serving.

(** [s == ""]. *)
Definition isEmpty (s : string) : bool := String.eqb s "".

(** One statement [if s.F == "" { s.F = d }]. *)
Definition defaultIfEmpty (get : Serving.t -> string)
    (set : string -> Serving.t -> Serving.t) (d : string) (s : Serving.t) : Serving.t :=
  if isEmpty (get s) then set d s else s.

(** [ensureServingFields]: the selected serving, replaced by the first
    available one when its id or calories are missing, then every empty
    field set to its default, in the order of the source. *)
Definition ensureServingFields (selectedServing : Serving.t)
    (availableServings : list Serving.t) : Serving.t :=
  let s0 :=
    if isEmpty (ServingID selectedServing) || isEmpty (Calories selectedServing) then
      match availableServings with
      | first :: _ => first
      | [] => selectedServing
      end
    else selectedServing in
  let s1 := defaultIfEmpty ServingID set_ServingID "default" s0 in
  let s2 := defaultIfEmpty ServingDescription set_ServingDescription "1 serving" s1 in
  let s3 := defaultIfEmpty MeasurementDescription set_MeasurementDescription "g" s2 in
  let s4 := defaultIfEmpty MetricServingAmount set_MetricServingAmount "1" s3 in
  let s5 := defaultIfEmpty MetricServingUnit set_MetricServingUnit "g" s4 in
  let s6 := defaultIfEmpty NumberOfUnits set_NumberOfUnits "1" s5 in
  let s7 := defaultIfEmpty Calories set_Calories "0" s6 in
  let s8 := defaultIfEmpty Protein set_Protein "0" s7 in
  let s9 := defaultIfEmpty Carbohydrate set_Carbohydrate "0" s8 in
  let s10 := defaultIfEmpty Fat set_Fat "0" s9 in
  let s11 := defaultIfEmpty Sugar set_Sugar "0" s10 in
  let s12 := defaultIfEmpty Fiber set_Fiber "0" s11 in
  let s13 := defaultIfEmpty SaturatedFat set_SaturatedFat "0" s12 in
  let s14 := defaultIfEmpty MonounsaturatedFat set_MonounsaturatedFat "0" s13 in
  let s15 := defaultIfEmpty PolyunsaturatedFat set_PolyunsaturatedFat "0" s14 in
  let s16 := defaultIfEmpty Cholesterol set_Cholesterol "0" s15 in
  let s17 := defaultIfEmpty Sodium set_Sodium "0" s16 in
  let s18 := defaultIfEmpty Potassium set_Potassium "0" s17 in
  let s19 := defaultIfEmpty Calcium set_Calcium "0" s18 in
  let s20 := defaultIfEmpty Iron set_Iron "0" s19 in
  let s21 := defaultIfEmpty VitaminA set_VitaminA "0" s20 in
  let s22 := defaultIfEmpty VitaminB set_VitaminB "0" s21 in
  let s23 := defaultIfEmpty VitaminC set_VitaminC "0" s22 in
  let s24 := defaultIfEmpty VitaminD set_VitaminD "0" s23 in
  s24.

(** [total += v] when the field parses, nothing otherwise. *)
Definition addParsed (total : float64) (field : string) : float64 :=
  match ParseFloat field with
  | Some v => F64.add total v
  | None => total
  end.

(** [calculateMealMacros]: the sums of the first servings' calories,
    carbohydrate, protein and fat. *)
Definition calculateMealMacros (foods : list Food.t) : MacroTarget.t :=
  fold_left
    (fun (totals : MacroTarget.t) (food : Food.t) =>
       match Food.Servings food with
       | serving :: _ =>
           MacroTarget.mk
             (addParsed (MacroTarget.Calories totals) (Calories serving))
             (addParsed (MacroTarget.Carbs totals) (Carbohydrate serving))
             (addParsed (MacroTarget.Fats totals) (Fat serving))
             (addParsed (MacroTarget.Proteins totals) (Protein serving))
       | [] => totals
       end)
    foods (MacroTarget.mk F64.zero F64.zero F64.zero F64.zero).

(** [findPortionRatio]: the ratio of the first request whose name folds
    to [foodName]; otherwise [100 / len(foodWithPortions)], an integer
    division that panics on an empty list ([None]). *)
Fixpoint matchPortionRatio (foodName : string)
    (foodWithPortions : list FoodWithPortion.t) : option Z :=
  match foodWithPortions with
  | [] => None
  | foodWithPortion :: rest =>
      if EqualFold foodName (FoodWithPortion.Name foodWithPortion)
      then Some (FoodWithPortion.PortionRatio foodWithPortion)
      else matchPortionRatio foodName rest
  end.

Definition findPortionRatio (foodName : string)
    (foodWithPortions : list FoodWithPortion.t) : option Z :=
  match matchPortionRatio foodName foodWithPortions with
  | Some ratio => Some ratio
  | None =>
      let n := Z.of_nat (length foodWithPortions) in
      if n =? 0 then None else Some (Z.quot 100 n)
  end.

(** [parseAndMultiply]. *)
Definition parseAndMultiply (value : string) (multiplier : float64) : float64 :=
  match ParseFloat value with
  | Some parsed => F64.mul parsed multiplier
  | None => F64.zero
  end.

(** [adjustNutritionalValue]: the switch on the field name. *)
Definition adjustNutritionalValue (serving : Serving.t) (field : string)
    (newValue : float64) : Serving.t :=
  let valueStr := Sprintf3 newValue in
  if String.eqb field "calories" then set_Calories valueStr serving
  else if String.eqb field "protein" then set_Protein valueStr serving
  else if String.eqb field "carbohydrate" then set_Carbohydrate valueStr serving
  else if String.eqb field "fat" then set_Fat valueStr serving
  else if String.eqb field "sugar" then set_Sugar valueStr serving
  else if String.eqb field "fiber" then set_Fiber valueStr serving
  else if String.eqb field "saturated_fat" then set_SaturatedFat valueStr serving
  else if String.eqb field "monounsaturated_fat" then set_MonounsaturatedFat valueStr serving
  else if String.eqb field "polyunsaturated_fat" then set_PolyunsaturatedFat valueStr serving
  else if String.eqb field "cholesterol" then set_Cholesterol valueStr serving
  else if String.eqb field "sodium" then set_Sodium valueStr serving
  else if String.eqb field "potassium" then set_Potassium valueStr serving
  else if String.eqb field "calcium" then set_Calcium valueStr serving
  else if String.eqb field "iron" then set_Iron valueStr serving
  else if String.eqb field "vitamin_a" then set_VitaminA valueStr serving
  else if String.eqb field "vitamin_b" then set_VitaminB valueStr serving
  else if String.eqb field "vitamin_c" then set_VitaminC valueStr serving
  else if String.eqb field "vitamin_d" then set_VitaminD valueStr serving
  else serving.

(** [adjustServingForTargetCalories]. *)
Definition adjustServingForTargetCalories (serving : Serving.t)
    (targetCalories : float64) : Serving.t :=
  match ParseFloat (Calories serving) with
  | None => serving
  | Some currentCalories =>
      if F64.eqb currentCalories F64.zero then serving else
      match ParseFloat (MetricServingAmount serving) with
      | None => serving
      | Some currentAmount =>
          if F64.eqb currentAmount F64.zero then serving else
          let multiplier := F64.div targetCalories currentCalories in
          let adjustedServing :=
            set_MetricServingAmount (Sprintf3 (F64.mul currentAmount multiplier)) serving in
          let adjustedServing :=
            adjustNutritionalValue adjustedServing "calories"
              (F64.mul currentCalories multiplier) in
          let adjustedServing :=
            adjustNutritionalValue adjustedServing "protein"
              (parseAndMultiply (Protein serving) multiplier) in
          let adjustedServing :=
            adjustNutritionalValue adjustedServing "carbohydrate"
              (parseAndMultiply (Carbohydrate serving) multiplier) in
          let adjustedServing :=
            adjustNutritionalValue adjustedServing "fat"
              (parseAndMultiply (Fat serving) multiplier) in
          let adjustedServing :=
            adjustNutritionalValue adjustedServing "sugar"
              (parseAndMultiply (Sugar serving) multiplier) in
          let adjustedServing :=
            adjustNutritionalValue adjustedServing "fiber"
              (parseAndMultiply (Fiber serving) multiplier) in
          let adjustedServing :=
            adjustNutritionalValue adjustedServing "saturated_fat"
              (parseAndMultiply (SaturatedFat serving) multiplier) in
          let adjustedServing :=
            adjustNutritionalValue adjustedServing "monounsaturated_fat"
              (parseAndMultiply (MonounsaturatedFat serving) multiplier) in
          let adjustedServing :=
            adjustNutritionalValue adjustedServing "polyunsaturated_fat"
              (parseAndMultiply (PolyunsaturatedFat serving) multiplier) in
          let adjustedServing :=
            adjustNutritionalValue adjustedServing "cholesterol"
              (parseAndMultiply (Cholesterol serving) multiplier) in
          let adjustedServing :=
            adjustNutritionalValue adjustedServing "sodium"
              (parseAndMultiply (Sodium serving) multiplier) in
          let adjustedServing :=
            adjustNutritionalValue adjustedServing "potassium"
              (parseAndMultiply (Potassium serving) multiplier) in
          let adjustedServing :=
            adjustNutritionalValue adjustedServing "calcium"
              (parseAndMultiply (Calcium serving) multiplier) in
          let adjustedServing :=
            adjustNutritionalValue adjustedServing "iron"
              (parseAndMultiply (Iron serving) multiplier) in
          let adjustedServing :=
            adjustNutritionalValue adjustedServing "vitamin_a"
              (parseAndMultiply (VitaminA serving) multiplier) in
          let adjustedServing :=
            adjustNutritionalValue adjustedServing "vitamin_b"
              (parseAndMultiply (VitaminB serving) multiplier) in
          let adjustedServing :=
            adjustNutritionalValue adjustedServing "vitamin_c"
              (parseAndMultiply (VitaminC serving) multiplier) in
          let adjustedServing :=
            adjustNutritionalValue adjustedServing "vitamin_d"
              (parseAndMultiply (VitaminD serving) multiplier) in
          adjustedServing
      end
  end.

(** [foods[i].Servings[0] = serving], for [i] in range and a food that
    has a first serving. *)
Definition setFirstServing (i : nat) (serving : Serving.t)
    (foods : list Food.t) : list Food.t :=
  match foods !! i with
  | Some food =>
      <[i := Food.set_Servings (<[0%nat := serving]> (Food.Servings food)) food]> foods
  | None => foods
  end.

(** The body of the loop of [adjustServingsByPortionRatio], for one food;
    [None] when [findPortionRatio] panics. *)
Definition adjustFood (foodWithPortions : list FoodWithPortion.t)
    (targetCalories : float64) (food : Food.t) : option Food.t :=
  match Food.Servings food with
  | first :: _ =>
      portionRatio ← findPortionRatio (Food.FoodName food) foodWithPortions;
      let targetCaloriesForFood :=
        F64.div (F64.mul targetCalories (F64.of_Z portionRatio)) F64.hundred in
      let adjustedServing := adjustServingForTargetCalories first targetCaloriesForFood in
      Some (Food.set_Servings (<[0%nat := adjustedServing]> (Food.Servings food)) food)
  | [] => Some food
  end.

(** [adjustServingsByPortionRatio]. *)
Definition adjustServingsByPortionRatio (foods : list Food.t)
    (foodWithPortions : list FoodWithPortion.t) (targetCalories : float64)
    : option (list Food.t) :=
  mapM (adjustFood foodWithPortions targetCalories) foods.

(** [filterGramServings]: the servings measured in grams, or the first
    serving alone when there is none. *)
Definition isGramServing (serving : Serving.t) : bool :=
  let descriptionLower := ToLower (MeasurementDescription serving) in
  String.eqb descriptionLower "g" || String.eqb descriptionLower "gram"
  || String.eqb descriptionLower "grams".

Definition filterGramServings (servings : list Serving.t) : list Serving.t :=
  let gramServings := List.filter isGramServing servings in
  match gramServings, servings with
  | [], first :: _ => [first]
  | _, _ => gramServings
  end.

(** The serving selection of [swapFoodItems] and
    [processRegenerationResponse] for one food found by the lookup:
    [food.Servings = filterGramServings(food.Servings)] and then, when a
    serving is left, [food.Servings[0] = ensureServingFields(food.Servings[0],
    food.Servings)]. *)
Definition selectServings (food : Food.t) : Food.t :=
  let servings := filterGramServings (Food.Servings food) in
  match servings with
  | first :: _ =>
      Food.set_Servings (<[0%nat := ensureServingFields first servings]> servings) food
  | [] => Food.set_Servings servings food
  end.

(** [parseFloatDefault]. *)
Definition parseFloatDefault (s : string) : float64 :=
  match ParseFloat s with
  | Some v => v
  | None => F64.zero
  end.

(** [minFloat]. *)
Definition minFloat (a b : float64) : float64 := if F64.ltb a b then a else b.

(** One assignment [serving.F = fmt.Sprintf("%.3f", parseFloatDefault(serving.F)*factor)]. *)
Definition scaleField (get : Serving.t -> string)
    (set : string -> Serving.t -> Serving.t) (factor : float64) (s : Serving.t) : Serving.t :=
  set (Sprintf3 (F64.mul (parseFloatDefault (get s)) factor)) s.

(** [scaleServing]. *)
Definition scaleServing (serving : Serving.t) (factor : float64) : Serving.t :=
  if F64.leb factor F64.zero then serving else
  let s0 := scaleField MetricServingAmount set_MetricServingAmount factor serving in
  let s1 := scaleField Calories set_Calories factor s0 in
  let s2 := scaleField Protein set_Protein factor s1 in
  let s3 := scaleField Carbohydrate set_Carbohydrate factor s2 in
  let s4 := scaleField Fat set_Fat factor s3 in
  let s5 := scaleField Sugar set_Sugar factor s4 in
  let s6 := scaleField Fiber set_Fiber factor s5 in
  let s7 := scaleField SaturatedFat set_SaturatedFat factor s6 in
  let s8 := scaleField MonounsaturatedFat set_MonounsaturatedFat factor s7 in
  let s9 := scaleField PolyunsaturatedFat set_PolyunsaturatedFat factor s8 in
  let s10 := scaleField Cholesterol set_Cholesterol factor s9 in
  let s11 := scaleField Sodium set_Sodium factor s10 in
  let s12 := scaleField Potassium set_Potassium factor s11 in
  let s13 := scaleField Calcium set_Calcium factor s12 in
  let s14 := scaleField Iron set_Iron factor s13 in
  let s15 := scaleField VitaminA set_VitaminA factor s14 in
  let s16 := scaleField VitaminB set_VitaminB factor s15 in
  let s17 := scaleField VitaminC set_VitaminC factor s16 in
  let s18 := scaleField VitaminD set_VitaminD factor s17 in
  s18.

(** [strings.Contains(n, k)] for some keyword [k] of the list. *)
Definition containsAny (n : string) (keywords : list string) : bool :=
  existsb (Strings.Contains n) keywords.

Definition fatKeywords : list string :=
  ["avocado"; "almond"; "walnut"; "pecan"; "cashew"; "pistachio"; "hazelnut";
   "macadamia"; "peanut"; "nut butter"; "peanut butter"; "almond butter";
   "tahini"; "sesame"; "sunflower seed"; "pumpkin seed"; "chia"; "flax"; "hemp";
   "olive oil"; "olives"; "cheese"].

(** [isWholeFoodFat]. *)
Definition isWholeFoodFat (name : string) : bool :=
  containsAny (ToLower name) fatKeywords.

(** The test of the second loop of [findBestFatFoodIndex]. *)
Definition isHighFatProtein (foodName : string) : bool :=
  let name := ToLower foodName in
  Strings.Contains name "salmon" || Strings.Contains name "beef"
  || Strings.Contains name "egg" || Strings.Contains name "whole milk"
  || Strings.Contains name "cheese".

(** [for i, f := range foods { if p(f.FoodName) { return i } }; return -1],
    counting from [i]. *)
Fixpoint firstIndexFrom (p : string -> bool) (i : Z) (foods : list Food.t) : Z :=
  match foods with
  | [] => -1
  | f :: rest => if p (Food.FoodName f) then i else firstIndexFrom p (i + 1) rest
  end.

(** [findBestFatFoodIndex]. *)
Definition findBestFatFoodIndex (foods : list Food.t) : Z :=
  let bestIdx := firstIndexFrom isWholeFoodFat 0 foods in
  if negb (bestIdx =? -1) then bestIdx
  else firstIndexFrom isHighFatProtein 0 foods.

Definition starch : list string :=
  ["rice"; "oat"; "oatmeal"; "potato"; "sweet potato"; "pasta"; "quinoa"; "bread";
   "tortilla"; "corn"; "couscous"; "barley"].

(** [isStarchyCarb]. *)
Definition isStarchyCarb (name : string) : bool :=
  containsAny (ToLower name) starch.

(** [findStarchyCarbIndexes]. *)
Fixpoint starchyIndexesFrom (i : nat) (foods : list Food.t) : list nat :=
  match foods with
  | [] => []
  | f :: rest =>
      if isStarchyCarb (Food.FoodName f) then i :: starchyIndexesFrom (S i) rest
      else starchyIndexesFrom (S i) rest
  end.

Definition findStarchyCarbIndexes (foods : list Food.t) : list nat :=
  starchyIndexesFrom 0 foods.

(** [const tolerance = 0.05]: an untyped constant. *)
Definition tolerance : Q := 5 # 100.

(** The fat branch of one pass of [rebalanceMealFoods]. *)
Definition fatCorrection (totals target : MacroTarget.t) (foods : list Food.t)
    : list Food.t :=
  let fatLowerBound := F64.mul (MacroTarget.Fats target) (F64.of_Q (1 - tolerance)) in
  if F64.ltb (MacroTarget.Fats totals) fatLowerBound then
    let neededFat := F64.sub fatLowerBound (MacroTarget.Fats totals) in
    let idx := findBestFatFoodIndex foods in
    if 0 <=? idx then
      match foods !! Z.to_nat idx with
      | Some food =>
          match Food.Servings food with
          | serving :: _ =>
              let fatPerUnit := parseFloatDefault (Fat serving) in
              if F64.gtb fatPerUnit F64.zero then
                let factor :=
                  F64.add F64.one
                    (minFloat (F64.of_Q (6 # 10))
                       (F64.mul (F64.div neededFat fatPerUnit) (F64.of_Q (8 # 10)))) in
                setFirstServing (Z.to_nat idx) (scaleServing serving factor) foods
              else foods
          | [] => foods
          end
      | None => foods
      end
    else foods
  else foods.

(** [starchCarbs += parseFloatDefault(foods[i].Servings[0].Carbohydrate)]
    over the starchy indexes. *)
Definition starchCarbsOf (foods : list Food.t) (starchyIndexes : list nat) : float64 :=
  fold_left
    (fun (starchCarbs : float64) (i : nat) =>
       match foods !! i with
       | Some food =>
           match Food.Servings food with
           | serving :: _ => F64.add starchCarbs (parseFloatDefault (Carbohydrate serving))
           | [] => starchCarbs
           end
       | None => starchCarbs
       end)
    starchyIndexes F64.zero.

(** [foods[i].Servings[0] = scaleServing(foods[i].Servings[0], factor)]
    over the starchy indexes. *)
Definition scaleAt (factor : float64) (foods : list Food.t) (i : nat) : list Food.t :=
  match foods !! i with
  | Some food =>
      match Food.Servings food with
      | serving :: _ => setFirstServing i (scaleServing serving factor) foods
      | [] => foods
      end
  | None => foods
  end.

(** The carbohydrate branch of one pass. *)
Definition carbCorrection (totals target : MacroTarget.t) (foods : list Food.t)
    : list Food.t :=
  let carbUpperBound := F64.mul (MacroTarget.Carbs target) (F64.of_Q (1 + tolerance)) in
  if F64.gtb (MacroTarget.Carbs totals) carbUpperBound then
    let excessCarb := F64.sub (MacroTarget.Carbs totals) carbUpperBound in
    let starchyIndexes := findStarchyCarbIndexes foods in
    match starchyIndexes with
    | _ :: _ =>
        let starchCarbs := starchCarbsOf foods starchyIndexes in
        if F64.gtb starchCarbs F64.zero then
          let reductionFrac := minFloat (F64.of_Q (35 # 100)) (F64.div excessCarb starchCarbs) in
          let factor := F64.sub F64.one reductionFrac in
          fold_left (scaleAt factor) starchyIndexes foods
        else foods
    | [] => foods
    end
  else foods.

(** The body of the loop of [rebalanceMealFoods]: the totals are taken
    once, before the two corrections. *)
Definition rebalancePass (target : MacroTarget.t) (foods : list Food.t) : list Food.t :=
  let totals := calculateMealMacros foods in
  carbCorrection totals target (fatCorrection totals target foods).

(** [for pass := 0; pass < 2; pass++ { ... }]. *)
Fixpoint rebalanceLoop (pass : nat) (target : MacroTarget.t) (foods : list Food.t)
    : list Food.t :=
  match pass with
  | O => foods
  | S remaining => rebalanceLoop remaining target (rebalancePass target foods)
  end.

(** [rebalanceMealFoods]. *)
Definition rebalanceMealFoods (foods : list Food.t) (target : MacroTarget.t)
    : list Food.t :=
  rebalanceLoop 2 target foods.

End Program.

(* ===================================================================== *)
(** ** The concurrent food resolver: [batchFetchFoods] *)
(* ===================================================================== *)

(** [batchFetchFoods] starts one goroutine per key of [uniqueFoods] and
    waits for all of them.  Its executions are the interleavings of the
    atomic actions of the main goroutine and of the workers; an execution
    is a schedule, a list of [event]s, run by [exec].  The buffered channel
    [semaphore] is its element count (capacity 10), the [sync.Mutex] is a
    flag, the [sync.WaitGroup] is its counter. *)

Module Resolver.

(** Where a worker [go func(name string) { ... }(foodName)] stands. *)
Inductive worker :=
| Spawned                         (* before [semaphore <- struct{}{}] *)
| Acquired                        (* before [foodService.SearchFood(name)] *)
| Searching                       (* inside the lookup *)
| Fetched (food : option Food.t)  (* [food] computed; before [mutex.Lock()] *)
| Locked (food : option Food.t)   (* before [foodResults[name] = food] *)
| Stored                          (* before [mutex.Unlock()] *)
| Unlocked                        (* before the deferred [<-semaphore] *)
| Released                        (* before the deferred [wg.Done()] *)
| Finished.

(** Where the calling goroutine stands. *)
Inductive caller :=
| Spawning (remaining : gset string)  (* in [for foodName := range uniqueFoods] *)
| Waiting                             (* at [wg.Wait()] *)
| Returned.                           (* [return foodResults] *)

Record state := mk {
  pc : caller;
  workers : gmap string worker;
  semaphore : nat;
  mutex : bool;
  wg : nat;
  foodResults : gmap string (option Food.t);
  apiCalls : nat;
  (** The calls of [SearchFood] made so far, the latest first. *)
  lookups : list string
}.

Definition semaphoreCapacity : nat := 10.

Definition init (uniqueFoods : gset string) : state :=
  mk (Spawning uniqueFoods) ∅ 0 false 0 ∅ 0 [].

(** [food = &searchResult.Foods[0]] when [err == nil] and there is a
    food, [nil] otherwise.  [None] is a lookup that returned an error. *)
Definition firstFood (searchResult : option (list Food.t)) : option Food.t :=
  match searchResult with
  | Some (food :: _) => Some food
  | _ => None
  end.

Inductive event :=
| Spawn (name : string)     (* [apiCalls++; wg.Add(1); go func(name)] *)
| EndLoop                   (* the range loop ends *)
| Return                    (* [wg.Wait()] returns, then the function *)
| Acquire (name : string)   (* [semaphore <- struct{}{}] *)
| Call (name : string)      (* [SearchFood(name)] is entered *)
| Reply (name : string) (searchResult : option (list Food.t))
| Lock (name : string)      (* [mutex.Lock()] *)
| Store (name : string)     (* [foodResults[name] = food] *)
| Unlock (name : string)    (* [mutex.Unlock()] *)
| Release (name : string)   (* [<-semaphore] *)
| Done (name : string).     (* [wg.Done()] *)

Definition set_worker (name : string) (w : worker) (σ : state) : state :=
  mk (pc σ) (<[name := w]> (workers σ)) (semaphore σ) (mutex σ) (wg σ)
     (foodResults σ) (apiCalls σ) (lookups σ).

(** One atomic action; [None] when the action is not enabled (the
    goroutine is elsewhere, or it is blocked). *)
Definition exec (e : event) (σ : state) : option state :=
  match e with
  | Spawn name =>
      match pc σ with
      | Spawning remaining =>
          if decide (name ∈ remaining) then
            Some (mk (Spawning (remaining ∖ {[name]})) (<[name := Spawned]> (workers σ))
                    (semaphore σ) (mutex σ) (S (wg σ)) (foodResults σ)
                    (S (apiCalls σ)) (lookups σ))
          else None
      | _ => None
      end
  | EndLoop =>
      match pc σ with
      | Spawning remaining =>
          if decide (remaining = ∅) then
            Some (mk Waiting (workers σ) (semaphore σ) (mutex σ) (wg σ)
                    (foodResults σ) (apiCalls σ) (lookups σ))
          else None
      | _ => None
      end
  | Return =>
      match pc σ, wg σ with
      | Waiting, O =>
          Some (mk Returned (workers σ) (semaphore σ) (mutex σ) (wg σ)
                  (foodResults σ) (apiCalls σ) (lookups σ))
      | _, _ => None
      end
  | Acquire name =>
      match workers σ !! name with
      | Some Spawned =>
          if decide (semaphore σ < semaphoreCapacity)%nat then
            Some (mk (pc σ) (<[name := Acquired]> (workers σ)) (S (semaphore σ))
                    (mutex σ) (wg σ) (foodResults σ) (apiCalls σ) (lookups σ))
          else None
      | _ => None
      end
  | Call name =>
      match workers σ !! name with
      | Some Acquired =>
          Some (mk (pc σ) (<[name := Searching]> (workers σ)) (semaphore σ)
                  (mutex σ) (wg σ) (foodResults σ) (apiCalls σ) (name :: lookups σ))
      | _ => None
      end
  | Reply name searchResult =>
      match workers σ !! name with
      | Some Searching => Some (set_worker name (Fetched (firstFood searchResult)) σ)
      | _ => None
      end
  | Lock name =>
      match workers σ !! name with
      | Some (Fetched food) =>
          if mutex σ then None
          else Some (mk (pc σ) (<[name := Locked food]> (workers σ)) (semaphore σ)
                       true (wg σ) (foodResults σ) (apiCalls σ) (lookups σ))
      | _ => None
      end
  | Store name =>
      match workers σ !! name with
      | Some (Locked food) =>
          Some (mk (pc σ) (<[name := Stored]> (workers σ)) (semaphore σ)
                  (mutex σ) (wg σ) (<[name := food]> (foodResults σ))
                  (apiCalls σ) (lookups σ))
      | _ => None
      end
  | Unlock name =>
      match workers σ !! name with
      | Some Stored =>
          Some (mk (pc σ) (<[name := Unlocked]> (workers σ)) (semaphore σ)
                  false (wg σ) (foodResults σ) (apiCalls σ) (lookups σ))
      | _ => None
      end
  | Release name =>
      match workers σ !! name, semaphore σ with
      | Some Unlocked, S n =>
          Some (mk (pc σ) (<[name := Released]> (workers σ)) n
                  (mutex σ) (wg σ) (foodResults σ) (apiCalls σ) (lookups σ))
      | _, _ => None
      end
  | Done name =>
      match workers σ !! name, wg σ with
      | Some Released, S n =>
          Some (mk (pc σ) (<[name := Finished]> (workers σ)) (semaphore σ)
                  (mutex σ) n (foodResults σ) (apiCalls σ) (lookups σ))
      | _, _ => None
      end
  end.

(** Running a schedule, first event first. *)
Fixpoint run (schedule : list event) (σ : state) : option state :=
  match schedule with
  | [] => Some σ
  | e :: rest =>
      match exec e σ with
      | Some σ' => run rest σ'
      | None => None
      end
  end.

(** The states some execution of [batchFetchFoods uniqueFoods] reaches. *)
Definition reachable (uniqueFoods : gset string) (σ : state) : Prop :=
  ∃ schedule, run schedule (init uniqueFoods) = Some σ.

(** The worker holds a slot of the semaphore. *)
Definition holdsSlot (w : worker) : bool :=
  match w with
  | Acquired | Searching | Fetched _ | Locked _ | Stored | Unlocked => true
  | _ => false
  end.

(** The worker is inside [SearchFood]. *)
Definition inLookup (w : worker) : bool :=
  match w with Searching => true | _ => false end.

(** The worker is between [mutex.Lock()] and [mutex.Unlock()]. *)
Definition holdsMutex (w : worker) : bool :=
  match w with Locked _ | Stored => true | _ => false end.

Definition hasCalled (w : worker) : bool :=
  match w with Spawned | Acquired => false | _ => true end.

Definition hasStored (w : worker) : bool :=
  match w with Stored | Unlocked | Released | Finished => true | _ => false end.

Definition isFinished (w : worker) : bool :=
  match w with Finished => true | _ => false end.

Definition b2n (b : bool) : nat := if b then 1%nat else 0%nat.

(** The worker has not yet called [wg.Done()]. *)
Definition unfinished (w : worker) : bool := negb (isFinished w).

(** The names of the workers that satisfy [p], and their number. *)
Definition names (p : worker → bool) (ws : gmap string worker) : gset string :=
  dom (filter (λ kw : string * worker, p kw.2 = true) ws).

Definition count (p : worker → bool) (ws : gmap string worker) : nat :=
  size (names p ws).

(** The atomic actions a worker, and the caller, still have to take. *)
Definition stepsLeft (w : worker) : nat :=
  match w with
  | Spawned => 8 | Acquired => 7 | Searching => 6 | Fetched _ => 5 | Locked _ => 4
  | Stored => 3 | Unlocked => 2 | Released => 1 | Finished => 0
  end.

Definition total (f : worker → nat) (ws : gmap string worker) : nat :=
  map_fold (λ (_ : string) (w : worker) (acc : nat), (f w + acc)%nat) 0%nat ws.

Definition remaining (c : caller) : gset string :=
  match c with
  | Spawning names => names
  | _ => ∅
  end.

Definition callerSteps (c : caller) : nat :=
  match c with
  | Spawning names => (9 * size names + 2)%nat
  | Waiting => 1
  | Returned => 0
  end.

Definition measure (σ : state) : nat :=
  (callerSteps (pc σ) + total stepsLeft (workers σ))%nat.

(** What holds in every reachable state. *)
Record invariant (uniqueFoods : gset string) (σ : state) : Prop := {
  inv_names : remaining (pc σ) ∪ dom (workers σ) = uniqueFoods;
  inv_fresh : remaining (pc σ) ## dom (workers σ);
  inv_semaphore : semaphore σ = count holdsSlot (workers σ);
  inv_capacity : (semaphore σ ≤ semaphoreCapacity)%nat;
  inv_mutex : (if mutex σ then 1 else 0)%nat = count holdsMutex (workers σ);
  inv_wg : wg σ = count unfinished (workers σ);
  inv_results : dom (foodResults σ) = names hasStored (workers σ);
  inv_lookups_nodup : NoDup (lookups σ);
  inv_lookups : list_to_set (lookups σ) = names hasCalled (workers σ);
  inv_apiCalls : apiCalls σ = size (dom (workers σ));
  inv_returned : pc σ = Returned → wg σ = 0%nat
}.

(** The names a plan mentions. *)
Definition mentioned (meals : list (list FoodWithPortion.t)) (name : string) : Prop :=
  ∃ foods foodWithPortion,
    foods ∈ meals ∧ foodWithPortion ∈ foods ∧ FoodWithPortion.Name foodWithPortion = name.

(** The data collection of [swapFoodItems]:
    [uniqueFoods[foodWithPortion.Name] = true] over all meals. *)
Definition collectUniqueFoods (meals : list (list FoodWithPortion.t)) : gset string :=
  fold_left
    (λ (uniqueFoods : gset string) (foods : list FoodWithPortion.t),
       fold_left
         (λ (uniqueFoods : gset string) (foodWithPortion : FoodWithPortion.t),
            {[FoodWithPortion.Name foodWithPortion]} ∪ uniqueFoods)
         foods uniqueFoods)
    meals ∅.

End Resolver.

(* ===================================================================== *)
(** ** Vocabulary of the properties *)
(* ===================================================================== *)

(** Every descriptive field and every nutrient field is non-empty. *)
Definition complete (s : Serving.t) : Prop :=
  Forall (λ field : string, field ≠ "") (Serving.descriptive s ++ Serving.nutrients s).

(** The serving the selection leaves first in a food's list, if any. *)
Definition selectedServing `{GoLib} (servings : list Serving.t) : option Serving.t :=
  Food.Servings (selectServings (Food.mk "" "" "" "" servings)) !! 0%nat.

(** A field that [strconv.ParseFloat] rejects, or that parses to zero. *)
Definition unparseableOrZero `{GoLib} (field : string) : Prop :=
  match ParseFloat field with
  | None => True
  | Some v => F64.eqb v F64.zero = true
  end.

(** The fields of a serving that no scaling writes. *)
Definition sameDescription (s s' : Serving.t) : Prop :=
  Serving.ServingID s' = Serving.ServingID s ∧
  Serving.ServingDescription s' = Serving.ServingDescription s ∧
  Serving.MeasurementDescription s' = Serving.MeasurementDescription s ∧
  Serving.MetricServingUnit s' = Serving.MetricServingUnit s ∧
  Serving.NumberOfUnits s' = Serving.NumberOfUnits s.

(** [food'] is [food] up to the amount and the nutrients of its first serving. *)
Definition sameFrame (food food' : Food.t) : Prop :=
  Food.FoodID food' = Food.FoodID food ∧
  Food.FoodName food' = Food.FoodName food ∧
  Food.FoodType food' = Food.FoodType food ∧
  Food.BrandName food' = Food.BrandName food ∧
  match Food.Servings food, Food.Servings food' with
  | [], [] => True
  | first :: rest, first' :: rest' => sameDescription first first' ∧ rest' = rest
  | _, _ => False
  end.

(** *** The fat-deficit correction, in the words of the specification *)

Definition wholeFoodFatKeywords : list string :=
  ["avocado"; "almond"; "walnut"; "pecan"; "cashew"; "pistachio"; "hazelnut";
   "macadamia"; "peanut"; "nut butter"; "peanut butter"; "almond butter"; "tahini";
   "sesame"; "sunflower seed"; "pumpkin seed"; "chia"; "flax"; "hemp"; "olive oil";
   "olives"; "cheese"].

Definition highFatProteinKeywords : list string :=
  ["salmon"; "beef"; "egg"; "whole milk"; "cheese"].

(** The name contains one of the keywords, letter case apart. *)
Definition nameHasKeyword `{GoLib} (keywords : list string) (name : string) : Prop :=
  ∃ k, k ∈ keywords ∧ Strings.Contains (ToLower name) k = true.

(** [i] is the position of the first food whose name satisfies [P]. *)
Definition firstFoodWhere (P : string → Prop) (foods : list Food.t) (i : nat) : Prop :=
  (∃ food, foods !! i = Some food ∧ P (Food.FoodName food)) ∧
  ∀ j food, (j < i)%nat → foods !! j = Some food → ¬ P (Food.FoodName food).

Definition noFoodWhere (P : string → Prop) (foods : list Food.t) : Prop :=
  ∀ j food, foods !! j = Some food → ¬ P (Food.FoodName food).

(** The correction target: the first whole-food fat, else the first
    high-fat protein. *)
Definition correctionTarget `{GoLib} (foods : list Food.t) (i : nat) : Prop :=
  firstFoodWhere (nameHasKeyword wholeFoodFatKeywords) foods i ∨
  (noFoodWhere (nameHasKeyword wholeFoodFatKeywords) foods ∧
   firstFoodWhere (nameHasKeyword highFatProteinKeywords) foods i).

(** [target_fat × 0.95]. *)
Definition fatFloor (target : MacroTarget.t) : float64 :=
  F64.mul (MacroTarget.Fats target) (F64.of_Q (95 # 100)).

(** *** Deviation from the target *)

(** The absolute deviation of an aggregated macro from its target. *)
Definition deviation (actual target : float64) : Q :=
  Qabs (F64.to_Q actual - F64.to_Q target).

(** One pass leaves neither the fat nor the carbohydrate deviation larger. *)
Definition passKeepsDeviations `{GoLib} (target : MacroTarget.t) (foods : list Food.t) : Prop :=
  let before := calculateMealMacros foods in
  let after := calculateMealMacros (rebalancePass target foods) in
  (deviation (MacroTarget.Fats after) (MacroTarget.Fats target)
     <= deviation (MacroTarget.Fats before) (MacroTarget.Fats target))%Q ∧
  (deviation (MacroTarget.Carbs after) (MacroTarget.Carbs target)
     <= deviation (MacroTarget.Carbs before) (MacroTarget.Carbs target))%Q.

(** *** Numbers of plain size *)

(** Zero, or a normal number that is not negative. *)
Definition nonnegative (x : float64) : Prop :=
  F64.is_zero x ∨ (F64.normal x ∧ F64.negative x = false).

(** Zero, or a normal number between [lo] and [hi]. *)
Definition within (lo hi : Q) (x : float64) : Prop :=
  F64.is_zero x ∨
  (F64.normal x ∧ F64.negative x = false ∧ (lo <= F64.magnitude x)%Q ∧ (F64.magnitude x <= hi)%Q).

(** A running sum of fields: [+0], or a normal number of at least
    [2^-31]. *)
Definition runningSum (sum : float64) : Prop :=
  sum = F64.zero ∨
  (F64.normal sum ∧ F64.negative sum = false ∧ (F64.pow2 (-31) <= F64.magnitude sum)%Q).

(** The fat and the carbohydrate the aggregator reads in a food, and the
    carbohydrate the starch sum reads in it. *)
Definition fatOf `{GoLib} (food : Food.t) : float64 :=
  match Food.Servings food with
  | serving :: _ => parseFloatDefault (Serving.Fat serving)
  | [] => F64.zero
  end.

Definition carbsOf `{GoLib} (food : Food.t) : float64 :=
  match Food.Servings food with
  | serving :: _ => parseFloatDefault (Serving.Carbohydrate serving)
  | [] => F64.zero
  end.

Definition starchOf `{GoLib} (food : Food.t) : float64 :=
  if isStarchyCarb (Food.FoodName food) then carbsOf food else F64.zero.

(** The exact sum of a field over the foods. *)
Definition fieldSum (value : Food.t → float64) (foods : list Food.t) : Q :=
  foldr (λ food sum, F64.to_Q (value food) + sum)%Q 0%Q foods.

(** A meal of at most a hundred foods whose fat and carbohydrate are of
    plain size, at most [bound], against a target of plain size. *)
Definition sizedMeal `{GoLib} (bound : Q) (target : MacroTarget.t) (foods : list Food.t)
    : Prop :=
  within (1 # 1000000000) 1000000 (MacroTarget.Fats target) ∧
  within (1 # 1000000000) 1000000 (MacroTarget.Carbs target) ∧
  (length foods ≤ 100)%nat ∧
  Forall (λ food, within (1 # 1000000000) bound (fatOf food) ∧
                  within (1 # 1000000000) bound (carbsOf food)) foods.

(** A meal of plain size: the fat and the carbohydrate of every food and
    of the target are unparseable, zero, or between 10^-9 and 10^6. *)
Definition plainMeal `{GoLib} (target : MacroTarget.t) (foods : list Food.t) : Prop :=
  sizedMeal 1000000 target foods.

(** Each correction of a pass keeps the deviation of its own macro: the
    fat correction that of the fat, within a thousandth, and the
    carbohydrate correction, from the foods the fat correction left, that
    of the carbohydrate, within a thousandth for each food and one more. *)
Definition correctionsKeepOwnDeviation `{GoLib} (target : MacroTarget.t)
    (foods : list Food.t) : Prop :=
  let totals := calculateMealMacros foods in
  let afterFat := fatCorrection totals target foods in
  let afterCarb := carbCorrection totals target afterFat in
  (deviation (MacroTarget.Fats (calculateMealMacros afterFat)) (MacroTarget.Fats target)
     <= deviation (MacroTarget.Fats totals) (MacroTarget.Fats target) + (1 # 1000))%Q ∧
  (deviation (MacroTarget.Carbs (calculateMealMacros afterCarb)) (MacroTarget.Carbs target)
     <= deviation (MacroTarget.Carbs (calculateMealMacros afterFat))
          (MacroTarget.Carbs target)
        + (1 # 1000) * inject_Z (Z.of_nat (length foods + 1)))%Q.

(** Example data. *)
Definition gramServing (id amount calories protein carbohydrate fat : string) : Serving.t :=
  Serving.mk id "100 g" "g" amount "g" "1" calories protein carbohydrate fat
    "0" "0" "0" "0" "0" "0" "0" "0" "0" "0" "0" "0" "0" "0".

Definition cupServing (id amount calories : string) : Serving.t :=
  Serving.mk id "1 cup" "cup" amount "g" "1" calories "1" "1" "1"
    "0" "0" "0" "0" "0" "0" "0" "0" "0" "0" "0" "0" "0" "0".

Definition foodOf (name : string) (servings : list Serving.t) : Food.t :=
  Food.mk "1" name "Generic" "" servings.

(** [float64] of a decimal literal. *)
Definition lit (s : string) : float64 :=
  match Strconv.ParseFloat s with
  | Some v => v
  | None => F64.zero
  end.

(** A candidate whose first gram serving lacks its identifier, after a
    serving in cups that has one. *)
Definition mixedServings : list Serving.t :=
  [cupServing "7001" "240" "100"; gramServing "" "100" "50" "2" "10" "1"].

(** A serving whose calories are zero (scenario C of the specification). *)
Definition zeroCalorieServing : Serving.t := gramServing "42" "100" "0" "1" "2" "3".

(** A meal of three requests, none of which names the food found. *)
Definition threeRequests : list FoodWithPortion.t :=
  [FoodWithPortion.mk "Chicken Breast" 40; FoodWithPortion.mk "Brown Rice" 30;
   FoodWithPortion.mk "Broccoli" 30].

Definition grilledChicken : Food.t :=
  foodOf "Chicken, grilled" [gramServing "9" "100" "165" "31" "0" "3.6"].




(** A meal of one avocado: 10 g of fat and 12 g of carbohydrate. *)
Definition avocadoMeal : list Food.t :=
  [foodOf "Avocado" [gramServing "3" "100" "160" "2" "12" "10"]].

(** A target above the meal's fat and below its carbohydrate. *)
Definition fatShortTarget : MacroTarget.t :=
  MacroTarget.mk (lit "500") (lit "10") (lit "20") (lit "25").

(** An avocado with the rice, the chicken and the broccoli: short of fat
    and over in carbohydrate against [fatShortTarget]. *)
Definition avocadoRiceMeal : list Food.t :=
  [foodOf "Avocado" [gramServing "3" "100" "160" "2" "12" "10"];
   foodOf "Brown Rice" [gramServing "1" "100" "130" "2.7" "28" "0.3"];
   foodOf "Chicken Breast" [gramServing "9" "100" "165" "31" "0" "3.6"];
   foodOf "Broccoli" [gramServing "5" "100" "34" "2.8" "7" "0.4"]].

(** An avocado whose fat is written with four decimals, and a target of
    which it falls just short of 95%. *)
Definition fineAvocado : list Food.t :=
  [foodOf "Avocado" [gramServing "3" "100" "160" "2" "0" "10.0004"]].

Definition nearTarget : MacroTarget.t :=
  MacroTarget.mk (lit "160") (lit "0") (lit "10.5268") (lit "2").

(** A target the meal meets exactly. *)
Definition metTarget : MacroTarget.t :=
  MacroTarget.mk (lit "160") (lit "12") (lit "10") (lit "2").

(** A plan of two meals that both ask for rice, the lookup's answers, and
    one execution of [batchFetchFoods] on the plan's names, in which the
    two workers overlap. *)
Definition twoMeals : list (list FoodWithPortion.t) :=
  [[FoodWithPortion.mk "Rice" 50; FoodWithPortion.mk "Egg" 50];
   [FoodWithPortion.mk "Rice" 100]].

Definition riceFound : option (list Food.t) :=
  Some [foodOf "Rice, cooked" [gramServing "1" "100" "130" "2.7" "28" "0.3"]].

Definition overlapping : list Resolver.event :=
  [Resolver.Spawn "Egg"; Resolver.Acquire "Egg"; Resolver.Spawn "Rice";
   Resolver.EndLoop; Resolver.Call "Egg"; Resolver.Acquire "Rice";
   Resolver.Call "Rice"; Resolver.Reply "Rice" riceFound; Resolver.Reply "Egg" None;
   Resolver.Lock "Egg"; Resolver.Store "Egg"; Resolver.Unlock "Egg";
   Resolver.Lock "Rice"; Resolver.Release "Egg"; Resolver.Store "Rice";
   Resolver.Done "Egg"; Resolver.Unlock "Rice"; Resolver.Release "Rice";
   Resolver.Done "Rice"; Resolver.Return].

(** *** Scaling there and back *)

(** The strings [scaleServing] rewrites: the gram amount and the eighteen
    nutrients. *)
Definition quantities (s : Serving.t) : list string :=
  Serving.MetricServingAmount s :: Serving.nutrients s.

(** The number a field stands for: what [parseFloatDefault] reads in it,
    as an exact rational. *)
Definition fieldValue `{GoLib} (field : string) : Q := F64.to_Q (parseFloatDefault field).

(** [scaleServing] by [m], then by [1 / m]. *)
Definition scaleThereAndBack `{GoLib} (s : Serving.t) (m : float64) : Serving.t :=
  scaleServing (scaleServing s m) (F64.div F64.one m).

(** The amount and every nutrient of [s'] are within [ε] of those of [s]. *)
Definition quantitiesWithin `{GoLib} (ε : Q) (s s' : Serving.t) : Prop :=
  Forall2 (λ before after, (Qabs (fieldValue after - fieldValue before) <= ε)%Q)
    (quantities s) (quantities s').

(** A field value of moderate size: zero (as an unparseable field reads),
    or a normal number of magnitude between 10^-9 and 10^9. *)
Definition moderate (x : float64) : Prop :=
  F64.is_zero x ∨
  (F64.normal x ∧ (1 # 1000000000 <= F64.magnitude x)%Q ∧ (F64.magnitude x <= 1000000000)%Q).

(** A factor that enlarges, by at most a million. *)
Definition enlarging (m : float64) : Prop :=
  F64.normal m ∧ F64.negative m = false ∧
  (1 <= F64.magnitude m)%Q ∧ (F64.magnitude m <= 1000000)%Q.

(** A serving of 100 g with one gram of fat, and a serving with
    fractional values and an empty field. *)
Definition oneGramOfFat : Serving.t := gramServing "1" "100" "9" "0" "0" "1".

Definition oatmeal : Serving.t :=
  Serving.mk "77" "1 cup" "cup" "234" "g" "1" "158.5" "5.55" "27.3" "3.18"
    "0.63" "4" "0.517" "0.898" "1.17" "0" "9" "143" "21" "1.59" "" "0" "0" "-0".

(** *** Decimal digits *)

(** The value of a list of decimal digits. *)
Definition digitsValue (ds : list ascii) : Z :=
  fold_left (λ (a : Z) (c : ascii), a * 10 + (Strings.code c - 48)) ds 0.

(** The value of the digits [ds] written after a number [a]. *)
Definition digitsValueFrom (a : Z) (ds : list ascii) : Z :=
  fold_left (λ (a : Z) (c : ascii), a * 10 + (Strings.code c - 48)) ds a.

(** *** The corrections of a pass, in the words of the specification *)

(** [m] is the lesser of [a] and [b]: one of the two, and neither of them
    is below it. *)
Definition lesserOf (a b m : float64) : Prop :=
  (m = a ∨ m = b) ∧ F64.ltb a m = false ∧ F64.ltb b m = false.

(** What a field contributes: the number it parses to, and zero when it
    does not parse. *)
Definition contribution `{GoLib} (field : string) : float64 :=
  match ParseFloat field with
  | Some value => value
  | None => F64.zero
  end.

(** Scaling a serving: the gram amount and every nutrient are multiplied
    by the factor and written with three decimals, and no other field is
    written. *)
Definition scaledBy `{GoLib} (factor : float64) (serving serving' : Serving.t) : Prop :=
  sameDescription serving serving' ∧
  Forall2 (λ before after : string, after = Sprintf3 (F64.mul (contribution before) factor))
    (quantities serving) (quantities serving').

(** The serving a correction leaves: the serving scaled by the factor of
    the correction.  The factors of the corrections are [1 + m] and [1 - m]
    for an [m] between 0 and 0.6 or 0.35; as [scaleServing] does, a factor
    that is not positive leaves the serving as it is. *)
Definition corrected `{GoLib} (factor : float64) (serving serving' : Serving.t) : Prop :=
  if F64.leb factor F64.zero then serving' = serving else scaledBy factor serving serving'.

(** [(deficit / fat_per_unit) × 0.8] for the deficit
    [(target_fat × 0.95) − aggregated_fat]. *)
Definition fatShare `{GoLib} (aggregated target : MacroTarget.t) (serving : Serving.t)
    : float64 :=
  F64.mul
    (F64.div (F64.sub (fatFloor target) (MacroTarget.Fats aggregated))
       (contribution (Serving.Fat serving)))
    (F64.of_Q (8 # 10)).

(** What the fat correction of one pass may do to [foods], given the
    aggregated macros: scale the first serving of the correction target by
    [1 + min(0.6, (deficit / fat_per_unit) × 0.8)] and leave every other
    food, or leave them all. *)
Inductive fatCorrectionSpec `{GoLib} (aggregated target : MacroTarget.t)
    (foods : list Food.t) : list Food.t → Prop :=
| fat_no_deficit :
    F64.ltb (MacroTarget.Fats aggregated) (fatFloor target) = false →
    fatCorrectionSpec aggregated target foods foods
| fat_target_scaled i food serving rest m serving' :
    F64.ltb (MacroTarget.Fats aggregated) (fatFloor target) = true →
    correctionTarget foods i →
    foods !! i = Some food →
    Food.Servings food = serving :: rest →
    F64.gtb (contribution (Serving.Fat serving)) F64.zero = true →
    lesserOf (F64.of_Q (6 # 10)) (fatShare aggregated target serving) m →
    corrected (F64.add F64.one m) serving serving' →
    fatCorrectionSpec aggregated target foods
      (<[i := Food.set_Servings (serving' :: rest) food]> foods)
| fat_no_target :
    F64.ltb (MacroTarget.Fats aggregated) (fatFloor target) = true →
    (∀ i, ¬ correctionTarget foods i) →
    fatCorrectionSpec aggregated target foods foods
| fat_target_without_fat i food :
    F64.ltb (MacroTarget.Fats aggregated) (fatFloor target) = true →
    correctionTarget foods i →
    foods !! i = Some food →
    match Food.Servings food with
    | serving :: _ => F64.gtb (contribution (Serving.Fat serving)) F64.zero = false
    | [] => True
    end →
    fatCorrectionSpec aggregated target foods foods.

(* ===================================================================== *)
(** ** The rest of the serving pipeline *)
(* ===================================================================== *)

(** The data of [models.RegenerationLLMResponse], of the request's
    [OriginalMeal] and of [models.RegenerationResponse]. *)
Module RegenerationLLMData.
Record t := mk {
  MealName : string;
  MealTime : string;
  Meridiem : string;
  MacroTarget : MacroTarget.t;
  Foods : list FoodWithPortion.t
}.
End RegenerationLLMData.

Module OriginalMeal.
Record t := mk {
  MealName : string;
  MealTime : string;
  Meridiem : string;
  MacroTarget : MacroTarget.t;
  Macros : MacroTarget.t;
  Foods : list Food.t
}.
End OriginalMeal.

Module RegenerationMealData.
Record t := mk {
  MealName : string;
  MealTime : string;
  Meridiem : string;
  MacroTarget : MacroTarget.t;
  Macros : MacroTarget.t;
  Foods : list Food.t
}.
End RegenerationMealData.


(** The meals of [models.MealPlanLLMResponse] and of
    [models.MealPlanAPIResponse]. *)
Module MealLLMItems.
Record t := mk {
  MealName : string;
  MealTime : string;
  Meridiem : string;
  MacroTarget : MacroTarget.t;
  Foods : list FoodWithPortion.t
}.
End MealLLMItems.

Module DayLLMMeals.
Record t := mk {
  Date : string;
  Meals : list MealLLMItems.t
}.
End DayLLMMeals.

Module MealAPIItems.
Record t := mk {
  MealName : string;
  MealTime : string;
  Meridiem : string;
  MacroTarget : MacroTarget.t;
  Macros : MacroTarget.t;
  Foods : list Food.t
}.

(** The zero value [MealAPIItems{}]. *)
Definition zero : t :=
  mk "" "" "" (MacroTarget.mk F64.zero F64.zero F64.zero F64.zero)
     (MacroTarget.mk F64.zero F64.zero F64.zero F64.zero) [].
End MealAPIItems.

Module DayAPIMeals.
Record t := mk {
  Date : string;
  Meals : list MealAPIItems.t
}.
End DayAPIMeals.

Section Callers.
Context `{GoLib}.

(** [findGramServing] (kept in the source as deprecated): the first
    serving measured in grams, [nil] when there is none. *)
Definition findGramServing (servings : list Serving.t) : option Serving.t :=
  List.find isGramServing servings.

(** One turn of the loop that builds [foods] from the fetched results, in
    [processRegenerationResponse] and in [swapFoodItems]:

      if food, exists := foodResults[foodWithPortion.Name]; exists && food != nil {
        food.Servings = filterGramServings(food.Servings)
        if len(food.Servings) > 0 { food.Servings[0] = ensureServingFields(...) }
        foods = append(foods, *food)
      }

    [food] is the pointer kept in [foodResults]: the selection is written
    to the fetched food itself, and a copy of it is appended. *)
Definition buildStep (acc : list Food.t * gmap string (option Food.t))
    (foodWithPortion : FoodWithPortion.t) : list Food.t * gmap string (option Food.t) :=
  let '(foods, foodResults) := acc in
  match foodResults !! FoodWithPortion.Name foodWithPortion with
  | Some (Some food) =>
      let food := selectServings food in
      ((foods ++ [food])%list, <[FoodWithPortion.Name foodWithPortion := Some food]> foodResults)
  | _ => acc
  end.

Definition buildFoods (foodResults : gmap string (option Food.t))
    (foodWithPortions : list FoodWithPortion.t)
    : list Food.t * gmap string (option Food.t) :=
  fold_left buildStep foodWithPortions ([], foodResults).

(** [processRegenerationResponse], its [Data]: the foods are built from
    the results of [batchFetchFoods], scaled and rebalanced against the
    target of the LLM response, and returned under the name, time and
    target of the request's original meal.  [None] is a panic.  The
    [Success] flag, the texts copied from the LLM response and the timings
    are left out. *)
Definition processRegenerationResponse
    (llmData : RegenerationLLMData.t) (originalMeal : OriginalMeal.t)
    (foodResults : gmap string (option Food.t)) : option RegenerationMealData.t :=
  let foods := (buildFoods foodResults (RegenerationLLMData.Foods llmData)).1 in
  optimizedFoods ←
    adjustServingsByPortionRatio foods (RegenerationLLMData.Foods llmData)
      (MacroTarget.Calories (RegenerationLLMData.MacroTarget llmData));
  let optimizedFoods :=
    rebalanceMealFoods optimizedFoods (RegenerationLLMData.MacroTarget llmData) in
  let totalMacros := calculateMealMacros optimizedFoods in
  Some (RegenerationMealData.mk
          (OriginalMeal.MealName originalMeal) (OriginalMeal.MealTime originalMeal)
          (OriginalMeal.Meridiem originalMeal) (OriginalMeal.MacroTarget originalMeal)
          totalMacros optimizedFoods).

(** The names of the requests for which the results hold a food, in the
    order of the requests. *)
Definition requested (foodResults : gmap string (option Food.t))
    (foodWithPortions : list FoodWithPortion.t) : list string :=
  omap (λ foodWithPortion : FoodWithPortion.t,
          match foodResults !! FoodWithPortion.Name foodWithPortion with
          | Some (Some _) => Some (FoodWithPortion.Name foodWithPortion)
          | _ => None
          end)
       foodWithPortions.

(** What scaling and rebalancing a meal leave in the results.  The copy
    [*food] appended to [foods] shares the array of its [Servings] with the
    fetched food the results point to, [adjustServingsByPortionRatio] copies
    the food again and writes [optimizedFoods[i].Servings[0]], and
    [rebalanceMealFoods] writes [foods[idx].Servings[0]]: all into that one
    array.  So the food the results hold for a name ends as the food of the
    meal built from it; for a name requested twice, as the later one, each
    selection having made a new array. *)
Definition storeServings (names : list string) (optimizedFoods : list Food.t)
    (foodResults : gmap string (option Food.t)) : gmap string (option Food.t) :=
  fold_left
    (λ (foodResults : gmap string (option Food.t)) '(name, food),
       <[name := Some food]> foodResults)
    (zip names optimizedFoods) foodResults.

(** The body of the loop [for _, mealData := range allMeals] of
    [swapFoodItems]: the meal of the response, and the results as the meal
    leaves them.  [None] is a panic. *)
Definition processMeal (foodResults : gmap string (option Food.t))
    (mealItem : MealLLMItems.t)
    : option (MealAPIItems.t * gmap string (option Food.t)) :=
  let built := buildFoods foodResults (MealLLMItems.Foods mealItem) in
  optimizedFoods ←
    adjustServingsByPortionRatio built.1 (MealLLMItems.Foods mealItem)
      (MacroTarget.Calories (MealLLMItems.MacroTarget mealItem));
  let optimizedFoods :=
    rebalanceMealFoods optimizedFoods (MealLLMItems.MacroTarget mealItem) in
  let totalMacros := calculateMealMacros optimizedFoods in
  Some (MealAPIItems.mk
          (MealLLMItems.MealName mealItem) (MealLLMItems.MealTime mealItem)
          (MealLLMItems.Meridiem mealItem) (MealLLMItems.MacroTarget mealItem)
          totalMacros optimizedFoods,
        storeServings (requested foodResults (MealLLMItems.Foods mealItem))
          optimizedFoods built.2).

(** One meal of a day: [result.Data[dayKey]] is made with as many zero
    meals as the day has when its first meal is processed, and the meal is
    written at its index. *)
Definition mealStep (dayKey : string) (dayMeals : DayLLMMeals.t)
    (acc : option (gmap string DayAPIMeals.t * gmap string (option Food.t)))
    (indexed : nat * MealLLMItems.t)
    : option (gmap string DayAPIMeals.t * gmap string (option Food.t)) :=
  let '(mealIndex, mealItem) := indexed in
  '(data, foodResults) ← acc;
  '(meal, foodResults) ← processMeal foodResults mealItem;
  let dayData :=
    match data !! dayKey with
    | Some dayData => dayData
    | None =>
        DayAPIMeals.mk (DayLLMMeals.Date dayMeals)
          (replicate (length (DayLLMMeals.Meals dayMeals)) MealAPIItems.zero)
    end in
  Some (<[dayKey :=
            DayAPIMeals.mk (DayAPIMeals.Date dayData)
              (<[mealIndex := meal]> (DayAPIMeals.Meals dayData))]> data,
        foodResults).

(** The meals of one day, in their order. *)
Definition processDay
    (acc : gmap string DayAPIMeals.t * gmap string (option Food.t))
    (day : string * DayLLMMeals.t)
    : option (gmap string DayAPIMeals.t * gmap string (option Food.t)) :=
  let '(dayKey, dayMeals) := day in
  foldl (mealStep dayKey dayMeals) (Some acc)
    (imap (λ i mealItem, (i, mealItem)) (DayLLMMeals.Meals dayMeals)).

(** [swapFoodItems], its [Data], for the days of the LLM response in the
    order in which the range over the map visits them, and the results of
    [batchFetchFoods]. *)
Definition swapFoodItems (days : list (string * DayLLMMeals.t))
    (foodResults : gmap string (option Food.t)) : option (gmap string DayAPIMeals.t) :=
  fst <$> foldl (λ acc day, acc ≫= λ acc, processDay acc day) (Some (∅, foodResults)) days.

End Callers.

(** [s'] holds every non-empty field of [s]. *)
Definition keepsFilled (s s' : Serving.t) : Prop :=
  Forall2 (λ given repaired : string, given ≠ "" → repaired = given)
    (Serving.descriptive s ++ Serving.nutrients s)
    (Serving.descriptive s' ++ Serving.nutrients s').

(** A number that is not zero, of magnitude between 10^-9 and 10^9. *)
Definition sizable (x : float64) : Prop :=
  F64.normal x ∧ (1 # 1000000000 <= F64.magnitude x)%Q ∧ (F64.magnitude x <= 1000000000)%Q.

(** The amount and every nutrient of [s'] are within [ε] of [k] times
    those of [s]. *)
Definition quantitiesScaled `{GoLib} (ε k : Q) (s s' : Serving.t) : Prop :=
  Forall2 (λ before after, (Qabs (fieldValue after - fieldValue before * k) <= ε)%Q)
    (quantities s) (quantities s').

(** A field whose value, and whose value times [|t| / |c|], is of moderate
    size. *)
Definition scalable `{GoLib} (t c : float64) (field : string) : Prop :=
  moderate (parseFloatDefault field) ∧
  (F64.magnitude (parseFloatDefault field) * (F64.magnitude t * / F64.magnitude c)
   <= 1000000000)%Q.

(** A field whose value, and whose value times [|factor|], is of moderate
    size. *)
Definition scalableBy `{GoLib} (factor : float64) (field : string) : Prop :=
  moderate (parseFloatDefault field) ∧
  (F64.magnitude (parseFloatDefault field) * F64.magnitude factor <= 1000000000)%Q.

(** *** The carbohydrate correction, food by food *)

(** [food] with its first serving, if it has one, scaled by [factor]. *)
Definition scaleFirstServing `{GoLib} (factor : float64) (food : Food.t) : Food.t :=
  match Food.Servings food with
  | serving :: rest => Food.set_Servings (scaleServing serving factor :: rest) food
  | [] => food
  end.

(** Every starchy food scaled by [factor], the others as they are. *)
Definition scaleStarchy `{GoLib} (factor : float64) (foods : list Food.t) : list Food.t :=
  (λ food, if isStarchyCarb (Food.FoodName food) then scaleFirstServing factor food
           else food) <$> foods.

(** The carbohydrate of the first servings of the starchy foods, summed in
    the order of the list. *)
Definition starchCarbs `{GoLib} (foods : list Food.t) : float64 :=
  fold_left
    (λ (sum : float64) (food : Food.t),
       if isStarchyCarb (Food.FoodName food) then
         match Food.Servings food with
         | serving :: _ => F64.add sum (parseFloatDefault (Serving.Carbohydrate serving))
         | [] => sum
         end
       else sum)
    foods F64.zero.

(** [target_carbs × 1.05]. *)
Definition carbCeiling (target : MacroTarget.t) : float64 :=
  F64.mul (MacroTarget.Carbs target) (F64.of_Q (105 # 100)).

(** [1 - min(0.35, excess / starch_carbs)]. *)
Definition carbFactor `{GoLib} (excess starch : float64) : float64 :=
  F64.sub F64.one (minFloat (F64.of_Q (35 # 100)) (F64.div excess starch)).

(** The food a correction leaves: its first serving, if it has one,
    corrected by the factor, and nothing else changed. *)
Definition firstServingCorrected `{GoLib} (factor : float64) (food food' : Food.t) : Prop :=
  match Food.Servings food with
  | serving :: rest =>
      ∃ serving', corrected factor serving serving' ∧
                  food' = Food.set_Servings (serving' :: rest) food
  | [] => food' = food
  end.

(** A meal of rice, chicken and broccoli, and a target it exceeds in
    carbohydrate. *)
Definition riceMeal : list Food.t :=
  [foodOf "Brown Rice" [gramServing "1" "100" "130" "2.7" "28" "0.3"];
   foodOf "Chicken Breast" [gramServing "9" "100" "165" "31" "0" "3.6"];
   foodOf "Broccoli" [gramServing "5" "100" "34" "2.8" "7" "0.4"]].

Definition lowCarbTarget : MacroTarget.t :=
  MacroTarget.mk (lit "330") (lit "20") (lit "4") (lit "36").

(** *** What the aggregator reads *)

(** The calories, carbohydrate, protein and fat of the first serving of
    each food that has a serving. *)
Definition macroFields (foods : list Food.t) : list (string * string * string * string) :=
  omap (λ food : Food.t,
          (λ serving, (Serving.Calories serving, Serving.Carbohydrate serving,
                       Serving.Protein serving, Serving.Fat serving))
            <$> head (Food.Servings food))
       foods.

(** The rice meal with a food that has no serving, and with other
    servings after the first ones. *)
Definition riceMealPadded : list Food.t :=
  [foodOf "Brown Rice" [gramServing "1" "100" "130" "2.7" "28" "0.3"; cupServing "2" "195" "216"];
   foodOf "Water" [];
   foodOf "Chicken" [gramServing "9" "85" "165" "31" "0" "3.6"];
   foodOf "Broccoli" [gramServing "5" "100" "34" "2.8" "7" "0.4"]].

(** *** The replies of the lookups *)

(** The search results that an execution delivered to the worker of
    [name], in the order of the schedule. *)
Definition repliesTo (name : string) (schedule : list Resolver.event)
    : list (option (list Food.t)) :=
  omap (λ e : Resolver.event,
          match e with
          | Resolver.Reply n searchResult =>
              if decide (n = name) then Some searchResult else None
          | _ => None
          end)
       schedule.

(** After [schedule], the worker of [name] holds, and then has stored, the
    first food of the one reply it received. *)
Definition ownReply (schedule : list Resolver.event) (σ : Resolver.state)
    (name : string) : Prop :=
  match Resolver.workers σ !! name with
  | None | Some Resolver.Spawned | Some Resolver.Acquired | Some Resolver.Searching =>
      repliesTo name schedule = []
  | Some (Resolver.Fetched food) | Some (Resolver.Locked food) =>
      ∃ searchResult,
        repliesTo name schedule = [searchResult] ∧ food = Resolver.firstFood searchResult
  | Some _ =>
      ∃ searchResult,
        repliesTo name schedule = [searchResult] ∧
        Resolver.foodResults σ !! name = Some (Resolver.firstFood searchResult)
  end.

(** *** The foods of a response *)

(** The food the results hold for a request, after the serving
    selection; none when the lookup found nothing. *)
Definition selectedFood `{GoLib} (foodResults : gmap string (option Food.t))
    (foodWithPortion : FoodWithPortion.t) : option Food.t :=
  selectServings <$> mjoin (foodResults !! FoodWithPortion.Name foodWithPortion).

(** What the loop has written to the fetched foods so far: some of them
    hold their selection. *)
Definition selectedSome `{GoLib} (fetched foodResults : gmap string (option Food.t)) : Prop :=
  ∀ name,
    foodResults !! name = fetched !! name ∨
    ∃ food, fetched !! name = Some (Some food) ∧
            foodResults !! name = Some (Some (selectServings food)).

(** The first serving of the food, if it has one, has every field filled. *)
Definition firstServingComplete (food : Food.t) : Prop :=
  match Food.Servings food with
  | serving :: _ => complete serving
  | [] => True
  end.

(** A regeneration of rice and salmon, with the rice named twice, and the
    results of the lookups: nothing was found for the salmon. *)
Definition riceTwice : RegenerationLLMData.t :=
  RegenerationLLMData.mk "Dinner" "7:00" "PM" fatShortTarget
    [FoodWithPortion.mk "Rice" 50; FoodWithPortion.mk "Salmon" 30;
     FoodWithPortion.mk "Rice" 20].

Definition formerDinner : OriginalMeal.t :=
  OriginalMeal.mk "Supper" "6:30" "PM" metTarget metTarget [].

Definition riceOnly : gmap string (option Food.t) :=
  {[ "Rice" := Resolver.firstFood riceFound; "Salmon" := None ]}.

(** *** The days of a plan *)

(** [meal] is the meal of the response for [mealItem]: its name, time
    and target, and the macros of its foods. *)
Definition mealOf `{GoLib} (mealItem : MealLLMItems.t) (meal : MealAPIItems.t) : Prop :=
  MealAPIItems.MealName meal = MealLLMItems.MealName mealItem ∧
  MealAPIItems.MealTime meal = MealLLMItems.MealTime mealItem ∧
  MealAPIItems.Meridiem meal = MealLLMItems.Meridiem mealItem ∧
  MealAPIItems.MacroTarget meal = MealLLMItems.MacroTarget mealItem ∧
  MealAPIItems.Macros meal = calculateMealMacros (MealAPIItems.Foods meal).

(** [entry] is what the response holds for a day: nothing for a day
    without meals, and otherwise the date and a meal for each meal. *)
Definition dayOf `{GoLib} (dayMeals : DayLLMMeals.t) (entry : option DayAPIMeals.t) : Prop :=
  match DayLLMMeals.Meals dayMeals with
  | [] => entry = None
  | _ :: _ =>
      ∃ day, entry = Some day ∧
             DayAPIMeals.Date day = DayLLMMeals.Date dayMeals ∧
             Forall2 mealOf (DayLLMMeals.Meals dayMeals) (DayAPIMeals.Meals day)
  end.

(** Two meals with no food in common, a day of rest, and a plan. *)
Definition riceAndSalmon : MealLLMItems.t :=
  MealLLMItems.mk "Lunch" "12:30" "PM" fatShortTarget
    [FoodWithPortion.mk "Rice" 60; FoodWithPortion.mk "Salmon" 40].

Definition eggs : MealLLMItems.t :=
  MealLLMItems.mk "Breakfast" "8:00" "AM" metTarget [FoodWithPortion.mk "Egg" 100].

Definition riceAgain : MealLLMItems.t :=
  MealLLMItems.mk "Dinner" "7:00" "PM" metTarget [FoodWithPortion.mk "Rice" 100].

Definition riceAndEgg : gmap string (option Food.t) :=
  {[ "Rice" := Resolver.firstFood riceFound; "Salmon" := None;
     "Egg" := Some (foodOf "Egg, boiled" [gramServing "2" "50" "78" "6.3" "0.6" "5.3"]) ]}.

Definition threeDays : list (string * DayLLMMeals.t) :=
  [("tuesday", DayLLMMeals.mk "2024-05-07" [eggs; riceAndSalmon]);
   ("monday", DayLLMMeals.mk "2024-05-06" []);
   ("wednesday", DayLLMMeals.mk "2024-05-08" [riceAgain])].

(* ===================================================================== *)
(** ** The cleaning of the LLM responses *)
(* ===================================================================== *)

(** The functions of [services/food-service.go] that turn the decoded
    reply of the LLM into the response [processRegenerationResponse] and
    [swapFoodItems] are given.  The JSON decoding itself is taken as
    given: a function that starts from [json.Unmarshal] takes what was
    decoded, or nothing when the decoding failed. *)

Module Trim.

(** The white space of ASCII: tab, line feed, vertical tab, form feed,
    carriage return and space. *)
Definition asciiSpace (c : ascii) : bool :=
  ((9 <=? Strings.code c) && (Strings.code c <=? 13)) || (Strings.code c =? 32).

Fixpoint TrimLeft (s : string) : string :=
  match s with
  | EmptyString => EmptyString
  | String c r => if asciiSpace c then TrimLeft r else s
  end.

Fixpoint TrimRight (s : string) : string :=
  match s with
  | EmptyString => EmptyString
  | String c r =>
      match TrimRight r with
      | EmptyString => if asciiSpace c then EmptyString else String c EmptyString
      | r' => String c r'
      end
  end.

(** [strings.TrimSpace] on ASCII text. *)
Definition TrimSpace (s : string) : string := TrimRight (TrimLeft s).

End Trim.

(** [strings.TrimSpace], as an interface, and its model. *)
Class GoTrim := {
  TrimSpace : string -> string
}.

Definition go_trim : GoTrim := {| TrimSpace := Trim.TrimSpace |}.

(** [models.RegenerationRequest]; the optional fields that the
    regeneration does not read are left out. *)
Module RegenerationRequest.
Record t := mk {
  FoodsToRegenerate : list string;
  MealStyle : string;
  DietType : string;
  FoodsToAvoid : list string;
  FoodsToLike : list string;
  OriginalMeal : OriginalMeal.t
}.
End RegenerationRequest.

(** [models.RequestBody], the two fields that the cleaning passes on. *)
Module RequestBody.
Record t := mk {
  DietType : string;
  FoodAllergies : list string
}.
End RequestBody.

(** [getDefaultFoodsForMeal]: the default foods of breakfast, lunch and
    dinner, and those of any other meal.  The diet type and the foods to
    avoid are parameters of the source that its body does not read. *)
Definition defaultFoods : gmap string (list FoodWithPortion.t) :=
  {[ "Breakfast" :=
       [FoodWithPortion.mk "Oatmeal" 40; FoodWithPortion.mk "Greek Yogurt" 25;
        FoodWithPortion.mk "Banana" 20; FoodWithPortion.mk "Almonds" 15];
     "Lunch" :=
       [FoodWithPortion.mk "Grilled Chicken Breast" 40; FoodWithPortion.mk "Brown Rice" 30;
        FoodWithPortion.mk "Broccoli" 15; FoodWithPortion.mk "Avocado" 15];
     "Dinner" :=
       [FoodWithPortion.mk "Salmon" 40; FoodWithPortion.mk "Sweet Potato" 30;
        FoodWithPortion.mk "Spinach" 15; FoodWithPortion.mk "Olive Oil" 15] ]}.

Definition getDefaultFoodsForMeal (mealName dietType : string) (foodsToAvoid : list string)
    : list FoodWithPortion.t :=
  match defaultFoods !! mealName with
  | Some foods => foods
  | None =>
      [FoodWithPortion.mk "Chicken Breast" 40; FoodWithPortion.mk "Brown Rice" 30;
       FoodWithPortion.mk "Broccoli" 15; FoodWithPortion.mk "Avocado" 15]
  end.

Section Cleaning.
Context `{GoLib} `{GoTrim}.

(** [strings.TrimSpace(strings.ToLower(fw.Name))], the key under which a
    food counts as seen. *)
Definition foodKey (fw : FoodWithPortion.t) : string :=
  TrimSpace (ToLower (FoodWithPortion.Name fw)).

(** [unique[name]] for [unique map[string]bool]: [false] for a key that
    is not there. *)
Definition seen (unique : gmap string bool) (name : string) : bool :=
  default false (unique !! name).

(** One turn of the loop that removes the duplicates:

      name := strings.TrimSpace(strings.ToLower(fw.Name))
      if name is empty || unique[name] { continue }
      unique[name] = true
      deduped = append(deduped, fw) *)
Definition dedupeStep (acc : gmap string bool * list FoodWithPortion.t)
    (fw : FoodWithPortion.t) : gmap string bool * list FoodWithPortion.t :=
  let '(unique, deduped) := acc in
  let name := foodKey fw in
  if String.eqb name "" || seen unique name then acc
  else (<[name := true]> unique, (deduped ++ [fw])%list).

Definition dedupeLoop (foods : list FoodWithPortion.t)
    : gmap string bool * list FoodWithPortion.t :=
  foldl dedupeStep (∅, []) foods.

(** The loop that pads with the defaults:

      for _, df := range defaults {
        if len(deduped) >= 4 { break }
        lname := strings.TrimSpace(strings.ToLower(df.Name))
        if !unique[lname] { unique[lname] = true; deduped = append(deduped, df) }
      } *)
Fixpoint padLoop (defaults : list FoodWithPortion.t) (unique : gmap string bool)
    (deduped : list FoodWithPortion.t) : gmap string bool * list FoodWithPortion.t :=
  match defaults with
  | [] => (unique, deduped)
  | df :: defaults =>
      if (4 <=? length deduped)%nat then (unique, deduped)
      else
        let lname := foodKey df in
        if negb (seen unique lname)
        then padLoop defaults (<[lname := true]> unique) (deduped ++ [df])%list
        else padLoop defaults unique deduped
  end.

(** The two loops, as [cleanRegenerationFoods] and [cleanFoodsArrays] both
    have them: the foods without the blank and the repeated ones, padded
    from the defaults when fewer than four are left. *)
Definition dedupeAndPad (foods defaults : list FoodWithPortion.t) : list FoodWithPortion.t :=
  let '(unique, deduped) := dedupeLoop foods in
  if (length deduped <? 4)%nat then (padLoop defaults unique deduped).2 else deduped.

(** [validateAndFixRegenerationMacros], on the [Data] of the response. *)
Definition validateAndFixRegenerationMacros (regenResponse : RegenerationLLMData.t)
    (reqBody : RegenerationRequest.t) : RegenerationLLMData.t :=
  let originalMeal := RegenerationRequest.OriginalMeal reqBody in
  RegenerationLLMData.mk
    (OriginalMeal.MealName originalMeal) (OriginalMeal.MealTime originalMeal)
    (OriginalMeal.Meridiem originalMeal) (OriginalMeal.MacroTarget originalMeal)
    (RegenerationLLMData.Foods regenResponse).

(** [cleanRegenerationFoods], on the [Data] of the response. *)
Definition cleanRegenerationFoods (regenResponse : RegenerationLLMData.t)
    (reqBody : RegenerationRequest.t) : RegenerationLLMData.t :=
  RegenerationLLMData.mk
    (RegenerationLLMData.MealName regenResponse) (RegenerationLLMData.MealTime regenResponse)
    (RegenerationLLMData.Meridiem regenResponse) (RegenerationLLMData.MacroTarget regenResponse)
    (dedupeAndPad (RegenerationLLMData.Foods regenResponse)
       (getDefaultFoodsForMeal (RegenerationLLMData.MealName regenResponse)
          (RegenerationRequest.DietType reqBody) (RegenerationRequest.FoodsToAvoid reqBody))).

(** [createRegenerationStructuredResponse], its [Data]: the original meal
    with the default foods. *)
Definition createRegenerationStructuredResponse (reqBody : RegenerationRequest.t)
    : RegenerationLLMData.t :=
  let originalMeal := RegenerationRequest.OriginalMeal reqBody in
  RegenerationLLMData.mk
    (OriginalMeal.MealName originalMeal) (OriginalMeal.MealTime originalMeal)
    (OriginalMeal.Meridiem originalMeal) (OriginalMeal.MacroTarget originalMeal)
    (getDefaultFoodsForMeal (OriginalMeal.MealName originalMeal)
       (RegenerationRequest.DietType reqBody) (RegenerationRequest.FoodsToAvoid reqBody)).

(** [parseRegenerationResponse], after [json.Unmarshal]: [decoded] is the
    [Data] that was decoded, nothing when the decoding failed. *)
Definition parseRegenerationResponse (decoded : option RegenerationLLMData.t)
    (reqBody : RegenerationRequest.t) : RegenerationLLMData.t :=
  match decoded with
  | None => createRegenerationStructuredResponse reqBody
  | Some regenResponse =>
      cleanRegenerationFoods (validateAndFixRegenerationMacros regenResponse reqBody) reqBody
  end.

(** The body of the loop over the meals of a day in [cleanFoodsArrays]:
    a meal without foods is seeded with the defaults, and then the two
    loops run as in [cleanRegenerationFoods]. *)
Definition cleanMeal (reqBody : RequestBody.t) (meal : MealLLMItems.t) : MealLLMItems.t :=
  let foods :=
    if (length (MealLLMItems.Foods meal) =? 0)%nat
    then getDefaultFoodsForMeal (MealLLMItems.MealName meal)
           (RequestBody.DietType reqBody) (RequestBody.FoodAllergies reqBody)
    else MealLLMItems.Foods meal in
  MealLLMItems.mk
    (MealLLMItems.MealName meal) (MealLLMItems.MealTime meal)
    (MealLLMItems.Meridiem meal) (MealLLMItems.MacroTarget meal)
    (dedupeAndPad foods
       (getDefaultFoodsForMeal (MealLLMItems.MealName meal)
          (RequestBody.DietType reqBody) (RequestBody.FoodAllergies reqBody))).

(** [cleanFoodsArrays], on the [Data] of the plan: every day is written
    back under its key with its meals cleaned. *)
Definition cleanFoodsArrays (data : gmap string DayLLMMeals.t) (reqBody : RequestBody.t)
    : gmap string DayLLMMeals.t :=
  (λ dayMeals : DayLLMMeals.t,
     DayLLMMeals.mk (DayLLMMeals.Date dayMeals)
       (cleanMeal reqBody <$> DayLLMMeals.Meals dayMeals)) <$> data.

End Cleaning.

(** [unique] marks exactly the keys of the foods of [deduped], and these
    are distinct. *)
Definition marks `{GoLib} `{GoTrim} (unique : gmap string bool)
    (deduped : list FoodWithPortion.t) : Prop :=
  NoDup (foodKey <$> deduped) ∧
  ∀ name, seen unique name = true ↔ name ∈ foodKey <$> deduped.

(** The keys of the default foods of every meal are distinct, and none is
    empty. *)
Definition defaultsDistinct `{GoLib} `{GoTrim} : Prop :=
  ∀ mealName dietType foodsToAvoid,
    NoDup (foodKey <$> getDefaultFoodsForMeal mealName dietType foodsToAvoid).

Definition defaultsNamed `{GoLib} `{GoTrim} : Prop :=
  ∀ mealName dietType foodsToAvoid,
    Forall (λ df, foodKey df ≠ "") (getDefaultFoodsForMeal mealName dietType foodsToAvoid).

(** A reply of the LLM for a dinner that names the rice three times, once
    with nothing but blanks around it, and a food without a name. *)
Definition riceThrice : RegenerationLLMData.t :=
  RegenerationLLMData.mk "Supper" "9:00" "PM" metTarget
    [FoodWithPortion.mk "Rice" 50; FoodWithPortion.mk "  rice " 20;
     FoodWithPortion.mk "   " 10; FoodWithPortion.mk "Salmon" 10; FoodWithPortion.mk "RICE" 10].

Definition dinnerRequest : RegenerationRequest.t :=
  RegenerationRequest.mk ["Pasta"] "quick" "balanced" ["Salmon"] []
    (OriginalMeal.mk "Dinner" "7:00" "PM" fatShortTarget metTarget []).

(** [meal'] is [meal] with its foods cleaned: at least four, no two under
    one name. *)
Definition cleanedAs (meal meal' : MealLLMItems.t) : Prop :=
  MealLLMItems.MealName meal' = MealLLMItems.MealName meal ∧
  MealLLMItems.MealTime meal' = MealLLMItems.MealTime meal ∧
  MealLLMItems.Meridiem meal' = MealLLMItems.Meridiem meal ∧
  MealLLMItems.MacroTarget meal' = MealLLMItems.MacroTarget meal ∧
  NoDup (FoodWithPortion.Name <$> MealLLMItems.Foods meal') ∧
  (4 ≤ length (MealLLMItems.Foods meal'))%nat.

(** A plan of one day whose lunch has no food and whose breakfast names
    the eggs twice. *)
Definition eggsTwice : gmap string DayLLMMeals.t :=
  {[ "monday" :=
       DayLLMMeals.mk "2024-05-06"
         [MealLLMItems.mk "Breakfast" "8:00" "AM" metTarget
            [FoodWithPortion.mk "Egg" 60; FoodWithPortion.mk "egg" 40];
          MealLLMItems.mk "Lunch" "12:30" "PM" fatShortTarget []] ]}.

(** *** A target of no calories *)

(** A field that reads as a finite number, or does not parse. *)
Definition readsFinite (field : string) : Prop :=
  F64.is_finite (parseFloatDefault (H := go_std) field) = true.

(** Zero, as [fmt.Sprintf] prints it with three decimals. *)
Definition printedZero (field : string) : Prop :=
  field = "0.000" ∨ field = "-0.000".

(** A meal of a plan read as the data of a regeneration. *)
Definition asRegeneration (meal : MealLLMItems.t) : RegenerationLLMData.t :=
  RegenerationLLMData.mk
    (MealLLMItems.MealName meal) (MealLLMItems.MealTime meal)
    (MealLLMItems.Meridiem meal) (MealLLMItems.MacroTarget meal)
    (MealLLMItems.Foods meal).

(** [day'] is [day] with its meals cleaned, each as
    [cleanRegenerationFoods] cleans a regeneration. *)
Definition cleanedDay `{GoLib} `{GoTrim} (regenerationRequest : RegenerationRequest.t)
    (day day' : DayLLMMeals.t) : Prop :=
  DayLLMMeals.Date day' = DayLLMMeals.Date day ∧
  Forall2
    (λ meal meal',
       cleanedAs meal meal' ∧
       MealLLMItems.Foods meal'
       = RegenerationLLMData.Foods
           (cleanRegenerationFoods (asRegeneration meal) regenerationRequest))
    (DayLLMMeals.Meals day) (DayLLMMeals.Meals day').

(* ===================================================================== *)
(** * Properties *)
(* ===================================================================== *)

(** ** Records: reading a field after an assignment *)

Ltac lens := intros ? []; reflexivity.

Section ServingSelector.
Context `{GoLib}.
Import Serving.

Lemma isEmpty_false (s : string) : isEmpty s = false → s ≠ "".
Proof. unfold isEmpty. intros E ->. discriminate. Qed.

Lemma isEmpty_true (s : string) : isEmpty s = true → s = "".
Proof. unfold isEmpty. intros E. by apply String.eqb_eq. Qed.

Lemma defaultIfEmpty_get get set d s :
  (∀ v s, get (set v s) = v) → d ≠ "" → get (defaultIfEmpty get set d s) ≠ "".
Proof.
  intros Hlens Hd. unfold defaultIfEmpty.
  destruct (isEmpty (get s)) eqn:E.
  - by rewrite Hlens.
  - by apply isEmpty_false.
Qed.

Lemma defaultIfEmpty_other (get' : Serving.t → string) get set d s :
  (∀ v s, get' (set v s) = get' s) → get' (defaultIfEmpty get set d s) = get' s.
Proof. intros Hlens. unfold defaultIfEmpty. destruct (isEmpty (get s)); auto. Qed.

(** A field that is not empty is left as it is. *)
Lemma defaultIfEmpty_keeps get set d s :
  get s ≠ "" → defaultIfEmpty get set d s = s.
Proof.
  intros Hne. unfold defaultIfEmpty.
  destruct (isEmpty (get s)) eqn:E; [|done].
  by apply isEmpty_true in E.
Qed.

Ltac field_filled :=
  repeat first
    [ apply defaultIfEmpty_get; [lens | discriminate]
    | rewrite defaultIfEmpty_other by lens ].

(** The repair step fills every field, whatever it is given. *)
Lemma ensureServingFields_complete selectedServing availableServings :
  complete (ensureServingFields selectedServing availableServings).
Proof.
  unfold complete, ensureServingFields, descriptive, nutrients. cbv zeta.
  match goal with
  | |- context [defaultIfEmpty ServingID set_ServingID _ ?s] => generalize s; intros s0
  end.
  repeat (apply Forall_cons; split; [field_filled|]).
  constructor.
Qed.

End ServingSelector.

Section SelectedServing.
Context `{GoLib}.
Import Serving.

Lemma filterGramServings_nil : filterGramServings [] = [].
Proof. reflexivity. Qed.

(** A non-empty list always leaves a serving: the first gram serving,
    or the first serving of any unit. *)
Lemma filterGramServings_cons first rest :
  ∃ chosen others, filterGramServings (first :: rest) = chosen :: others.
Proof.
  unfold filterGramServings.
  destruct (List.filter isGramServing (first :: rest)) as [|c o] eqn:E; eauto.
Qed.

Lemma filterGramServings_no_gram first rest :
  List.filter isGramServing (first :: rest) = [] →
  filterGramServings (first :: rest) = [first].
Proof. unfold filterGramServings. by intros ->. Qed.

Lemma selectedServing_unfold servings :
  selectedServing servings =
  match filterGramServings servings with
  | first :: others => Some (ensureServingFields first (first :: others))
  | [] => None
  end.
Proof.
  unfold selectedServing, selectServings. simpl.
  by destruct (filterGramServings servings).
Qed.

(** When its first argument heads its second, the repair's fallback puts
    the serving in its own place. *)
Lemma ensureServingFields_self first others :
  ensureServingFields first (first :: others) = ensureServingFields first [].
Proof.
  unfold ensureServingFields.
  by destruct (isEmpty (ServingID first) || isEmpty (Calories first)).
Qed.

End SelectedServing.

(** C2 (amended).  For every non-empty serving list the selection leaves a
    serving whose six descriptive fields and eighteen nutrient fields are
    all non-empty, also when no serving is measured in grams; for the empty
    list it leaves none.  The repair step alone fills every field for every
    selected serving and every list of available servings. *)
Theorem selected_serving_complete `{GoLib} :
  (∀ selectedServing availableServings,
     complete (ensureServingFields selectedServing availableServings)) ∧
  (∀ first rest, ∃ s, selectedServing (first :: rest) = Some s ∧ complete s) ∧
  (∀ first rest, List.filter isGramServing (first :: rest) = [] →
     selectedServing (first :: rest) = Some (ensureServingFields first [first])) ∧
  selectedServing [] = None ∧
  (∀ s : Serving.t, length (Serving.descriptive s) = 6%nat ∧
                    length (Serving.nutrients s) = 18%nat).
Proof.
  split; [apply ensureServingFields_complete|].
  split.
  { intros first rest. rewrite selectedServing_unfold.
    destruct (filterGramServings_cons first rest) as (c & o & ->).
    eexists; split; [reflexivity|]. apply ensureServingFields_complete. }
  split.
  { intros first rest E. rewrite selectedServing_unfold.
    by rewrite filterGramServings_no_gram. }
  split; [reflexivity|]. by intros [].
Qed.

(** C2 as stated fails on the empty list: no serving is selected there, so
    none with every field filled. *)
Lemma selected_serving_empty_list :
  ¬ (∀ servings : list Serving.t,
       ∃ s, selectedServing (H := go_std) servings = Some s ∧ complete s).
Proof. intros Hall. destruct (Hall []) as (s & Hs & _). discriminate Hs. Qed.

(** C7.  The pipeline hands the repair step the filtered list, whose head
    is the selected serving itself: a first gram serving without identifier
    is kept and patched, and the first serving of the original list (here
    the one in cups) is not taken. *)
Theorem selection_keeps_incomplete_gram_serving :
  selectedServing (H := go_std) mixedServings
    = Some (gramServing "default" "100" "50" "2" "10" "1") ∧
  selectedServing (H := go_std) mixedServings ≠ head mixedServings ∧
  (∀ `{GoLib} servings first others,
     filterGramServings servings = first :: others →
     selectedServing servings = Some (ensureServingFields first [])).
Proof.
  split; [vm_compute; reflexivity|]. split; [vm_compute; discriminate|].
  intros G servings first others E.
  rewrite selectedServing_unfold, E. by rewrite ensureServingFields_self.
Qed.

Section PortionScaler.
Context `{GoLib}.
Import Serving.



(** With a non-empty request list no division panics. *)
Lemma findPortionRatio_total foodName foodWithPortions :
  foodWithPortions ≠ [] → is_Some (findPortionRatio foodName foodWithPortions).
Proof.
  intros Hne. unfold findPortionRatio.
  destruct (matchPortionRatio _ _); [eauto|].
  destruct foodWithPortions; [done|]. simpl length.
  destruct (Z.eqb_spec (Z.of_nat (S (length foodWithPortions))) 0); [lia|eauto].
Qed.

Lemma adjustFood_total foodWithPortions targetCalories food :
  foodWithPortions ≠ [] → is_Some (adjustFood foodWithPortions targetCalories food).
Proof.
  intros Hne. unfold adjustFood. destruct (Food.Servings food); [eauto|].
  destruct (findPortionRatio_total (Food.FoodName food) _ Hne) as [r ->]. simpl. eauto.
Qed.

Lemma adjustServingsByPortionRatio_lookup foods foodWithPortions targetCalories :
  foodWithPortions ≠ [] →
  ∃ optimizedFoods,
    adjustServingsByPortionRatio foods foodWithPortions targetCalories = Some optimizedFoods ∧
    ∀ i food, foods !! i = Some food →
      adjustFood foodWithPortions targetCalories food = optimizedFoods !! i.
Proof.
  intros Hne. unfold adjustServingsByPortionRatio.
  destruct (mapM (adjustFood foodWithPortions targetCalories) foods) as [out|] eqn:E.
  - exists out. split; [done|]. intros i food Hi.
    apply mapM_Some in E.
    destruct (Forall2_lookup_l _ _ _ _ _ E Hi) as (y & -> & Hy). done.
  - apply mapM_None in E. apply Exists_exists in E as (food & _ & Hnone).
    destruct (adjustFood_total foodWithPortions targetCalories food Hne) as [? Hs].
    congruence.
Qed.

End PortionScaler.

(** C4.  A serving whose calories or whose metric amount do not parse, or
    parse to zero, comes back from the portion scaler as it went in, for
    every target. *)
Theorem adjustServingForTargetCalories_degenerate `{GoLib}
    (serving : Serving.t) (targetCalories : float64) :
  unparseableOrZero (Serving.Calories serving) ∨
  unparseableOrZero (Serving.MetricServingAmount serving) →
  adjustServingForTargetCalories serving targetCalories = serving.
Proof.
  unfold unparseableOrZero, adjustServingForTargetCalories.
  intros [Hc | Ha].
  - destruct (ParseFloat (Serving.Calories serving)); [|done]. by rewrite Hc.
  - destruct (ParseFloat (Serving.Calories serving)) as [c|]; [|done].
    destruct (F64.eqb c F64.zero); [done|].
    destruct (ParseFloat (Serving.MetricServingAmount serving)); [|done]. by rewrite Ha.
Qed.

Lemma adjustServingForTargetCalories_degenerate_witness :
  unparseableOrZero (H := go_std) (Serving.Calories zeroCalorieServing) ∧
  adjustServingForTargetCalories (H := go_std) zeroCalorieServing (lit "500")
    = zeroCalorieServing.
Proof.
  split.
  - vm_compute. reflexivity.
  - apply (adjustServingForTargetCalories_degenerate (H := go_std)).
    left. vm_compute. reflexivity.
Defined.




(** ** The macro rebalancer *)

Section Rebalancer.
Context `{GoLib}.
Import Serving.

Lemma sameDescription_refl s : sameDescription s s.
Proof. by repeat split. Qed.

Lemma sameDescription_trans s1 s2 s3 :
  sameDescription s1 s2 → sameDescription s2 s3 → sameDescription s1 s3.
Proof.
  intros (?&?&?&?&?) (?&?&?&?&?). repeat split; congruence.
Qed.

(** Scaling writes the amount and the eighteen nutrients, nothing else. *)
Lemma scaleServing_sameDescription serving factor :
  sameDescription serving (scaleServing serving factor).
Proof.
  unfold scaleServing. destruct (F64.leb factor F64.zero).
  - apply sameDescription_refl.
  - destruct serving. by repeat split.
Qed.

Lemma sameFrame_refl food : sameFrame food food.
Proof.
  repeat split. destruct (Food.Servings food); [done|].
  split; [apply sameDescription_refl|done].
Qed.

Lemma sameFrame_trans f1 f2 f3 : sameFrame f1 f2 → sameFrame f2 f3 → sameFrame f1 f3.
Proof.
  intros (?&?&?&?&H12) (?&?&?&?&H23). repeat split; try congruence.
  destruct (Food.Servings f1), (Food.Servings f2), (Food.Servings f3); try done.
  destruct H12 as [? ->], H23 as [? ->].
  split; [by eapply sameDescription_trans|done].
Qed.

Lemma frames_refl foods : Forall2 sameFrame foods foods.
Proof. apply Forall_Forall2_diag, Forall_forall. intros. apply sameFrame_refl. Qed.

Lemma frames_trans l1 l2 l3 :
  Forall2 sameFrame l1 l2 → Forall2 sameFrame l2 l3 → Forall2 sameFrame l1 l3.
Proof.
  intros H12. revert l3. induction H12; intros l3 H23; inversion H23; subst;
    constructor; eauto using sameFrame_trans.
Qed.

Lemma setFirstServing_eq i serving foods food first rest :
  foods !! i = Some food → Food.Servings food = first :: rest →
  setFirstServing i serving foods = <[i := Food.set_Servings (serving :: rest) food]> foods.
Proof. intros Hi Hs. unfold setFirstServing. by rewrite Hi, Hs. Qed.

Lemma setFirstServing_frame i serving foods food first rest :
  foods !! i = Some food → Food.Servings food = first :: rest →
  sameDescription first serving →
  Forall2 sameFrame foods (setFirstServing i serving foods).
Proof.
  intros Hi Hs Hd. erewrite setFirstServing_eq by done.
  apply Forall2_same_length_lookup_2; [by rewrite length_insert|].
  intros j x y Hx Hy. destruct (decide (i = j)) as [->|Hne].
  - rewrite list_lookup_insert_eq in Hy by (by eapply lookup_lt_Some).
    simplify_eq. repeat split. simpl. by rewrite Hs.
  - rewrite list_lookup_insert_ne in Hy by done. simplify_eq. apply sameFrame_refl.
Qed.

Lemma fatCorrection_frame totals target foods :
  Forall2 sameFrame foods (fatCorrection totals target foods).
Proof.
  unfold fatCorrection.
  repeat (case_match; try apply frames_refl).
  eapply setFirstServing_frame; eauto using scaleServing_sameDescription.
Qed.

Lemma scaleAt_frame factor foods i : Forall2 sameFrame foods (scaleAt factor foods i).
Proof.
  unfold scaleAt. repeat (case_match; try apply frames_refl).
  eapply setFirstServing_frame; eauto using scaleServing_sameDescription.
Qed.

Lemma scaleAll_frame factor indexes foods :
  Forall2 sameFrame foods (fold_left (scaleAt factor) indexes foods).
Proof.
  revert foods. induction indexes as [|i rest IH]; intros foods; simpl.
  - apply frames_refl.
  - eapply frames_trans; [apply scaleAt_frame | apply IH].
Qed.

Lemma carbCorrection_frame totals target foods :
  Forall2 sameFrame foods (carbCorrection totals target foods).
Proof.
  unfold carbCorrection.
  repeat (case_match; try apply frames_refl). apply scaleAll_frame.
Qed.

Lemma rebalancePass_frame target foods :
  Forall2 sameFrame foods (rebalancePass target foods).
Proof.
  unfold rebalancePass.
  eapply frames_trans; [apply fatCorrection_frame | apply carbCorrection_frame].
Qed.

Lemma rebalanceLoop_frame pass target foods :
  Forall2 sameFrame foods (rebalanceLoop pass target foods).
Proof.
  revert foods. induction pass as [|n IH]; intros foods; simpl.
  - apply frames_refl.
  - eapply frames_trans; [apply rebalancePass_frame | apply IH].
Qed.

End Rebalancer.

(** C10.  [rebalanceMealFoods] returns as many foods as it was given, in
    the same order; each keeps its identifier, name, type and brand, its
    number of servings and every serving after the first; of the first
    serving the identifier, the two descriptions, the unit and the unit
    count are unchanged, so only the amount and the nutrient fields of a
    first serving can differ. *)
Theorem rebalanceMealFoods_frame `{GoLib} (foods : list Food.t) (target : MacroTarget.t) :
  length (rebalanceMealFoods foods target) = length foods ∧
  ∀ i food, foods !! i = Some food →
    ∃ food', rebalanceMealFoods foods target !! i = Some food' ∧
      Food.FoodID food' = Food.FoodID food ∧
      Food.FoodName food' = Food.FoodName food ∧
      Food.FoodType food' = Food.FoodType food ∧
      Food.BrandName food' = Food.BrandName food ∧
      length (Food.Servings food') = length (Food.Servings food) ∧
      tail (Food.Servings food') = tail (Food.Servings food) ∧
      ∀ first, head (Food.Servings food) = Some first →
        ∃ first', head (Food.Servings food') = Some first' ∧ sameDescription first first'.
Proof.
  pose proof (rebalanceLoop_frame 2 target foods) as HF.
  fold (rebalanceMealFoods foods target) in HF.
  split; [symmetry; by eapply Forall2_length|].
  intros i food Hi.
  destruct (Forall2_lookup_l _ _ _ _ _ HF Hi) as (food' & Hi' & (?&?&?&?&Hs)).
  exists food'. repeat (split; [done|]).
  destruct (Food.Servings food) as [|first rest], (Food.Servings food') as [|first' rest'];
    try done.
  destruct Hs as [Hd ->]. repeat (split; [done|]).
  intros f [= <-]. eauto.
Qed.

(** ** The fat-deficit correction against its specification *)

Section FatCorrection.
Context `{GoLib}.
Import Serving.

Lemma containsAny_spec n keywords :
  containsAny n keywords = true ↔ ∃ k, k ∈ keywords ∧ Strings.Contains n k = true.
Proof.
  unfold containsAny. rewrite existsb_exists.
  split; intros (k & Hk & Hc); exists k; split; try done; by apply list_elem_of_In.
Qed.

Lemma isWholeFoodFat_spec name :
  isWholeFoodFat name = true ↔ nameHasKeyword wholeFoodFatKeywords name.
Proof. apply containsAny_spec. Qed.

Lemma isHighFatProtein_spec name :
  isHighFatProtein name = true ↔ nameHasKeyword highFatProteinKeywords name.
Proof.
  unfold isHighFatProtein, nameHasKeyword, highFatProteinKeywords.
  rewrite !orb_true_iff. split.
  - intros [[[[?|?]|?]|?]|?]; eexists; (split; [|eassumption]); set_solver.
  - intros (k & Hk & Hc).
    repeat (apply elem_of_cons in Hk as [->|Hk]; [tauto|]). by apply elem_of_nil in Hk.
Qed.

(** The range loop with early exit finds the first position, or -1. *)
Lemma firstIndexFrom_spec (p : string → bool) (P : string → Prop) foods i :
  (∀ name, p name = true ↔ P name) → 0 ≤ i →
  (firstIndexFrom p i foods = -1 ∧ noFoodWhere P foods) ∨
  (i ≤ firstIndexFrom p i foods ∧
   firstFoodWhere P foods (Z.to_nat (firstIndexFrom p i foods - i))).
Proof.
  intros HpP. revert i. induction foods as [|f rest IH]; intros i Hi; simpl.
  - left. split; [done|]. intros j food Hj. by rewrite lookup_nil in Hj.
  - destruct (p (Food.FoodName f)) eqn:E.
    + right. split; [lia|]. replace (i - i) with 0 by lia. simpl. split.
      * exists f. split; [done|]. by apply HpP.
      * intros j food Hj. lia.
    + assert (¬ P (Food.FoodName f)) as Hnot.
      { intros HP. apply HpP in HP. congruence. }
      destruct (IH (i + 1) ltac:(lia)) as [[-> Hnone] | [Hle [(food & Hat & HP) Hbefore]]].
      * left. split; [done|]. intros [|j] food Hj; simplify_eq/=; eauto.
      * right. split; [lia|].
        replace (Z.to_nat (firstIndexFrom p (i + 1) rest - i))
          with (S (Z.to_nat (firstIndexFrom p (i + 1) rest - (i + 1)))) by lia.
        split.
        -- exists food. by split.
        -- intros [|j] food' Hlt Hj; simplify_eq/=; [done|].
           eapply Hbefore; [|done]. lia.
Qed.

Lemma firstFoodWhere_not_none P foods i :
  firstFoodWhere P foods i → noFoodWhere P foods → False.
Proof. intros [(food & Hat & HP) _] Hnone. by eapply Hnone. Qed.

Lemma firstFoodWhere_unique P foods i j :
  firstFoodWhere P foods i → firstFoodWhere P foods j → i = j.
Proof.
  intros [(fi & Hi & HPi) Hbi] [(fj & Hj & HPj) Hbj].
  destruct (lt_eq_lt_dec i j) as [[Hlt|Heq]|Hgt]; [|done|].
  - exfalso. by eapply (Hbj i fi).
  - exfalso. by eapply (Hbi j fj).
Qed.

Lemma correctionTarget_unique foods i j :
  correctionTarget foods i → correctionTarget foods j → i = j.
Proof.
  intros [Hi | [Hn Hi]] [Hj | [Hm Hj]];
    eauto using firstFoodWhere_unique;
    exfalso; eauto using firstFoodWhere_not_none.
Qed.

(** [findBestFatFoodIndex] returns the correction target, or -1 when
    there is none. *)
Lemma findBestFatFoodIndex_spec foods :
  (findBestFatFoodIndex foods = -1 ∧ ∀ i, ¬ correctionTarget foods i) ∨
  (0 ≤ findBestFatFoodIndex foods ∧
   correctionTarget foods (Z.to_nat (findBestFatFoodIndex foods))).
Proof.
  unfold findBestFatFoodIndex.
  destruct (firstIndexFrom_spec isWholeFoodFat _ foods 0 isWholeFoodFat_spec ltac:(lia))
    as [[-> Hnone] | [Hle Hfirst]]; simpl.
  - destruct (firstIndexFrom_spec isHighFatProtein _ foods 0 isHighFatProtein_spec
                ltac:(lia)) as [[-> Hnone'] | [Hle' Hfirst']].
    + left. split; [done|]. intros i [Hi | [_ Hi]]; eauto using firstFoodWhere_not_none.
    + right. split; [done|]. right. split; [done|].
      by replace (firstIndexFrom isHighFatProtein 0 foods - 0)
        with (firstIndexFrom isHighFatProtein 0 foods) in Hfirst' by lia.
  - destruct (Z.eqb_spec (firstIndexFrom isWholeFoodFat 0 foods) (-1)) as [E|_]; [lia|].
    simpl. right. split; [done|]. left.
    by replace (firstIndexFrom isWholeFoodFat 0 foods - 0)
      with (firstIndexFrom isWholeFoodFat 0 foods) in Hfirst by lia.
Qed.

Lemma fatLowerBound_eq target :
  F64.mul (MacroTarget.Fats target) (F64.of_Q (1 - tolerance)) = fatFloor target.
Proof. reflexivity. Qed.

(** The order of [float64]: [<] is asymmetric, NaN included. *)
Lemma SFcompare_antisym x y c :
  SFcompare x y = Some c → SFcompare y x = Some (CompOpp c).
Proof.
  destruct x as [sx|sx| |sx mx ex], y as [sy|sy| |sy my ey]; simpl;
    try discriminate; intros [= <-]; try (by destruct sx); try (by destruct sy);
    try (by destruct sx, sy).
  destruct sx, sy; try done; f_equal.
  - rewrite (Z.compare_antisym ex ey). destruct (ex ?= ey) eqn:E; simpl; try done.
    change (PosDef.Pos.compare_cont Eq my mx) with (Pos.compare my mx).
    change (PosDef.Pos.compare_cont Eq mx my) with (Pos.compare mx my).
    by rewrite (Pos.compare_antisym mx my).
  - rewrite (Z.compare_antisym ex ey). destruct (ex ?= ey) eqn:E; simpl; try done.
    change (PosDef.Pos.compare_cont Eq my mx) with (Pos.compare my mx).
    change (PosDef.Pos.compare_cont Eq mx my) with (Pos.compare mx my).
    by rewrite (Pos.compare_antisym mx my).
Qed.

Lemma ltb_asym x y : F64.ltb x y = true → F64.ltb y x = false.
Proof.
  unfold F64.ltb, SFltb. destruct (SFcompare x y) as [[]|] eqn:E; try discriminate.
  intros _. by rewrite (SFcompare_antisym _ _ _ E).
Qed.

Lemma ltb_irrefl x : F64.ltb x x = false.
Proof.
  destruct (F64.ltb x x) eqn:E; [|done]. pose proof (ltb_asym _ _ E). congruence.
Qed.

(** [minFloat] returns the lesser of its arguments. *)
Lemma minFloat_lesser a b : lesserOf a b (minFloat a b).
Proof.
  unfold lesserOf, minFloat. destruct (F64.ltb a b) eqn:E.
  - split; [by left|]. split; [apply ltb_irrefl|by apply ltb_asym].
  - split; [by right|]. split; [done|apply ltb_irrefl].
Qed.

(** [scaleServing] scales, for a positive factor. *)
Lemma scaleServing_corrected serving factor :
  corrected factor serving (scaleServing serving factor).
Proof.
  unfold corrected, scaleServing. destruct (F64.leb factor F64.zero); [done|].
  destruct serving. split; [by repeat split|].
  unfold quantities, nutrients. cbn. repeat constructor.
Qed.

(** The fat branch of a pass does what the specification says. *)
Lemma fatCorrection_meets_spec totals target foods :
  fatCorrectionSpec totals target foods (fatCorrection totals target foods).
Proof.
  unfold fatCorrection. rewrite fatLowerBound_eq.
  destruct (F64.ltb (MacroTarget.Fats totals) (fatFloor target)) eqn:Hlt;
    [|by apply fat_no_deficit].
  destruct (findBestFatFoodIndex_spec foods) as [[-> Hnone] | [Hle Htarget]].
  - simpl. by apply fat_no_target.
  - destruct (Z.leb_spec 0 (findBestFatFoodIndex foods)) as [_|?]; [|lia].
    set (i := Z.to_nat (findBestFatFoodIndex foods)) in *.
    destruct (foods !! i) as [food|] eqn:Hi.
    2:{ destruct Htarget as [[(f & Hf & _) _] | [_ [(f & Hf & _) _]]]; congruence. }
    destruct (Food.Servings food) as [|serving rest] eqn:Hs.
    { eapply fat_target_without_fat; eauto. by rewrite Hs. }
    change (parseFloatDefault (Fat serving)) with (contribution (Fat serving)).
    destruct (F64.gtb (contribution (Fat serving)) F64.zero) eqn:Hfat.
    + erewrite setFirstServing_eq by done.
      eapply fat_target_scaled; [done..| |apply scaleServing_corrected].
      apply minFloat_lesser.
    + eapply fat_target_without_fat; eauto. by rewrite Hs.
Qed.

End FatCorrection.

(** C5.  [rebalanceMealFoods] runs exactly two passes; in each, with the
    macros aggregated at the start of the pass, the fat branch does what
    the specification says.  Below [target_fat × 0.95] it takes the
    correction target, the first whole-food fat or else the first high-fat
    protein; when that food has a first serving whose fat is positive, it
    replaces this serving by the serving scaled by [1 + m], where [m] is
    the lesser of 0.6 and [(deficit / fat) × 0.8], and leaves every other
    food; and it changes no food otherwise.  Scaled means: the amount and
    each nutrient read, multiplied by the factor and written with three
    decimals, the other fields kept. *)
Theorem fat_correction_in_each_pass `{GoLib} (foods : list Food.t) (target : MacroTarget.t) :
  let totals1 := calculateMealMacros foods in
  let afterFat1 := fatCorrection totals1 target foods in
  let afterPass1 := carbCorrection totals1 target afterFat1 in
  let totals2 := calculateMealMacros afterPass1 in
  let afterFat2 := fatCorrection totals2 target afterPass1 in
  rebalanceMealFoods foods target = carbCorrection totals2 target afterFat2 ∧
  fatCorrectionSpec totals1 target foods afterFat1 ∧
  fatCorrectionSpec totals2 target afterPass1 afterFat2.
Proof.
  cbv zeta. split; [reflexivity|].
  split; apply fatCorrection_meets_spec.
Qed.

(** ** The concurrent food resolver *)

Module ResolverFacts.
Import Resolver.

(** *** Counting workers *)

Lemma elem_of_names p ws k :
  k ∈ names p ws ↔ ∃ w, ws !! k = Some w ∧ p w = true.
Proof.
  unfold names. rewrite elem_of_dom. unfold is_Some. split.
  - intros (w & Hw). apply map_lookup_filter_Some in Hw as [? ?]. eauto.
  - intros (w & Hw & Hp). exists w. by apply map_lookup_filter_Some.
Qed.

Lemma names_insert p ws k w :
  names p (<[k := w]> ws)
  = if p w then {[k]} ∪ names p ws else names p ws ∖ {[k]}.
Proof.
  apply set_eq. intros x.
  assert (x ∈ names p (<[k := w]> ws) ↔ (x = k ∧ p w = true) ∨ (x ≠ k ∧ x ∈ names p ws))
    as ->.
  { rewrite !elem_of_names. destruct (decide (x = k)) as [->|Hne].
    - rewrite lookup_insert_eq. split.
      + intros (w' & [= <-] & Hp). by left.
      + intros [[_ Hp] | [Hne _]]; [eauto|done].
    - rewrite lookup_insert_ne by done. split.
      + intros Hx. by right.
      + intros [[Heq _] | [_ Hx]]; done. }
  destruct (p w) eqn:E.
  - rewrite elem_of_union, elem_of_singleton.
    destruct (decide (x = k)); intuition congruence.
  - rewrite elem_of_difference, elem_of_singleton. intuition congruence.
Qed.

Lemma count_insert_fresh p ws k w :
  ws !! k = None → count p (<[k := w]> ws) = (count p ws + b2n (p w))%nat.
Proof.
  intros Hk. unfold count. rewrite names_insert.
  assert (k ∉ names p ws) as Hnot.
  { rewrite elem_of_names. intros (w' & ? & _). congruence. }
  destruct (p w); simpl.
  - rewrite size_union by set_solver. rewrite size_singleton. lia.
  - replace (names p ws ∖ {[k]}) with (names p ws) by set_solver. lia.
Qed.

Lemma count_insert p ws k w0 w :
  ws !! k = Some w0 →
  (count p (<[k := w]> ws) + b2n (p w0) = count p ws + b2n (p w))%nat.
Proof.
  intros Hk. unfold count. rewrite names_insert.
  destruct (p w0) eqn:E0.
  - assert (k ∈ names p ws) as Hin by (rewrite elem_of_names; eauto).
    destruct (p w); simpl.
    + replace ({[k]} ∪ names p ws) with (names p ws) by set_solver. lia.
    + rewrite size_difference by set_solver. rewrite size_singleton.
      assert (size (names p ws) ≠ 0)%nat.
      { intros Hz. apply size_empty_inv in Hz. set_solver. }
      lia.
  - assert (k ∉ names p ws) as Hnot.
    { rewrite elem_of_names. intros (w' & ? & ?). congruence. }
    destruct (p w); simpl.
    + rewrite size_union by set_solver. rewrite size_singleton. lia.
    + replace (names p ws ∖ {[k]}) with (names p ws) by set_solver. lia.
Qed.

Lemma count_empty p : count p ∅ = 0%nat.
Proof. unfold count, names. by rewrite map_filter_empty, dom_empty_L, size_empty. Qed.

Lemma count_pos p ws : (0 < count p ws)%nat → ∃ k w, ws !! k = Some w ∧ p w = true.
Proof.
  unfold count. intros Hpos.
  destruct (set_choose_L (names p ws)) as [k Hk].
  { intros Hempty. rewrite Hempty, size_empty in Hpos. lia. }
  apply elem_of_names in Hk as (w & ? & ?). eauto.
Qed.

Lemma count_zero p ws k w : count p ws = 0%nat → ws !! k = Some w → p w = false.
Proof.
  unfold count. intros Hz Hk. apply size_empty_inv in Hz.
  destruct (p w) eqn:E; [|done].
  assert (k ∈ names p ws) by (rewrite elem_of_names; eauto). set_solver.
Qed.

Lemma count_mono p q ws :
  (∀ w, p w = true → q w = true) → (count p ws ≤ count q ws)%nat.
Proof.
  intros Hpq. unfold count. apply subseteq_size. intros k.
  rewrite !elem_of_names. intros (w & ? & ?). eauto.
Qed.

(** *** The measure *)

Lemma total_empty f : total f ∅ = 0%nat.
Proof. unfold total. by rewrite map_fold_empty. Qed.

Lemma total_insert_fresh f ws k w :
  ws !! k = None → total f (<[k := w]> ws) = (f w + total f ws)%nat.
Proof.
  intros Hk. unfold total. rewrite map_fold_insert_L; [done| |done].
  intros. lia.
Qed.

Lemma total_insert f ws k w0 w :
  ws !! k = Some w0 → (total f (<[k := w]> ws) + f w0 = total f ws + f w)%nat.
Proof.
  intros Hk.
  rewrite <- (insert_delete_eq ws k w).
  rewrite <- (insert_delete_id ws k w0) at 2 by done.
  rewrite !total_insert_fresh by apply lookup_delete_eq. lia.
Qed.

(** *** The invariant *)

Lemma init_invariant uniqueFoods : invariant uniqueFoods (init uniqueFoods).
Proof.
  split; simpl; rewrite ?count_empty, ?dom_empty_L, ?size_empty; try done.
  - set_solver.
  - unfold semaphoreCapacity. lia.
  - constructor.
Qed.

Lemma worker_not_remaining uniqueFoods σ name w :
  invariant uniqueFoods σ → workers σ !! name = Some w → name ∉ remaining (pc σ).
Proof.
  intros Hinv Hw Hin. apply (inv_fresh _ _ Hinv name Hin). apply elem_of_dom. eauto.
Qed.

Lemma remaining_not_worker uniqueFoods σ name :
  invariant uniqueFoods σ → name ∈ remaining (pc σ) → workers σ !! name = None.
Proof.
  intros Hinv Hin. apply not_elem_of_dom. intros Hd. by apply (inv_fresh _ _ Hinv name).
Qed.

Lemma dom_insert_known (ws : gmap string worker) k w0 w :
  ws !! k = Some w0 → dom (<[k := w]> ws) = dom ws.
Proof.
  intros Hk. rewrite dom_insert_L.
  assert (k ∈ dom ws) by (apply elem_of_dom; eauto). set_solver.
Qed.

Lemma names_insert_same p (ws : gmap string worker) k w0 w :
  ws !! k = Some w0 → p w = p w0 → names p (<[k := w]> ws) = names p ws.
Proof.
  intros Hk Hp. rewrite names_insert, Hp.
  destruct (p w0) eqn:E.
  - assert (k ∈ names p ws) by (rewrite elem_of_names; eauto). set_solver.
  - assert (k ∉ names p ws).
    { rewrite elem_of_names. intros (w' & ? & ?). congruence. }
    set_solver.
Qed.

(** One goal of the invariant after a worker moved from the state found
    by [Hw] to another. *)
Ltac worker_moved Hw :=
  simpl in *;
  first
    [ done
    | rewrite (dom_insert_known _ _ _ _ Hw); done
    | rewrite (names_insert_same _ _ _ _ _ Hw) by done; done
    | match goal with
      | |- context [count ?p (<[?k := ?w]> ?ws)] =>
          let Hc := fresh "Hc" in
          pose proof (count_insert p ws k _ w Hw) as Hc; simpl in Hc;
          repeat match goal with
                 | Hm : mutex _ = _ |- _ => rewrite Hm in *
                 | Hm : context [if mutex ?s then _ else _] |- _ => destruct (mutex s)
                 end;
          lia
      end ].

Lemma exec_invariant uniqueFoods e σ σ' :
  invariant uniqueFoods σ → exec e σ = Some σ' → invariant uniqueFoods σ'.
Proof.
  intros Hinv Hexec.
  destruct e; simpl in Hexec; repeat case_match; simplify_eq.
  1: { (* Spawn *)
    assert (workers σ !! name = None) as Hnew.
    { eapply remaining_not_worker; [done|]. by rewrite H. }
    destruct Hinv; split; simpl in *; rewrite ?H in *; simpl in *; try done;
      rewrite ?count_insert_fresh by done; simpl; try lia.
    + rewrite dom_insert_L. rewrite <- inv_names0.
      apply set_eq. intros x. destruct (decide (x = name)); set_solver.
    + rewrite dom_insert_L.
      assert (name ∉ dom (workers σ)) by by apply not_elem_of_dom. set_solver.
    + rewrite names_insert. simpl. rewrite inv_results0.
      assert (name ∉ names hasStored (workers σ)).
      { rewrite elem_of_names. intros (? & ? & ?). congruence. }
      set_solver.
    + rewrite names_insert. simpl. rewrite inv_lookups0.
      assert (name ∉ names hasCalled (workers σ)).
      { rewrite elem_of_names. intros (? & ? & ?). congruence. }
      set_solver.
    + rewrite dom_insert_L, size_union, size_singleton; [lia|].
      assert (name ∉ dom (workers σ)) by by apply not_elem_of_dom. set_solver.
  }
  1: { (* EndLoop *)
    destruct Hinv; split; simpl in *; rewrite ?H in *; simpl in *; try done.
  }
  1: { (* Return *)
    destruct σ; simpl in *; subst. destruct Hinv; split; simpl in *; try done.
  }
  all: destruct Hinv; split; try worker_moved H; simpl in *.
  - (* Call: the name has not been looked up before *)
    apply NoDup_cons. split; [|done].
    intros Hin. apply (elem_of_list_to_set (C := gset string)) in Hin.
    rewrite inv_lookups0, elem_of_names in Hin. destruct Hin as (? & ? & ?).
    simplify_eq.
  - rewrite names_insert. simpl. by rewrite inv_lookups0.
  - (* Store: the entry of the name appears *)
    rewrite dom_insert_L, names_insert. simpl. by rewrite inv_results0.
  - lia.
  - intros Hr. specialize (inv_returned0 Hr). lia.
Qed.

Lemma run_invariant uniqueFoods schedule σ σ' :
  invariant uniqueFoods σ → run schedule σ = Some σ' → invariant uniqueFoods σ'.
Proof.
  revert σ. induction schedule as [|e rest IH]; intros σ Hinv Hrun; simpl in Hrun.
  - by simplify_eq.
  - destruct (exec e σ) as [σ1|] eqn:He; [|done].
    eapply IH; [|done]. by eapply exec_invariant.
Qed.

Lemma reachable_invariant uniqueFoods σ :
  reachable uniqueFoods σ → invariant uniqueFoods σ.
Proof. intros [schedule Hrun]. eapply run_invariant; [apply init_invariant|done]. Qed.

Lemma count_present p ws k w :
  ws !! k = Some w → p w = true → (0 < count p ws)%nat.
Proof.
  intros Hk Hp. unfold count.
  assert (k ∈ names p ws) as Hin by (rewrite elem_of_names; eauto).
  destruct (size (names p ws)) eqn:E; [|lia].
  apply size_empty_inv in E. set_solver.
Qed.

(** *** No deadlock *)

Lemma mutex_holder_moves σ name w :
  workers σ !! name = Some w → holdsMutex w = true → ∃ e σ', exec e σ = Some σ'.
Proof.
  intros Hw Hm. destruct w; try done.
  - exists (Store name). simpl. rewrite Hw. eauto.
  - exists (Unlock name). simpl. rewrite Hw. eauto.
Qed.

Lemma slot_holder_moves uniqueFoods σ name w :
  invariant uniqueFoods σ →
  workers σ !! name = Some w → holdsSlot w = true → ∃ e σ', exec e σ = Some σ'.
Proof.
  intros Hinv Hw Hs. destruct w; try done.
  - exists (Call name). simpl. rewrite Hw. eauto.
  - exists (Reply name None). simpl. rewrite Hw. eauto.
  - destruct (mutex σ) eqn:Hm.
    + pose proof (inv_mutex _ _ Hinv) as Hc. rewrite Hm in Hc.
      destruct (count_pos holdsMutex (workers σ)) as (k & w & Hk & Hh); [lia|].
      by eapply mutex_holder_moves.
    + exists (Lock name). simpl. rewrite Hw, Hm. eauto.
  - by eapply mutex_holder_moves.
  - by eapply mutex_holder_moves.
  - pose proof (inv_semaphore _ _ Hinv) as Hc.
    pose proof (count_present holdsSlot _ _ _ Hw eq_refl).
    destruct (semaphore σ) as [|n] eqn:Hn; [lia|].
    exists (Release name). simpl. rewrite Hw, Hn. eauto.
Qed.

Lemma unfinished_worker_moves uniqueFoods σ name w :
  invariant uniqueFoods σ →
  workers σ !! name = Some w → unfinished w = true → ∃ e σ', exec e σ = Some σ'.
Proof.
  intros Hinv Hw Hu.
  destruct (holdsSlot w) eqn:Hs; [by eapply slot_holder_moves|].
  destruct w; try done.
  - destruct (decide (semaphore σ < semaphoreCapacity)%nat) as [Hlt|Hfull].
    + exists (Acquire name). simpl. rewrite Hw. rewrite decide_True by done. eauto.
    + pose proof (inv_semaphore _ _ Hinv) as Hc.
      destruct (count_pos holdsSlot (workers σ)) as (k & w & Hk & Hh).
      { unfold semaphoreCapacity in Hfull. lia. }
      by eapply slot_holder_moves.
  - pose proof (inv_wg _ _ Hinv) as Hc.
    pose proof (count_present unfinished _ _ _ Hw eq_refl).
    destruct (wg σ) as [|n] eqn:Hn; [lia|].
    exists (Done name). simpl. rewrite Hw, Hn. eauto.
Qed.

(** Until the function has returned some goroutine can take a step. *)
Lemma progress uniqueFoods σ :
  invariant uniqueFoods σ → pc σ ≠ Returned → ∃ e σ', exec e σ = Some σ'.
Proof.
  intros Hinv Hpc. destruct (pc σ) as [names| |] eqn:Hc; [| |done].
  - destruct (decide (names = ∅)) as [->|Hne].
    + exists EndLoop. simpl. rewrite Hc. rewrite decide_True by done. eauto.
    + apply set_choose_L in Hne as [name Hname].
      exists (Spawn name). simpl. rewrite Hc. rewrite decide_True by done. eauto.
  - destruct (wg σ) as [|n] eqn:Hn.
    + exists Return. simpl. rewrite Hc, Hn. eauto.
    + pose proof (inv_wg _ _ Hinv) as Hw.
      destruct (count_pos unfinished (workers σ)) as (k & w & Hk & Hu); [lia|].
      by eapply unfinished_worker_moves.
Qed.

(** *** Termination *)

Lemma exec_measure uniqueFoods e σ σ' :
  invariant uniqueFoods σ → exec e σ = Some σ' → measure σ = S (measure σ').
Proof.
  intros Hinv Hexec. unfold measure.
  destruct e; simpl in Hexec; repeat case_match; simplify_eq.
  1: { assert (workers σ !! name = None) as Hnew.
       { eapply remaining_not_worker; [done|]. by rewrite H. }
       rewrite ?H. cbn [pc workers callerSteps].
       rewrite total_insert_fresh by done. change (stepsLeft Spawned) with 8%nat.
       rewrite size_difference by set_solver. rewrite size_singleton.
       assert (size remaining0 ≠ 0)%nat.
       { intros Hz. apply size_empty_inv in Hz. set_solver. }
       lia. }
  1: { rewrite ?H. cbn [pc workers callerSteps]. rewrite ?size_empty. lia. }
  1: { rewrite ?H. cbn [pc workers callerSteps]. lia. }
  all: cbn [pc workers set_worker].
  all: match goal with
       | Hw : workers _ !! ?k = Some ?w0 |- context [total ?f (<[?k := ?w]> ?ws)] =>
           pose proof (total_insert f ws k w0 w Hw) as Ht; simpl in Ht
       end; lia.
Qed.

Lemma run_measure uniqueFoods schedule σ σ' :
  invariant uniqueFoods σ → run schedule σ = Some σ' →
  measure σ = (length schedule + measure σ')%nat.
Proof.
  revert σ. induction schedule as [|e rest IH]; intros σ Hinv Hrun; simpl in Hrun.
  - by simplify_eq.
  - destruct (exec e σ) as [σ1|] eqn:He; [|done].
    rewrite (exec_measure _ _ _ _ Hinv He). simpl.
    rewrite (IH σ1); [done| |done]. by eapply exec_invariant.
Qed.

Lemma measure_init uniqueFoods : measure (init uniqueFoods) = (9 * size uniqueFoods + 2)%nat.
Proof. unfold measure. simpl. rewrite total_empty. lia. Qed.

(** Every execution can be continued to the return of the function. *)
Lemma completes uniqueFoods σ :
  invariant uniqueFoods σ → ∃ schedule σ', run schedule σ = Some σ' ∧ pc σ' = Returned.
Proof.
  remember (measure σ) as n eqn:Hn. revert σ Hn.
  induction n as [n IH] using lt_wf_ind. intros σ -> Hinv.
  assert (pc σ = Returned ∨ pc σ ≠ Returned) as [Hret|Hrun]
    by (destruct (pc σ); auto).
  - exists [], σ. by split.
  - destruct (progress _ _ Hinv Hrun) as (e & σ1 & He).
    pose proof (exec_measure _ _ _ _ Hinv He) as Hm.
    destruct (IH (measure σ1) ltac:(lia) σ1 eq_refl) as (rest & σ' & Hrest & Hret).
    { by eapply exec_invariant. }
    exists (e :: rest), σ'. split; [|done]. simpl. by rewrite He.
Qed.

(** *** After the return *)

Lemma returned_workers uniqueFoods σ :
  invariant uniqueFoods σ → pc σ = Returned →
  dom (workers σ) = uniqueFoods ∧
  ∀ name w, workers σ !! name = Some w → w = Finished.
Proof.
  intros Hinv Hret. split.
  - pose proof (inv_names _ _ Hinv) as Hn. rewrite Hret in Hn. simpl in Hn. set_solver.
  - intros name w Hw.
    pose proof (inv_returned _ _ Hinv Hret) as Hz. rewrite (inv_wg _ _ Hinv) in Hz.
    pose proof (count_zero _ _ _ _ Hz Hw) as Hf. by destruct w.
Qed.

Lemma names_all p (ws : gmap string worker) :
  (∀ name w, ws !! name = Some w → p w = true) → names p ws = dom ws.
Proof.
  intros Hall. apply set_eq. intros k. rewrite elem_of_names, elem_of_dom. split.
  - intros (w & Hw & _). eauto.
  - intros [w Hw]. eauto.
Qed.

Lemma returned_final uniqueFoods σ e :
  invariant uniqueFoods σ → pc σ = Returned → exec e σ = None.
Proof.
  intros Hinv Hret. destruct (returned_workers _ _ Hinv Hret) as [_ Hfin].
  destruct e; simpl; rewrite ?Hret; try done;
    destruct (workers σ !! name) as [w|] eqn:Hw; try done;
    rewrite (Hfin _ _ Hw); done.
Qed.

(** The names collected from a plan are the names it mentions. *)
Lemma elem_of_collectUniqueFoods meals name :
  name ∈ collectUniqueFoods meals ↔ mentioned meals name.
Proof.
  unfold collectUniqueFoods, mentioned.
  assert (∀ foods (acc : gset string),
            name ∈ fold_left
                     (λ (u : gset string) (p : FoodWithPortion.t),
                        {[FoodWithPortion.Name p]} ∪ u) foods acc
            ↔ name ∈ acc ∨ ∃ p, p ∈ foods ∧ FoodWithPortion.Name p = name) as Hinner.
  { induction foods as [|p rest IH]; intros acc; simpl.
    - split; [auto|]. intros [?|(p & Hp & _)]; [done|]. by apply elem_of_nil in Hp.
    - rewrite IH, elem_of_union, elem_of_singleton. split.
      + intros [[->|?]|(q & Hq & Hn)]; eauto using list_elem_of_here, list_elem_of_further.
      + intros [?|(q & Hq & Hn)]; [auto|].
        apply elem_of_cons in Hq as [->|Hq]; eauto. }
  assert (∀ (acc : gset string),
            name ∈ fold_left
                     (λ (u : gset string) (foods : list FoodWithPortion.t),
                        fold_left
                          (λ (u : gset string) (p : FoodWithPortion.t),
                             {[FoodWithPortion.Name p]} ∪ u) foods u) meals acc
            ↔ name ∈ acc ∨ ∃ foods p, foods ∈ meals ∧ p ∈ foods ∧
                                        FoodWithPortion.Name p = name) as Houter.
  { induction meals as [|foods rest IH]; intros acc; simpl.
    - split; [auto|]. intros [?|(f & p & Hf & _)]; [done|]. by apply elem_of_nil in Hf.
    - rewrite IH, Hinner. split.
      + intros [[?|(p & Hp & Hn)]|(f & p & Hf & Hp & Hn)];
          eauto 8 using list_elem_of_here, list_elem_of_further.
      + intros [?|(f & p & Hf & Hp & Hn)]; [auto|].
        apply elem_of_cons in Hf as [->|Hf]; eauto 8. }
  rewrite Houter. split; [|auto]. intros [Hin|?]; [|done]. by apply elem_of_empty in Hin.
Qed.

Lemma count_at_most_one p ws k1 w1 k2 w2 :
  (count p ws ≤ 1)%nat →
  ws !! k1 = Some w1 → p w1 = true → ws !! k2 = Some w2 → p w2 = true → k1 = k2.
Proof.
  unfold count. intros Hle H1 Hp1 H2 Hp2.
  destruct (decide (k1 = k2)) as [|Hne]; [done|]. exfalso.
  assert ({[k1; k2]} ⊆ names p ws) as Hsub.
  { intros x. rewrite elem_of_union, !elem_of_singleton, elem_of_names.
    intros [->| ->]; eauto. }
  apply subseteq_size in Hsub.
  rewrite size_union, !size_singleton in Hsub by set_solver. lia.
Qed.

(** Only [foodResults[name] = food] changes the result map. *)
Lemma exec_changes_results e σ σ' :
  exec e σ = Some σ' → foodResults σ' ≠ foodResults σ →
  ∃ name food, e = Store name ∧ workers σ !! name = Some (Locked food).
Proof.
  intros Hexec Hne. destruct e; simpl in Hexec; repeat case_match; simplify_eq; eauto.
Qed.

End ResolverFacts.

(** C3.  Every execution of [batchFetchFoods] can run to its return, and
    when it has returned, after exactly [9 * n + 2] atomic actions for [n]
    names, the result map has an entry for each input name and for nothing
    else (a food or [nil]), [SearchFood] was called once for each name and
    for nothing else, and [apiCalls] is [n].  A name that several meals of
    the plan mention is one key of [uniqueFoods], so it is looked up once. *)
Theorem resolver_one_entry_one_lookup_per_name (uniqueFoods : gset string) :
  (∃ schedule σ,
     Resolver.run schedule (Resolver.init uniqueFoods) = Some σ ∧
     Resolver.pc σ = Resolver.Returned) ∧
  (∀ schedule σ,
     Resolver.run schedule (Resolver.init uniqueFoods) = Some σ →
     Resolver.pc σ = Resolver.Returned →
     dom (Resolver.foodResults σ) = uniqueFoods ∧
     Resolver.lookups σ ≡ₚ elements uniqueFoods ∧
     (∀ name, name ∈ uniqueFoods →
        is_Some (Resolver.foodResults σ !! name) ∧
        count_occ string_dec (Resolver.lookups σ) name = 1%nat) ∧
     (∀ name, name ∉ uniqueFoods →
        Resolver.foodResults σ !! name = None ∧
        count_occ string_dec (Resolver.lookups σ) name = 0%nat) ∧
     Resolver.apiCalls σ = size uniqueFoods ∧
     length schedule = (9 * size uniqueFoods + 2)%nat) ∧
  (∀ meals name,
     uniqueFoods = Resolver.collectUniqueFoods meals →
     (name ∈ uniqueFoods ↔ Resolver.mentioned meals name)).
Proof.
  split; [apply (ResolverFacts.completes uniqueFoods), ResolverFacts.init_invariant|].
  split; [|intros meals name ->; apply ResolverFacts.elem_of_collectUniqueFoods].
  intros schedule σ Hrun Hret.
  pose proof (ResolverFacts.run_invariant _ _ _ _
                (ResolverFacts.init_invariant uniqueFoods) Hrun) as Hinv.
  destruct (ResolverFacts.returned_workers _ _ Hinv Hret) as [Hdom Hfin].
  assert (dom (Resolver.foodResults σ) = uniqueFoods) as Hres.
  { rewrite (Resolver.inv_results _ _ Hinv), <- Hdom.
    apply ResolverFacts.names_all. intros k w Hw. by rewrite (Hfin _ _ Hw). }
  assert (list_to_set (Resolver.lookups σ) = uniqueFoods) as Hcalls.
  { rewrite (Resolver.inv_lookups _ _ Hinv), <- Hdom.
    apply ResolverFacts.names_all. intros k w Hw. by rewrite (Hfin _ _ Hw). }
  pose proof (Resolver.inv_lookups_nodup _ _ Hinv) as Hnodup.
  assert (∀ name, name ∈ Resolver.lookups σ ↔ name ∈ uniqueFoods) as Hmem.
  { intros name. rewrite <- Hcalls. by rewrite elem_of_list_to_set. }
  split; [done|]. split.
  { apply NoDup_Permutation; [done|apply NoDup_elements|].
    intros name. by rewrite Hmem, elem_of_elements. }
  split.
  { intros name Hin. split.
    - apply elem_of_dom. by rewrite Hres.
    - apply (proj1 (NoDup_count_occ' string_dec (Resolver.lookups σ))
               (proj1 (NoDup_ListNoDup _) Hnodup)).
      apply list_elem_of_In. by apply Hmem. }
  split.
  { intros name Hnot. split.
    - apply not_elem_of_dom. by rewrite Hres.
    - apply count_occ_not_In. rewrite <- list_elem_of_In. by rewrite Hmem. }
  split.
  { by rewrite (Resolver.inv_apiCalls _ _ Hinv), Hdom. }
  pose proof (ResolverFacts.run_measure _ _ _ _
                (ResolverFacts.init_invariant uniqueFoods) Hrun) as Hm.
  rewrite ResolverFacts.measure_init in Hm.
  unfold Resolver.measure in Hm. rewrite Hret in Hm. simpl in Hm.
  assert (Resolver.total Resolver.stepsLeft (Resolver.workers σ) = 0%nat) as Hz; [|lia].
  clear Hm Hdom. revert Hfin. generalize (Resolver.workers σ).
  intros ws. induction ws as [|k w ws Hk IH] using map_ind; intros Hfin.
  - apply ResolverFacts.total_empty.
  - rewrite ResolverFacts.total_insert_fresh by done.
    rewrite (Hfin k w) by apply lookup_insert_eq. simpl.
    apply IH. intros k' w' Hw'. apply (Hfin k').
    rewrite lookup_insert_ne; [done|]. intros ->. congruence.
Qed.

Lemma resolver_one_entry_one_lookup_per_name_witness :
  ∃ σ,
    Resolver.run overlapping (Resolver.init (Resolver.collectUniqueFoods twoMeals)) = Some σ ∧
    Resolver.pc σ = Resolver.Returned ∧
    dom (Resolver.foodResults σ) = Resolver.collectUniqueFoods twoMeals ∧
    count_occ string_dec (Resolver.lookups σ) "Rice" = 1%nat.
Proof.
  destruct (Resolver.run overlapping
              (Resolver.init (Resolver.collectUniqueFoods twoMeals))) as [σ|] eqn:Hrun;
    [|vm_compute in Hrun; discriminate Hrun].
  assert (Resolver.pc σ = Resolver.Returned) as Hret.
  { vm_compute in Hrun. injection Hrun as <-. reflexivity. }
  exists σ. split; [reflexivity|]. split; [exact Hret|].
  destruct (resolver_one_entry_one_lookup_per_name (Resolver.collectUniqueFoods twoMeals))
    as (_ & Hall & Hplan).
  destruct (Hall overlapping σ Hrun Hret) as (Hdom & _ & Hin & _).
  split; [exact Hdom|].
  apply Hin. apply (Hplan twoMeals "Rice" eq_refl).
  exists [FoodWithPortion.mk "Rice" 100], (FoodWithPortion.mk "Rice" 100).
  split; [|split; [|reflexivity]].
  - apply list_elem_of_further, list_elem_of_here.
  - apply list_elem_of_here.
Defined.

(** C9.  In every state an execution of [batchFetchFoods] reaches: the
    workers inside [SearchFood] are among those that hold a slot of the
    semaphore, whose number is the channel's element count and at most 10;
    at most one worker is between [Lock] and [Unlock], and an action that
    changes the result map is the store of that worker, with the mutex
    held; once the function has returned every worker has finished, the
    map has all its entries and no action follows; and until then some
    goroutine can always take a step. *)
Theorem resolver_bounded_exclusive_joined
    (uniqueFoods : gset string) (schedule : list Resolver.event) (σ : Resolver.state) :
  Resolver.run schedule (Resolver.init uniqueFoods) = Some σ →
  ((Resolver.count Resolver.inLookup (Resolver.workers σ)
      ≤ Resolver.count Resolver.holdsSlot (Resolver.workers σ))%nat ∧
   Resolver.count Resolver.holdsSlot (Resolver.workers σ) = Resolver.semaphore σ ∧
   (Resolver.semaphore σ ≤ 10)%nat) ∧
  ((Resolver.count Resolver.holdsMutex (Resolver.workers σ) ≤ 1)%nat ∧
   ∀ e σ', Resolver.exec e σ = Some σ' →
     Resolver.foodResults σ' ≠ Resolver.foodResults σ →
     ∃ name food,
       e = Resolver.Store name ∧
       Resolver.workers σ !! name = Some (Resolver.Locked food) ∧
       Resolver.mutex σ = true ∧
       ∀ other w, Resolver.workers σ !! other = Some w →
                  Resolver.holdsMutex w = true → other = name) ∧
  (Resolver.pc σ = Resolver.Returned →
     (∀ name, name ∈ uniqueFoods → Resolver.workers σ !! name = Some Resolver.Finished) ∧
     dom (Resolver.foodResults σ) = uniqueFoods ∧
     ∀ e, Resolver.exec e σ = None) ∧
  (Resolver.pc σ ≠ Resolver.Returned → ∃ e σ', Resolver.exec e σ = Some σ').
Proof.
  intros Hrun.
  pose proof (ResolverFacts.run_invariant _ _ _ _
                (ResolverFacts.init_invariant uniqueFoods) Hrun) as Hinv.
  assert (Resolver.count Resolver.holdsMutex (Resolver.workers σ) ≤ 1)%nat as Hone.
  { rewrite <- (Resolver.inv_mutex _ _ Hinv). destruct (Resolver.mutex σ); lia. }
  split.
  { split; [|split].
    - apply ResolverFacts.count_mono. by intros [].
    - symmetry. apply (Resolver.inv_semaphore _ _ Hinv).
    - apply (Resolver.inv_capacity _ _ Hinv). }
  split.
  { split; [done|]. intros e σ' Hexec Hne.
    destruct (ResolverFacts.exec_changes_results _ _ _ Hexec Hne) as (name & food & -> & Hw).
    exists name, food. split; [done|]. split; [done|]. split.
    - pose proof (ResolverFacts.count_present Resolver.holdsMutex _ _ _ Hw eq_refl).
      pose proof (Resolver.inv_mutex _ _ Hinv). destruct (Resolver.mutex σ); [done|lia].
    - intros other w Hother Hheld.
      by eapply (ResolverFacts.count_at_most_one Resolver.holdsMutex). }
  split.
  { intros Hret. destruct (ResolverFacts.returned_workers _ _ Hinv Hret) as [Hdom Hfin].
    split; [|split].
    - intros name Hin. rewrite <- Hdom in Hin. apply elem_of_dom in Hin as [w Hw].
      by rewrite Hw, (Hfin _ _ Hw).
    - rewrite (Resolver.inv_results _ _ Hinv), <- Hdom.
      apply ResolverFacts.names_all. intros k w Hw. by rewrite (Hfin _ _ Hw).
    - intros e. by eapply ResolverFacts.returned_final. }
  by apply ResolverFacts.progress with uniqueFoods.
Qed.

Lemma resolver_bounded_exclusive_joined_witness :
  ∃ σ,
    Resolver.run (take 13 overlapping)
      (Resolver.init (Resolver.collectUniqueFoods twoMeals)) = Some σ ∧
    Resolver.workers σ !! "Rice" = Some (Resolver.Locked (Resolver.firstFood riceFound)) ∧
    (Resolver.semaphore σ ≤ 10)%nat ∧
    (Resolver.count Resolver.holdsMutex (Resolver.workers σ) ≤ 1)%nat.
Proof.
  destruct (Resolver.run (take 13 overlapping)
              (Resolver.init (Resolver.collectUniqueFoods twoMeals))) as [σ|] eqn:Hrun;
    [|vm_compute in Hrun; discriminate Hrun].
  exists σ. split; [reflexivity|]. split.
  { vm_compute in Hrun. injection Hrun as <-. vm_compute. reflexivity. }
  destruct (resolver_bounded_exclusive_joined _ _ _ Hrun) as ((_ & _ & Hcap) & (Hone & _) & _).
  split; [exact Hcap|exact Hone].
Defined.

(** ** Binary64 rounding *)

(** The relative error of the operations of [SpecFloat] at precision 53
    whose result is a normal number. *)

Module Binary64.

Lemma digits2_pos_size p : digits2_pos p = Pos.size p.
Proof. induction p; simpl; congruence. Qed.

Lemma digits2_pos_bounds p :
  2 ^ (Z.pos (digits2_pos p) - 1) ≤ Z.pos p < 2 ^ Z.pos (digits2_pos p).
Proof.
  rewrite digits2_pos_size. split.
  - pose proof (Pos.size_le p) as Hle.
    assert (2 ^ Z.pos (Pos.size p) ≤ 2 * Z.pos p) as Hz.
    { change 2 with (Z.pos 2). rewrite <- Pos2Z.inj_pow. lia. }
    replace (Z.pos (Pos.size p)) with (Z.pos (Pos.size p) - 1 + 1) in Hz by lia.
    rewrite Z.pow_add_r in Hz by lia. lia.
  - pose proof (Pos.size_gt p) as Hgt.
    change 2 with (Z.pos 2). rewrite <- Pos2Z.inj_pow. lia.
Qed.

(** Shifting a mantissa right. *)
Lemma shr_1_m r : 0 ≤ shr_m r → shr_m (shr_1 r) = shr_m r / 2.
Proof.
  destruct r as [m rb sb]. simpl. intros Hm.
  destruct m as [|p|p]; [done| |lia].
  destruct p as [p|p|]; simpl.
  - rewrite Pos2Z.inj_xI. apply Z.div_unique with 1; lia.
  - rewrite Pos2Z.inj_xO. apply Z.div_unique with 0; lia.
  - reflexivity.
Qed.

Lemma shr_1_nonneg r : 0 ≤ shr_m r → 0 ≤ shr_m (shr_1 r).
Proof. intros H. rewrite shr_1_m by done. apply Z.div_pos; lia. Qed.

Lemma iter_shr_m n r :
  0 ≤ shr_m r → shr_m (SpecFloat.iter_pos shr_1 n r) = shr_m r / 2 ^ Z.pos n.
Proof.
  revert r. induction n as [n IH|n IH|]; intros r Hr; simpl.
  - rewrite IH, IH, shr_1_m; try done.
    + rewrite !Z.div_div by lia. f_equal.
      rewrite Pos2Z.inj_xI. rewrite <- Z.pow_add_r by lia.
      rewrite <- (Z.pow_1_r 2) at 1. rewrite <- Z.pow_add_r by lia. f_equal. lia.
    + by apply shr_1_nonneg.
    + rewrite IH by (by apply shr_1_nonneg). apply Z.div_pos; [|lia].
      by apply shr_1_nonneg.
  - rewrite IH, IH; try done.
    + rewrite Z.div_div by lia. f_equal.
      rewrite Pos2Z.inj_xO. rewrite <- Z.pow_add_r by lia. f_equal. lia.
    + rewrite IH by done. apply Z.div_pos; lia.
  - rewrite shr_1_m by done. by rewrite Z.pow_1_r.
Qed.

Lemma round_nearest_even_range m l :
  round_nearest_even m l = m ∨ round_nearest_even m l = m + 1.
Proof.
  destruct l as [|[]]; simpl; auto. destruct (Z.even m); auto.
Qed.

Lemma shr_record_of_loc_m m l : shr_m (shr_record_of_loc m l) = m.
Proof. by destruct l as [|[]]. Qed.

Lemma digits2_pos_unique p k :
  2 ^ (k - 1) ≤ Z.pos p < 2 ^ k → Z.pos (digits2_pos p) = k.
Proof.
  intros [Hlo Hhi]. pose proof (digits2_pos_bounds p) as [Hlo' Hhi'].
  set (d := Z.pos (digits2_pos p)) in *.
  assert (0 < d) by (unfold d; lia).
  destruct (Z.lt_trichotomy d k) as [Hlt|[Heq|Hgt]]; [|done|].
  - assert (2 ^ d ≤ 2 ^ (k - 1)) by (apply Z.pow_le_mono_r; lia). lia.
  - assert (0 ≤ k).
    { destruct (Z.le_gt_cases 0 k); [done|]. rewrite (Z.pow_neg_r 2 k) in Hhi by lia. lia. }
    assert (2 ^ k ≤ 2 ^ (d - 1)) by (apply Z.pow_le_mono_r; lia). lia.
Qed.

Lemma shr_spec r e n :
  0 ≤ n → 0 ≤ shr_m r →
  ∃ r', shr r e n = (r', e + n) ∧ shr_m r' = shr_m r / 2 ^ n.
Proof.
  intros Hn Hr. unfold shr. destruct n as [|p|p]; [| |lia].
  - exists r. split; [by rewrite Z.add_0_r|]. by rewrite Z.div_1_r.
  - eexists. split; [reflexivity|]. by apply iter_shr_m.
Qed.

Lemma fexp_normal e : -1021 ≤ e → fexp 53 1024 e = e - 53.
Proof. intros He. unfold fexp, emin. lia. Qed.

(** Rounding a mantissa of at least 53 bits whose value is in the normal
    range: the result is a normal number, one of the two neighbours of the
    truncated mantissa. *)
Lemma binary_round_aux_normal s (mx : positive) ex lx :
  53 ≤ Z.pos (digits2_pos mx) → -1074 ≤ ex → Z.pos (digits2_pos mx) + ex ≤ 1023 →
  ∃ m' e',
    binary_round_aux 53 1024 s (Z.pos mx) ex lx = S754_finite s m' e' ∧
    digits2_pos m' = 53%positive ∧
    Z.pos (digits2_pos mx) + ex - 53 ≤ e' ∧
    (Z.pos m' * 2 ^ (e' - (Z.pos (digits2_pos mx) + ex - 53))
       = Z.pos mx / 2 ^ (Z.pos (digits2_pos mx) - 53) ∨
     Z.pos m' * 2 ^ (e' - (Z.pos (digits2_pos mx) + ex - 53))
       = Z.pos mx / 2 ^ (Z.pos (digits2_pos mx) - 53) + 1).
Proof.
  set (d := Z.pos (digits2_pos mx)). intros Hd Hex Hmax.
  pose proof (digits2_pos_bounds mx) as [Hlo Hhi]. fold d in Hlo, Hhi.
  set (m1 := Z.pos mx / 2 ^ (d - 53)).
  assert (2 ^ 52 ≤ m1 < 2 ^ 53) as Hm1.
  { unfold m1. split.
    - apply Z.div_le_lower_bound; [apply Z.pow_pos_nonneg; lia|].
      rewrite <- Z.pow_add_r by lia. replace (d - 53 + 52) with (d - 1) by lia. done.
    - apply Z.div_lt_upper_bound; [apply Z.pow_pos_nonneg; lia|].
      rewrite <- Z.pow_add_r by lia. replace (d - 53 + 53) with d by lia. done. }
  unfold binary_round_aux, shr_fexp.
  change (Zdigits2 (Z.pos mx)) with d.
  rewrite fexp_normal by lia.
  destruct (shr_spec (shr_record_of_loc (Z.pos mx) lx) ex (d + ex - 53 - ex))
    as (r1 & -> & Hr1); [lia|by rewrite shr_record_of_loc_m|].
  rewrite shr_record_of_loc_m in Hr1.
  replace (d + ex - 53 - ex) with (d - 53) in * by lia. fold m1 in Hr1.
  replace (ex + (d - 53)) with (d + ex - 53) by lia.
  set (e1 := d + ex - 53).
  rewrite Hr1.
  set (r0 := round_nearest_even m1 (loc_of_shr_record r1)).
  assert (r0 = m1 ∨ r0 = m1 + 1) as Hr0 by apply round_nearest_even_range.
  destruct (Z.eq_dec r0 (2 ^ 53)) as [Htop|Hnot].
  - (* the mantissa overflowed to 2^53: one more shift *)
    rewrite Htop. change (Zdigits2 (2 ^ 53)) with 54.
    rewrite fexp_normal by (unfold e1; lia).
    replace (54 + e1 - 53 - e1) with 1 by lia. simpl shr. cbv iota beta.
    change (shr_m (shr_1 (shr_record_of_loc (2 ^ 53) loc_Exact))) with (Z.pos (2 ^ 52)).
    cbv iota beta.
    destruct (Z.leb_spec (e1 + 1) (1024 - 53)) as [_|Hbad]; [|unfold e1 in Hbad; lia].
    exists (2 ^ 52)%positive, (e1 + 1). split; [done|]. split; [done|]. split; [lia|].
    replace (e1 + 1 - e1) with 1 by lia. change (Z.pos (2 ^ 52) * 2 ^ 1) with (2 ^ 53).
    rewrite <- Htop. destruct Hr0; auto.
  - assert (2 ^ 52 ≤ r0 < 2 ^ 53) as Hr0' by lia.
    destruct r0 as [|q|q] eqn:Hq; [lia| |lia].
    assert (Zdigits2 (Z.pos q) = 53) as ->.
    { simpl. apply digits2_pos_unique. exact Hr0'. }
    rewrite fexp_normal by (unfold e1; lia).
    replace (53 + e1 - 53 - e1) with 0 by lia. simpl shr. cbv iota beta.
    simpl shr_m.
    destruct (Z.leb_spec e1 (1024 - 53)) as [_|Hbad]; [|unfold e1 in Hbad; lia].
    exists q, e1. split; [done|]. split.
    { assert (Z.pos (digits2_pos q) = 53) by (by apply digits2_pos_unique). lia. }
    split; [lia|]. rewrite Z.sub_diag, Z.mul_1_r. exact Hr0.
Qed.

Local Open Scope Q_scope.

Lemma pow2_pos e : 0 < F64.pow2 e.
Proof. apply Qpower_0_lt. reflexivity. Qed.

Lemma pow2_add a b : F64.pow2 (a + b) == F64.pow2 a * F64.pow2 b.
Proof. apply Qpower_plus. discriminate. Qed.

Lemma pow2_inject n : (0 ≤ n)%Z → F64.pow2 n == inject_Z (2 ^ n).
Proof. intros Hn. unfold F64.pow2. by rewrite Zpower_Qpower. Qed.

Lemma pow2_le a b : (a ≤ b)%Z → F64.pow2 a <= F64.pow2 b.
Proof. intros Hab. apply Qpower_le_compat_l; [done|]. discriminate. Qed.

Lemma pow2_lt_inv a b : F64.pow2 a < F64.pow2 b → (a < b)%Z.
Proof.
  intros Hlt. destruct (Z.lt_ge_cases a b) as [|Hge]; [done|].
  apply pow2_le in Hge. lra.
Qed.

Lemma inject_Z_le a b : (a ≤ b)%Z → inject_Z a <= inject_Z b.
Proof. intros. by rewrite <- Zle_Qle. Qed.

(** The value of the rounded number against any [x] between the mantissa
    and its successor. *)
Lemma binary_round_aux_value s (mx : positive) ex lx (x : Q) :
  (53 ≤ Z.pos (digits2_pos mx))%Z → (-1074 ≤ ex)%Z →
  (Z.pos (digits2_pos mx) + ex ≤ 1023)%Z →
  inject_Z (Z.pos mx) * F64.pow2 ex <= x →
  x <= inject_Z (Z.pos mx + 1) * F64.pow2 ex →
  let z := binary_round_aux 53 1024 s (Z.pos mx) ex lx in
  F64.normal z ∧ F64.negative z = s ∧
  x * (1 - F64.u) <= F64.magnitude z ∧ F64.magnitude z <= x * (1 + F64.u).
Proof.
  intros Hd Hex Hmax Hlo Hhi z.
  destruct (binary_round_aux_normal s mx ex lx Hd Hex Hmax)
    as (m' & e' & Hz & Hdig & He' & Hr0).
  subst z. rewrite Hz. simpl.
  set (d := Z.pos (digits2_pos mx)) in *.
  set (n := (d - 53)%Z) in *. set (e1 := (d + ex - 53)%Z) in *.
  set (m1 := (Z.pos mx / 2 ^ n)%Z) in *.
  pose proof (digits2_pos_bounds mx) as [Hmlo Hmhi]. fold d in Hmlo, Hmhi.
  assert (0 < 2 ^ n)%Z as Hpn by (apply Z.pow_pos_nonneg; unfold n; lia).
  assert (2 ^ 52 ≤ m1)%Z as Hm1.
  { unfold m1. apply Z.div_le_lower_bound; [done|].
    rewrite <- Z.pow_add_r by (unfold n; lia).
    replace (n + 52)%Z with (d - 1)%Z by (unfold n; lia). done. }
  assert (m1 * 2 ^ n ≤ Z.pos mx ∧ Z.pos mx + 1 ≤ (m1 + 1) * 2 ^ n)%Z as [Hdiv1 Hdiv2].
  { pose proof (Z.div_mod (Z.pos mx) (2 ^ n) ltac:(lia)) as Hdm.
    pose proof (Z.mod_pos_bound (Z.pos mx) (2 ^ n) Hpn). fold m1 in Hdm. nia. }
  assert (e' = e1 ∨ e' = (e1 + 1)%Z) as He12.
  { destruct (Z.eq_dec e' e1) as [|Hne]; [auto|]. right.
    destruct (Z.le_gt_cases e' (e1 + 1)) as [|Hgt]; [lia|]. exfalso.
    assert (2 ^ 2 ≤ 2 ^ (e' - e1))%Z by (apply Z.pow_le_mono_r; lia).
    pose proof (digits2_pos_bounds m') as [_ Hm'hi]. rewrite Hdig in Hm'hi.
    pose proof (digits2_pos_bounds m') as [Hm'lo _]. rewrite Hdig in Hm'lo.
    assert (m1 < 2 ^ 53)%Z.
    { unfold m1. apply Z.div_lt_upper_bound; [done|].
      rewrite <- Z.pow_add_r by (unfold n; lia).
      replace (n + 53)%Z with d by (unfold n; lia). done. }
    change (2 ^ (53 - 1))%Z with (2 ^ 52)%Z in Hm'lo. nia. }
  split; [split; [done|unfold e1 in *; lia]|]. split; [done|].
  (* everything at the scale [2^e1] *)
  set (P := F64.pow2 e1).
  assert (0 < P) as HP by apply pow2_pos.
  assert (F64.pow2 e1 == inject_Z (2 ^ n) * F64.pow2 ex) as Hscale.
  { replace e1 with (n + ex)%Z by (unfold e1, n; lia).
    rewrite pow2_add, pow2_inject by (unfold n; lia). reflexivity. }
  assert (inject_Z (Z.pos m') * F64.pow2 e' == inject_Z (Z.pos m' * 2 ^ (e' - e1)) * P) as Hmag.
  { replace e' with ((e' - e1) + e1)%Z at 1 by lia.
    rewrite pow2_add, pow2_inject by lia. rewrite inject_Z_mult. unfold P. ring. }
  assert (inject_Z m1 * P <= x) as Hx1.
  { apply Qle_trans with (inject_Z (Z.pos mx) * F64.pow2 ex); [|done].
    unfold P. rewrite Hscale, Qmult_assoc, <- inject_Z_mult.
    apply Qmult_le_compat_r; [by apply inject_Z_le|]. apply Qlt_le_weak, pow2_pos. }
  assert (x <= (inject_Z m1 + 1) * P) as Hx2.
  { apply Qle_trans with (inject_Z (Z.pos mx + 1) * F64.pow2 ex); [done|].
    unfold P. rewrite Hscale, Qmult_assoc.
    change 1 with (inject_Z 1). rewrite <- inject_Z_plus, <- inject_Z_mult.
    apply Qmult_le_compat_r; [by apply inject_Z_le|]. apply Qlt_le_weak, pow2_pos. }
  assert (inject_Z (2 ^ 52) * P <= inject_Z m1 * P) as Hbig.
  { apply Qmult_le_compat_r; [by apply inject_Z_le|]. lra. }
  rewrite Hmag.
  assert (inject_Z (Z.pos m' * 2 ^ (e' - e1)) * P == inject_Z m1 * P ∨
          inject_Z (Z.pos m' * 2 ^ (e' - e1)) * P == inject_Z m1 * P + P) as Hval.
  { destruct Hr0 as [-> | ->]; [by left|right].
    rewrite inject_Z_plus. change (inject_Z 1) with 1. ring. }
  assert ((inject_Z m1 + 1) * P == inject_Z m1 * P + P) as Hsucc by ring.
  rewrite Hsucc in Hx2.
  change (inject_Z (2 ^ 52)) with (4503599627370496 # 1) in Hbig.
  unfold F64.u. change (2 ^ 52)%positive with 4503599627370496%positive.
  generalize dependent (inject_Z m1 * P). intros t Hx1 Hx2 Hbig Hval.
  generalize dependent (inject_Z (Z.pos m' * 2 ^ (e' - e1)) * P). intros r _ Hval.
  destruct Hval as [Hr | Hr]; rewrite Hr; split; lra.
Qed.

Lemma inject_Z_pos p : 0 < inject_Z (Z.pos p).
Proof. unfold Qlt. simpl. lia. Qed.

Lemma magnitude_pos x : F64.normal x → 0 < F64.magnitude x.
Proof.
  destruct x as [| | |s m e]; try done. intros _. cbn [F64.magnitude].
  apply Qmult_lt_0_compat; [apply inject_Z_pos|apply pow2_pos].
Qed.

Lemma normal_magnitude_bounds x :
  F64.normal x →
  F64.pow2 (F64.exponent x + 52) <= F64.magnitude x ∧
  F64.magnitude x < F64.pow2 (F64.exponent x + 53).
Proof.
  destruct x as [| | |s m e]; try done. intros [Hd _].
  cbn [F64.magnitude F64.exponent].
  pose proof (digits2_pos_bounds m) as [Hlo Hhi]. rewrite Hd in Hlo, Hhi.
  change (2 ^ (53 - 1))%Z with (2 ^ 52)%Z in Hlo.
  pose proof (pow2_pos e) as Hp.
  rewrite (Z.add_comm e 52), (Z.add_comm e 53), !pow2_add.
  rewrite (pow2_inject 52), (pow2_inject 53) by lia. split.
  - apply Qmult_le_compat_r; [by apply inject_Z_le|lra].
  - apply Qmult_lt_compat_r; [done|]. by rewrite <- Zlt_Qlt.
Qed.

(** The exponent of a normal number from bounds on its magnitude. *)
Lemma exponent_bounds x a b :
  F64.normal x → F64.pow2 a <= F64.magnitude x → F64.magnitude x <= F64.pow2 b →
  (a - 52 ≤ F64.exponent x ≤ b - 52)%Z.
Proof.
  intros Hn Ha Hb. destruct (normal_magnitude_bounds x Hn) as [Hlo Hhi]. split.
  - assert (F64.pow2 a < F64.pow2 (F64.exponent x + 53)) as Hlt by lra.
    apply pow2_lt_inv in Hlt. lia.
  - destruct (Z.le_gt_cases (F64.exponent x + 52) b) as [|Hgt]; [lia|]. exfalso.
    assert (F64.pow2 (b + 1) <= F64.pow2 (F64.exponent x + 52)) as Hle
      by (apply pow2_le; lia).
    assert (F64.pow2 b < F64.pow2 (b + 1)) as Hlt.
    { rewrite pow2_add. change (F64.pow2 1) with 2. pose proof (pow2_pos b). lra. }
    lra.
Qed.

Lemma digits_product mx my :
  digits2_pos mx = 53%positive → digits2_pos my = 53%positive →
  (105 ≤ Z.pos (digits2_pos (mx * my)) ≤ 106)%Z.
Proof.
  intros Hx Hy.
  pose proof (digits2_pos_bounds mx) as [Hxl Hxh]. rewrite Hx in Hxl, Hxh.
  pose proof (digits2_pos_bounds my) as [Hyl Hyh]. rewrite Hy in Hyl, Hyh.
  pose proof (digits2_pos_bounds (mx * my)) as [Hl Hh].
  set (d := Z.pos (digits2_pos (mx * my))) in *.
  change (2 ^ (53 - 1))%Z with (2 ^ 52)%Z in *.
  rewrite Pos2Z.inj_mul in Hl, Hh.
  assert (2 ^ 104 ≤ Z.pos mx * Z.pos my < 2 ^ 106)%Z as [Hpl Hph].
  { change (2 ^ 104)%Z with (2 ^ 52 * 2 ^ 52)%Z.
    change (2 ^ 106)%Z with (2 ^ 53 * 2 ^ 53)%Z. nia. }
  split.
  - destruct (Z.le_gt_cases 105 d) as [|Hlt]; [done|]. exfalso.
    assert (2 ^ d ≤ 2 ^ 104)%Z by (apply Z.pow_le_mono_r; lia). lia.
  - destruct (Z.le_gt_cases d 106) as [|Hgt]; [done|]. exfalso.
    assert (2 ^ 106 ≤ 2 ^ (d - 1))%Z by (apply Z.pow_le_mono_r; lia). lia.
Qed.

(** Multiplication of two normal numbers whose product stays normal. *)
Lemma mul_value x y :
  F64.normal x → F64.normal y →
  (-1074 ≤ F64.exponent x + F64.exponent y ≤ 916)%Z →
  let z := SFmul 53 1024 x y in
  F64.normal z ∧ F64.negative z = xorb (F64.negative x) (F64.negative y) ∧
  F64.magnitude x * F64.magnitude y * (1 - F64.u) <= F64.magnitude z ∧
  F64.magnitude z <= F64.magnitude x * F64.magnitude y * (1 + F64.u).
Proof.
  destruct x as [| | |sx mx ex]; try done. destruct y as [| | |sy my ey]; try done.
  intros [Hdx _] [Hdy _] He. cbn [F64.exponent] in He.
  pose proof (digits_product mx my Hdx Hdy) as Hd.
  assert (F64.magnitude (S754_finite sx mx ex) * F64.magnitude (S754_finite sy my ey)
          == inject_Z (Z.pos (mx * my)) * F64.pow2 (ex + ey)) as Hprod.
  { cbn [F64.magnitude]. rewrite pow2_add, Pos2Z.inj_mul, inject_Z_mult. ring. }
  cbv zeta. rewrite Hprod.
  change (SFmul 53 1024 (S754_finite sx mx ex) (S754_finite sy my ey))
    with (binary_round_aux 53 1024 (xorb sx sy) (Z.pos (mx * my)) (ex + ey) loc_Exact).
  apply binary_round_aux_value; try lia.
  - apply Qle_refl.
  - apply Qmult_le_compat_r; [apply inject_Z_le; lia|]. apply Qlt_le_weak, pow2_pos.
Qed.

(** Division of two finite numbers, normal or given by plain integer
    mantissas, whose quotient is normal. *)
Lemma div_value sx mx ex sy my ey :
  let d1 := Z.pos (digits2_pos mx) in
  let d2 := Z.pos (digits2_pos my) in
  (d1 - d2 ≤ 53)%Z → (-1021 ≤ d1 + ex - (d2 + ey) ≤ 1022)%Z →
  let z := SFdiv 53 1024 (S754_finite sx mx ex) (S754_finite sy my ey) in
  let q := (inject_Z (Z.pos mx) * F64.pow2 ex) / (inject_Z (Z.pos my) * F64.pow2 ey) in
  F64.normal z ∧ F64.negative z = xorb sx sy ∧
  q * (1 - F64.u) <= F64.magnitude z ∧ F64.magnitude z <= q * (1 + F64.u).
Proof.
  intros d1 d2 Hd HE z q. subst z. unfold SFdiv, SFdiv_core_binary.
  change (Zdigits2 (Z.pos mx)) with d1. change (Zdigits2 (Z.pos my)) with d2.
  rewrite fexp_normal by lia.
  set (e' := (d1 + ex - (d2 + ey) - 53)%Z).
  replace (Z.min e' (ex - ey)) with e' by (unfold e'; lia).
  set (s := (ex - ey - e')%Z).
  assert (0 ≤ s)%Z as Hs by (unfold s, e'; lia).
  set (m' := match s with Z.pos _ => Z.shiftl (Z.pos mx) s | 0%Z => Z.pos mx | Z.neg _ => 0%Z end).
  assert (m' = Z.pos mx * 2 ^ s)%Z as Hm'.
  { unfold m'. destruct s as [|p|p] eqn:Hsp; [lia| |lia]. by rewrite Z.shiftl_mul_pow2. }
  clearbody m'.
  pose proof (digits2_pos_bounds mx) as [Hxl Hxh]. fold d1 in Hxl, Hxh.
  pose proof (digits2_pos_bounds my) as [Hyl Hyh]. fold d2 in Hyl, Hyh.
  assert (0 < 2 ^ s)%Z as Hps by (apply Z.pow_pos_nonneg; lia).
  assert (2 ^ (d1 - 1) * 2 ^ s = 2 ^ 52 * 2 ^ d2)%Z as Hpow1.
  { rewrite <- !Z.pow_add_r by (unfold d1, d2 in *; lia). f_equal. unfold s, e'. lia. }
  assert (2 ^ d1 * 2 ^ s = 2 ^ 54 * 2 ^ (d2 - 1))%Z as Hpow2.
  { rewrite <- !Z.pow_add_r by (unfold d1, d2 in *; lia). f_equal. unfold s, e'. lia. }
  assert (0 < 2 ^ (d2 - 1))%Z by (apply Z.pow_pos_nonneg; unfold d2; lia).
  assert (0 < 2 ^ (d1 - 1))%Z by (apply Z.pow_pos_nonneg; unfold d1; lia).
  destruct (Z.div_eucl m' (Z.pos my)) as [qz r] eqn:Hdiv.
  assert (m' = Z.pos my * qz + r ∧ 0 ≤ r < Z.pos my)%Z as [Hqr Hr].
  { pose proof (Z_div_mod m' (Z.pos my) ltac:(lia)) as Hdm. rewrite Hdiv in Hdm. lia. }
  assert (2 ^ 52 ≤ qz < 2 ^ 54)%Z as [Hql Hqh].
  { split.
    - destruct (Z.le_gt_cases (2 ^ 52) qz) as [|Hlt]; [done|]. exfalso.
      assert (qz + 1 ≤ 2 ^ 52)%Z by lia. nia.
    - destruct (Z.le_gt_cases (2 ^ 54) qz) as [Hge|]; [|done]. exfalso. nia. }
  destruct qz as [|qp|qp]; [lia| |lia].
  assert (53 ≤ Z.pos (digits2_pos qp) ≤ 54)%Z as Hdq.
  { pose proof (digits2_pos_bounds qp) as [Hl Hh].
    set (dq := Z.pos (digits2_pos qp)) in *. split.
    - destruct (Z.le_gt_cases 53 dq) as [|Hlt]; [done|]. exfalso.
      assert (2 ^ dq ≤ 2 ^ 52)%Z by (apply Z.pow_le_mono_r; lia). lia.
    - destruct (Z.le_gt_cases dq 54) as [|Hgt]; [done|]. exfalso.
      assert (2 ^ 54 ≤ 2 ^ (dq - 1))%Z by (apply Z.pow_le_mono_r; lia). lia. }
  assert (q == inject_Z m' / inject_Z (Z.pos my) * F64.pow2 e') as Hq.
  { unfold q. rewrite Hm', inject_Z_mult, <- pow2_inject by lia.
    assert (F64.pow2 ex == F64.pow2 s * F64.pow2 e' * F64.pow2 ey) as ->.
    { rewrite <- !pow2_add. replace (s + e' + ey)%Z with ex by (unfold s; lia). reflexivity. }
    pose proof (pow2_pos ey). pose proof (pow2_pos e'). pose proof (pow2_pos s).
    assert (0 < inject_Z (Z.pos my)) by apply inject_Z_pos.
    field. split; lra. }
  assert (0 < inject_Z (Z.pos my)) as Hmy by apply inject_Z_pos.
  pose proof (pow2_pos e') as Hpe.
  apply binary_round_aux_value; try (unfold e'; lia).
  - rewrite Hq. apply Qmult_le_compat_r; [|lra].
    apply Qle_shift_div_l; [done|]. rewrite <- inject_Z_mult. apply inject_Z_le. lia.
  - rewrite Hq. apply Qmult_le_compat_r; [|lra].
    apply Qle_shift_div_r; [done|]. rewrite <- inject_Z_mult. apply inject_Z_le. lia.
Qed.

(** *** Formatting with three decimals *)

Lemma roundHalfEven_error n d :
  (0 < d)%Z → (0 ≤ n)%Z →
  (0 ≤ Strconv.roundHalfEven n d)%Z ∧
  (2 * Z.abs (Strconv.roundHalfEven n d * d - n) ≤ d)%Z.
Proof.
  intros Hd Hn. unfold Strconv.roundHalfEven.
  pose proof (Z.div_mod n d ltac:(lia)) as Hdm.
  pose proof (Z.mod_pos_bound n d Hd) as Hr.
  assert (0 ≤ n / d)%Z by (apply Z.div_pos; lia).
  destruct (Z.compare_spec (2 * (n mod d)) d) as [Heq|Hlt|Hgt].
  - destruct (Z.even (n / d)); split; nia.
  - split; nia.
  - split; nia.
Qed.

(** The thousandths printed for a finite number are within one half of a
    thousand times its magnitude. *)
Lemma thousandths_error s m e :
  let N := Strconv.thousandths m e in
  (0 ≤ N)%Z ∧
  inject_Z N - (1 # 2) <= 1000 * F64.magnitude (S754_finite s m e) ∧
  1000 * F64.magnitude (S754_finite s m e) <= inject_Z N + (1 # 2).
Proof.
  cbn [F64.magnitude]. unfold Strconv.thousandths.
  destruct e as [|k|k].
  - change (F64.pow2 0) with 1. rewrite Z.pow_0_r, Z.mul_1_r.
    split; [lia|]. rewrite inject_Z_mult. change (inject_Z 1000) with 1000. split; lra.
  - rewrite pow2_inject by lia. split; [lia|].
    rewrite !inject_Z_mult. change (inject_Z 1000) with 1000. split; lra.
  - assert (0 < 2 ^ Z.pos k)%Z as Hp by (apply Z.pow_pos_nonneg; lia).
    rewrite Pos2Z.inj_pow.
    destruct (roundHalfEven_error (1000 * Z.pos m) (2 ^ Z.pos k) Hp ltac:(lia))
      as [Hnn Herr].
    set (N := Strconv.roundHalfEven (1000 * Z.pos m) (2 ^ Z.pos k)) in *.
    split; [done|].
    assert (F64.pow2 (Z.neg k) == / inject_Z (2 ^ Z.pos k)) as ->.
    { change (Z.neg k) with (- Z.pos k)%Z. unfold F64.pow2.
      rewrite Qpower_opp, Zpower_Qpower by lia. reflexivity. }
    assert (0 < inject_Z (2 ^ Z.pos k)) as HP by (by rewrite <- (Zlt_Qlt 0)).
    set (P := inject_Z (2 ^ Z.pos k)) in *.
    assert (2 * (inject_Z N * P - 1000 * inject_Z (Z.pos m)) <= P ∧
            - P <= 2 * (inject_Z N * P - 1000 * inject_Z (Z.pos m))) as [H1 H2].
    { unfold P. change 1000 with (inject_Z 1000). change 2 with (inject_Z 2).
      rewrite <- !inject_Z_mult, <- inject_Z_opp.
      unfold Qminus. rewrite <- inject_Z_opp, <- inject_Z_plus, <- !inject_Z_mult.
      split; apply inject_Z_le; lia. }
    assert (1000 * (inject_Z (Z.pos m) * / P) == (1000 * inject_Z (Z.pos m)) / P) as ->.
    { field. lra. }
    split.
    + apply Qle_shift_div_l; [done|]. lra.
    + apply Qle_shift_div_r; [done|]. lra.
Qed.

(** *** Parsing what [%.3f] printed *)

Local Close Scope Q_scope.
Import Strconv Strings.

Lemma list_ascii_of_string_app a b :
  list_ascii_of_string (a ++ b)%string
  = (list_ascii_of_string a ++ list_ascii_of_string b)%list.
Proof. induction a as [|c a IH]; simpl; [done|]. by rewrite IH. Qed.


Lemma digitsValue_snoc ds c :
  digitsValue (ds ++ [c])%list = digitsValue ds * 10 + (code c - 48).
Proof. unfold digitsValue. by rewrite fold_left_app. Qed.

Lemma digitChar_spec d :
  0 ≤ d ≤ 9 → isDigit (digitChar d) = true ∧ code (digitChar d) = 48 + d.
Proof.
  intros Hd.
  assert (d = 0 ∨ d = 1 ∨ d = 2 ∨ d = 3 ∨ d = 4 ∨ d = 5 ∨ d = 6 ∨ d = 7 ∨ d = 8 ∨ d = 9)
    as Hcases by lia.
  repeat destruct Hcases as [->|Hcases]; try subst d; by vm_compute.
Qed.

Lemma digitsFuel_step fuel n acc :
  digitsFuel (S fuel) n acc
  = if n <? 10 then String (digitChar (n mod 10)) acc
    else digitsFuel fuel (n / 10) (String (digitChar (n mod 10)) acc).
Proof. reflexivity. Qed.

Lemma digitsFuel_spec fuel n acc :
  0 ≤ n < 10 ^ Z.of_nat (S fuel) →
  ∃ ds, list_ascii_of_string (digitsFuel (S fuel) n acc)
        = (ds ++ list_ascii_of_string acc)%list ∧
        Forall (λ c, isDigit c = true) ds ∧ digitsValue ds = n ∧
        (length ds ≤ S fuel)%nat ∧ ds ≠ [].
Proof.
  revert n acc. induction fuel as [|f IH]; intros n acc Hn;
    (assert (0 ≤ n mod 10 ≤ 9) as Hd by (pose proof (Z.mod_pos_bound n 10); lia));
    destruct (digitChar_spec _ Hd) as [Hdig Hcode];
    rewrite digitsFuel_step; destruct (Z.ltb_spec n 10) as [Hsmall|Hbig].
  1, 3: exists [digitChar (n mod 10)]; (split; [done|]); (split; [by constructor|]);
    (split; [|split; [simpl; lia|done]]);
    unfold digitsValue; simpl; rewrite Hcode; rewrite Z.mod_small by lia; lia.
  - change (10 ^ Z.of_nat 1) with 10 in Hn. lia.
  - destruct (IH (n / 10) (String (digitChar (n mod 10)) acc))
      as (ds & Heq & Hall & Hval & Hlen & Hne).
    { split; [apply Z.div_pos; lia|]. apply Z.div_lt_upper_bound; [lia|].
      rewrite (Nat2Z.inj_succ (S f)), Z.pow_succ_r in Hn by lia. lia. }
    exists (ds ++ [digitChar (n mod 10)])%list. split.
    { rewrite Heq. simpl. by rewrite <- app_assoc. }
    split; [apply Forall_app; split; [done|by constructor]|].
    split.
    { rewrite digitsValue_snoc, Hval, Hcode. pose proof (Z.div_mod n 10). lia. }
    split; [rewrite length_app; simpl; lia|]. by destruct ds.
Qed.

Lemma decimal_spec n :
  0 ≤ n →
  ∃ ds, list_ascii_of_string (decimal n) = ds ∧
        Forall (λ c, isDigit c = true) ds ∧ digitsValue ds = n ∧
        (length ds ≤ S (Z.to_nat (Z.log2 n)))%nat ∧ ds ≠ [].
Proof.
  intros Hn. unfold decimal.
  destruct (digitsFuel_spec (Z.to_nat (Z.log2 n)) n "") as (ds & Heq & H).
  { split; [done|]. destruct (Z.eq_dec n 0) as [->|Hne]; [by vm_compute|].
    pose proof (Z.log2_spec n ltac:(lia)) as [_ Hlt].
    rewrite Nat2Z.inj_succ, Z2Nat.id by apply Z.log2_nonneg.
    assert (2 ^ Z.succ (Z.log2 n) ≤ 10 ^ Z.succ (Z.log2 n)).
    { apply Z.pow_le_mono_l. lia. }
    lia. }
  exists ds. split; [|done]. rewrite Heq. simpl. by rewrite app_nil_r.
Qed.

Lemma digit_not_special c :
  isDigit c = true →
  Ascii.eqb c "_" = false ∧ Ascii.eqb c "." = false ∧ Ascii.eqb c "+" = false ∧
  Ascii.eqb c "-" = false ∧ Ascii.eqb (lower c) "x" = false ∧
  Ascii.eqb (lowerByte c) "i" = false ∧ Ascii.eqb (lowerByte c) "n" = false ∧
  Ascii.eqb (lower c) "e" = false ∧ 0 ≤ code c - 48 ≤ 9 ∧
  (Ascii.eqb c "0" = true → code c - 48 = 0).
Proof.
  destruct c as [[] [] [] [] [] [] [] []]; vm_compute; intros H; try discriminate H;
    repeat split; try reflexivity; try discriminate; intros; discriminate.
Qed.


Lemma digitsValueFrom_spec ds a :
  digitsValueFrom a ds = a * 10 ^ Z.of_nat (length ds) + digitsValue ds.
Proof.
  revert a. induction ds as [|c ds IH] using rev_ind; intros a.
  - unfold digitsValueFrom, digitsValue. simpl. lia.
  - unfold digitsValueFrom in *. rewrite fold_left_app. simpl.
    rewrite IH, digitsValue_snoc, length_app. simpl.
    replace (Z.of_nat (length ds + 1)) with (Z.succ (Z.of_nat (length ds))) by lia.
    rewrite Z.pow_succ_r by lia. lia.
Qed.

(** The digit loop over a run of digits. *)
Lemma readDigits_digits ds :
  Forall (λ c, isDigit c = true) ds →
  ∀ st rest,
    0 ≤ nd st → (nd st = 0 → mantissa st = 0) →
    ∃ st',
      readDigits false st (ds ++ rest)%list = readDigits false st' rest ∧
      mantissa st' = digitsValueFrom (mantissa st) ds ∧
      sawdot st' = sawdot st ∧ underscores st' = underscores st ∧
      (sawdigits st = true ∨ ds ≠ [] → sawdigits st' = true) ∧
      0 ≤ nd st' ≤ nd st + Z.of_nat (length ds) ∧
      (nd st' = 0 → mantissa st' = 0) ∧
      dp st' - nd st' = dp st - nd st - Z.of_nat (length ds).
Proof.
  induction 1 as [|c ds Hc Hds IH]; intros st rest Hnd Hzero.
  - exists st. simpl. repeat split; try done; try lia. by intros [?|?].
  - destruct (digit_not_special c Hc) as (Hu & Hdot & _ & _ & _ & _ & _ & _ & Hrange & Hz).
    change ((c :: ds) ++ rest)%list with (c :: (ds ++ rest))%list.
    cbn [readDigits]. rewrite Hu, Hdot, Hc.
    destruct (Ascii.eqb c "0" && (nd st =? 0)) eqn:Hlead.
    + apply andb_true_iff in Hlead as [Hc0 Hnd0]. apply Z.eqb_eq in Hnd0.
      edestruct IH as (st' & -> & Hm & Hsd & Hus & Hsaw & Hn & Hz' & Hdiff);
        [| |exists st'; split; [reflexivity|]]; cbn [nd mantissa dp sawdot underscores sawdigits] in *.
      * lia.
      * intros _. by apply Hzero.
      * unfold digitsValueFrom in *. cbn [fold_left length].
        rewrite Nat2Z.inj_succ, (Hz Hc0), (Hzero Hnd0). rewrite (Hzero Hnd0) in Hm.
        change (0 * 10 + 0) with 0. rewrite <- Hm.
        repeat split; try done; try lia. intros _. apply Hsaw. by left.
    + edestruct IH as (st' & -> & Hm & Hsd & Hus & Hsaw & Hn & Hz' & Hdiff);
        [| |exists st'; split; [reflexivity|]]; cbn [nd mantissa dp sawdot underscores sawdigits] in *.
      * lia.
      * intros. lia.
      * unfold digitsValueFrom in *. cbn [fold_left length].
        rewrite Nat2Z.inj_succ, <- Hm.
        repeat split; try done; try lia. intros _. apply Hsaw. by left.
Qed.

Lemma special_digit c rest : isDigit c = true → special (c :: rest) = None.
Proof.
  intros Hc. destruct (digit_not_special c Hc) as (_ & _ & Hp & Hm & _ & Hi & Hn & _).
  unfold special. by rewrite Hp, Hm, Hi, Hn.
Qed.

Lemma special_minus_digit c rest : isDigit c = true → special ("-"%char :: c :: rest) = None.
Proof.
  intros Hc. destruct (digit_not_special c Hc) as (_ & _ & _ & _ & _ & Hi & _).
  unfold special. cbn [Ascii.eqb Bool.eqb]. cbn [list_ascii_of_string commonPrefixLenIgnoreCase].
  by rewrite Hi.
Qed.

Lemma readSign_digit c rest : isDigit c = true → readSign (c :: rest) = (false, c :: rest).
Proof.
  intros Hc. destruct (digit_not_special c Hc) as (_ & _ & Hp & Hm & _).
  unfold readSign. by rewrite Hp, Hm.
Qed.

(** Digits and a point are no base prefix. *)
Lemma readBase_digits d ds f3 :
  isDigit d = true → Forall (λ c, isDigit c = true) ds →
  readBase ((d :: ds) ++ "."%char :: f3)%list = (false, ((d :: ds) ++ "."%char :: f3)%list).
Proof.
  intros Hd Hds. unfold readBase. simpl app.
  destruct ds as [|x ds']; simpl app.
  - destruct f3; [done|]. by rewrite andb_false_r.
  - pose proof (Forall_inv Hds) as Hx.
    destruct (digit_not_special x Hx) as (_ & _ & _ & _ & Hxx & _).
    rewrite Hxx, andb_false_r. by destruct (ds' ++ "."%char :: f3)%list.
Qed.

(** [readFloat] on an optional minus sign, digits, a point and three
    digits: the mantissa is the number the digits spell, the exponent -3. *)
Lemma readFloat_fixed (sign : bool) ds f3 :
  Forall (λ c, isDigit c = true) ds → ds ≠ [] →
  Forall (λ c, isDigit c = true) f3 → length f3 = 3%nat →
  ∃ p,
    readFloat ((if sign then ["-"%char] else []) ++ ds ++ "."%char :: f3)%list
    = Some {| neg := sign; hex := false;
              mant := digitsValueFrom (digitsValue ds) f3;
              exp := if digitsValueFrom (digitsValue ds) f3 =? 0 then 0 else -3;
              point := p |} ∧
    -3 ≤ p ≤ Z.of_nat (length ds).
Proof.
  intros Hds Hne Hf3 Hlen.
  destruct ds as [|d ds']; [done|]. clear Hne.
  pose proof (Forall_inv Hds) as Hd. pose proof (Forall_inv_tail Hds) as Hds'.
  set (s1 := ((d :: ds') ++ "."%char :: f3)%list).
  assert (readSign ((if sign then ["-"%char] else []) ++ s1)%list = (sign, s1)) as Hsign.
  { destruct sign; [reflexivity|]. by apply readSign_digit. }
  assert (∃ c r, ((if sign then ["-"%char] else []) ++ s1)%list = c :: r) as (c0 & r0 & Hshape).
  { destruct sign; simpl; eauto. }
  unfold readFloat. rewrite Hshape, <- Hshape, Hsign.
  unfold s1 at 1. rewrite readBase_digits by done. fold s1.
  set (st0 := {| mantissa := 0; nd := 0; dp := 0; sawdot := false;
                 sawdigits := false; underscores := false |}).
  destruct (readDigits_digits (d :: ds') Hds st0 ("."%char :: f3) ltac:(done) ltac:(done))
    as (st1 & Hrun1 & Hm1 & Hdot1 & Hus1 & Hsaw1 & Hnd1 & Hz1 & _).
  fold s1 in Hrun1. rewrite Hrun1.
  cbn [readDigits Ascii.eqb Bool.eqb]. rewrite Hdot1. cbn [sawdot st0].
  set (st2 := {| mantissa := mantissa st1; nd := nd st1; dp := nd st1; sawdot := true;
                 sawdigits := sawdigits st1; underscores := underscores st1 |}).
  destruct (readDigits_digits f3 Hf3 st2 [] ltac:(simpl; lia) ltac:(done))
    as (st3 & Hrun3 & Hm3 & Hdot3 & Hus3 & Hsaw3 & Hnd3 & Hz3 & Hdiff3).
  rewrite app_nil_r in Hrun3. rewrite Hrun3. cbn [readDigits].
  cbn [mantissa nd dp sawdot sawdigits underscores st2 st0] in *.
  rewrite Hsaw3 by (left; apply Hsaw1; by right). cbn [negb].
  rewrite Hdot3. cbn [readExponentPart].
  rewrite Hus3, Hus1. cbn [andb].
  rewrite Hlen in *.
  exists (dp st3). split.
  - f_equal. f_equal.
    + rewrite Hm3, Hm1. unfold digitsValueFrom, digitsValue. done.
    + rewrite Hm3, Hm1. unfold digitsValueFrom, digitsValue.
      destruct (_ =? 0); [done|]. lia.
  - subst st2 st0. cbn [mantissa nd dp sawdot sawdigits underscores] in *. lia.
Qed.

Lemma fixed3_shape (sign : bool) N :
  0 ≤ N →
  ∃ ds f3,
    list_ascii_of_string (fixed3 sign N)
    = ((if sign then ["-"%char] else []) ++ ds ++ "."%char :: f3)%list ∧
    Forall (λ c, isDigit c = true) ds ∧ ds ≠ [] ∧
    Forall (λ c, isDigit c = true) f3 ∧ length f3 = 3%nat ∧
    digitsValueFrom (digitsValue ds) f3 = N ∧
    (length ds ≤ S (Z.to_nat (Z.log2 (N / 1000))))%nat.
Proof.
  intros HN.
  destruct (decimal_spec (N / 1000) ltac:(apply Z.div_pos; lia))
    as (ds & Hds & Hdig & Hval & Hlen & Hne).
  assert (0 ≤ N / 100 mod 10 ≤ 9 ∧ 0 ≤ N / 10 mod 10 ≤ 9 ∧ 0 ≤ N mod 10 ≤ 9)
    as (H2 & H1 & H0) by (repeat split; apply Z.mod_pos_bound || apply Z.lt_succ_r, Z.mod_pos_bound; lia).
  destruct (digitChar_spec _ H2) as [Hd2 Hc2].
  destruct (digitChar_spec _ H1) as [Hd1 Hc1].
  destruct (digitChar_spec _ H0) as [Hd0 Hc0].
  exists ds, [digitChar (N / 100 mod 10); digitChar (N / 10 mod 10); digitChar (N mod 10)].
  split; [|repeat split; try done].
  - unfold fixed3. rewrite !list_ascii_of_string_app, Hds. by destruct sign.
  - by repeat constructor.
  - rewrite Hval. unfold digitsValueFrom. cbn [fold_left]. rewrite Hc2, Hc1, Hc0.
    clear -HN. Z.div_mod_to_equations. lia.
Qed.

(** [strconv.ParseFloat] of what [%.3f] printed for [N] thousandths is the
    float64 nearest to [N / 1000]. *)
Lemma ParseFloat_fixed3 (sign : bool) N :
  0 ≤ N < 2 ^ 63 →
  ParseFloat (fixed3 sign N)
  = Some (match N with
          | Z.pos n => F64.of_ratio sign n 1000
          | _ => S754_zero sign
          end) ∧
  match N with
  | Z.pos n => F64.normal (F64.of_ratio sign n 1000)
  | _ => True
  end.
Proof.
  intros [HN Hmax].
  destruct (fixed3_shape sign N HN) as (ds & f3 & Hshape & Hds & Hne & Hf3 & Hlen3 & Hval & Hlen).
  destruct (readFloat_fixed sign ds f3 Hds Hne Hf3 Hlen3) as (p & Hread & Hp).
  rewrite Hval in Hread.
  assert (special (list_ascii_of_string (fixed3 sign N)) = None) as Hspecial.
  { rewrite Hshape. destruct ds as [|d ds']; [done|].
    pose proof (Forall_inv Hds) as Hd.
    destruct sign; [by apply special_minus_digit|by apply special_digit]. }
  assert (Z.of_nat (length ds) ≤ 64) as Hshort.
  { assert (Z.log2 (N / 1000) < 63).
    { destruct (Z.eq_dec (N / 1000) 0) as [->|Hnz]; [done|].
      apply Z.log2_lt_pow2; [|].
      - pose proof (Z.div_pos N 1000 HN ltac:(lia)). lia.
      - assert (N / 1000 ≤ N) by (apply Z.div_le_upper_bound; lia). lia. }
    pose proof (Z.log2_nonneg (N / 1000)). lia. }
  unfold ParseFloat. rewrite Hspecial, Hshape, Hread.
  unfold toFloat. cbn [mant hex neg exp point].
  destruct N as [|n|n]; [done| |lia].
  replace (310 <? p) with false by (symmetry; apply Z.ltb_ge; lia).
  replace (p <? -330) with false by (symmetry; apply Z.ltb_ge; lia).
  cbn [Z.eqb]. change (Pos.pow 10 3) with 1000%positive.
  assert (F64.normal (F64.of_ratio sign n 1000)) as Hnormal.
  { pose proof (digits2_pos_bounds n) as [Hlo Hhi].
    assert (Z.pos (digits2_pos n) ≤ 63).
    { destruct (Z.le_gt_cases (Z.pos (digits2_pos n)) 63) as [|Hgt]; [done|]. exfalso.
      assert (2 ^ 63 ≤ 2 ^ (Z.pos (digits2_pos n) - 1)) by (apply Z.pow_le_mono_r; lia).
      lia. }
    unfold F64.of_ratio.
    apply (div_value sign n 0 false 1000 0); change (Z.pos (digits2_pos 1000)) with 10; lia. }
  split; [|done].
  destruct (F64.of_ratio sign n 1000); done.
Qed.

(** *** One field, scaled by a factor and by its reciprocal *)

Local Open Scope Q_scope.

Ltac pow2_num k :=
  let v := eval vm_compute in (F64.pow2 k) in change (F64.pow2 k) with v in *.

Ltac u_num := change F64.u with (1 # 4503599627370496) in *.

(** The float64 nearest to [n / 1000]. *)
Lemma of_ratio_thousandths sign n :
  (Z.pos n < 2 ^ 63)%Z →
  let z := F64.of_ratio sign n 1000 in
  F64.normal z ∧ F64.negative z = sign ∧
  inject_Z (Z.pos n) / 1000 * (1 - F64.u) <= F64.magnitude z ∧
  F64.magnitude z <= inject_Z (Z.pos n) / 1000 * (1 + F64.u).
Proof.
  intros Hmax z.
  pose proof (digits2_pos_bounds n) as [Hlo Hhi].
  assert (Z.pos (digits2_pos n) ≤ 63)%Z.
  { destruct (Z.le_gt_cases (Z.pos (digits2_pos n)) 63) as [|Hgt]; [done|]. exfalso.
    assert (2 ^ 63 ≤ 2 ^ (Z.pos (digits2_pos n) - 1))%Z by (apply Z.pow_le_mono_r; lia).
    lia. }
  destruct (div_value sign n 0 false 1000 0) as (Hn & Hs & Hl & Hh);
    [change (Z.pos (digits2_pos 1000)) with 10%Z; lia..|].
  change (F64.pow2 0) with 1 in Hl, Hh.
  change (inject_Z (Z.pos 1000)) with 1000 in Hl, Hh.
  rewrite !Qmult_1_r in Hl, Hh. rewrite xorb_false_r in Hs. done.
Qed.

(** A number printed with three decimals and read back: the float64
    nearest to the rounded thousandths, with the sign kept. *)
Lemma printed_value x :
  F64.is_zero x ∨ F64.normal x → F64.magnitude x <= F64.pow2 52 →
  ∃ N : Z,
    (0 ≤ N)%Z ∧
    inject_Z N - (1 # 2) <= 1000 * F64.magnitude x ∧
    1000 * F64.magnitude x <= inject_Z N + (1 # 2) ∧
    let r := parseFloatDefault (H := go_std) (Sprintf3 (GoLib := go_std) x) in
    (F64.is_zero r ∨ F64.normal r) ∧ F64.negative r = F64.negative x ∧
    inject_Z N / 1000 * (1 - F64.u) <= F64.magnitude r ∧
    F64.magnitude r <= inject_Z N / 1000 * (1 + F64.u).
Proof.
  intros Hx Hmax.
  change (parseFloatDefault (H := go_std) (Sprintf3 (GoLib := go_std) x))
    with (match Strconv.ParseFloat (FormatFixed3 x) with Some v => v | None => F64.zero end).
  destruct x as [s| | |s m e]; try (by destruct Hx).
  - exists 0%Z. cbn [FormatFixed3].
    destruct (ParseFloat_fixed3 s 0 ltac:(lia)) as [-> _].
    cbn [F64.magnitude F64.negative F64.is_zero]. u_num.
    repeat split; try done; try lra; by left.
  - cbn [FormatFixed3].
    destruct (thousandths_error s m e) as (HN & Hlo & Hhi).
    set (N := thousandths m e) in *. exists N.
    assert (N < 2 ^ 63)%Z as HN63.
    { destruct (Z.le_gt_cases N 4503599627370496000) as [|Hgt]; [lia|]. exfalso.
      assert (4503599627370496001 ≤ N)%Z as Hge by lia.
      rewrite Zle_Qle in Hge. pow2_num 52%Z.
      change (inject_Z 4503599627370496001) with 4503599627370496001 in Hge. lra. }
    destruct (ParseFloat_fixed3 s N ltac:(lia)) as [-> _].
    repeat split; try done.
    + destruct N as [|n|n]; [by left| |lia]. right.
      by apply of_ratio_thousandths.
    + destruct N as [|n|n]; [done| |lia]. by apply of_ratio_thousandths.
    + destruct N as [|n|n]; [by vm_compute| |lia].
      by apply of_ratio_thousandths.
    + destruct N as [|n|n]; [by vm_compute| |lia].
      by apply of_ratio_thousandths.
Qed.

(** A product of a zero or normal number and a normal one. *)
Lemma mul_settled x y :
  F64.is_zero x ∨ F64.normal x → F64.normal y →
  (F64.normal x → (-1074 ≤ F64.exponent x + F64.exponent y ≤ 916)%Z) →
  let z := F64.mul x y in
  (F64.is_zero z ∨ F64.normal z) ∧
  F64.negative z = xorb (F64.negative x) (F64.negative y) ∧
  F64.magnitude x * F64.magnitude y * (1 - F64.u) <= F64.magnitude z ∧
  F64.magnitude z <= F64.magnitude x * F64.magnitude y * (1 + F64.u).
Proof.
  intros [Hx|Hx] Hy He z.
  - destruct x as [s| | |]; try done. destruct y as [| | |sy my ey]; try done.
    subst z. cbn. u_num. repeat split; try lra; by left.
  - destruct (mul_value x y Hx Hy (He Hx)) as (Hn & Hs & Hl & Hh).
    repeat split; try done. by right.
Qed.

(** The reciprocal [1 / m] of a normal number between 1 and a million. *)
Lemma inverse_value m :
  F64.normal m → 1 <= F64.magnitude m → F64.magnitude m <= 1000000 →
  let i := F64.div F64.one m in
  F64.normal i ∧ F64.negative i = F64.negative m ∧
  / F64.magnitude m * (1 - F64.u) <= F64.magnitude i ∧
  F64.magnitude i <= / F64.magnitude m * (1 + F64.u).
Proof.
  intros Hm Hlo Hhi i.
  assert (-52 ≤ F64.exponent m ≤ -32)%Z as He.
  { apply (exponent_bounds m 0 20 Hm); [done|]. pow2_num 20%Z. lra. }
  destruct m as [| | |s mm e]; try done. destruct Hm as [Hd Hr].
  cbn [F64.exponent] in He.
  change F64.one with (S754_finite false 4503599627370496 (-52)) in i.
  destruct (div_value false 4503599627370496 (-52) s mm e) as (Hn & Hs & Hl & Hh).
  { rewrite Hd. change (Z.pos (digits2_pos 4503599627370496)) with 53%Z. lia. }
  { rewrite Hd. change (Z.pos (digits2_pos 4503599627370496)) with 53%Z. lia. }
  assert (inject_Z (Z.pos 4503599627370496) * F64.pow2 (-52) == 1) as Hone by (by vm_compute).
  rewrite Hone in Hl, Hh. unfold Qdiv in Hl, Hh. rewrite Qmult_1_l in Hl, Hh.
  done.
Qed.

Lemma scaled_le (a b c a' b' : Q) :
  a' == a * c → b' == b * c → a <= b → 0 <= c → a' <= b'.
Proof. intros -> -> Hab Hc. by apply Qmult_le_compat_r. Qed.

(** The error after scaling up, printing, reading back and scaling down:
    at most the printing error divided by the factor, and the roundings. *)
Lemma scaled_back_error (A M X1 N1 R1 INV X2 : Q) :
  0 <= A → A <= 1000000000 → 1 <= M →
  A * M * (1 - F64.u) <= X1 → X1 <= A * M * (1 + F64.u) →
  N1 - (1 # 2) <= 1000 * X1 → 1000 * X1 <= N1 + (1 # 2) → 0 <= N1 →
  N1 / 1000 * (1 - F64.u) <= R1 → R1 <= N1 / 1000 * (1 + F64.u) →
  / M * (1 - F64.u) <= INV → INV <= / M * (1 + F64.u) →
  R1 * INV * (1 - F64.u) <= X2 → X2 <= R1 * INV * (1 + F64.u) →
  A - (51 # 100000) <= X2 ∧ X2 <= A + (51 # 100000).
Proof.
  intros HA0 HA HM Hx1l Hx1h Hn1l Hn1h HN1 Hr1l Hr1h Hil Hih Hx2l Hx2h.
  u_num.
  assert (0 < M) as HMpos by lra.
  assert (~ M == 0) as HMne by lra.
  assert (0 < / M) as HIpos by (by apply Qinv_lt_0_compat).
  assert (/ M <= 1) as HI1 by (apply Qle_shift_inv_r; lra).
  assert (0 <= R1) as HR1 by lra.
  (* the products with the reciprocal *)
  pose (a1 := X1 * / M). pose (n1 := N1 * / M). pose (r1 := R1 * / M).
  pose (ri := R1 * INV).
  assert (A * (1 - (1 # 4503599627370496)) <= a1) as Ha1l.
  { apply (scaled_le (A * M * (1 - (1 # 4503599627370496))) X1 (/ M));
      [by field|reflexivity|lra|lra]. }
  assert (a1 <= A * (1 + (1 # 4503599627370496))) as Ha1h.
  { apply (scaled_le X1 (A * M * (1 + (1 # 4503599627370496))) (/ M));
      [reflexivity|by field|lra|lra]. }
  assert (n1 - (1 # 2) * / M <= 1000 * a1) as Hn1l'.
  { apply (scaled_le (N1 - (1 # 2)) (1000 * X1) (/ M));
      [unfold n1; by field|unfold a1; by field|lra|lra]. }
  assert (1000 * a1 <= n1 + (1 # 2) * / M) as Hn1h'.
  { apply (scaled_le (1000 * X1) (N1 + (1 # 2)) (/ M));
      [unfold a1; by field|unfold n1; by field|lra|lra]. }
  assert (n1 / 1000 * (1 - (1 # 4503599627370496)) <= r1) as Hr1l'.
  { apply (scaled_le (N1 / 1000 * (1 - (1 # 4503599627370496))) R1 (/ M));
      [unfold n1; by field|reflexivity|lra|lra]. }
  assert (r1 <= n1 / 1000 * (1 + (1 # 4503599627370496))) as Hr1h'.
  { apply (scaled_le R1 (N1 / 1000 * (1 + (1 # 4503599627370496))) (/ M));
      [reflexivity|unfold n1; by field|lra|lra]. }
  assert (r1 * (1 - (1 # 4503599627370496)) <= ri) as Hril.
  { apply (scaled_le (/ M * (1 - (1 # 4503599627370496))) INV R1);
      [unfold r1; by field|unfold ri; ring|lra|lra]. }
  assert (ri <= r1 * (1 + (1 # 4503599627370496))) as Hrih.
  { apply (scaled_le INV (/ M * (1 + (1 # 4503599627370496))) R1);
      [unfold ri; ring|unfold r1; by field|lra|lra]. }
  fold ri in Hx2l, Hx2h.
  clearbody a1 n1 r1 ri. clear Hx1l Hx1h Hn1l Hn1h Hr1l Hr1h Hil Hih.
  set (IM := / M) in *. clearbody IM.
  unfold Qdiv in *. change (/ 1000) with (1 # 1000) in *. split; lra.
Qed.

(** The error once the scaled-back number is printed and read again. *)
Lemma printed_back_error (A X2 N2 R2 : Q) :
  0 <= A → A <= 1000000000 →
  A - (51 # 100000) <= X2 → X2 <= A + (51 # 100000) →
  N2 - (1 # 2) <= 1000 * X2 → 1000 * X2 <= N2 + (1 # 2) → 0 <= N2 →
  N2 / 1000 * (1 - F64.u) <= R2 → R2 <= N2 / 1000 * (1 + F64.u) →
  Qabs (R2 - A) <= 11 # 10000.
Proof.
  intros. u_num. unfold Qdiv in *. change (/ 1000) with (1 # 1000) in *.
  apply Qabs_Qle_condition. split; lra.
Qed.

Lemma Qmult_le_both (a b c d : Q) :
  0 <= a → a <= b → 0 <= c → c <= d → a * c <= b * d.
Proof.
  intros Ha Hab Hc Hcd. apply Qle_trans with (b * c).
  - by apply Qmult_le_compat_r.
  - rewrite (Qmult_comm b c), (Qmult_comm b d). apply Qmult_le_compat_r; lra.
Qed.

(** One numeric field through the two scalings: the value read from the
    field at the end is within 0.0011 of the value read at the start. *)
Lemma round_trip_value a m :
  F64.is_zero a ∨
    (F64.normal a ∧ (1 # 1000000000) <= F64.magnitude a ∧ F64.magnitude a <= 1000000000) →
  F64.normal m → F64.negative m = false →
  1 <= F64.magnitude m → F64.magnitude m <= 1000000 →
  let back x := parseFloatDefault (H := go_std) (Sprintf3 (GoLib := go_std) x) in
  let b := back (F64.mul a m) in
  let c := back (F64.mul b (F64.div F64.one m)) in
  Qabs (F64.to_Q c - F64.to_Q a) <= 11 # 10000.
Proof.
  intros Ha Hm Hpos HM1 HM6 back b c.
  set (A := F64.magnitude a). set (M := F64.magnitude m) in *.
  assert (0 <= A ∧ A <= 1000000000) as [HA0 HA9].
  { destruct Ha as [Hz|(_ & Hlo & Hhi)]; [|fold A in Hlo, Hhi; lra].
    by destruct a. }
  assert (F64.is_zero a ∨ F64.normal a) as Ha' by (destruct Ha as [|[? _]]; auto).
  assert (-52 ≤ F64.exponent m ≤ -32)%Z as Hem.
  { apply (exponent_bounds m 0 20 Hm); fold M; [done|]. pow2_num 20%Z. lra. }
  (* scaling up *)
  destruct (mul_settled a m Ha' Hm) as (Hx1 & Hs1 & Hx1l & Hx1h).
  { intros Hn. destruct Ha as [Hz|(_ & Hlo & Hhi)]; [by destruct a|].
    assert (-82 ≤ F64.exponent a ≤ -22)%Z.
    { apply (exponent_bounds a (-30) 30 Hn); [pow2_num (-30)%Z|pow2_num 30%Z]; lra. }
    lia. }
  set (x1 := F64.mul a m) in *. fold A M in Hx1l, Hx1h.
  rewrite Hpos, xorb_false_r in Hs1.
  assert (A * M <= 1000000000 * 1000000) as HAM by (apply Qmult_le_both; lra).
  destruct (printed_value x1 Hx1) as (N1 & HN1 & Hn1l & Hn1h & Hr1 & Hsr1 & Hr1l & Hr1h).
  { pow2_num 52%Z. u_num. lra. }
  fold (back x1) in Hr1, Hsr1, Hr1l, Hr1h. fold b in Hr1, Hsr1, Hr1l, Hr1h.
  pose proof HN1 as HN1z. rewrite Zle_Qle in HN1. change (inject_Z 0) with 0 in HN1.
  (* scaling down *)
  destruct (inverse_value m Hm HM1 HM6) as (Hi & Hsi & Hil & Hih).
  set (inv := F64.div F64.one m) in *. fold M in Hil, Hih.
  assert (0 < M) as HMpos by lra.
  assert (/ M <= 1) as HI1 by (apply Qle_shift_inv_r; lra).
  assert ((1 # 1000000) <= / M) as HI6 by (apply Qle_shift_inv_l; lra).
  destruct (mul_settled b inv Hr1 Hi) as (Hx2 & Hs2 & Hx2l & Hx2h).
  { intros Hn. pose proof (magnitude_pos b Hn) as Hbpos.
    assert (1 <= inject_Z N1) as HN1'.
    { destruct (Z.eq_dec N1 0%Z) as [->|Hne].
      - exfalso. u_num. unfold Qdiv in *. change (inject_Z 0) with 0 in Hr1h. lra.
      - assert (1 ≤ N1)%Z as Hge by lia. by rewrite Zle_Qle in Hge. }
    assert (-63 ≤ F64.exponent b ≤ -1)%Z.
    { apply (exponent_bounds b (-11) 51 Hn); [pow2_num (-11)%Z|pow2_num 51%Z];
        u_num; unfold Qdiv in *; change (/ 1000) with (1 # 1000) in *; lra. }
    assert (-73 ≤ F64.exponent inv ≤ -51)%Z.
    { apply (exponent_bounds inv (-21) 1 Hi); [pow2_num (-21)%Z|pow2_num 1%Z];
        u_num; lra. }
    lia. }
  set (x2 := F64.mul b inv) in *.
  rewrite Hsi, Hpos, xorb_false_r in Hs2.
  destruct (scaled_back_error A M (F64.magnitude x1) (inject_Z N1) (F64.magnitude b)
              (F64.magnitude inv) (F64.magnitude x2)) as [Hx2lo Hx2hi]; try done.
  destruct (printed_value x2 Hx2) as (N2 & HN2 & Hn2l & Hn2h & Hr2 & Hsr2 & Hr2l & Hr2h).
  { pow2_num 52%Z. lra. }
  fold (back x2) in Hr2, Hsr2, Hr2l, Hr2h. fold c in Hr2, Hsr2, Hr2l, Hr2h.
  rewrite Zle_Qle in HN2. change (inject_Z 0) with 0 in HN2.
  pose proof (printed_back_error A (F64.magnitude x2) (inject_Z N2) (F64.magnitude c)
                HA0 HA9 Hx2lo Hx2hi Hn2l Hn2h HN2 Hr2l Hr2h) as Hfinal.
  apply Qabs_Qle_condition in Hfinal as [Hf1 Hf2].
  unfold F64.to_Q. rewrite Hsr2, Hs2, Hsr1, Hs1. fold A.
  apply Qabs_Qle_condition. destruct (F64.negative a); split; lra.
Qed.

Local Close Scope Q_scope.

End Binary64.

(** ** Scaling a serving by a factor and by its reciprocal *)

Section ThereAndBack.
Context `{GoLib}.

(** A scaling rewrites the amount and each nutrient with the product,
    printed with three decimals. *)
Lemma scaleServing_quantities s factor :
  F64.leb factor F64.zero = false →
  quantities (scaleServing s factor)
  = (λ field, Sprintf3 (F64.mul (parseFloatDefault field) factor)) <$> quantities s.
Proof. intros Hf. unfold scaleServing. rewrite Hf. by destruct s. Qed.

End ThereAndBack.

Lemma enlarging_positive m : enlarging m → F64.leb m F64.zero = false.
Proof. intros (Hn & Hs & _). destruct m as [| | |s mm e]; try done. simpl in Hs. by subst s. Qed.

Lemma reciprocal_positive m : enlarging m → F64.leb (F64.div F64.one m) F64.zero = false.
Proof.
  intros (Hn & Hs & Hlo & Hhi).
  destruct (Binary64.inverse_value m Hn Hlo Hhi) as (Hi & Hsi & _).
  rewrite Hs in Hsi. destruct (F64.div F64.one m) as [| | |s mm e]; try done.
  simpl in Hsi. by subst s.
Qed.

(** C6 (as amended): for a factor [m] between 1 and a million, and a
    serving whose amount and nutrients are unparseable, zero, or of
    magnitude between 10^-9 and 10^9, scaling by [m] and then by [1 / m]
    leaves the amount and every nutrient within 0.0011 of the original
    value: two roundings to three decimals and the floating-point error. *)
Theorem scaleServing_there_and_back (s : Serving.t) (m : float64) :
  enlarging m →
  Forall (λ field, moderate (parseFloatDefault (H := go_std) field)) (quantities s) →
  quantitiesWithin (H := go_std) (11 # 10000) s (scaleThereAndBack (H := go_std) s m).
Proof.
  intros Hm Hs. unfold quantitiesWithin, scaleThereAndBack.
  rewrite !scaleServing_quantities by auto using enlarging_positive, reciprocal_positive.
  rewrite <- list_fmap_compose. apply Forall2_fmap_r, Forall_Forall2_diag.
  eapply Forall_impl; [exact Hs|]. intros field Hfield. cbn beta.
  destruct Hm as (Hn & Hpos & Hlo & Hhi).
  exact (Binary64.round_trip_value (parseFloatDefault field) m Hfield Hn Hpos Hlo Hhi).
Qed.

Ltac moderate_field :=
  vm_compute; first [by left | right; repeat split; intros; discriminate].

Lemma scaleServing_there_and_back_witness :
  enlarging (lit "2.5") ∧
  quantitiesWithin (H := go_std) (11 # 10000) oatmeal
    (scaleThereAndBack (H := go_std) oatmeal (lit "2.5")).
Proof.
  assert (enlarging (lit "2.5")) as Hm by (vm_compute; repeat split; intros; discriminate).
  split; [exact Hm|].
  apply (scaleServing_there_and_back oatmeal (lit "2.5") Hm).
  unfold quantities, Serving.nutrients.
  repeat (apply Forall_cons; split; [moderate_field|]). apply Forall_nil_2.
Defined.

(** C6 (as stated) fails for a factor under one: one gram of fat scaled
    by 0.0001 prints as 0.000, and no scaling brings it back. *)
Lemma scaling_down_loses_the_fat :
  F64.ltb F64.zero (lit "0.0001") = true ∧
  Serving.Fat oneGramOfFat = "1" ∧
  Serving.Fat (scaleThereAndBack (H := go_std) oneGramOfFat (lit "0.0001")) = "0.000" ∧
  ¬ quantitiesWithin (H := go_std) (1 # 2) oneGramOfFat
      (scaleThereAndBack (H := go_std) oneGramOfFat (lit "0.0001")).
Proof.
  split; [vm_compute; reflexivity|]. split; [reflexivity|].
  split; [vm_compute; reflexivity|].
  intros Hwithin.
  assert (quantities (scaleThereAndBack (H := go_std) oneGramOfFat (lit "0.0001")) !! 4%nat
          = Some "0.000") as Hafter by (vm_compute; reflexivity).
  pose proof (Forall2_lookup_lr _ _ _ 4%nat "1" "0.000" Hwithin eq_refl Hafter) as Hfat.
  vm_compute in Hfat. exact (Hfat eq_refl).
Qed.

(* ===================================================================== *)
(** * Further properties of the code *)
(* ===================================================================== *)

(** ** The serving selector *)

Section GramFilter.
Context `{GoLib}.
Import Serving.

Lemma filter_sublist (servings : list Serving.t) :
  List.filter isGramServing servings `sublist_of` servings.
Proof.
  induction servings as [|s rest IH]; simpl; [constructor|].
  destruct (isGramServing s); by constructor.
Qed.

Lemma filter_filter (servings : list Serving.t) :
  List.filter isGramServing (List.filter isGramServing servings)
  = List.filter isGramServing servings.
Proof.
  induction servings as [|s rest IH]; simpl; [done|].
  destruct (isGramServing s) eqn:E; simpl; [|done]. by rewrite E, IH.
Qed.

Lemma find_head_filter (servings : list Serving.t) :
  List.find isGramServing servings = head (List.filter isGramServing servings).
Proof.
  induction servings as [|s rest IH]; simpl; [done|].
  by destruct (isGramServing s).
Qed.

End GramFilter.

(** X1.  [filterGramServings] invents no serving and keeps the order of the
    list it is given, and filtering its result again changes nothing. *)
Theorem filterGramServings_sublist_idempotent `{GoLib} (servings : list Serving.t) :
  filterGramServings servings `sublist_of` servings ∧
  filterGramServings (filterGramServings servings) = filterGramServings servings.
Proof.
  unfold filterGramServings at 1 3. split.
  - destruct (List.filter isGramServing servings) as [|g gs] eqn:E.
    + destruct servings as [|first rest]; [constructor|].
      apply sublist_skip, sublist_nil_l.
    + rewrite <- E. apply filter_sublist.
  - destruct (List.filter isGramServing servings) as [|g gs] eqn:E.
    + destruct servings as [|first rest]; [done|].
      simpl in E. destruct (isGramServing first) eqn:Efirst; [done|].
      unfold filterGramServings. simpl. by rewrite Efirst, E.
    + unfold filterGramServings. rewrite <- E, filter_filter, E. done.
Qed.

(** X2.  The deprecated [findGramServing] and [filterGramServings] agree on the
    serving they put first: the first gram serving, and where
    [findGramServing] gives up with [nil], the first serving of any unit. *)
Theorem findGramServing_heads_the_filter `{GoLib} (servings : list Serving.t) :
  head (filterGramServings servings)
  = match findGramServing servings with
    | Some serving => Some serving
    | None => head servings
    end.
Proof.
  unfold findGramServing, filterGramServings. rewrite find_head_filter.
  destruct (List.filter isGramServing servings) as [|g gs]; [|done].
  by destruct servings.
Qed.


Section Repair.
Import Serving.

Lemma keepsFilled_refl s : keepsFilled s s.
Proof. apply Forall_Forall2_diag, Forall_forall. done. Qed.

Lemma keepsFilled_trans s1 s2 s3 :
  keepsFilled s1 s2 → keepsFilled s2 s3 → keepsFilled s1 s3.
Proof.
  unfold keepsFilled. generalize (descriptive s1 ++ nutrients s1)%list
    (descriptive s2 ++ nutrients s2)%list (descriptive s3 ++ nutrients s3)%list.
  intros l1 l2 l3 H12. revert l3.
  induction H12 as [|a b l1 l2 Hab H12 IH]; intros l3 H23; inversion H23; subst;
    constructor; [|by apply IH].
  intros Ha. rewrite <- (Hab Ha). match goal with Hbc : b ≠ "" → _ |- _ => apply Hbc end.
  by rewrite (Hab Ha).
Qed.

Ltac default_keeps :=
  match goal with
  | |- keepsFilled _ (defaultIfEmpty ?get ?set ?d ?inner) =>
      let Hstep := fresh "Hstep" in
      assert (∀ s, keepsFilled s (defaultIfEmpty get set d s)) as Hstep;
      [ let s := fresh "s" in let E := fresh "E" in
        intros s; unfold defaultIfEmpty;
        destruct (isEmpty (get s)) eqn:E; [|apply keepsFilled_refl];
        apply isEmpty_true in E; destruct s; simpl in E; subst;
        unfold keepsFilled; simpl;
        repeat (constructor; [first [intros _; reflexivity | intros Hne; by destruct Hne]|]);
        constructor
      | apply Hstep ]
  end.

Lemma defaults_keep_filled s :
  keepsFilled s (ensureServingFields s []).
Proof.
  unfold ensureServingFields. cbv zeta.
  replace (if isEmpty (ServingID s) || isEmpty (Calories s) then s else s) with s
    by (by destruct (_ || _)).
  repeat (eapply keepsFilled_trans; [|default_keeps]).
  apply keepsFilled_refl.
Qed.

Lemma ensureServingFields_present s availableServings :
  ServingID s ≠ "" → Calories s ≠ "" →
  ensureServingFields s availableServings = ensureServingFields s [].
Proof.
  intros Hid Hcal. unfold ensureServingFields.
  destruct (isEmpty (ServingID s)) eqn:E1; [by apply isEmpty_true in E1|].
  destruct (isEmpty (Calories s)) eqn:E2; [by apply isEmpty_true in E2|]. done.
Qed.

(** A complete serving is a fixed point of the repair. *)
Lemma ensureServingFields_fixes_complete s availableServings :
  complete s → ensureServingFields s availableServings = s.
Proof.
  unfold complete, descriptive, nutrients. simpl. intros Hs.
  repeat match type of Hs with Forall _ (_ :: _) => apply Forall_cons in Hs as [? Hs] end.
  rewrite ensureServingFields_present by done.
  unfold ensureServingFields. cbv zeta.
  replace (if isEmpty (ServingID s) || isEmpty (Calories s) then s else s) with s
    by (by destruct (_ || _)).
  rewrite (defaultIfEmpty_keeps ServingID) by done.
  rewrite (defaultIfEmpty_keeps ServingDescription) by done.
  rewrite (defaultIfEmpty_keeps MeasurementDescription) by done.
  rewrite (defaultIfEmpty_keeps MetricServingAmount) by done.
  rewrite (defaultIfEmpty_keeps MetricServingUnit) by done.
  rewrite (defaultIfEmpty_keeps NumberOfUnits) by done.
  rewrite (defaultIfEmpty_keeps Calories) by done.
  rewrite (defaultIfEmpty_keeps Protein) by done.
  rewrite (defaultIfEmpty_keeps Carbohydrate) by done.
  rewrite (defaultIfEmpty_keeps Fat) by done.
  rewrite (defaultIfEmpty_keeps Sugar) by done.
  rewrite (defaultIfEmpty_keeps Fiber) by done.
  rewrite (defaultIfEmpty_keeps SaturatedFat) by done.
  rewrite (defaultIfEmpty_keeps MonounsaturatedFat) by done.
  rewrite (defaultIfEmpty_keeps PolyunsaturatedFat) by done.
  rewrite (defaultIfEmpty_keeps Cholesterol) by done.
  rewrite (defaultIfEmpty_keeps Sodium) by done.
  rewrite (defaultIfEmpty_keeps Potassium) by done.
  rewrite (defaultIfEmpty_keeps Calcium) by done.
  rewrite (defaultIfEmpty_keeps Iron) by done.
  rewrite (defaultIfEmpty_keeps VitaminA) by done.
  rewrite (defaultIfEmpty_keeps VitaminB) by done.
  rewrite (defaultIfEmpty_keeps VitaminC) by done.
  by rewrite (defaultIfEmpty_keeps VitaminD) by done.
Qed.

End Repair.

(** X3.  Repairing twice is repairing once, whatever the lists of available
    servings: the repaired serving is complete, and a complete serving is
    returned as it is. *)
Theorem ensureServingFields_idempotent
    (selectedServing : Serving.t) (availableServings again : list Serving.t) :
  ensureServingFields (ensureServingFields selectedServing availableServings) again
  = ensureServingFields selectedServing availableServings.
Proof. apply ensureServingFields_fixes_complete, ensureServingFields_complete. Qed.

(** X4.  A selected serving that has its identifier and its calories keeps
    every field it came with: the repair writes only to empty fields, and
    the available servings are not looked at, the repaired serving being
    the same for every list of them. *)
Theorem ensureServingFields_keeps_filled
    (selectedServing : Serving.t) (availableServings : list Serving.t) :
  Serving.ServingID selectedServing ≠ "" → Serving.Calories selectedServing ≠ "" →
  keepsFilled selectedServing (ensureServingFields selectedServing availableServings) ∧
  ∀ others,
    ensureServingFields selectedServing others
    = ensureServingFields selectedServing availableServings.
Proof.
  intros Hid Hcal. split.
  - rewrite ensureServingFields_present by done. apply defaults_keep_filled.
  - intros others.
    rewrite (ensureServingFields_present _ others),
      (ensureServingFields_present _ availableServings) by done.
    reflexivity.
Qed.

Lemma ensureServingFields_keeps_filled_witness :
  keepsFilled oatmeal (ensureServingFields oatmeal mixedServings) ∧
  ∀ others, ensureServingFields oatmeal others = ensureServingFields oatmeal mixedServings.
Proof.
  apply (ensureServingFields_keeps_filled oatmeal mixedServings);
    discriminate.
Defined.


(** ** The portion scaler *)

Section PortionFrame.
Context `{GoLib}.
Import Serving.

Lemma findPortionRatio_None foodName foodWithPortions :
  findPortionRatio foodName foodWithPortions = None ↔ foodWithPortions = [].
Proof.
  unfold findPortionRatio. split.
  - destruct (matchPortionRatio foodName foodWithPortions); [done|].
    destruct foodWithPortions; [done|]. simpl length.
    by destruct (Z.eqb_spec (Z.of_nat (S (length foodWithPortions))) 0); [lia|].
  - by intros ->.
Qed.

Lemma adjustFood_None foodWithPortions targetCalories food :
  adjustFood foodWithPortions targetCalories food = None
  ↔ foodWithPortions = [] ∧ Food.Servings food ≠ [].
Proof.
  unfold adjustFood. destruct (Food.Servings food) as [|first rest].
  - split; [done|]. by intros [_ ?].
  - destruct (findPortionRatio (Food.FoodName food) foodWithPortions) as [r|] eqn:E; simpl.
    + split; [done|]. intros [Hnil _].
      apply (findPortionRatio_None (Food.FoodName food)) in Hnil. by rewrite Hnil in E.
    + apply findPortionRatio_None in E. by split.
Qed.

(** The portion scaler writes the amount and the eighteen nutrients,
    nothing else. *)
Lemma adjustServingForTargetCalories_sameDescription serving targetCalories :
  sameDescription serving (adjustServingForTargetCalories serving targetCalories).
Proof.
  unfold adjustServingForTargetCalories.
  destruct (ParseFloat (Calories serving)) as [c|]; [|apply sameDescription_refl].
  destruct (F64.eqb c F64.zero); [apply sameDescription_refl|].
  destruct (ParseFloat (MetricServingAmount serving)) as [a|]; [|apply sameDescription_refl].
  destruct (F64.eqb a F64.zero); [apply sameDescription_refl|].
  destruct serving. by repeat split.
Qed.

Lemma adjustFood_frame foodWithPortions targetCalories food food' :
  adjustFood foodWithPortions targetCalories food = Some food' → sameFrame food food'.
Proof.
  unfold adjustFood. destruct (Food.Servings food) as [|first rest] eqn:Es.
  - intros [= <-]. apply sameFrame_refl.
  - destruct (findPortionRatio _ _) as [r|]; [|done]. simpl. intros [= <-].
    repeat split. rewrite Es. simpl. split; [|done].
    apply adjustServingForTargetCalories_sameDescription.
Qed.

End PortionFrame.

(** X5.  [adjustServingsByPortionRatio] panics (the integer division by
    [len(foodWithPortions)] in [findPortionRatio]) exactly when the request
    list is empty and some food has a serving. *)
Theorem adjustServingsByPortionRatio_panics_iff `{GoLib}
    (foods : list Food.t) (foodWithPortions : list FoodWithPortion.t)
    (targetCalories : float64) :
  adjustServingsByPortionRatio foods foodWithPortions targetCalories = None
  ↔ foodWithPortions = [] ∧ ∃ food, food ∈ foods ∧ Food.Servings food ≠ [].
Proof.
  unfold adjustServingsByPortionRatio. rewrite mapM_None, Exists_exists. split.
  - intros (food & Hin & Hnone). apply adjustFood_None in Hnone as [Hnil Hs]. eauto.
  - intros (Hnil & food & Hin & Hs). exists food. split; [done|].
    by apply adjustFood_None.
Qed.

(** X6.  When it returns, [adjustServingsByPortionRatio] returns the foods it
    was given, in the same order, with nothing changed but the amount and
    the nutrients of each first serving. *)
Theorem adjustServingsByPortionRatio_frame `{GoLib}
    (foods optimizedFoods : list Food.t) (foodWithPortions : list FoodWithPortion.t)
    (targetCalories : float64) :
  adjustServingsByPortionRatio foods foodWithPortions targetCalories = Some optimizedFoods →
  Forall2 sameFrame foods optimizedFoods.
Proof.
  unfold adjustServingsByPortionRatio. intros Hout. apply mapM_Some in Hout.
  eapply Forall2_impl; [exact Hout|]. intros food food' Hfood.
  exact (adjustFood_frame _ _ _ _ Hfood).
Qed.

Lemma adjustServingsByPortionRatio_frame_witness :
  ∃ optimizedFoods,
    adjustServingsByPortionRatio (H := go_std) [grilledChicken] threeRequests (lit "500")
      = Some optimizedFoods ∧
    Forall2 sameFrame [grilledChicken] optimizedFoods.
Proof.
  destruct (adjustServingsByPortionRatio (H := go_std) [grilledChicken] threeRequests
              (lit "500")) as [optimizedFoods|] eqn:Hout;
    [|vm_compute in Hout; discriminate Hout].
  exists optimizedFoods. split; [reflexivity|].
  exact (adjustServingsByPortionRatio_frame (H := go_std) _ _ _ _ Hout).
Defined.


(** *** The portion scaler multiplies by target over current calories *)

Module PortionError.
Import Binary64.

Local Open Scope Q_scope.

Lemma sizable_exponent x : sizable x → (-82 ≤ F64.exponent x ≤ -22)%Z.
Proof.
  intros (Hn & Hlo & Hhi).
  apply (exponent_bounds x (-30) 30 Hn); [pow2_num (-30)%Z|pow2_num 30%Z]; lra.
Qed.

Lemma sizable_inverse (C : Q) :
  (1 # 1000000000) <= C → C <= 1000000000 →
  0 < / C ∧ (1 # 1000000000) <= / C ∧ / C <= 1000000000.
Proof.
  intros Hlo Hhi. assert (0 < C) as Hpos by lra.
  split; [by apply Qinv_lt_0_compat|]. split.
  - apply Qle_shift_inv_l; lra.
  - apply Qle_shift_inv_r; lra.
Qed.

(** The quotient [t / c] of two sizable numbers. *)
Lemma quotient_value t c :
  sizable t → sizable c →
  let q := F64.div t c in
  F64.normal q ∧ F64.negative q = xorb (F64.negative t) (F64.negative c) ∧
  F64.magnitude t * / F64.magnitude c * (1 - F64.u) <= F64.magnitude q ∧
  F64.magnitude q <= F64.magnitude t * / F64.magnitude c * (1 + F64.u) ∧
  (-113 ≤ F64.exponent q ≤ 9)%Z.
Proof.
  intros Ht Hc q.
  pose proof (sizable_exponent t Ht) as Het. pose proof (sizable_exponent c Hc) as Hec.
  destruct Ht as (Hnt & Htlo & Hthi), Hc as (Hnc & Hclo & Hchi).
  destruct (sizable_inverse _ Hclo Hchi) as (Hipos & Hilo & Hihi).
  assert ((1 # 1000000000) * (1 # 1000000000) <= F64.magnitude t * / F64.magnitude c)
    as Hqlo by (apply Qmult_le_both; lra).
  assert (F64.magnitude t * / F64.magnitude c <= 1000000000 * 1000000000)
    as Hqhi by (apply Qmult_le_both; lra).
  destruct t as [| | |st mt et]; try done. destruct c as [| | |sc mc ec]; try done.
  destruct Hnt as [Hdt _], Hnc as [Hdc _]. cbn [F64.exponent] in Het, Hec.
  destruct (div_value st mt et sc mc ec) as (Hn & Hs & Hl & Hh);
    [rewrite Hdt, Hdc; lia..|].
  fold (F64.magnitude (S754_finite st mt et)) in Hl, Hh.
  fold (F64.magnitude (S754_finite sc mc ec)) in Hl, Hh.
  unfold Qdiv in Hl, Hh.
  split; [exact Hn|]. split; [exact Hs|]. split; [exact Hl|]. split; [exact Hh|].
  apply (exponent_bounds _ (-61) 61 Hn); [pow2_num (-61)%Z|pow2_num 61%Z]; u_num;
    set (TC := F64.magnitude (S754_finite st mt et) * / F64.magnitude (S754_finite sc mc ec)) in *;
    lra.
Qed.

(** What is printed for [v * (t / c)] reads within half a thousandth, and
    the rounding of the two operations, of the exact product. *)
Lemma scaled_value v t c :
  moderate v → sizable t → sizable c →
  F64.magnitude v * (F64.magnitude t * / F64.magnitude c) <= 1000000000 →
  let r := parseFloatDefault (H := go_std)
             (Sprintf3 (GoLib := go_std) (F64.mul v (F64.div t c))) in
  Qabs (F64.to_Q r - F64.to_Q v * (F64.to_Q t / F64.to_Q c)) <= 51 # 100000.
Proof.
  intros Hv Ht Hc Hbound r.
  destruct (quotient_value t c Ht Hc) as (Hq & Hsq & Hql & Hqh & Heq).
  set (q := F64.div t c) in *.
  set (V := F64.magnitude v) in *. set (T := F64.magnitude t) in *.
  set (C := F64.magnitude c) in *. set (Q := F64.magnitude q) in *.
  assert (0 <= V) as HV.
  { destruct Hv as [Hz|(Hn & Hlo & _)]; [by destruct v|]. fold V in Hlo. lra. }
  assert (F64.is_zero v ∨ F64.normal v) as Hv' by (destruct Hv as [|[? _]]; auto).
  assert (0 < T ∧ 0 < C) as [HT HC].
  { destruct Ht as (_ & Hlo & _), Hc as (_ & Hlo' & _). fold T in Hlo. fold C in Hlo'.
    split; lra. }
  destruct (mul_settled v q Hv' Hq) as (Hp & Hsp & Hpl & Hph).
  { intros Hn. destruct Hv as [Hz|Hs]; [by destruct v|].
    pose proof (sizable_exponent v Hs). lia. }
  set (p := F64.mul v q) in *. fold V Q in Hpl, Hph.
  set (I := V * (T * / C)) in *.
  assert (I * (1 - F64.u) <= V * Q) as Hvql.
  { apply (scaled_le (T * / C * (1 - F64.u)) Q V); [unfold I; ring|ring|done|done]. }
  assert (V * Q <= I * (1 + F64.u)) as Hvqh.
  { apply (scaled_le Q (T * / C * (1 + F64.u)) V); [ring|unfold I; ring|done|done]. }
  assert (0 <= I) as HI.
  { unfold I. apply Qmult_le_0_compat; [done|]. apply Qmult_le_0_compat; [lra|].
    apply Qlt_le_weak, Qinv_lt_0_compat, HC. }
  set (VQ := V * Q) in *.
  destruct (printed_value p Hp) as (N & HN & Hnl & Hnh & Hr & Hsr & Hrl & Hrh).
  { pow2_num 52%Z. u_num. lra. }
  fold r in Hr, Hsr, Hrl, Hrh.
  rewrite Zle_Qle in HN. change (inject_Z 0) with 0 in HN.
  assert (- (51 # 100000) <= F64.magnitude r - I ∧ F64.magnitude r - I <= 51 # 100000)
    as [Hlo Hhi].
  { u_num. unfold Qdiv in *. change (/ 1000) with (1 # 1000) in *.
    clearbody I VQ. split; lra. }
  assert (F64.to_Q v * (F64.to_Q t / F64.to_Q c)
          == if xorb (F64.negative v) (xorb (F64.negative t) (F64.negative c))
             then - I else I) as ->.
  { unfold F64.to_Q, I. fold V T C.
    destruct (F64.negative v), (F64.negative t), (F64.negative c); simpl; field; lra. }
  unfold F64.to_Q. rewrite Hsr, Hsp, Hsq.
  apply Qabs_Qle_condition.
  destruct (xorb (F64.negative v) (xorb (F64.negative t) (F64.negative c))); split; lra.
Qed.

End PortionError.


Section PortionQuantities.
Context `{GoLib}.
Import Serving.

(** Past its two guards, the portion scaler rewrites the amount and each
    nutrient with its product by [targetCalories / currentCalories]. *)
Lemma adjustServingForTargetCalories_quantities serving targetCalories c a :
  ParseFloat (Calories serving) = Some c → F64.eqb c F64.zero = false →
  ParseFloat (MetricServingAmount serving) = Some a → F64.eqb a F64.zero = false →
  quantities (adjustServingForTargetCalories serving targetCalories)
  = (λ field, Sprintf3 (parseAndMultiply field (F64.div targetCalories c)))
      <$> quantities serving.
Proof.
  intros Hc Hc0 Ha Ha0.
  assert (parseAndMultiply (Calories serving) (F64.div targetCalories c)
          = F64.mul c (F64.div targetCalories c)) as Hcalories
    by (unfold parseAndMultiply; by rewrite Hc).
  assert (parseAndMultiply (MetricServingAmount serving) (F64.div targetCalories c)
          = F64.mul a (F64.div targetCalories c)) as Hamount
    by (unfold parseAndMultiply; by rewrite Ha).
  unfold quantities, nutrients. cbn [fmap list_fmap]. rewrite Hcalories, Hamount.
  unfold adjustServingForTargetCalories. rewrite Hc, Hc0, Ha, Ha0.
  destruct serving. reflexivity.
Qed.

End PortionQuantities.

Lemma sizable_not_zero x : sizable x → F64.eqb x F64.zero = false.
Proof. intros (Hn & _). by destruct x as [| | |[] m e]. Qed.

Lemma scaled_text_value (field : string) (t c : float64) :
  moderate (parseFloatDefault (H := go_std) field) → sizable t → sizable c →
  (F64.magnitude (parseFloatDefault (H := go_std) field)
     * (F64.magnitude t * / F64.magnitude c) <= 1000000000)%Q →
  (Qabs (fieldValue (H := go_std)
           (Sprintf3 (GoLib := go_std) (parseAndMultiply (H := go_std) field (F64.div t c)))
         - fieldValue (H := go_std) field * (F64.to_Q t / F64.to_Q c)) <= 51 # 100000)%Q.
Proof.
  intros Hv Ht Hc Hbound. unfold fieldValue.
  remember (parseFloatDefault (H := go_std) field) as v eqn:Hparsed.
  pose proof (PortionError.scaled_value v t c Hv Ht Hc Hbound) as Hvalue.
  unfold parseFloatDefault in Hparsed. unfold parseAndMultiply.
  destruct (ParseFloat (GoLib := go_std) field) as [p|]; subst v; [exact Hvalue|].
  change (parseFloatDefault (H := go_std) (Sprintf3 (GoLib := go_std) F64.zero))
    with (S754_zero false).
  change (F64.to_Q (S754_zero false)) with 0%Q. change (F64.to_Q F64.zero) with 0%Q.
  apply Qabs_Qle_condition. split; [|]; ring_simplify; done.
Qed.

(** X7.  The portion scaler brings the calories to the target: for a serving
    that passes the two guards, with calories and target of magnitude
    between 10^-9 and 10^9, the calories written read within 0.00051 of the
    target (half a thousandth for the three decimals, and the rounding of
    the division and the product). *)
Theorem adjusted_calories_meet_target
    (serving : Serving.t) (targetCalories currentCalories currentAmount : float64) :
  ParseFloat (GoLib := go_std) (Serving.Calories serving) = Some currentCalories →
  sizable currentCalories →
  ParseFloat (GoLib := go_std) (Serving.MetricServingAmount serving) = Some currentAmount →
  F64.eqb currentAmount F64.zero = false →
  sizable targetCalories →
  (Qabs (fieldValue (H := go_std)
           (Serving.Calories
              (adjustServingForTargetCalories (H := go_std) serving targetCalories))
         - F64.to_Q targetCalories) <= 51 # 100000)%Q.
Proof.
  intros Hc Hsc Ha Ha0 Ht.
  pose proof (adjustServingForTargetCalories_quantities (H := go_std) serving targetCalories
                _ _ Hc (sizable_not_zero _ Hsc) Ha Ha0) as Hq.
  apply (f_equal (λ l, l !! 1%nat)) in Hq. cbn in Hq. injection Hq as ->.
  assert (parseFloatDefault (H := go_std) (Serving.Calories serving) = currentCalories)
    as Hparsed by (unfold parseFloatDefault; by rewrite Hc).
  assert (0 < F64.magnitude targetCalories ∧ 0 < F64.magnitude currentCalories)%Q
    as [HT HC].
  { destruct Ht as (_ & Hlo & _), Hsc as (_ & Hlo' & _). split; lra. }
  pose proof (scaled_text_value (Serving.Calories serving) targetCalories currentCalories)
    as Hvalue.
  rewrite Hparsed in Hvalue. unfold fieldValue at 2 in Hvalue. rewrite Hparsed in Hvalue.
  assert (F64.to_Q currentCalories * (F64.to_Q targetCalories / F64.to_Q currentCalories)
          == F64.to_Q targetCalories)%Q as Heq.
  { unfold F64.to_Q. destruct (F64.negative currentCalories); field; lra. }
  rewrite Heq in Hvalue. apply Hvalue; [by right|done|done|].
  destruct Ht as (_ & _ & Hhi).
  assert (F64.magnitude currentCalories
            * (F64.magnitude targetCalories * / F64.magnitude currentCalories)
          == F64.magnitude targetCalories)%Q as -> by (field; lra).
  done.
Qed.

Lemma adjusted_calories_meet_target_witness :
  (Qabs (fieldValue (H := go_std)
           (Serving.Calories
              (adjustServingForTargetCalories (H := go_std)
                 (gramServing "9" "100" "165" "31" "0" "3.6") (lit "200")))
         - F64.to_Q (lit "200")) <= 51 # 100000)%Q.
Proof.
  apply (adjusted_calories_meet_target (gramServing "9" "100" "165" "31" "0" "3.6")
           (lit "200") (lit "165") (lit "100")).
  - vm_compute. reflexivity.
  - vm_compute. repeat split; intros; discriminate.
  - vm_compute. reflexivity.
  - vm_compute. reflexivity.
  - vm_compute. repeat split; intros; discriminate.
Defined.


(** X8.  The portion scaler multiplies the amount and every nutrient by the
    same number, target calories over current calories: for a serving that
    passes the two guards, each value written reads within 0.00051 of the
    value read before times [targetCalories / currentCalories]. *)
Theorem portion_scaler_multiplies_quantities
    (serving : Serving.t) (targetCalories currentCalories currentAmount : float64) :
  ParseFloat (GoLib := go_std) (Serving.Calories serving) = Some currentCalories →
  sizable currentCalories →
  ParseFloat (GoLib := go_std) (Serving.MetricServingAmount serving) = Some currentAmount →
  F64.eqb currentAmount F64.zero = false →
  sizable targetCalories →
  Forall (scalable (H := go_std) targetCalories currentCalories) (quantities serving) →
  quantitiesScaled (H := go_std) (51 # 100000)
    (F64.to_Q targetCalories / F64.to_Q currentCalories)
    serving (adjustServingForTargetCalories (H := go_std) serving targetCalories).
Proof.
  intros Hc Hsc Ha Ha0 Ht Hfields. unfold quantitiesScaled.
  rewrite (adjustServingForTargetCalories_quantities (H := go_std) serving targetCalories
             _ _ Hc (sizable_not_zero _ Hsc) Ha Ha0).
  apply Forall2_fmap_r, Forall_Forall2_diag.
  eapply Forall_impl; [exact Hfields|]. intros field [Hv Hbound]. cbn beta.
  by apply scaled_text_value.
Qed.

Ltac scalable_field :=
  split; [vm_compute; first [by left | right; repeat split; intros; discriminate]
         |vm_compute; intros; discriminate].

Lemma portion_scaler_multiplies_quantities_witness :
  quantitiesScaled (H := go_std) (51 # 100000) (F64.to_Q (lit "200") / F64.to_Q (lit "165"))
    (gramServing "9" "100" "165" "31" "0" "3.6")
    (adjustServingForTargetCalories (H := go_std)
       (gramServing "9" "100" "165" "31" "0" "3.6") (lit "200")).
Proof.
  apply (portion_scaler_multiplies_quantities (gramServing "9" "100" "165" "31" "0" "3.6")
           (lit "200") (lit "165") (lit "100")).
  - vm_compute. reflexivity.
  - vm_compute. repeat split; intros; discriminate.
  - vm_compute. reflexivity.
  - vm_compute. reflexivity.
  - vm_compute. repeat split; intros; discriminate.
  - unfold quantities, Serving.nutrients.
    repeat (apply Forall_cons; split; [scalable_field|]). apply Forall_nil_2.
Defined.


(** ** [scaleServing] multiplies *)

Module ScalingError.
Import Binary64.

Local Open Scope Q_scope.

(** What is printed for [v * f] reads within half a thousandth, and the
    rounding of the product, of the exact product. *)
Lemma product_value v f :
  moderate v → sizable f →
  F64.magnitude v * F64.magnitude f <= 1000000000 →
  let r := parseFloatDefault (H := go_std) (Sprintf3 (GoLib := go_std) (F64.mul v f)) in
  Qabs (F64.to_Q r - F64.to_Q v * F64.to_Q f) <= 51 # 100000.
Proof.
  intros Hv Hf Hbound r.
  pose proof (PortionError.sizable_exponent f Hf) as Hef.
  set (V := F64.magnitude v) in *. set (F := F64.magnitude f) in *.
  assert (0 <= V) as HV.
  { destruct Hv as [Hz|(Hn & Hlo & _)]; [by destruct v|]. fold V in Hlo. lra. }
  assert (F64.is_zero v ∨ F64.normal v) as Hv' by (destruct Hv as [|[? _]]; auto).
  destruct (mul_settled v f Hv' (proj1 Hf)) as (Hp & Hsp & Hpl & Hph).
  { intros Hn. destruct Hv as [Hz|Hs]; [by destruct v|].
    pose proof (PortionError.sizable_exponent v Hs). lia. }
  set (p := F64.mul v f) in *. fold V F in Hpl, Hph.
  set (I := V * F) in *.
  assert (0 <= I) as HI.
  { unfold I. apply Qmult_le_0_compat; [done|]. destruct Hf as (_ & Hlo & _).
    fold F in Hlo. lra. }
  destruct (printed_value p Hp) as (N & HN & Hnl & Hnh & Hr & Hsr & Hrl & Hrh).
  { pow2_num 52%Z. u_num. lra. }
  fold r in Hr, Hsr, Hrl, Hrh.
  rewrite Zle_Qle in HN. change (inject_Z 0) with 0 in HN.
  assert (- (51 # 100000) <= F64.magnitude r - I ∧ F64.magnitude r - I <= 51 # 100000)
    as [Hlo Hhi].
  { u_num. unfold Qdiv in *. change (/ 1000) with (1 # 1000) in *.
    clearbody I. split; lra. }
  assert (F64.to_Q v * F64.to_Q f
          == if xorb (F64.negative v) (F64.negative f) then - I else I) as ->.
  { unfold F64.to_Q, I. fold V F.
    destruct (F64.negative v), (F64.negative f); simpl; ring. }
  unfold F64.to_Q. rewrite Hsr, Hsp.
  apply Qabs_Qle_condition.
  destruct (xorb (F64.negative v) (F64.negative f)); split; lra.
Qed.

End ScalingError.

Lemma sizable_positive factor :
  sizable factor → F64.negative factor = false → F64.leb factor F64.zero = false.
Proof.
  intros (Hn & _) Hpos. destruct factor as [| | |s m e]; try done.
  simpl in Hpos. by subst s.
Qed.

(** X9.  [scaleServing] multiplies the amount and every nutrient by the
    factor: for a positive factor between 10^-9 and 10^9 and values of
    moderate size, each value written reads within 0.00051 of the value
    read before times the factor. *)
Theorem scaleServing_multiplies_quantities (serving : Serving.t) (factor : float64) :
  sizable factor → F64.negative factor = false →
  Forall (scalableBy (H := go_std) factor) (quantities serving) →
  quantitiesScaled (H := go_std) (51 # 100000) (F64.to_Q factor)
    serving (scaleServing (H := go_std) serving factor).
Proof.
  intros Hf Hpos Hfields. unfold quantitiesScaled.
  rewrite (scaleServing_quantities (H := go_std)) by by apply sizable_positive.
  apply Forall2_fmap_r, Forall_Forall2_diag.
  eapply Forall_impl; [exact Hfields|]. intros field [Hv Hbound]. cbn beta.
  by apply ScalingError.product_value.
Qed.

Ltac scalableBy_field :=
  split; [vm_compute; first [by left | right; repeat split; intros; discriminate]
         |vm_compute; intros; discriminate].

Lemma scaleServing_multiplies_quantities_witness :
  quantitiesScaled (H := go_std) (51 # 100000) (F64.to_Q (lit "1.6"))
    oatmeal (scaleServing (H := go_std) oatmeal (lit "1.6")).
Proof.
  apply (scaleServing_multiplies_quantities oatmeal (lit "1.6")).
  - vm_compute. repeat split; intros; discriminate.
  - vm_compute. reflexivity.
  - unfold quantities, Serving.nutrients.
    repeat (apply Forall_cons; split; [scalableBy_field|]). apply Forall_nil_2.
Defined.


(** ** The rebalancer, food by food *)

Section Starch.
Context `{GoLib}.

Lemma starchyIndexesFrom_spec k foods i :
  i ∈ starchyIndexesFrom k foods
  ↔ ∃ j food, i = (k + j)%nat ∧ foods !! j = Some food ∧
              isStarchyCarb (Food.FoodName food) = true.
Proof.
  revert k. induction foods as [|f rest IH]; intros k; simpl.
  - split; [by intros ?%elem_of_nil|]. by intros (j & food & _ & ? & _).
  - destruct (isStarchyCarb (Food.FoodName f)) eqn:E.
    + rewrite elem_of_cons, IH. split.
      * intros [->|(j & food & -> & Hj & Hs)].
        -- exists 0%nat, f. split; [lia|done].
        -- exists (S j), food. split; [lia|done].
      * intros (j & food & -> & Hj & Hs). destruct j as [|j].
        -- left. lia.
        -- right. exists j, food. split; [lia|done].
    + rewrite IH. split.
      * intros (j & food & -> & Hj & Hs). exists (S j), food. split; [lia|done].
      * intros (j & food & -> & Hj & Hs). destruct j as [|j].
        -- simpl in Hj. injection Hj as <-. congruence.
        -- exists j, food. split; [lia|done].
Qed.

Lemma starchyIndexesFrom_increasing k foods a b i j :
  starchyIndexesFrom k foods !! a = Some i → starchyIndexesFrom k foods !! b = Some j →
  (a < b)%nat → (i < j)%nat.
Proof.
  revert k a b. induction foods as [|f rest IH]; intros k a b; simpl; [done|].
  destruct (isStarchyCarb (Food.FoodName f)); [|apply IH].
  intros Ha Hb Hab. destruct b as [|b]; [lia|]. simpl in Hb.
  destruct a as [|a].
  - simpl in Ha. injection Ha as <-.
    apply list_elem_of_lookup_2, starchyIndexesFrom_spec in Hb as (n & _ & -> & _). lia.
  - simpl in Ha. apply (IH (S k) a b); [done|done|lia].
Qed.

(** The loop over the starchy indexes, food by food. *)
Lemma scaleAt_all factor (before rest : list Food.t) :
  fold_left (scaleAt factor) (starchyIndexesFrom (length before) rest) (before ++ rest)%list
  = (before ++ scaleStarchy factor rest)%list.
Proof.
  revert before. induction rest as [|f rest IH]; intros before; [done|].
  unfold scaleStarchy. cbn [starchyIndexesFrom fmap list_fmap].
  destruct (isStarchyCarb (Food.FoodName f)) eqn:E.
  - cbn [fold_left].
    assert (scaleAt factor (before ++ f :: rest)%list (length before)
            = (before ++ scaleFirstServing factor f :: rest)%list) as ->.
    { unfold scaleAt, scaleFirstServing, setFirstServing.
      rewrite list_lookup_middle by done.
      destruct (Food.Servings f) as [|serving others] eqn:Es; [done|].
      cbn [insert list_insert].
      by rewrite insert_app_r_alt, Nat.sub_diag by lia. }
    specialize (IH (before ++ [scaleFirstServing factor f])%list).
    rewrite length_app, <- app_assoc in IH. simpl in IH.
    rewrite Nat.add_1_r in IH. rewrite IH. by rewrite <- app_assoc.
  - specialize (IH (before ++ [f])%list).
    rewrite length_app, <- app_assoc in IH. simpl in IH.
    rewrite Nat.add_1_r in IH. rewrite IH. by rewrite <- app_assoc.
Qed.

Lemma starchCarbsOf_all (before rest : list Food.t) (sum : float64) :
  fold_left
    (λ (starchCarbs : float64) (i : nat),
       match (before ++ rest)%list !! i with
       | Some food =>
           match Food.Servings food with
           | serving :: _ =>
               F64.add starchCarbs (parseFloatDefault (Serving.Carbohydrate serving))
           | [] => starchCarbs
           end
       | None => starchCarbs
       end)
    (starchyIndexesFrom (length before) rest) sum
  = fold_left
      (λ (sum : float64) (food : Food.t),
         if isStarchyCarb (Food.FoodName food) then
           match Food.Servings food with
           | serving :: _ => F64.add sum (parseFloatDefault (Serving.Carbohydrate serving))
           | [] => sum
           end
         else sum)
      rest sum.
Proof.
  revert before sum. induction rest as [|f rest IH]; intros before sum; [done|].
  cbn [starchyIndexesFrom fold_left].
  specialize (IH (before ++ [f])%list).
  rewrite length_app, <- app_assoc in IH. simpl in IH. rewrite Nat.add_1_r in IH.
  destruct (isStarchyCarb (Food.FoodName f)) eqn:E; [|apply IH].
  cbn [fold_left]. rewrite list_lookup_middle by done. apply IH.
Qed.

Lemma carbCorrection_by_food totals target foods :
  carbCorrection totals target foods
  = if F64.gtb (MacroTarget.Carbs totals) (carbCeiling target)
       && F64.gtb (starchCarbs foods) F64.zero
    then scaleStarchy
           (carbFactor (F64.sub (MacroTarget.Carbs totals) (carbCeiling target))
              (starchCarbs foods)) foods
    else foods.
Proof.
  unfold carbCorrection, findStarchyCarbIndexes, starchCarbsOf, starchCarbs.
  change (F64.mul (MacroTarget.Carbs target) (F64.of_Q (1 + tolerance)))
    with (carbCeiling target).
  destruct (F64.gtb (MacroTarget.Carbs totals) (carbCeiling target)); [|done].
  cbn [andb].
  pose proof (starchCarbsOf_all [] foods F64.zero) as Hsum.
  pose proof (scaleAt_all
                (carbFactor (F64.sub (MacroTarget.Carbs totals) (carbCeiling target))
                   (starchCarbs foods)) [] foods) as Hscale.
  cbn [length app] in Hsum, Hscale.
  destruct (starchyIndexesFrom 0 foods) as [|i indexes] eqn:Ei.
  - cbn [fold_left] in Hsum. unfold starchCarbs in *. rewrite <- Hsum.
    by change (F64.gtb F64.zero F64.zero) with false.
  - rewrite Hsum. fold (starchCarbs foods).
    destruct (F64.gtb (starchCarbs foods) F64.zero); [|done].
    exact Hscale.
Qed.

End Starch.

(** X10.  [findStarchyCarbIndexes] returns, in increasing order and each once,
    exactly the positions of the foods whose name [isStarchyCarb] accepts:
    every index it returns is in range. *)
Theorem findStarchyCarbIndexes_exact `{GoLib} (foods : list Food.t) :
  (∀ a b i j,
     findStarchyCarbIndexes foods !! a = Some i →
     findStarchyCarbIndexes foods !! b = Some j → (a < b)%nat → (i < j)%nat) ∧
  ∀ i, i ∈ findStarchyCarbIndexes foods
       ↔ ∃ food, foods !! i = Some food ∧ isStarchyCarb (Food.FoodName food) = true.
Proof.
  split; [apply starchyIndexesFrom_increasing|]. intros i.
  unfold findStarchyCarbIndexes. rewrite starchyIndexesFrom_spec. split.
  - intros (j & food & -> & Hj & Hs). eauto.
  - intros (food & Hi & Hs). exists i, food. done.
Qed.

(** X11.  The carbohydrate correction of a pass, food by food: when the
    aggregated carbohydrate exceeds 105% of the target and the starchy foods
    carry some, every starchy food has its first serving scaled, once, by
    the same factor [1 - m], where [m] is the lesser of 0.35 and
    [excess / starch], and no other food is touched; otherwise nothing
    changes.  Scaled means: the amount and each nutrient read, multiplied by
    the factor and written with three decimals, the other fields kept. *)
Theorem carb_correction_scales_the_starchy `{GoLib}
    (totals target : MacroTarget.t) (foods : list Food.t) :
  if F64.gtb (MacroTarget.Carbs totals) (carbCeiling target)
     && F64.gtb (starchCarbs foods) F64.zero
  then
    ∃ m,
      lesserOf (F64.of_Q (35 # 100))
        (F64.div (F64.sub (MacroTarget.Carbs totals) (carbCeiling target))
           (starchCarbs foods)) m ∧
      Forall2
        (λ food food',
           if isStarchyCarb (Food.FoodName food)
           then firstServingCorrected (F64.sub F64.one m) food food'
           else food' = food)
        foods (carbCorrection totals target foods)
  else carbCorrection totals target foods = foods.
Proof.
  rewrite carbCorrection_by_food.
  destruct (F64.gtb (MacroTarget.Carbs totals) (carbCeiling target)
            && F64.gtb (starchCarbs foods) F64.zero); [|done].
  exists (minFloat (F64.of_Q (35 # 100))
            (F64.div (F64.sub (MacroTarget.Carbs totals) (carbCeiling target))
               (starchCarbs foods))).
  split; [apply minFloat_lesser|].
  unfold scaleStarchy. apply Forall2_fmap_r, Forall_Forall2_diag, Forall_forall.
  intros food _. unfold compose. cbv beta.
  destruct (isStarchyCarb (Food.FoodName food)); [|done].
  unfold firstServingCorrected, scaleFirstServing.
  destruct (Food.Servings food) as [|serving rest]; [done|].
  eexists. split; [apply scaleServing_corrected|reflexivity].
Qed.

Lemma carb_correction_scales_the_starchy_witness :
  let totals := calculateMealMacros (H := go_std) riceMeal in
  F64.gtb (MacroTarget.Carbs totals) (carbCeiling lowCarbTarget)
  && F64.gtb (starchCarbs (H := go_std) riceMeal) F64.zero = true ∧
  ∃ m,
    lesserOf (F64.of_Q (35 # 100))
      (F64.div (F64.sub (MacroTarget.Carbs totals) (carbCeiling lowCarbTarget))
         (starchCarbs (H := go_std) riceMeal)) m ∧
    Forall2
      (λ food food',
         if isStarchyCarb (H := go_std) (Food.FoodName food)
         then firstServingCorrected (H := go_std) (F64.sub F64.one m) food food'
         else food' = food)
      riceMeal (carbCorrection (H := go_std) totals lowCarbTarget riceMeal).
Proof.
  intros totals.
  assert (F64.gtb (MacroTarget.Carbs totals) (carbCeiling lowCarbTarget)
          && F64.gtb (starchCarbs (H := go_std) riceMeal) F64.zero = true) as Hexcess
    by (vm_compute; reflexivity).
  split; [exact Hexcess|].
  pose proof (carb_correction_scales_the_starchy (H := go_std) totals lowCarbTarget riceMeal)
    as Hscaled.
  rewrite Hexcess in Hscaled. exact Hscaled.
Defined.

Section Untouched.
Context `{GoLib}.

Lemma firstIndexFrom_names (p : string → bool) k foods foods' :
  Forall2 sameFrame foods foods' → firstIndexFrom p k foods' = firstIndexFrom p k foods.
Proof.
  intros Hframe. revert k. induction Hframe as [|f f' l l' Hf _ IH]; intros k; [done|].
  simpl. destruct Hf as (_ & -> & _). by rewrite IH.
Qed.

Lemma findBestFatFoodIndex_names foods foods' :
  Forall2 sameFrame foods foods' → findBestFatFoodIndex foods' = findBestFatFoodIndex foods.
Proof.
  intros Hframe. unfold findBestFatFoodIndex. by rewrite !(firstIndexFrom_names _ _ _ _ Hframe).
Qed.

Lemma fatCorrection_elsewhere totals target foods i :
  findBestFatFoodIndex foods ≠ Z.of_nat i →
  fatCorrection totals target foods !! i = foods !! i.
Proof.
  intros Hne. unfold fatCorrection, setFirstServing.
  repeat (case_match; try done).
  apply list_lookup_insert_ne. lia.
Qed.

Lemma carbCorrection_elsewhere totals target foods i food :
  foods !! i = Some food → isStarchyCarb (Food.FoodName food) = false →
  carbCorrection totals target foods !! i = Some food.
Proof.
  intros Hi Hs. rewrite carbCorrection_by_food. case_match; [|done].
  unfold scaleStarchy. rewrite list_lookup_fmap, Hi. simpl. by rewrite Hs.
Qed.

Lemma rebalancePass_elsewhere target foods i food :
  foods !! i = Some food → isStarchyCarb (Food.FoodName food) = false →
  findBestFatFoodIndex foods ≠ Z.of_nat i →
  rebalancePass target foods !! i = Some food.
Proof.
  intros Hi Hs Hne. unfold rebalancePass.
  apply carbCorrection_elsewhere; [|done]. by rewrite fatCorrection_elsewhere.
Qed.

Lemma rebalanceLoop_elsewhere pass target foods i food :
  foods !! i = Some food → isStarchyCarb (Food.FoodName food) = false →
  findBestFatFoodIndex foods ≠ Z.of_nat i →
  rebalanceLoop pass target foods !! i = Some food.
Proof.
  revert foods. induction pass as [|n IH]; intros foods Hi Hs Hne; [done|].
  simpl. apply IH; [by apply rebalancePass_elsewhere|done|].
  by rewrite (findBestFatFoodIndex_names _ _ (rebalancePass_frame target foods)).
Qed.

End Untouched.

(** X12.  The rebalancer returns unchanged every food that is neither starchy
    nor the food [findBestFatFoodIndex] points at: in both passes the fat
    correction writes to that one food and the carbohydrate correction to
    the starchy ones. *)
Theorem rebalanceMealFoods_leaves_the_others `{GoLib}
    (foods : list Food.t) (target : MacroTarget.t) (i : nat) (food : Food.t) :
  foods !! i = Some food →
  isStarchyCarb (Food.FoodName food) = false →
  findBestFatFoodIndex foods ≠ Z.of_nat i →
  rebalanceMealFoods foods target !! i = Some food.
Proof. apply rebalanceLoop_elsewhere. Qed.

Lemma rebalanceMealFoods_leaves_the_others_witness :
  rebalanceMealFoods (H := go_std) riceMeal lowCarbTarget !! 2%nat = riceMeal !! 2%nat ∧
  rebalanceMealFoods (H := go_std) riceMeal lowCarbTarget !! 0%nat ≠ riceMeal !! 0%nat.
Proof.
  split.
  - apply (rebalanceMealFoods_leaves_the_others (H := go_std) riceMeal lowCarbTarget 2).
    + reflexivity.
    + vm_compute. reflexivity.
    + vm_compute. discriminate.
  - vm_compute. discriminate.
Defined.


(** ** The macro aggregator *)

Section Aggregator.
Context `{GoLib}.

Lemma calculateMealMacros_fields foods totals :
  fold_left
    (λ (totals : MacroTarget.t) (food : Food.t),
       match Food.Servings food with
       | serving :: _ =>
           MacroTarget.mk
             (addParsed (MacroTarget.Calories totals) (Serving.Calories serving))
             (addParsed (MacroTarget.Carbs totals) (Serving.Carbohydrate serving))
             (addParsed (MacroTarget.Fats totals) (Serving.Fat serving))
             (addParsed (MacroTarget.Proteins totals) (Serving.Protein serving))
       | [] => totals
       end)
    foods totals
  = fold_left
      (λ (totals : MacroTarget.t) '(calories, carbohydrate, protein, fat),
         MacroTarget.mk
           (addParsed (MacroTarget.Calories totals) calories)
           (addParsed (MacroTarget.Carbs totals) carbohydrate)
           (addParsed (MacroTarget.Fats totals) fat)
           (addParsed (MacroTarget.Proteins totals) protein))
      (macroFields foods) totals.
Proof.
  revert totals. induction foods as [|food rest IH]; intros totals; [done|].
  unfold macroFields. cbn [fold_left omap list_omap].
  destruct (Food.Servings food) as [|serving others]; simpl; apply IH.
Qed.

End Aggregator.

(** X13.  [calculateMealMacros] reads nothing but the calories, carbohydrate,
    protein and fat of the first serving of each food: foods without
    servings, the servings after the first, and every other field leave the
    totals as they are. *)
Theorem calculateMealMacros_reads_first_servings `{GoLib} (foods foods' : list Food.t) :
  macroFields foods = macroFields foods' →
  calculateMealMacros foods = calculateMealMacros foods'.
Proof.
  intros Hfields. unfold calculateMealMacros.
  by rewrite !calculateMealMacros_fields, Hfields.
Qed.

Lemma calculateMealMacros_reads_first_servings_witness :
  calculateMealMacros (H := go_std) riceMealPadded
  = calculateMealMacros (H := go_std) riceMeal.
Proof.
  apply (calculateMealMacros_reads_first_servings (H := go_std) riceMealPadded riceMeal).
  reflexivity.
Defined.


(** ** The food resolver: whose reply is stored *)

Module ResolverReplies.
Import Resolver.

Lemma run_snoc schedule e σ :
  run (schedule ++ [e]) σ = (run schedule σ) ≫= exec e.
Proof.
  revert σ. induction schedule as [|e0 rest IH]; intros σ; simpl.
  - by destruct (exec e σ).
  - destruct (exec e0 σ); [apply IH|done].
Qed.

Lemma repliesTo_snoc name schedule e :
  repliesTo name (schedule ++ [e])
  = (repliesTo name schedule
     ++ match e with
        | Reply n searchResult => if decide (n = name) then [searchResult] else []
        | _ => []
        end)%list.
Proof.
  unfold repliesTo. rewrite omap_app. f_equal.
  destruct e; try done. simpl. by destruct (decide _).
Qed.

Ltac same_reply :=
  rewrite ?decide_True by done; rewrite ?decide_False by done;
  rewrite ?app_nil_r; simpl;
  repeat match goal with
         | Hreply : ∃ _, _ ∧ _ |- _ =>
             let r := fresh "r" in let Hr := fresh "Hr" in let Hf := fresh "Hf" in
             destruct Hreply as (r & Hr & Hf); try rewrite Hr; try subst
         | Hreply : repliesTo _ _ = [] |- _ => rewrite Hreply; clear Hreply
         end;
  solve [eauto].

Lemma exec_ownReply uniqueFoods schedule e σ σ' name :
  invariant uniqueFoods σ →
  ownReply schedule σ name → exec e σ = Some σ' → ownReply (schedule ++ [e]) σ' name.
Proof.
  unfold ownReply. intros Hinv Hown Hexec. rewrite repliesTo_snoc.
  destruct e as [n| | |n|n|n searchResult|n|n|n|n|n]; simpl in Hexec.
  2: { destruct (pc σ); try done. case_match; [|done]. simplify_eq. simpl.
       destruct (workers σ !! name) as [[]|]; same_reply. }
  2: { destruct (pc σ); try done. destruct (wg σ); try done. simplify_eq. simpl.
       destruct (workers σ !! name) as [[]|]; same_reply. }
  all: destruct (decide (n = name)) as [->|Hother].
  (* another worker moves *)
  all: try (assert (workers σ' !! name = workers σ !! name
                    ∧ foodResults σ' !! name = foodResults σ !! name) as [-> ->]
              by (destruct (pc σ); repeat case_match; simplify_eq; simpl;
                  by rewrite ?lookup_insert_ne by done);
            destruct (workers σ !! name) as [[]|]; same_reply; fail).
  (* the worker of [name] moves *)
  - destruct (pc σ) as [remaining| |] eqn:Hpc; try done. case_match; [|done]. simplify_eq.
    assert (workers σ !! name = None) as Hnew.
    { apply not_elem_of_dom. pose proof (inv_fresh _ _ Hinv) as Hfresh.
      rewrite Hpc in Hfresh. simpl in Hfresh. set_solver. }
    rewrite Hnew in Hown. simpl. rewrite lookup_insert_eq. same_reply.
  - destruct (workers σ !! name) as [[]|]; try done. case_match; [|done]. simplify_eq.
    simpl. rewrite lookup_insert_eq. same_reply.
  - destruct (workers σ !! name) as [[]|]; try done. simplify_eq.
    simpl. rewrite lookup_insert_eq. same_reply.
  - destruct (workers σ !! name) as [[]|]; try done. simplify_eq.
    simpl. rewrite lookup_insert_eq. same_reply.
  - destruct (workers σ !! name) as [[]|]; try done. case_match; [done|]. simplify_eq.
    simpl. rewrite lookup_insert_eq. same_reply.
  - destruct (workers σ !! name) as [[]|]; try done. simplify_eq.
    simpl. rewrite !lookup_insert_eq. same_reply.
  - destruct (workers σ !! name) as [[]|]; try done. simplify_eq.
    simpl. rewrite lookup_insert_eq. same_reply.
  - destruct (workers σ !! name) as [[]|]; try done. case_match; [done|]. simplify_eq.
    simpl. rewrite lookup_insert_eq. same_reply.
  - destruct (workers σ !! name) as [[]|]; try done. case_match; [done|]. simplify_eq.
    simpl. rewrite lookup_insert_eq. same_reply.
Qed.

Lemma run_ownReply schedule uniqueFoods σ name :
  run schedule (init uniqueFoods) = Some σ → ownReply schedule σ name.
Proof.
  revert σ. induction schedule as [|e schedule IH] using rev_ind; intros σ Hrun.
  - simpl in Hrun. by simplify_eq.
  - rewrite run_snoc in Hrun.
    destruct (run schedule (init uniqueFoods)) as [σ0|] eqn:Hrun0; [|done].
    simpl in Hrun. eapply exec_ownReply; [|by apply IH|done].
    apply ResolverFacts.reachable_invariant. by exists schedule.
Qed.

End ResolverReplies.

(** X14.  When [batchFetchFoods] has returned, every name received exactly one
    reply from [SearchFood], and its entry in the result is the head of the
    list of foods of that reply, [nil] when the lookup failed or the list
    is empty: no worker stores the result of another. *)
Theorem resolver_stores_own_reply
    (uniqueFoods : gset string) (schedule : list Resolver.event) (σ : Resolver.state)
    (name : string) :
  Resolver.run schedule (Resolver.init uniqueFoods) = Some σ →
  Resolver.pc σ = Resolver.Returned →
  name ∈ uniqueFoods →
  ∃ searchResult,
    repliesTo name schedule = [searchResult] ∧
    Resolver.foodResults σ !! name = Some (searchResult ≫= head).
Proof.
  intros Hrun Hret Hname.
  assert (∀ found : option (list Food.t), Resolver.firstFood found = found ≫= head)
    as Hfirst by (by intros [[|food rest]|]).
  assert (Resolver.invariant uniqueFoods σ) as Hinv
    by (apply ResolverFacts.reachable_invariant; by exists schedule).
  destruct (ResolverFacts.returned_workers _ _ Hinv Hret) as [Hdom Hfin].
  rewrite <- Hdom in Hname. apply elem_of_dom in Hname as [w Hw].
  pose proof (ResolverReplies.run_ownReply schedule uniqueFoods σ name Hrun) as Hown.
  unfold ownReply in Hown. rewrite Hw, (Hfin _ _ Hw) in Hown.
  destruct Hown as (searchResult & Hone & Hentry).
  exists searchResult. by rewrite <- Hfirst.
Qed.

Lemma resolver_stores_own_reply_witness :
  ∃ σ searchResult,
    Resolver.run overlapping (Resolver.init (Resolver.collectUniqueFoods twoMeals)) = Some σ ∧
    repliesTo "Rice" overlapping = [searchResult] ∧
    Resolver.foodResults σ !! "Rice" = Some (searchResult ≫= head) ∧
    searchResult ≫= head
    = Some (foodOf "Rice, cooked" [gramServing "1" "100" "130" "2.7" "28" "0.3"]).
Proof.
  destruct (Resolver.run overlapping
              (Resolver.init (Resolver.collectUniqueFoods twoMeals))) as [σ|] eqn:Hrun;
    [|vm_compute in Hrun; discriminate Hrun].
  destruct (resolver_stores_own_reply _ _ σ "Rice" Hrun) as (searchResult & Hone & Hentry).
  - vm_compute in Hrun. injection Hrun as <-. reflexivity.
  - vm_compute. reflexivity.
  - exists σ, searchResult. split; [reflexivity|]. split; [exact Hone|].
    split; [exact Hentry|].
    vm_compute in Hone. injection Hone as <-. reflexivity.
Defined.


(** ** The callers: building the foods of a meal *)

Section Selection.
Context `{GoLib}.
Hypothesis ToLower_empty : ToLower "" = "".

Lemma gram_has_description serving :
  isGramServing serving = true → Serving.MeasurementDescription serving ≠ "".
Proof.
  unfold isGramServing. intros Hgram Hempty.
  rewrite Hempty, ToLower_empty in Hgram. discriminate Hgram.
Qed.

Lemma ensureServingFields_keeps_description first others :
  Serving.MeasurementDescription first ≠ "" →
  Serving.MeasurementDescription (ensureServingFields first (first :: others))
  = Serving.MeasurementDescription first.
Proof.
  intros Hne. rewrite ensureServingFields_self.
  pose proof (defaults_keep_filled first) as Hkeeps. unfold keepsFilled in Hkeeps.
  apply (Forall2_lookup_lr _ _ _ 2%nat _ _ Hkeeps eq_refl eq_refl Hne).
Qed.

Lemma filter_all_gram (servings : list Serving.t) :
  Forall (λ s, isGramServing s = true) servings →
  List.filter isGramServing servings = servings.
Proof.
  induction 1 as [|s rest Hs _ IH]; simpl; [done|]. by rewrite Hs, IH.
Qed.

Lemma filter_gram (servings : list Serving.t) :
  Forall (λ s, isGramServing s = true) (List.filter isGramServing servings).
Proof.
  apply Forall_forall. intros s Hin. apply list_elem_of_In, filter_In in Hin. tauto.
Qed.

(** Once the first serving is repaired, the list is what the filter
    returns for it. *)
Lemma filterGramServings_repaired servings first rest :
  filterGramServings servings = first :: rest →
  filterGramServings (ensureServingFields first (first :: rest) :: rest)
  = ensureServingFields first (first :: rest) :: rest.
Proof.
  unfold filterGramServings at 1.
  destruct (List.filter isGramServing servings) as [|g gs] eqn:Ef.
  - destruct servings as [|s others]; [done|]. intros [= <- <-].
    generalize (ensureServingFields s [s]). intros s'.
    unfold filterGramServings. cbn [List.filter]. by destruct (isGramServing s').
  - intros [= -> ->].
    pose proof (filter_gram servings) as Hall. rewrite Ef in Hall.
    apply Forall_cons in Hall as [Hfirst Hrest].
    assert (isGramServing (ensureServingFields first (first :: rest)) = true) as Hrepaired.
    { unfold isGramServing in *.
      by rewrite ensureServingFields_keeps_description by by apply gram_has_description. }
    revert Hrepaired. generalize (ensureServingFields first (first :: rest)). intros s' Hs'.
    unfold filterGramServings. cbn [List.filter]. by rewrite Hs', (filter_all_gram rest).
Qed.

Lemma selectServings_again food :
  selectServings (selectServings food) = selectServings food.
Proof.
  unfold selectServings at 2 3.
  destruct (filterGramServings (Food.Servings food)) as [|first rest] eqn:Ef.
  - by destruct food.
  - cbn [insert list_insert]. unfold selectServings. cbn [Food.Servings Food.set_Servings].
    rewrite (filterGramServings_repaired _ _ _ Ef). cbn [insert list_insert].
    rewrite ensureServingFields_fixes_complete by apply ensureServingFields_complete.
    reflexivity.
Qed.

End Selection.

(** X15.  The serving selection of the callers is idempotent, [strings.ToLower]
    mapping the empty string to itself: selecting again among the servings
    it left, as happens to a food that a meal names twice, changes
    nothing. *)
Theorem selectServings_idempotent `{GoLib} (food : Food.t) :
  ToLower "" = "" →
  selectServings (selectServings food) = selectServings food.
Proof. intros Hempty. by apply selectServings_again. Qed.

Lemma selectServings_idempotent_witness :
  selectServings (H := go_std) (selectServings (H := go_std) (foodOf "Milk" mixedServings))
  = selectServings (H := go_std) (foodOf "Milk" mixedServings).
Proof.
  apply (selectServings_idempotent (H := go_std) (foodOf "Milk" mixedServings)).
  reflexivity.
Defined.


Section BuildFoods.
Context `{GoLib}.
Hypothesis ToLower_empty : ToLower "" = "".

Lemma buildStep_selects fetched foods foodResults foodWithPortion :
  selectedSome fetched foodResults →
  ∃ foodResults',
    buildStep (foods, foodResults) foodWithPortion
    = ((foods ++ option_list (selectedFood fetched foodWithPortion))%list, foodResults') ∧
    selectedSome fetched foodResults'.
Proof.
  intros Hsel. unfold buildStep, selectedFood.
  set (name := FoodWithPortion.Name foodWithPortion).
  assert (∀ food, mjoin (fetched !! name) = Some food →
            foodResults !! name = Some (Some food)
            ∨ foodResults !! name = Some (Some (selectServings food))) as Hfound.
  { intros food Hfood. destruct (Hsel name) as [->|(f & Hf & ->)].
    - left. destruct (fetched !! name) as [[f|]|]; by simplify_eq/=.
    - right. rewrite Hf in Hfood. by simplify_eq/=. }
  assert (mjoin (fetched !! name) = None →
            foodResults !! name = None ∨ foodResults !! name = Some None) as Hmissing.
  { intros Hnone. destruct (Hsel name) as [->|(f & Hf & _)].
    - destruct (fetched !! name) as [[f|]|]; by auto.
    - by rewrite Hf in Hnone. }
  destruct (mjoin (fetched !! name)) as [food|] eqn:Hfetched.
  - assert (∃ held, foodResults !! name = Some (Some held)
                    ∧ selectServings held = selectServings food) as (held & -> & ->).
    { destruct (Hfound food eq_refl) as [?|?]; eexists; split; try done.
      by apply selectServings_again. }
    eexists. split; [reflexivity|]. intros other.
    destruct (decide (other = name)) as [->|Hne].
    + right. exists food. rewrite lookup_insert_eq. split; [|done].
      destruct (fetched !! name) as [[f|]|]; by simplify_eq/=.
    + rewrite lookup_insert_ne by done. apply Hsel.
  - exists foodResults. simpl. rewrite app_nil_r.
    destruct (Hmissing eq_refl) as [->| ->]; done.
Qed.

Lemma buildFoods_from fetched foodWithPortions foods foodResults :
  selectedSome fetched foodResults →
  (fold_left buildStep foodWithPortions (foods, foodResults)).1
  = (foods ++ omap (selectedFood fetched) foodWithPortions)%list.
Proof.
  revert foods foodResults.
  induction foodWithPortions as [|foodWithPortion rest IH]; intros foods foodResults Hsel.
  - simpl. by rewrite app_nil_r.
  - cbn [fold_left].
    destruct (buildStep_selects fetched foods foodResults foodWithPortion Hsel)
      as (foodResults' & -> & Hsel').
    rewrite (IH _ _ Hsel'), <- app_assoc. f_equal. simpl.
    by destruct (selectedFood fetched foodWithPortion).
Qed.

Lemma buildFoods_foods foodResults foodWithPortions :
  (buildFoods foodResults foodWithPortions).1
  = omap (selectedFood foodResults) foodWithPortions.
Proof.
  unfold buildFoods. rewrite (buildFoods_from foodResults); [done|]. intros name. by left.
Qed.

End BuildFoods.

(** X16.  The loop that builds the foods of a meal writes each selection to the
    fetched food, through the pointer the results hold, so a food named
    twice is selected from twice; even so the list it builds is, request by
    request and in their order, the selection of the food as it was
    fetched, and requests for which nothing was found are skipped. *)
Theorem buildFoods_selects_each_fetched_food `{GoLib}
    (foodResults : gmap string (option Food.t)) (foodWithPortions : list FoodWithPortion.t) :
  ToLower "" = "" →
  (buildFoods foodResults foodWithPortions).1
  = omap (selectedFood foodResults) foodWithPortions.
Proof. intros Hempty. by apply buildFoods_foods. Qed.

Lemma buildFoods_selects_each_fetched_food_witness :
  (buildFoods (H := go_std) riceOnly (RegenerationLLMData.Foods riceTwice)).1
  = omap (selectedFood (H := go_std) riceOnly) (RegenerationLLMData.Foods riceTwice).
Proof.
  apply (buildFoods_selects_each_fetched_food (H := go_std) riceOnly
           (RegenerationLLMData.Foods riceTwice)).
  reflexivity.
Defined.


(** ** The callers: [processRegenerationResponse] *)

Section Regeneration.
Context `{GoLib}.

(** In the callers the scaler is given the requests the foods were built
    from: it does not panic. *)
Lemma adjust_built_foods foodResults foodWithPortions targetCalories :
  is_Some (adjustServingsByPortionRatio (buildFoods foodResults foodWithPortions).1
             foodWithPortions targetCalories).
Proof.
  destruct foodWithPortions as [|foodWithPortion rest].
  - by exists [].
  - destruct (adjustServingsByPortionRatio_lookup
                (buildFoods foodResults (foodWithPortion :: rest)).1
                (foodWithPortion :: rest) targetCalories ltac:(done)) as (out & -> & _).
    by exists out.
Qed.

End Regeneration.

(** X17.  [processRegenerationResponse] never panics: the division by the
    number of requests in [findPortionRatio] is reached only for a food
    that was built from one of the requests. *)
Theorem processRegenerationResponse_returns `{GoLib}
    (llmData : RegenerationLLMData.t) (originalMeal : OriginalMeal.t)
    (foodResults : gmap string (option Food.t)) :
  is_Some (processRegenerationResponse llmData originalMeal foodResults).
Proof.
  unfold processRegenerationResponse.
  destruct (adjust_built_foods foodResults (RegenerationLLMData.Foods llmData)
              (MacroTarget.Calories (RegenerationLLMData.MacroTarget llmData)))
    as [optimizedFoods ->].
  simpl. eauto.
Qed.

(** X18.  The foods of a regenerated meal are the foods the lookups found for
    the requests, in the order of the requests, the requests with no food
    found left out; each keeps its name and every serving past the first,
    and of the first serving, the selected one, only the amount and the
    nutrients were scaled.  The meal is returned under the name, time and
    target of the original meal, with the macros of these foods. *)
Theorem processRegenerationResponse_foods `{GoLib}
    (llmData : RegenerationLLMData.t) (originalMeal : OriginalMeal.t)
    (foodResults : gmap string (option Food.t)) (data : RegenerationMealData.t) :
  ToLower "" = "" →
  processRegenerationResponse llmData originalMeal foodResults = Some data →
  Forall2 sameFrame
    (omap (selectedFood foodResults) (RegenerationLLMData.Foods llmData))
    (RegenerationMealData.Foods data) ∧
  RegenerationMealData.Macros data = calculateMealMacros (RegenerationMealData.Foods data) ∧
  RegenerationMealData.MealName data = OriginalMeal.MealName originalMeal ∧
  RegenerationMealData.MealTime data = OriginalMeal.MealTime originalMeal ∧
  RegenerationMealData.Meridiem data = OriginalMeal.Meridiem originalMeal ∧
  RegenerationMealData.MacroTarget data = OriginalMeal.MacroTarget originalMeal.
Proof.
  intros Hempty. unfold processRegenerationResponse.
  destruct (adjustServingsByPortionRatio _ _ _) as [optimizedFoods|] eqn:Hadjust; [|done].
  simpl. intros [= <-]. simpl. split; [|done].
  rewrite <- (buildFoods_foods Hempty).
  eapply frames_trans; [|apply rebalanceLoop_frame].
  unfold adjustServingsByPortionRatio in Hadjust. apply mapM_Some in Hadjust.
  eapply Forall2_impl; [exact Hadjust|]. intros food food' Hfood.
  exact (adjustFood_frame _ _ _ _ Hfood).
Qed.

Lemma processRegenerationResponse_foods_witness :
  ∃ data,
    processRegenerationResponse (H := go_std) riceTwice formerDinner riceOnly = Some data ∧
    Forall2 sameFrame
      (omap (selectedFood (H := go_std) riceOnly) (RegenerationLLMData.Foods riceTwice))
      (RegenerationMealData.Foods data) ∧
    length (RegenerationMealData.Foods data) = 2%nat.
Proof.
  destruct (processRegenerationResponse (H := go_std) riceTwice formerDinner riceOnly)
    as [data|] eqn:Hdata; [|vm_compute in Hdata; discriminate Hdata].
  exists data. split; [reflexivity|].
  destruct (processRegenerationResponse_foods (H := go_std) riceTwice formerDinner riceOnly
              data eq_refl Hdata) as (Hframe & _).
  split; [exact Hframe|].
  vm_compute in Hdata. injection Hdata as <-. reflexivity.
Defined.


Section Filled.
Context `{GoLib}.
Hypothesis Sprintf3_nonempty : ∀ x, Sprintf3 x ≠ "".
Import Serving.

Lemma written_complete serving serving' :
  complete serving → sameDescription serving serving' →
  Forall (λ field : string, field ≠ "") (quantities serving') →
  complete serving'.
Proof.
  unfold complete, sameDescription, quantities, descriptive, nutrients.
  intros Hs (Hid & Hsd & Hmd & Hu & Hn) Hq. simpl in *.
  repeat match type of Hs with Forall _ (_ :: _) => apply Forall_cons in Hs as [? Hs] end.
  apply Forall_cons in Hq as [Hamount Hq].
  rewrite Hid, Hsd, Hmd, Hu, Hn.
  repeat (apply Forall_cons; split; [assumption|]). exact Hq.
Qed.

Lemma printed_nonempty (f : string → float64) (fields : list string) :
  Forall (λ field : string, field ≠ "") ((λ field, Sprintf3 (f field)) <$> fields).
Proof. apply Forall_fmap, Forall_forall. intros field _. apply Sprintf3_nonempty. Qed.

Lemma scaleServing_complete serving factor :
  complete serving → complete (scaleServing serving factor).
Proof.
  intros Hs. destruct (F64.leb factor F64.zero) eqn:Hfactor.
  - unfold scaleServing. by rewrite Hfactor.
  - apply (written_complete serving); [done|apply scaleServing_sameDescription|].
    rewrite scaleServing_quantities by done. apply printed_nonempty.
Qed.

Lemma adjustServingForTargetCalories_complete serving targetCalories :
  complete serving → complete (adjustServingForTargetCalories serving targetCalories).
Proof.
  intros Hs.
  destruct (ParseFloat (Calories serving)) as [c|] eqn:Hc;
    [|unfold adjustServingForTargetCalories; by rewrite Hc].
  destruct (F64.eqb c F64.zero) eqn:Hc0;
    [unfold adjustServingForTargetCalories; by rewrite Hc, Hc0|].
  destruct (ParseFloat (MetricServingAmount serving)) as [a|] eqn:Ha;
    [|unfold adjustServingForTargetCalories; by rewrite Hc, Hc0, Ha].
  destruct (F64.eqb a F64.zero) eqn:Ha0;
    [unfold adjustServingForTargetCalories; by rewrite Hc, Hc0, Ha, Ha0|].
  apply (written_complete serving);
    [done|apply adjustServingForTargetCalories_sameDescription|].
  rewrite (adjustServingForTargetCalories_quantities _ _ _ _ Hc Hc0 Ha Ha0).
  apply printed_nonempty.
Qed.

Lemma selectServings_complete food : firstServingComplete (selectServings food).
Proof.
  unfold firstServingComplete, selectServings.
  destruct (filterGramServings (Food.Servings food)) as [|first rest]; [done|].
  apply ensureServingFields_complete.
Qed.

Lemma adjustFood_complete foodWithPortions targetCalories food food' :
  adjustFood foodWithPortions targetCalories food = Some food' →
  firstServingComplete food → firstServingComplete food'.
Proof.
  unfold adjustFood, firstServingComplete.
  destruct (Food.Servings food) as [|first rest] eqn:Es.
  - intros [= <-]. by rewrite Es.
  - destruct (findPortionRatio _ _) as [r|]; [|done]. simpl. intros [= <-]. simpl.
    apply adjustServingForTargetCalories_complete.
Qed.

Lemma setFirstServing_complete i serving foods :
  complete serving → Forall firstServingComplete foods →
  Forall firstServingComplete (setFirstServing i serving foods).
Proof.
  intros Hs Hfoods. unfold setFirstServing.
  destruct (foods !! i) as [food|] eqn:Hi; [|done].
  apply Forall_insert; [done|].
  unfold firstServingComplete. simpl. by destruct (Food.Servings food).
Qed.

Lemma fatCorrection_complete totals target foods :
  Forall firstServingComplete foods →
  Forall firstServingComplete (fatCorrection totals target foods).
Proof.
  intros Hfoods. unfold fatCorrection. repeat (case_match; try done).
  apply setFirstServing_complete; [|done]. apply scaleServing_complete.
  match goal with
  | Hi : foods !! _ = Some ?food, Hs : Food.Servings ?food = _ |- _ =>
      pose proof (Forall_lookup_1 _ _ _ _ Hfoods Hi) as Hfood;
      unfold firstServingComplete in Hfood; by rewrite Hs in Hfood
  end.
Qed.

Lemma carbCorrection_complete totals target foods :
  Forall firstServingComplete foods →
  Forall firstServingComplete (carbCorrection totals target foods).
Proof.
  intros Hfoods. rewrite carbCorrection_by_food. case_match; [|done].
  unfold scaleStarchy. apply Forall_fmap. eapply Forall_impl; [exact Hfoods|].
  intros food Hfood. simpl. case_match; [|done].
  unfold scaleFirstServing, firstServingComplete in *.
  destruct (Food.Servings food) as [|serving rest] eqn:Es; [by rewrite Es|].
  simpl. by apply scaleServing_complete.
Qed.

Lemma rebalanceLoop_complete pass target foods :
  Forall firstServingComplete foods →
  Forall firstServingComplete (rebalanceLoop pass target foods).
Proof.
  revert foods. induction pass as [|n IH]; intros foods Hfoods; [done|].
  simpl. apply IH. unfold rebalancePass.
  by apply carbCorrection_complete, fatCorrection_complete.
Qed.

Lemma buildFoods_complete foodWithPortions foods foodResults :
  Forall firstServingComplete foods →
  Forall firstServingComplete (fold_left buildStep foodWithPortions (foods, foodResults)).1.
Proof.
  revert foods foodResults.
  induction foodWithPortions as [|foodWithPortion rest IH]; intros foods foodResults Hfoods;
    [done|].
  cbn [fold_left]. unfold buildStep at 2.
  destruct (foodResults !! FoodWithPortion.Name foodWithPortion) as [[food|]|];
    try by apply IH.
  apply IH, Forall_app. split; [done|]. apply Forall_singleton, selectServings_complete.
Qed.

Lemma processRegenerationResponse_filled llmData originalMeal foodResults data :
  processRegenerationResponse llmData originalMeal foodResults = Some data →
  Forall firstServingComplete (RegenerationMealData.Foods data).
Proof.
  unfold processRegenerationResponse.
  destruct (adjustServingsByPortionRatio _ _ _) as [optimizedFoods|] eqn:Hadjust; [|done].
  simpl. intros [= <-]. simpl. apply rebalanceLoop_complete.
  unfold adjustServingsByPortionRatio in Hadjust. apply mapM_Some in Hadjust.
  pose proof (buildFoods_complete (RegenerationLLMData.Foods llmData) [] foodResults
                (Forall_nil_2 _)) as Hbuilt.
  fold (buildFoods foodResults (RegenerationLLMData.Foods llmData)) in Hbuilt.
  set (foods := (buildFoods foodResults (RegenerationLLMData.Foods llmData)).1) in *.
  clearbody foods. revert Hbuilt.
  induction Hadjust as [|food food' l l' Hfood _ IH]; intros Hfoods; [done|].
  apply Forall_cons in Hfoods as [Hhead Htail]. constructor; [|by apply IH].
  by eapply adjustFood_complete.
Qed.

End Filled.

Lemma fixed3_nonempty sign n : Strconv.fixed3 sign n ≠ "".
Proof.
  unfold Strconv.fixed3. destruct sign; [done|]. simpl.
  generalize (Strconv.decimal (n / 1000)). intros digits. by destruct digits.
Qed.

Lemma FormatFixed3_nonempty x : Strconv.FormatFixed3 x ≠ "".
Proof. destruct x as [s|[]| |s m e]; try done; apply fixed3_nonempty. Qed.

(** X19.  Every food of a regenerated meal that has a serving has a first
    serving without an empty field, [fmt.Sprintf] printing no number as the
    empty string: the repair fills the fields, and the scaler and the
    rebalancer write numbers to them. *)
Theorem processRegenerationResponse_servings_filled `{GoLib}
    (llmData : RegenerationLLMData.t) (originalMeal : OriginalMeal.t)
    (foodResults : gmap string (option Food.t)) (data : RegenerationMealData.t) :
  (∀ x, Sprintf3 x ≠ "") →
  processRegenerationResponse llmData originalMeal foodResults = Some data →
  Forall firstServingComplete (RegenerationMealData.Foods data).
Proof. intros Hprint. by apply processRegenerationResponse_filled. Qed.

Lemma processRegenerationResponse_servings_filled_witness :
  ∃ data,
    processRegenerationResponse (H := go_std) riceTwice formerDinner riceOnly = Some data ∧
    Forall firstServingComplete (RegenerationMealData.Foods data).
Proof.
  destruct (processRegenerationResponse (H := go_std) riceTwice formerDinner riceOnly)
    as [data|] eqn:Hdata; [|vm_compute in Hdata; discriminate Hdata].
  exists data. split; [reflexivity|].
  exact (processRegenerationResponse_servings_filled (H := go_std) riceTwice formerDinner
           riceOnly data FormatFixed3_nonempty Hdata).
Defined.


(** ** The callers: [swapFoodItems], meal after meal *)

Section Meals.
Context `{GoLib}.

Lemma processMeal_build foodResults mealItem :
  ∃ optimizedFoods,
    adjustServingsByPortionRatio (buildFoods foodResults (MealLLMItems.Foods mealItem)).1
      (MealLLMItems.Foods mealItem)
      (MacroTarget.Calories (MealLLMItems.MacroTarget mealItem)) = Some optimizedFoods ∧
    processMeal foodResults mealItem
    = Some (MealAPIItems.mk
              (MealLLMItems.MealName mealItem) (MealLLMItems.MealTime mealItem)
              (MealLLMItems.Meridiem mealItem) (MealLLMItems.MacroTarget mealItem)
              (calculateMealMacros
                 (rebalanceMealFoods optimizedFoods (MealLLMItems.MacroTarget mealItem)))
              (rebalanceMealFoods optimizedFoods (MealLLMItems.MacroTarget mealItem)),
            storeServings (requested foodResults (MealLLMItems.Foods mealItem))
              (rebalanceMealFoods optimizedFoods (MealLLMItems.MacroTarget mealItem))
              (buildFoods foodResults (MealLLMItems.Foods mealItem)).2).
Proof.
  destruct (adjust_built_foods foodResults (MealLLMItems.Foods mealItem)
              (MacroTarget.Calories (MealLLMItems.MacroTarget mealItem)))
    as [optimizedFoods Hadjust].
  exists optimizedFoods. split; [done|]. unfold processMeal. by rewrite Hadjust.
Qed.

Lemma buildStep_elsewhere foods foodResults foodWithPortion name :
  name ≠ FoodWithPortion.Name foodWithPortion →
  (buildStep (foods, foodResults) foodWithPortion).2 !! name = foodResults !! name.
Proof.
  intros Hne. unfold buildStep. repeat case_match; simplify_eq/=; try done.
  by rewrite lookup_insert_ne.
Qed.

Lemma buildFoods_elsewhere foodWithPortions foods foodResults name :
  name ∉ FoodWithPortion.Name <$> foodWithPortions →
  (fold_left buildStep foodWithPortions (foods, foodResults)).2 !! name
  = foodResults !! name.
Proof.
  revert foods foodResults.
  induction foodWithPortions as [|foodWithPortion rest IH]; intros foods foodResults Hname;
    [done|].
  cbn [fold_left]. rewrite fmap_cons, not_elem_of_cons in Hname. destruct Hname as [Hne Hrest].
  destruct (buildStep (foods, foodResults) foodWithPortion) as [foods' foodResults'] eqn:Hstep.
  rewrite (IH _ _ Hrest).
  pose proof (buildStep_elsewhere foods foodResults foodWithPortion name Hne) as Hkept.
  by rewrite Hstep in Hkept.
Qed.

Lemma requested_names foodResults foodWithPortions name :
  name ∈ requested foodResults foodWithPortions →
  name ∈ FoodWithPortion.Name <$> foodWithPortions.
Proof.
  unfold requested. rewrite list_elem_of_omap. intros (foodWithPortion & Hin & Hfound).
  apply list_elem_of_fmap. exists foodWithPortion. split; [|done].
  by repeat case_match; simplify_eq.
Qed.

Lemma storeServings_elsewhere names optimizedFoods foodResults name :
  name ∉ names → storeServings names optimizedFoods foodResults !! name = foodResults !! name.
Proof.
  unfold storeServings. revert optimizedFoods foodResults.
  induction names as [|n names IH]; intros optimizedFoods foodResults Hname; [done|].
  destruct optimizedFoods as [|food optimizedFoods]; [done|].
  apply not_elem_of_cons in Hname as [Hne Hrest]. cbn [zip zip_with fold_left].
  rewrite IH by done. by rewrite lookup_insert_ne.
Qed.

Lemma storeServings_lookup names optimizedFoods foodResults i name food :
  NoDup names → names !! i = Some name → optimizedFoods !! i = Some food →
  storeServings names optimizedFoods foodResults !! name = Some (Some food).
Proof.
  unfold storeServings. revert optimizedFoods foodResults i.
  induction names as [|n names IH]; intros optimizedFoods foodResults i Hnodup Hname Hfood;
    [done|].
  destruct optimizedFoods as [|f optimizedFoods]; [by destruct i|].
  apply NoDup_cons in Hnodup as [Hfresh Hnodup]. cbn [zip zip_with fold_left].
  destruct i as [|i]; simpl in Hname, Hfood.
  - simplify_eq. pose proof (storeServings_elsewhere names optimizedFoods
      (<[name := Some food]> foodResults) name Hfresh) as Hkept.
    unfold storeServings in Hkept. rewrite Hkept. by rewrite lookup_insert_eq.
  - by eapply IH.
Qed.

End Meals.


Section MealResults.
Context `{GoLib}.
Hypothesis ToLower_empty : ToLower "" = "".

Lemma requested_length foodResults foodWithPortions :
  length (requested foodResults foodWithPortions)
  = length (omap (selectedFood foodResults) foodWithPortions).
Proof.
  unfold requested, selectedFood.
  induction foodWithPortions as [|foodWithPortion rest IH]; [done|].
  cbn [omap list_omap].
  destruct (foodResults !! FoodWithPortion.Name foodWithPortion) as [[food|]|];
    simpl; by rewrite ?IH.
Qed.

Lemma requested_NoDup foodResults foodWithPortions :
  NoDup (FoodWithPortion.Name <$> foodWithPortions) →
  NoDup (requested foodResults foodWithPortions).
Proof.
  induction foodWithPortions as [|foodWithPortion rest IH]; [constructor|].
  rewrite fmap_cons, NoDup_cons. intros [Hfresh Hrest].
  unfold requested. cbn [omap list_omap]. fold (requested foodResults rest).
  destruct (foodResults !! FoodWithPortion.Name foodWithPortion) as [[food|]|];
    simpl; try by apply IH.
  apply NoDup_cons. split; [|by apply IH].
  intros Hin. by apply requested_names in Hin.
Qed.

Lemma optimized_length foodResults mealItem meal foodResults' :
  processMeal foodResults mealItem = Some (meal, foodResults') →
  length (MealAPIItems.Foods meal)
  = length (requested foodResults (MealLLMItems.Foods mealItem)).
Proof.
  destruct (processMeal_build foodResults mealItem) as (optimizedFoods & Hadjust & ->).
  intros [= <- <-]. simpl.
  pose proof (rebalanceLoop_frame 2 (MealLLMItems.MacroTarget mealItem) optimizedFoods)
    as Hframe.
  apply Forall2_length in Hframe. unfold rebalanceMealFoods. rewrite <- Hframe.
  unfold adjustServingsByPortionRatio in Hadjust.
  apply mapM_Some, Forall2_length in Hadjust.
  by rewrite <- Hadjust, (buildFoods_foods ToLower_empty), requested_length.
Qed.

Lemma processMeal_stored foodResults mealItem meal foodResults' :
  NoDup (FoodWithPortion.Name <$> MealLLMItems.Foods mealItem) →
  processMeal foodResults mealItem = Some (meal, foodResults') →
  Forall2 (λ name food, foodResults' !! name = Some (Some food))
    (requested foodResults (MealLLMItems.Foods mealItem)) (MealAPIItems.Foods meal).
Proof.
  intros Hnodup Hmeal. pose proof (optimized_length _ _ _ _ Hmeal) as Hlength.
  destruct (processMeal_build foodResults mealItem) as (optimizedFoods & _ & Hbuilt).
  rewrite Hbuilt in Hmeal. injection Hmeal as <- <-. simpl in *.
  apply Forall2_same_length_lookup_2; [done|]. intros i name food Hname Hfood.
  eapply storeServings_lookup; [by apply requested_NoDup|done..].
Qed.

Lemma processMeal_elsewhere foodResults mealItem meal foodResults' name :
  processMeal foodResults mealItem = Some (meal, foodResults') →
  name ∉ FoodWithPortion.Name <$> MealLLMItems.Foods mealItem →
  foodResults' !! name = foodResults !! name.
Proof.
  destruct (processMeal_build foodResults mealItem) as (optimizedFoods & _ & ->).
  intros [= <- <-] Hname.
  rewrite storeServings_elsewhere by (intros Hin; by apply requested_names in Hin).
  by apply buildFoods_elsewhere.
Qed.

End MealResults.

(** X20.  What a meal leaves in the results of the lookups, [strings.ToLower]
    mapping the empty string to itself and the meal naming no food twice:
    for each of its foods the results hold the food as the meal returns it,
    scaled and rebalanced, in place of the food that was fetched, so that a
    later meal that names it starts from there; the foods that the meal
    does not name are as they were. *)
Theorem processMeal_overwrites_its_foods `{GoLib}
    (foodResults foodResults' : gmap string (option Food.t))
    (mealItem : MealLLMItems.t) (meal : MealAPIItems.t) :
  ToLower "" = "" →
  NoDup (FoodWithPortion.Name <$> MealLLMItems.Foods mealItem) →
  processMeal foodResults mealItem = Some (meal, foodResults') →
  Forall2 (λ name food, foodResults' !! name = Some (Some food))
    (requested foodResults (MealLLMItems.Foods mealItem)) (MealAPIItems.Foods meal) ∧
  ∀ name, name ∉ FoodWithPortion.Name <$> MealLLMItems.Foods mealItem →
          foodResults' !! name = foodResults !! name.
Proof.
  intros Hempty Hnodup Hmeal. split; [by apply processMeal_stored|].
  intros name. by apply (processMeal_elsewhere _ _ _ _ _ Hmeal).
Qed.


Section MealOrder.
Context `{GoLib}.
Hypothesis ToLower_empty : ToLower "" = "".

Lemma buildFoods_agree foodResults1 foodResults2 foodWithPortions :
  (∀ name, name ∈ FoodWithPortion.Name <$> foodWithPortions →
           foodResults1 !! name = foodResults2 !! name) →
  (buildFoods foodResults1 foodWithPortions).1 = (buildFoods foodResults2 foodWithPortions).1
  ∧ requested foodResults1 foodWithPortions = requested foodResults2 foodWithPortions.
Proof.
  intros Hagree. rewrite !(buildFoods_foods ToLower_empty). unfold requested, selectedFood.
  induction foodWithPortions as [|foodWithPortion rest IH]; [done|].
  cbn [omap list_omap].
  rewrite (Hagree (FoodWithPortion.Name foodWithPortion)) by (rewrite fmap_cons; left).
  destruct IH as [-> ->]; [|done].
  intros name Hname. apply Hagree. rewrite fmap_cons. by right.
Qed.

Lemma buildFoods_store_agree foodWithPortions foods1 foods2 foodResults1 foodResults2 name :
  foodResults1 !! name = foodResults2 !! name →
  (fold_left buildStep foodWithPortions (foods1, foodResults1)).2 !! name
  = (fold_left buildStep foodWithPortions (foods2, foodResults2)).2 !! name.
Proof.
  revert foods1 foods2 foodResults1 foodResults2.
  induction foodWithPortions as [|foodWithPortion rest IH];
    intros foods1 foods2 foodResults1 foodResults2 Hagree; [done|].
  cbn [fold_left].
  destruct (buildStep (foods1, foodResults1) foodWithPortion) as [f1 s1] eqn:Hstep1.
  destruct (buildStep (foods2, foodResults2) foodWithPortion) as [f2 s2] eqn:Hstep2.
  apply IH.
  destruct (decide (name = FoodWithPortion.Name foodWithPortion)) as [->|Hne].
  - unfold buildStep in Hstep1, Hstep2. rewrite Hagree in Hstep1.
    destruct (foodResults2 !! FoodWithPortion.Name foodWithPortion) as [[food|]|] eqn:Hfood;
      simplify_eq; rewrite ?lookup_insert_eq; congruence.
  - pose proof (buildStep_elsewhere foods1 foodResults1 foodWithPortion name Hne) as H1.
    pose proof (buildStep_elsewhere foods2 foodResults2 foodWithPortion name Hne) as H2.
    rewrite Hstep1 in H1. rewrite Hstep2 in H2. simpl in *. congruence.
Qed.

Lemma storeServings_agree names optimizedFoods foodResults1 foodResults2 name :
  foodResults1 !! name = foodResults2 !! name →
  storeServings names optimizedFoods foodResults1 !! name
  = storeServings names optimizedFoods foodResults2 !! name.
Proof.
  unfold storeServings. generalize (zip names optimizedFoods). intros writes.
  revert foodResults1 foodResults2.
  induction writes as [|[n food] writes IH]; intros foodResults1 foodResults2 Hagree;
    [done|].
  cbn [fold_left]. apply IH. destruct (decide (n = name)) as [->|Hne].
  - by rewrite !lookup_insert_eq.
  - by rewrite !lookup_insert_ne.
Qed.

Lemma processMeal_agree foodResults1 foodResults2 mealItem meal1 meal2 after1 after2 :
  (∀ name, name ∈ FoodWithPortion.Name <$> MealLLMItems.Foods mealItem →
           foodResults1 !! name = foodResults2 !! name) →
  processMeal foodResults1 mealItem = Some (meal1, after1) →
  processMeal foodResults2 mealItem = Some (meal2, after2) →
  meal1 = meal2 ∧
  ∀ name, foodResults1 !! name = foodResults2 !! name → after1 !! name = after2 !! name.
Proof.
  intros Hagree. unfold processMeal.
  destruct (buildFoods_agree _ _ _ Hagree) as [-> ->].
  destruct (adjustServingsByPortionRatio _ _ _) as [optimizedFoods|]; [|done].
  simpl. intros [= <- <-] [= <- <-]. split; [done|]. intros name Hname.
  by apply storeServings_agree, buildFoods_store_agree.
Qed.

Lemma processMeal_some foodResults mealItem :
  ∃ meal foodResults', processMeal foodResults mealItem = Some (meal, foodResults').
Proof. destruct (processMeal_build foodResults mealItem) as (? & _ & ->). eauto. Qed.

Lemma meals_commute foodResults mealItem1 mealItem2 meal1 meal2 after1 after2 :
  (∀ name, name ∈ FoodWithPortion.Name <$> MealLLMItems.Foods mealItem1 →
           name ∈ FoodWithPortion.Name <$> MealLLMItems.Foods mealItem2 → False) →
  processMeal foodResults mealItem1 = Some (meal1, after1) →
  processMeal after1 mealItem2 = Some (meal2, after2) →
  ∃ between,
    processMeal foodResults mealItem2 = Some (meal2, between) ∧
    processMeal between mealItem1 = Some (meal1, after2).
Proof.
  intros Hdisjoint Hfirst Hsecond.
  destruct (processMeal_some foodResults mealItem2) as (meal2' & between & Hsecond').
  destruct (processMeal_some between mealItem1) as (meal1' & after2' & Hfirst').
  destruct (processMeal_agree after1 foodResults mealItem2 _ _ _ _ ltac:(
              intros name Hname; apply (processMeal_elsewhere _ _ _ _ _ Hfirst);
              intros Hin; exact (Hdisjoint name Hin Hname)) Hsecond Hsecond')
    as [<- Hstore2].
  destruct (processMeal_agree foodResults between mealItem1 _ _ _ _ ltac:(
              intros name Hname; symmetry; apply (processMeal_elsewhere _ _ _ _ _ Hsecond');
              intros Hin; exact (Hdisjoint name Hname Hin)) Hfirst Hfirst')
    as [<- Hstore1].
  exists between. split; [done|]. rewrite Hfirst'. do 2 f_equal.
  apply map_eq. intros name.
  destruct (decide (name ∈ FoodWithPortion.Name <$> MealLLMItems.Foods mealItem1))
    as [Hin1|Hout1].
  - assert (name ∉ FoodWithPortion.Name <$> MealLLMItems.Foods mealItem2) as Hout2
      by (intros Hin2; exact (Hdisjoint name Hin1 Hin2)).
    rewrite (processMeal_elsewhere _ _ _ _ _ Hsecond Hout2).
    symmetry. apply Hstore1. symmetry.
    apply (processMeal_elsewhere _ _ _ _ _ Hsecond' Hout2).
  - rewrite (processMeal_elsewhere _ _ _ _ _ Hfirst' Hout1).
    symmetry. apply Hstore2. apply (processMeal_elsewhere _ _ _ _ _ Hfirst Hout1).
Qed.

End MealOrder.

(** X21.  The meal [swapFoodItems] builds reads the results of the lookups at the
    names of its own requests and nowhere else, [strings.ToLower] mapping
    the empty string to itself: from two result maps that agree on those
    names it builds the same meal. *)
Theorem processMeal_reads_its_own_foods `{GoLib}
    (foodResults1 foodResults2 : gmap string (option Food.t)) (mealItem : MealLLMItems.t) :
  ToLower "" = "" →
  (∀ name, name ∈ FoodWithPortion.Name <$> MealLLMItems.Foods mealItem →
           foodResults1 !! name = foodResults2 !! name) →
  fst <$> processMeal foodResults1 mealItem = fst <$> processMeal foodResults2 mealItem.
Proof.
  intros Hempty Hagree.
  destruct (processMeal_some foodResults1 mealItem) as (meal1 & after1 & Hmeal1).
  destruct (processMeal_some foodResults2 mealItem) as (meal2 & after2 & Hmeal2).
  destruct (processMeal_agree Hempty _ _ _ _ _ _ _ Hagree Hmeal1 Hmeal2) as [-> _].
  by rewrite Hmeal1, Hmeal2.
Qed.

(** X22.  Two meals that name no food in common can be processed in either
    order, [strings.ToLower] mapping the empty string to itself: each comes
    out the same, and so do the results of the lookups after both.  The
    order in which [swapFoodItems] visits the days, which is the order of a
    range over a map, matters only to meals that share a food. *)
Theorem independent_meals_commute `{GoLib}
    (foodResults after1 after2 : gmap string (option Food.t))
    (mealItem1 mealItem2 : MealLLMItems.t) (meal1 meal2 : MealAPIItems.t) :
  ToLower "" = "" →
  (∀ name, name ∈ FoodWithPortion.Name <$> MealLLMItems.Foods mealItem1 →
           name ∈ FoodWithPortion.Name <$> MealLLMItems.Foods mealItem2 → False) →
  processMeal foodResults mealItem1 = Some (meal1, after1) →
  processMeal after1 mealItem2 = Some (meal2, after2) →
  ∃ between,
    processMeal foodResults mealItem2 = Some (meal2, between) ∧
    processMeal between mealItem1 = Some (meal1, after2).
Proof. intros Hempty. by apply meals_commute. Qed.


Lemma processMeal_overwrites_its_foods_witness :
  ∃ meal foodResults',
    processMeal (H := go_std) riceOnly riceAndSalmon = Some (meal, foodResults') ∧
    Forall2 (λ name food, foodResults' !! name = Some (Some food))
      (requested riceOnly (MealLLMItems.Foods riceAndSalmon)) (MealAPIItems.Foods meal).
Proof.
  destruct (processMeal_some (H := go_std) riceOnly riceAndSalmon)
    as (meal & foodResults' & Hmeal).
  exists meal, foodResults'. split; [exact Hmeal|].
  destruct (processMeal_overwrites_its_foods (H := go_std) riceOnly foodResults'
              riceAndSalmon meal eq_refl) as [Hstored _].
  - compute_done.
  - exact Hmeal.
  - exact Hstored.
Defined.

Lemma processMeal_reads_its_own_foods_witness :
  fst <$> processMeal (H := go_std) riceOnly riceAndSalmon
  = fst <$> processMeal (H := go_std) riceAndEgg riceAndSalmon.
Proof.
  apply (processMeal_reads_its_own_foods (H := go_std) riceOnly riceAndEgg riceAndSalmon).
  - reflexivity.
  - intros name Hname. simpl in Hname.
    apply elem_of_cons in Hname as [->|Hname]; [vm_compute; reflexivity|].
    apply elem_of_cons in Hname as [->|Hname]; [vm_compute; reflexivity|].
    by apply elem_of_nil in Hname.
Defined.

Lemma independent_meals_commute_witness :
  ∃ meal1 meal2 after1 after2 between,
    processMeal (H := go_std) riceAndEgg riceAndSalmon = Some (meal1, after1) ∧
    processMeal (H := go_std) after1 eggs = Some (meal2, after2) ∧
    processMeal (H := go_std) riceAndEgg eggs = Some (meal2, between) ∧
    processMeal (H := go_std) between riceAndSalmon = Some (meal1, after2).
Proof.
  destruct (processMeal_some (H := go_std) riceAndEgg riceAndSalmon)
    as (meal1 & after1 & Hfirst).
  destruct (processMeal_some (H := go_std) after1 eggs) as (meal2 & after2 & Hsecond).
  destruct (independent_meals_commute (H := go_std) riceAndEgg after1 after2
              riceAndSalmon eggs meal1 meal2 eq_refl) as (between & Hsecond' & Hfirst').
  - intros name Hin1 Hin2. simpl in Hin1, Hin2.
    apply elem_of_cons in Hin2 as [->|Hin2]; [|by apply elem_of_nil in Hin2].
    apply elem_of_cons in Hin1 as [Hin1|Hin1]; [discriminate Hin1|].
    apply elem_of_cons in Hin1 as [Hin1|Hin1]; [discriminate Hin1|].
    by apply elem_of_nil in Hin1.
  - exact Hfirst.
  - exact Hsecond.
  - exists meal1, meal2, after1, after2, between.
    split; [exact Hfirst|]. split; [exact Hsecond|]. split; [exact Hsecond'|exact Hfirst'].
Defined.


Section Days.
Context `{GoLib}.

Lemma processMeal_mealOf foodResults mealItem meal foodResults' :
  processMeal foodResults mealItem = Some (meal, foodResults') → mealOf mealItem meal.
Proof.
  destruct (processMeal_build foodResults mealItem) as (optimizedFoods & _ & ->).
  intros [= <- <-]. by repeat split.
Qed.

Lemma processDay_unfold acc dayKey dayMeals :
  processDay acc (dayKey, dayMeals)
  = foldl (mealStep dayKey dayMeals) (Some acc)
      (imap (λ i mealItem, (i, mealItem)) (DayLLMMeals.Meals dayMeals)).
Proof. reflexivity. Qed.

(** The meals that remain, the day having its entry. *)
Lemma meals_from dayKey dayMeals date (rest : list MealLLMItems.t) :
  ∀ (written : list MealAPIItems.t) data foodResults,
    data !! dayKey
    = Some (DayAPIMeals.mk date
              (written ++ replicate (length rest) MealAPIItems.zero)) →
    ∃ meals foodResults',
      foldl (mealStep dayKey dayMeals) (Some (data, foodResults))
        (imap (λ i mealItem, ((length written + i)%nat, mealItem)) rest)
      = Some (<[dayKey := DayAPIMeals.mk date (written ++ meals)]> data, foodResults') ∧
      Forall2 mealOf rest meals.
Proof.
  induction rest as [|mealItem rest IH]; intros written data foodResults Hentry.
  - exists [], foodResults. split; [|constructor]. simpl in *.
    by rewrite insert_id.
  - destruct (processMeal_some foodResults mealItem) as (meal & foodResults1 & Hmeal).
    cbn [imap foldl]. unfold mealStep at 2. cbn [mbind option_bind].
    rewrite Hmeal. cbn [mbind option_bind]. rewrite Hentry. cbn [DayAPIMeals.Date
      DayAPIMeals.Meals length replicate].
    rewrite Nat.add_0_r, insert_app_r_alt, Nat.sub_diag by lia. cbn [insert list_insert].
    destruct (IH (written ++ [meal])%list
                (<[dayKey := DayAPIMeals.mk date
                               (written ++ meal :: replicate (length rest)
                                                     MealAPIItems.zero)]> data)
                foodResults1) as (meals & foodResults' & Hrest & Hmeals).
    { rewrite lookup_insert_eq. by rewrite <- app_assoc. }
    exists (meal :: meals), foodResults'. split.
    + rewrite insert_insert_eq, <- app_assoc in Hrest. simpl in Hrest. rewrite <- Hrest.
      f_equal. apply imap_ext. intros i x _. simpl. f_equal.
      rewrite length_app. simpl. lia.
    + constructor; [by eapply processMeal_mealOf|done].
Qed.

Lemma processDay_entry data foodResults dayKey dayMeals :
  data !! dayKey = None →
  ∃ data' foodResults',
    processDay (data, foodResults) (dayKey, dayMeals) = Some (data', foodResults') ∧
    dayOf dayMeals (data' !! dayKey) ∧
    ∀ key, key ≠ dayKey → data' !! key = data !! key.
Proof.
  intros Hnew. rewrite processDay_unfold. unfold dayOf.
  destruct (DayLLMMeals.Meals dayMeals) as [|mealItem rest] eqn:Hmeals.
  - exists data, foodResults. by repeat split.
  - destruct (processMeal_some foodResults mealItem) as (meal & foodResults1 & Hmeal).
    cbn [imap foldl]. unfold mealStep at 2. cbn [mbind option_bind].
    rewrite Hmeal. cbn [mbind option_bind]. rewrite Hnew, Hmeals.
    cbn [DayAPIMeals.Date DayAPIMeals.Meals length replicate insert list_insert].
    destruct (meals_from dayKey dayMeals (DayLLMMeals.Date dayMeals) rest [meal]
                (<[dayKey := DayAPIMeals.mk (DayLLMMeals.Date dayMeals)
                               (meal :: replicate (length rest) MealAPIItems.zero)]> data)
                foodResults1) as (meals & foodResults' & Hrest & Hall).
    { by rewrite lookup_insert_eq. }
    rewrite insert_insert_eq in Hrest. simpl in Hrest.
    eexists _, foodResults'. split; [|split].
    + rewrite <- Hrest. f_equal.
    + rewrite lookup_insert_eq. eexists. split; [done|]. split; [done|].
      constructor; [by eapply processMeal_mealOf|done].
    + intros key Hne. by rewrite lookup_insert_ne.
Qed.

Lemma days_entries days :
  NoDup days.*1 →
  ∀ data foodResults,
    (∀ key, key ∈ days.*1 → data !! key = None) →
    ∃ data' foodResults',
      foldl (λ acc day, acc ≫= λ acc, processDay acc day) (Some (data, foodResults)) days
      = Some (data', foodResults') ∧
      (∀ key dayMeals, (key, dayMeals) ∈ days → dayOf dayMeals (data' !! key)) ∧
      ∀ key, key ∉ days.*1 → data' !! key = data !! key.
Proof.
  induction days as [|[dayKey dayMeals] days IH]; intros Hnodup data foodResults Hnew.
  - exists data, foodResults. split; [done|]. split; [|done].
    intros key dayMeals Hin. by apply elem_of_nil in Hin.
  - rewrite fmap_cons in Hnodup. apply NoDup_cons in Hnodup as [Hfresh Hnodup].
    destruct (processDay_entry data foodResults dayKey dayMeals) as
      (data1 & foodResults1 & Hday & Hentry & Hothers).
    { apply Hnew. rewrite fmap_cons. by left. }
    cbn [foldl mbind option_bind]. rewrite Hday.
    destruct (IH Hnodup data1 foodResults1) as (data' & foodResults' & Hdays & Hall & Hrest).
    { intros key Hkey. rewrite Hothers by (intros ->; done).
      apply Hnew. rewrite fmap_cons. by right. }
    exists data', foodResults'. split; [done|]. split.
    + intros key day Hin. apply elem_of_cons in Hin as [[= -> ->]|Hin].
      * by rewrite Hrest.
      * by apply Hall.
    + intros key Hkey. rewrite fmap_cons in Hkey. apply not_elem_of_cons in Hkey as [Hne Hkey].
      rewrite Hrest by done. by apply Hothers.
Qed.

End Days.

(** X23.  [swapFoodItems] never panics, and its response holds, the days having
    distinct keys as the keys of a map have: for each day with meals, under
    the day's key, the day's date and one meal for each meal of the LLM
    response, in their order, under the same name, time and target and with
    the macros of its foods; for a day without meals, nothing; and nothing
    under any other key. *)
Theorem swapFoodItems_days `{GoLib}
    (days : list (string * DayLLMMeals.t)) (foodResults : gmap string (option Food.t)) :
  NoDup days.*1 →
  ∃ data,
    swapFoodItems days foodResults = Some data ∧
    (∀ key dayMeals, (key, dayMeals) ∈ days → dayOf dayMeals (data !! key)) ∧
    ∀ key, key ∉ days.*1 → data !! key = None.
Proof.
  intros Hnodup.
  destruct (days_entries days Hnodup ∅ foodResults ltac:(done))
    as (data & foodResults' & Hdays & Hall & Hrest).
  exists data. unfold swapFoodItems. rewrite Hdays. split; [done|]. split; [done|].
  intros key Hkey. by rewrite Hrest.
Qed.

Lemma swapFoodItems_days_witness :
  ∃ data,
    swapFoodItems (H := go_std) threeDays riceAndEgg = Some data ∧
    (∀ (key : string) dayMeals,
       (key, dayMeals) ∈ threeDays → dayOf (H := go_std) dayMeals (data !! key)) ∧
    ∀ key : string, key ∉ threeDays.*1 → data !! key = None.
Proof.
  apply (swapFoodItems_days (H := go_std) threeDays riceAndEgg). compute_done.
Defined.


(** ** The cleaning of the LLM responses *)

Section CleaningFacts.
Context `{GoLib} `{GoTrim}.

Lemma marks_nil : marks ∅ [].
Proof.
  split; [constructor|]. intros name. unfold seen. rewrite lookup_empty. simpl.
  split; [done|]. by intros ?%elem_of_nil.
Qed.

Lemma seen_insert unique key name :
  seen (<[key := true]> unique) name = true ↔ name = key ∨ seen unique name = true.
Proof.
  unfold seen. destruct (decide (name = key)) as [->|Hne].
  - rewrite lookup_insert_eq. simpl. naive_solver.
  - rewrite lookup_insert_ne by done. naive_solver.
Qed.

Lemma marks_snoc unique deduped fw :
  marks unique deduped → seen unique (foodKey fw) = false →
  marks (<[foodKey fw := true]> unique) (deduped ++ [fw]).
Proof.
  intros [Hnd Hseen] Hnew. split.
  - rewrite fmap_app. apply NoDup_app. split; [done|]. split.
    + intros key Hin ->%list_elem_of_singleton. apply Hseen in Hin. congruence.
    + apply NoDup_singleton.
  - intros name. rewrite seen_insert, fmap_app, elem_of_app, Hseen.
    simpl. rewrite list_elem_of_singleton. tauto.
Qed.

(** The first loop: it keeps a sub-list of the foods it is given, after
    what was kept before, and no food with a blank key. *)
Lemma dedupeLoop_from foods unique deduped :
  marks unique deduped →
  ∃ kept,
    (foldl dedupeStep (unique, deduped) foods).2 = (deduped ++ kept)%list ∧
    marks (foldl dedupeStep (unique, deduped) foods).1
          (foldl dedupeStep (unique, deduped) foods).2 ∧
    kept `sublist_of` foods ∧
    Forall (λ fw, foodKey fw ≠ "") kept ∧
    ∀ fw, fw ∈ foods → foodKey fw ≠ "" →
          foodKey fw ∈ foodKey <$> (deduped ++ kept)%list.
Proof.
  revert unique deduped. induction foods as [|fw foods IH]; intros unique deduped Hm.
  - exists []. simpl. rewrite app_nil_r. split_and!; try done.
    by intros fw ?%elem_of_nil.
  - change (foldl dedupeStep (unique, deduped) (fw :: foods))
      with (foldl dedupeStep (dedupeStep (unique, deduped) fw) foods).
    remember (dedupeStep (unique, deduped) fw) as acc eqn:Estep.
    unfold dedupeStep in Estep. cbn zeta in Estep.
    destruct (String.eqb (foodKey fw) "") eqn:Eblank; simpl in Estep; subst acc.
    + apply String.eqb_eq in Eblank.
      destruct (IH unique deduped Hm) as (kept & Hout & Hm' & Hsub & Hnb & Hall).
      exists kept. split_and!; try done.
      * by apply sublist_cons.
      * intros fw' [->|Hin]%elem_of_cons Hkey; [done|]. by apply Hall.
    + apply String.eqb_neq in Eblank.
      destruct (seen unique (foodKey fw)) eqn:Eseen.
      * destruct (IH unique deduped Hm) as (kept & Hout & Hm' & Hsub & Hnb & Hall).
        exists kept. split_and!; try done.
        -- by apply sublist_cons.
        -- intros fw' [->|Hin]%elem_of_cons Hkey; [|by apply Hall].
           rewrite fmap_app, elem_of_app. left. by apply Hm.
      * destruct (IH _ _ (marks_snoc _ _ _ Hm Eseen))
          as (kept & Hout & Hm' & Hsub & Hnb & Hall).
        exists (fw :: kept). rewrite Hout, <- app_assoc. simpl. split_and!.
        -- done.
        -- by rewrite Hout, <- app_assoc in Hm'.
        -- by apply sublist_skip.
        -- by constructor.
        -- intros fw' [->|Hin]%elem_of_cons Hkey.
           ++ rewrite fmap_app, elem_of_app. right. simpl. apply elem_of_cons. by left.
           ++ specialize (Hall fw' Hin Hkey). by rewrite <- app_assoc in Hall.
Qed.

(** The second loop: it appends a sub-list of the defaults, and stops at
    four foods. *)
Lemma padLoop_from defaults unique deduped :
  marks unique deduped →
  ∃ pad,
    (padLoop defaults unique deduped).2 = (deduped ++ pad)%list ∧
    marks (padLoop defaults unique deduped).1 (padLoop defaults unique deduped).2 ∧
    pad `sublist_of` defaults ∧
    ((length deduped ≤ 4)%nat → (length (deduped ++ pad) ≤ 4)%nat) ∧
    ((length (deduped ++ pad) < 4)%nat →
     ∀ df, df ∈ defaults → foodKey df ∈ foodKey <$> (deduped ++ pad)%list).
Proof.
  revert unique deduped. induction defaults as [|df defaults IH]; intros unique deduped Hm.
  - exists []. simpl. rewrite app_nil_r. split_and!; try done.
    by intros _ df ?%elem_of_nil.
  - cbn [padLoop]. destruct (4 <=? length deduped)%nat eqn:Efull.
    + apply Nat.leb_le in Efull. exists []. simpl. rewrite app_nil_r.
      split_and!; try done.
      * apply sublist_nil_l.
      * lia.
    + apply Nat.leb_gt in Efull.
      cbn zeta. destruct (seen unique (foodKey df)) eqn:Eseen; cbn [negb].
      * destruct (IH unique deduped Hm) as (pad & Hout & Hm' & Hsub & Hlen & Hall).
        exists pad. split_and!; try done.
        -- by apply sublist_cons.
        -- intros Hshort df' [->|Hin]%elem_of_cons; [|by apply Hall].
           rewrite fmap_app, elem_of_app. left. by apply Hm.
      * destruct (IH _ _ (marks_snoc _ _ _ Hm Eseen))
          as (pad & Hout & Hm' & Hsub & Hlen & Hall).
        exists (df :: pad). rewrite Hout, <- app_assoc. simpl. split_and!.
        -- done.
        -- by rewrite Hout, <- app_assoc in Hm'.
        -- by apply sublist_skip.
        -- intros _. rewrite <- app_assoc in Hlen. simpl in Hlen. apply Hlen.
           rewrite length_app. simpl. lia.
        -- intros Hshort df' [->|Hin]%elem_of_cons.
           ++ rewrite fmap_app, elem_of_app. right. simpl. apply elem_of_cons. by left.
           ++ rewrite <- app_assoc in Hall. simpl in Hall. by apply Hall.
Qed.

(** The cleaned list: what the first loop kept of the foods, then what the
    second took of the defaults. *)
Lemma dedupeAndPad_parts foods defaults :
  ∃ kept pad,
    dedupeAndPad foods defaults = (kept ++ pad)%list ∧
    NoDup (foodKey <$> (kept ++ pad)%list) ∧
    kept `sublist_of` foods ∧ pad `sublist_of` defaults ∧
    Forall (λ fw, foodKey fw ≠ "") kept ∧
    (∀ fw, fw ∈ foods → foodKey fw ≠ "" → foodKey fw ∈ foodKey <$> kept) ∧
    ((4 ≤ length kept)%nat → pad = []) ∧
    ((length kept ≤ 4)%nat → (length (kept ++ pad) ≤ 4)%nat) ∧
    ((length (kept ++ pad) < 4)%nat →
     ∀ df, df ∈ defaults → foodKey df ∈ foodKey <$> (kept ++ pad)%list).
Proof.
  unfold dedupeAndPad, dedupeLoop.
  destruct (dedupeLoop_from foods ∅ [] marks_nil) as (kept & Hout & Hm & Hsub & Hnb & Hall).
  simpl in Hout, Hall.
  destruct (foldl dedupeStep (∅, []) foods) as [unique deduped] eqn:Eloop.
  simpl in Hout, Hm. subst deduped.
  destruct (length kept <? 4)%nat eqn:Eshort.
  - apply Nat.ltb_lt in Eshort.
    destruct (padLoop_from defaults unique kept Hm) as (pad & Hpad & Hm' & Hsub' & Hlen & Hdf).
    exists kept, pad. rewrite Hpad in Hm' |- *. split_and!; try done.
    + by destruct Hm'.
    + lia.
  - apply Nat.ltb_ge in Eshort. exists kept, []. rewrite app_nil_r.
    split_and!; try done.
    + by destruct Hm.
    + apply sublist_nil_l.
    + lia.
Qed.

Lemma distinct_keys_names (foods : list FoodWithPortion.t) :
  NoDup (foodKey <$> foods) → NoDup (FoodWithPortion.Name <$> foods).
Proof.
  intros Hnd. apply (NoDup_fmap_1 (λ name, TrimSpace (ToLower name))).
  by rewrite <- list_fmap_compose.
Qed.

(** Four foods at least, the keys of the defaults being distinct. *)
Lemma dedupeAndPad_length foods defaults :
  NoDup (foodKey <$> defaults) → (4 ≤ length defaults)%nat →
  (4 ≤ length (dedupeAndPad foods defaults))%nat ∧
  ((length foods ≤ 4)%nat → length (dedupeAndPad foods defaults) = 4%nat).
Proof.
  intros Hnd Hfour.
  destruct (dedupeAndPad_parts foods defaults)
    as (kept & pad & -> & Hkeys & Hsub & _ & _ & _ & Hfull & Hlen & Hdf).
  assert (4 ≤ length (kept ++ pad))%nat as Hge.
  { destruct (decide (4 ≤ length (kept ++ pad))%nat) as [|Hshort]; [done|].
    assert (foodKey <$> defaults ⊆ foodKey <$> (kept ++ pad)%list) as Hincl.
    { intros key (df & -> & Hin)%list_elem_of_fmap. apply Hdf; [lia|done]. }
    apply NoDup_submseteq, submseteq_length in Hincl; [|done].
    rewrite !length_fmap in Hincl. lia. }
  split; [done|]. intros Hfew.
  apply sublist_length in Hsub. specialize (Hlen ltac:(lia)). lia.
Qed.

Lemma cleanRegenerationFoods_names regenResponse reqBody :
  NoDup (FoodWithPortion.Name
           <$> RegenerationLLMData.Foods (cleanRegenerationFoods regenResponse reqBody)).
Proof.
  unfold cleanRegenerationFoods. cbn [RegenerationLLMData.Foods].
  destruct (dedupeAndPad_parts (RegenerationLLMData.Foods regenResponse)
              (getDefaultFoodsForMeal (RegenerationLLMData.MealName regenResponse)
                 (RegenerationRequest.DietType reqBody)
                 (RegenerationRequest.FoodsToAvoid reqBody)))
    as (kept & pad & -> & Hkeys & _).
  by apply distinct_keys_names.
Qed.

End CleaningFacts.


Section CleaningAgain.
Context `{GoLib} `{GoTrim}.

(** Foods with distinct keys, none of them blank, pass the first loop
    as they are. *)
Lemma dedupeLoop_fixed foods unique deduped :
  marks unique deduped →
  NoDup (foodKey <$> (deduped ++ foods)%list) →
  Forall (λ fw, foodKey fw ≠ "") foods →
  (foldl dedupeStep (unique, deduped) foods).2 = (deduped ++ foods)%list.
Proof.
  revert unique deduped. induction foods as [|fw foods IH]; intros unique deduped Hm Hnd Hnb.
  - simpl. by rewrite app_nil_r.
  - apply Forall_cons in Hnb as [Hfw Hnb].
    change (foldl dedupeStep (unique, deduped) (fw :: foods))
      with (foldl dedupeStep (dedupeStep (unique, deduped) fw) foods).
    assert (seen unique (foodKey fw) = false) as Hnew.
    { destruct (seen unique (foodKey fw)) eqn:Eseen; [|done].
      apply Hm in Eseen. rewrite fmap_app in Hnd. apply NoDup_app in Hnd as (_ & Hnd & _).
      exfalso. apply (Hnd _ Eseen). simpl. apply elem_of_cons. by left. }
    unfold dedupeStep at 2. cbn zeta.
    apply String.eqb_neq in Hfw. rewrite Hfw, Hnew. cbn [orb].
    rewrite (IH _ _ (marks_snoc _ _ _ Hm Hnew)).
    + by rewrite <- app_assoc.
    + by rewrite <- app_assoc.
    + done.
Qed.

Lemma dedupeAndPad_fixed foods defaults :
  NoDup (foodKey <$> foods) → Forall (λ fw, foodKey fw ≠ "") foods →
  (4 ≤ length foods)%nat →
  dedupeAndPad foods defaults = foods.
Proof.
  intros Hnd Hnb Hfour. unfold dedupeAndPad, dedupeLoop.
  pose proof (dedupeLoop_fixed foods ∅ [] marks_nil Hnd Hnb) as Hout.
  destruct (foldl dedupeStep (∅, []) foods) as [unique deduped]. simpl in Hout. subst deduped.
  by destruct (Nat.ltb_spec (length foods) 4); [lia|].
Qed.

Lemma dedupeAndPad_again foods defaults :
  NoDup (foodKey <$> defaults) → Forall (λ df, foodKey df ≠ "") defaults →
  (4 ≤ length defaults)%nat →
  dedupeAndPad (dedupeAndPad foods defaults) defaults = dedupeAndPad foods defaults.
Proof.
  intros Hnd Hnb Hfour.
  pose proof (dedupeAndPad_length foods defaults Hnd Hfour) as [Hlen _].
  destruct (dedupeAndPad_parts foods defaults)
    as (kept & pad & Hparts & Hkeys & _ & Hsub & Hkept & _).
  rewrite Hparts in Hlen |- *. apply dedupeAndPad_fixed; [done| |done].
  apply Forall_app. split; [done|].
  apply Forall_forall. intros df Hdf. rewrite Forall_forall in Hnb.
  apply Hnb. by eapply elem_of_sublist.
Qed.

Lemma sublist_whole {A} (l k : list A) :
  l `sublist_of` k → (length k ≤ length l)%nat → l = k.
Proof.
  induction 1 as [|x l k Hsub IH|x l k Hsub IH]; simpl; intros Hlen; [done| |].
  - f_equal. apply IH. lia.
  - apply sublist_length in Hsub. lia.
Qed.

(** Seeding a meal that has no food makes no difference. *)
Lemma dedupeAndPad_seeded defaults :
  NoDup (foodKey <$> defaults) → Forall (λ df, foodKey df ≠ "") defaults →
  length defaults = 4%nat →
  dedupeAndPad defaults defaults = dedupeAndPad [] defaults.
Proof.
  intros Hnd Hnb Hfour. rewrite dedupeAndPad_fixed by (done || lia).
  destruct (dedupeAndPad_parts [] defaults)
    as (kept & pad & Hparts & Hkeys & Hkept%sublist_nil_r & Hsub & _).
  subst kept. simpl in *.
  pose proof (dedupeAndPad_length [] defaults Hnd ltac:(lia)) as [Hlen _].
  rewrite Hparts in Hlen |- *.
  symmetry. apply sublist_whole; [done|lia].
Qed.

End CleaningAgain.


(** The default foods: four for every meal, under four names. *)
Lemma getDefaultFoodsForMeal_cases mealName dietType foodsToAvoid :
  getDefaultFoodsForMeal mealName dietType foodsToAvoid
  ∈ [getDefaultFoodsForMeal "Breakfast" "" []; getDefaultFoodsForMeal "Lunch" "" [];
     getDefaultFoodsForMeal "Dinner" "" []; getDefaultFoodsForMeal "" "" []].
Proof.
  unfold getDefaultFoodsForMeal at 1.
  destruct (defaultFoods !! mealName) as [foods|] eqn:Efoods.
  - unfold defaultFoods in Efoods.
    apply lookup_insert_Some in Efoods as [[_ <-]|[_ Efoods]]; [set_solver|].
    apply lookup_insert_Some in Efoods as [[_ <-]|[_ Efoods]]; [set_solver|].
    apply lookup_singleton_Some in Efoods as [_ <-]. set_solver.
  - set_solver.
Qed.

Lemma getDefaultFoodsForMeal_four mealName dietType foodsToAvoid :
  length (getDefaultFoodsForMeal mealName dietType foodsToAvoid) = 4%nat ∧
  NoDup (FoodWithPortion.Name <$> getDefaultFoodsForMeal mealName dietType foodsToAvoid).
Proof.
  pose proof (getDefaultFoodsForMeal_cases mealName dietType foodsToAvoid) as Hcases.
  repeat (apply elem_of_cons in Hcases as [->|Hcases]);
    [| | | |by apply elem_of_nil in Hcases];
    (split; [reflexivity|apply (bool_decide_unpack _); vm_compute; exact I]).
Qed.


(** X24.  [cleanRegenerationFoods] leaves no two foods under one key, the
    key of a food being its name in lower case without the white space
    around it, whatever the LLM named and whatever was padded: so no two
    foods of a cleaned regeneration have the same name. *)
Theorem cleanRegenerationFoods_distinct `{GoLib} `{GoTrim}
    (regenResponse : RegenerationLLMData.t) (reqBody : RegenerationRequest.t) :
  NoDup (foodKey <$> RegenerationLLMData.Foods (cleanRegenerationFoods regenResponse reqBody)) ∧
  NoDup (FoodWithPortion.Name
           <$> RegenerationLLMData.Foods (cleanRegenerationFoods regenResponse reqBody)).
Proof.
  unfold cleanRegenerationFoods. cbn [RegenerationLLMData.Foods].
  destruct (dedupeAndPad_parts (RegenerationLLMData.Foods regenResponse)
              (getDefaultFoodsForMeal (RegenerationLLMData.MealName regenResponse)
                 (RegenerationRequest.DietType reqBody)
                 (RegenerationRequest.FoodsToAvoid reqBody)))
    as (kept & pad & -> & Hkeys & _).
  split; [done|]. by apply distinct_keys_names.
Qed.

(** X25.  [cleanRegenerationFoods] invents no food and loses none: the foods
    it returns are foods of the response, in their order, followed by
    default foods of the meal, in theirs; none of the first has a blank
    key, every key of the response that is not blank is the key of one of
    them, and nothing is padded when four or more are kept. *)
Theorem cleanRegenerationFoods_invents_nothing `{GoLib} `{GoTrim}
    (regenResponse : RegenerationLLMData.t) (reqBody : RegenerationRequest.t) :
  ∃ kept pad,
    RegenerationLLMData.Foods (cleanRegenerationFoods regenResponse reqBody)
    = (kept ++ pad)%list ∧
    kept `sublist_of` RegenerationLLMData.Foods regenResponse ∧
    pad `sublist_of` getDefaultFoodsForMeal (RegenerationLLMData.MealName regenResponse)
                       (RegenerationRequest.DietType reqBody)
                       (RegenerationRequest.FoodsToAvoid reqBody) ∧
    Forall (λ fw, foodKey fw ≠ "") kept ∧
    (∀ fw, fw ∈ RegenerationLLMData.Foods regenResponse → foodKey fw ≠ "" →
           foodKey fw ∈ foodKey <$> kept) ∧
    ((4 ≤ length kept)%nat → pad = []).
Proof.
  unfold cleanRegenerationFoods. cbn [RegenerationLLMData.Foods].
  destruct (dedupeAndPad_parts (RegenerationLLMData.Foods regenResponse)
              (getDefaultFoodsForMeal (RegenerationLLMData.MealName regenResponse)
                 (RegenerationRequest.DietType reqBody)
                 (RegenerationRequest.FoodsToAvoid reqBody)))
    as (kept & pad & Hparts & _ & Hkept & Hpad & Hnb & Hall & Hfull & _).
  by exists kept, pad.
Qed.

(** X26.  [cleanRegenerationFoods] returns four foods at least, and four
    exactly when the response names no more than four, the keys of the
    default foods of the meal being distinct. *)
Theorem cleanRegenerationFoods_at_least_four `{GoLib} `{GoTrim}
    (regenResponse : RegenerationLLMData.t) (reqBody : RegenerationRequest.t) :
  NoDup (foodKey <$> getDefaultFoodsForMeal (RegenerationLLMData.MealName regenResponse)
                       (RegenerationRequest.DietType reqBody)
                       (RegenerationRequest.FoodsToAvoid reqBody)) →
  (4 ≤ length (RegenerationLLMData.Foods (cleanRegenerationFoods regenResponse reqBody)))%nat ∧
  ((length (RegenerationLLMData.Foods regenResponse) ≤ 4)%nat →
   length (RegenerationLLMData.Foods (cleanRegenerationFoods regenResponse reqBody)) = 4%nat).
Proof.
  intros Hdefaults. unfold cleanRegenerationFoods. cbn [RegenerationLLMData.Foods].
  apply dedupeAndPad_length; [done|].
  by rewrite (proj1 (getDefaultFoodsForMeal_four _ _ _)).
Qed.

Lemma cleanRegenerationFoods_at_least_four_witness :
  (4 ≤ length (RegenerationLLMData.Foods
                 (cleanRegenerationFoods (H := go_std) (H0 := go_trim)
                    riceThrice dinnerRequest)))%nat ∧
  ((length (RegenerationLLMData.Foods riceThrice) ≤ 4)%nat →
   length (RegenerationLLMData.Foods
             (cleanRegenerationFoods (H := go_std) (H0 := go_trim)
                riceThrice dinnerRequest)) = 4%nat).
Proof.
  apply (cleanRegenerationFoods_at_least_four (H := go_std) (H0 := go_trim)
           riceThrice dinnerRequest).
  apply (bool_decide_unpack _). vm_compute. exact I.
Defined.

(** X27.  Cleaning a cleaned regeneration changes nothing, the keys of the
    default foods of the meal being distinct and not blank. *)
Theorem cleanRegenerationFoods_idempotent `{GoLib} `{GoTrim}
    (regenResponse : RegenerationLLMData.t) (reqBody : RegenerationRequest.t) :
  NoDup (foodKey <$> getDefaultFoodsForMeal (RegenerationLLMData.MealName regenResponse)
                       (RegenerationRequest.DietType reqBody)
                       (RegenerationRequest.FoodsToAvoid reqBody)) →
  Forall (λ df, foodKey df ≠ "")
    (getDefaultFoodsForMeal (RegenerationLLMData.MealName regenResponse)
       (RegenerationRequest.DietType reqBody) (RegenerationRequest.FoodsToAvoid reqBody)) →
  cleanRegenerationFoods (cleanRegenerationFoods regenResponse reqBody) reqBody
  = cleanRegenerationFoods regenResponse reqBody.
Proof.
  intros Hdistinct Hnamed. unfold cleanRegenerationFoods.
  cbn [RegenerationLLMData.Foods RegenerationLLMData.MealName
       RegenerationLLMData.MealTime RegenerationLLMData.Meridiem
       RegenerationLLMData.MacroTarget].
  f_equal. apply dedupeAndPad_again; [done|done|].
  by rewrite (proj1 (getDefaultFoodsForMeal_four _ _ _)).
Qed.

Lemma cleanRegenerationFoods_idempotent_witness :
  cleanRegenerationFoods (H := go_std) (H0 := go_trim)
    (cleanRegenerationFoods (H := go_std) (H0 := go_trim) riceThrice dinnerRequest)
    dinnerRequest
  = cleanRegenerationFoods (H := go_std) (H0 := go_trim) riceThrice dinnerRequest.
Proof.
  apply (cleanRegenerationFoods_idempotent (H := go_std) (H0 := go_trim)
           riceThrice dinnerRequest).
  - apply (bool_decide_unpack _). vm_compute. exact I.
  - apply (bool_decide_unpack _). vm_compute. exact I.
Defined.

(** The models of the library keep the keys of the default foods
    distinct, and none is blank. *)
Lemma go_defaults_distinct : defaultsDistinct (H := go_std) (H0 := go_trim).
Proof.
  intros mealName dietType foodsToAvoid.
  pose proof (getDefaultFoodsForMeal_cases mealName dietType foodsToAvoid) as Hcases.
  repeat (apply elem_of_cons in Hcases as [->|Hcases]);
    [| | | |by apply elem_of_nil in Hcases];
    (apply (bool_decide_unpack _); vm_compute; exact I).
Qed.

Lemma go_defaults_named : defaultsNamed (H := go_std) (H0 := go_trim).
Proof.
  intros mealName dietType foodsToAvoid.
  pose proof (getDefaultFoodsForMeal_cases mealName dietType foodsToAvoid) as Hcases.
  repeat (apply elem_of_cons in Hcases as [->|Hcases]);
    [| | | |by apply elem_of_nil in Hcases];
    (apply (bool_decide_unpack _); vm_compute; exact I).
Qed.

Section PlanCleaning.
Context `{GoLib} `{GoTrim}.

Lemma cleanMeal_cleaned reqBody regenerationRequest meal :
  defaultsDistinct → defaultsNamed →
  cleanedAs meal (cleanMeal reqBody meal) ∧
  MealLLMItems.Foods (cleanMeal reqBody meal)
  = RegenerationLLMData.Foods
      (cleanRegenerationFoods (asRegeneration meal) regenerationRequest).
Proof.
  intros Hdistinct Hnamed.
  pose proof (Hdistinct (MealLLMItems.MealName meal) (RequestBody.DietType reqBody)
                (RequestBody.FoodAllergies reqBody)) as Hnd.
  pose proof (Hnamed (MealLLMItems.MealName meal) (RequestBody.DietType reqBody)
                (RequestBody.FoodAllergies reqBody)) as Hnb.
  pose proof (getDefaultFoodsForMeal_four (MealLLMItems.MealName meal)
                (RequestBody.DietType reqBody) (RequestBody.FoodAllergies reqBody))
    as [Hfour _].
  assert (MealLLMItems.Foods (cleanMeal reqBody meal)
          = dedupeAndPad (MealLLMItems.Foods meal)
              (getDefaultFoodsForMeal (MealLLMItems.MealName meal)
                 (RequestBody.DietType reqBody) (RequestBody.FoodAllergies reqBody)))
    as Hfoods.
  { unfold cleanMeal. cbn [MealLLMItems.Foods].
    destruct (MealLLMItems.Foods meal) as [|fw foods]; [|done].
    cbn [length Nat.eqb]. by apply dedupeAndPad_seeded. }
  split.
  - unfold cleanedAs. rewrite Hfoods. split_and!; try done.
    + destruct (dedupeAndPad_parts (MealLLMItems.Foods meal)
                  (getDefaultFoodsForMeal (MealLLMItems.MealName meal)
                     (RequestBody.DietType reqBody) (RequestBody.FoodAllergies reqBody)))
        as (kept & pad & -> & Hkeys & _).
      by apply distinct_keys_names.
    + apply dedupeAndPad_length; [done|lia].
  - by rewrite Hfoods.
Qed.

End PlanCleaning.

(** X28.  [cleanFoodsArrays] keeps the days of the plan, their dates and the
    name, time and target of every meal, and cleans the foods of each meal
    as [cleanRegenerationFoods] cleans those of a regeneration, the seeding
    of a meal without foods making no difference: every meal of the cleaned
    plan has four foods at least, no two under one name.  The keys of the
    default foods are taken to be distinct and not blank. *)
Theorem cleanFoodsArrays_meals `{GoLib} `{GoTrim}
    (data : gmap string DayLLMMeals.t) (reqBody : RequestBody.t)
    (regenerationRequest : RegenerationRequest.t) (key : string) :
  defaultsDistinct → defaultsNamed →
  option_Forall2 (cleanedDay regenerationRequest)
    (data !! key) (cleanFoodsArrays data reqBody !! key).
Proof.
  intros Hdistinct Hnamed. unfold cleanFoodsArrays. rewrite lookup_fmap.
  destruct (data !! key) as [day|]; simpl; constructor.
  split; [done|]. cbn [DayLLMMeals.Meals].
  apply Forall2_fmap_r, Forall_Forall2_diag, Forall_forall. intros meal _.
  by apply cleanMeal_cleaned.
Qed.

Lemma cleanFoodsArrays_meals_witness :
  option_Forall2 (cleanedDay (H := go_std) (H0 := go_trim) dinnerRequest)
    (eggsTwice !! "monday")
    (cleanFoodsArrays (H := go_std) (H0 := go_trim) eggsTwice (RequestBody.mk "vegan" ["Egg"])
       !! "monday").
Proof.
  apply (cleanFoodsArrays_meals (H := go_std) (H0 := go_trim)
           eggsTwice (RequestBody.mk "vegan" ["Egg"]) dinnerRequest "monday").
  - exact go_defaults_distinct.
  - exact go_defaults_named.
Defined.

(** X29.  Whether the reply of the LLM could be decoded or not,
    [parseRegenerationResponse] returns the name, the time, the meridiem
    and the macro target of the original meal of the request, not those of
    the reply, and foods no two of which have the same name: the meal is
    scaled against the target that [processRegenerationResponse] reports. *)
Theorem parseRegenerationResponse_original_meal `{GoLib} `{GoTrim}
    (decoded : option RegenerationLLMData.t) (reqBody : RegenerationRequest.t) :
  RegenerationLLMData.MealName (parseRegenerationResponse decoded reqBody)
  = OriginalMeal.MealName (RegenerationRequest.OriginalMeal reqBody) ∧
  RegenerationLLMData.MealTime (parseRegenerationResponse decoded reqBody)
  = OriginalMeal.MealTime (RegenerationRequest.OriginalMeal reqBody) ∧
  RegenerationLLMData.Meridiem (parseRegenerationResponse decoded reqBody)
  = OriginalMeal.Meridiem (RegenerationRequest.OriginalMeal reqBody) ∧
  RegenerationLLMData.MacroTarget (parseRegenerationResponse decoded reqBody)
  = OriginalMeal.MacroTarget (RegenerationRequest.OriginalMeal reqBody) ∧
  NoDup (FoodWithPortion.Name
           <$> RegenerationLLMData.Foods (parseRegenerationResponse decoded reqBody)).
Proof.
  destruct decoded as [regenResponse|]; simpl.
  - split_and!; try done.
    apply (cleanRegenerationFoods_names
             (validateAndFixRegenerationMacros regenResponse reqBody) reqBody).
  - split_and!; try done. apply getDefaultFoodsForMeal_four.
Qed.


(** ** A target of no calories *)

Lemma zero_quotient (target c : float64) :
  F64.is_zero target → F64.is_finite c = true → F64.eqb c F64.zero = false →
  F64.is_zero (F64.div target c).
Proof. by destruct target, c. Qed.

Lemma zero_product (p multiplier : float64) :
  F64.is_finite p = true → F64.is_zero multiplier → F64.is_zero (F64.mul p multiplier).
Proof. by destruct p, multiplier. Qed.

Lemma zero_printed (x : float64) :
  F64.is_zero x → printedZero (Sprintf3 (GoLib := go_std) x).
Proof. destruct x as [[]| | |]; try done; intros _; [by right|by left]. Qed.

(** X30.  A target of zero calories, which is what a meal without a macro
    target or a food with a portion ratio of 0 comes to, wipes the serving:
    for a serving that passes the two guards, with finite calories and every
    field that parses finite, [adjustServingForTargetCalories] writes
    [0.000] or [-0.000] to the amount and to every nutrient. *)
Theorem zero_target_wipes_the_serving
    (serving : Serving.t) (targetCalories currentCalories currentAmount : float64) :
  F64.is_zero targetCalories →
  ParseFloat (GoLib := go_std) (Serving.Calories serving) = Some currentCalories →
  F64.is_finite currentCalories = true → F64.eqb currentCalories F64.zero = false →
  ParseFloat (GoLib := go_std) (Serving.MetricServingAmount serving) = Some currentAmount →
  F64.eqb currentAmount F64.zero = false →
  Forall readsFinite (quantities serving) →
  Forall printedZero
    (quantities (adjustServingForTargetCalories (H := go_std) serving targetCalories)).
Proof.
  intros Hzero Hc Hfinite Hc0 Ha Ha0 Hfields.
  rewrite (adjustServingForTargetCalories_quantities (H := go_std)
             serving targetCalories currentCalories currentAmount Hc Hc0 Ha Ha0).
  apply Forall_fmap. eapply Forall_impl; [exact Hfields|].
  intros field Hfield. cbn beta. unfold compose. apply zero_printed.
  unfold readsFinite, parseFloatDefault in Hfield. unfold parseAndMultiply.
  destruct (ParseFloat (GoLib := go_std) field) as [parsed|]; [|done].
  apply zero_product; [done|]. by apply zero_quotient.
Qed.

Lemma zero_target_wipes_the_serving_witness :
  Forall printedZero
    (quantities (adjustServingForTargetCalories (H := go_std) oatmeal F64.zero)).
Proof.
  apply (zero_target_wipes_the_serving oatmeal F64.zero (lit "158.5") (lit "234")).
  - exact I.
  - vm_compute. reflexivity.
  - vm_compute. reflexivity.
  - vm_compute. reflexivity.
  - vm_compute. reflexivity.
  - vm_compute. reflexivity.
  - unfold quantities, Serving.nutrients.
    repeat (apply Forall_cons; split; [vm_compute; reflexivity|]). apply Forall_nil_2.
Defined.

(* ===================================================================== *)
(** * The deviation from the target across a pass *)
(* ===================================================================== *)

(** ** Sums, differences and the order of binary64 numbers *)

Module Sums.
Import Binary64.
Local Open Scope Q_scope.

(** *** Rounding a mantissa of any length *)

Lemma digits2_pos_shift p mx :
  digits2_pos (shift_pos p mx) = (digits2_pos mx + p)%positive.
Proof.
  apply Pos2Z.inj. rewrite Pos2Z.inj_add.
  apply digits2_pos_unique.
  pose proof (digits2_pos_bounds mx) as [Hlo Hhi].
  rewrite shift_pos_correct, Z.pow_pos_fold.
  set (d := Z.pos (digits2_pos mx)) in *.
  assert (0 < 2 ^ Z.pos p)%Z by (apply Z.pow_pos_nonneg; lia).
  replace (d + Z.pos p - 1)%Z with (Z.pos p + (d - 1))%Z by lia.
  replace (d + Z.pos p)%Z with (Z.pos p + d)%Z by lia.
  rewrite !Z.pow_add_r by (unfold d; lia). nia.
Qed.

Lemma binary_round_value s (mx : positive) ex :
  (-1074 ≤ ex)%Z → (-1021 ≤ Z.pos (digits2_pos mx) + ex ≤ 1023)%Z →
  let z := binary_round 53 1024 s mx ex in
  F64.normal z ∧ F64.negative z = s ∧
  inject_Z (Z.pos mx) * F64.pow2 ex * (1 - F64.u) <= F64.magnitude z ∧
  F64.magnitude z <= inject_Z (Z.pos mx) * F64.pow2 ex * (1 + F64.u).
Proof.
  intros Hex Hd z. subst z. unfold binary_round.
  rewrite fexp_normal by lia. unfold shl_align.
  set (d := Z.pos (digits2_pos mx)) in *.
  replace (d + ex - 53 - ex)%Z with (d - 53)%Z by lia.
  destruct (d - 53)%Z as [|p|p] eqn:Hp.
  - apply binary_round_aux_value; try (fold d; lia); [apply Qle_refl|].
    apply Qmult_le_compat_r; [apply inject_Z_le; lia|]. apply Qlt_le_weak, pow2_pos.
  - apply binary_round_aux_value; try (fold d; lia); [apply Qle_refl|].
    apply Qmult_le_compat_r; [apply inject_Z_le; lia|]. apply Qlt_le_weak, pow2_pos.
  - fold (shift_pos p mx).
    assert (inject_Z (Z.pos (shift_pos p mx)) * F64.pow2 (d + ex - 53)
            == inject_Z (Z.pos mx) * F64.pow2 ex) as Hval.
    { rewrite shift_pos_correct, Z.pow_pos_fold, inject_Z_mult, <- pow2_inject by lia.
      assert (F64.pow2 ex == F64.pow2 (Z.pos p) * F64.pow2 (d + ex - 53)) as ->.
      { rewrite <- pow2_add. replace (Z.pos p + (d + ex - 53))%Z with ex by lia. reflexivity. }
      ring. }
    rewrite <- Hval.
    apply binary_round_aux_value; rewrite ?digits2_pos_shift, ?Pos2Z.inj_add;
      try (fold d; lia); [apply Qle_refl|].
    apply Qmult_le_compat_r; [apply inject_Z_le; lia|]. apply Qlt_le_weak, pow2_pos.
Qed.

(** The digits of a mantissa from bounds on the value. *)
Lemma digits_from_value (m : positive) e a b :
  F64.pow2 a <= inject_Z (Z.pos m) * F64.pow2 e →
  inject_Z (Z.pos m) * F64.pow2 e <= F64.pow2 b →
  (a + 1 ≤ Z.pos (digits2_pos m) + e ≤ b + 1)%Z.
Proof.
  intros Ha Hb. pose proof (digits2_pos_bounds m) as [Hlo Hhi].
  set (d := Z.pos (digits2_pos m)) in *.
  pose proof (pow2_pos e) as He.
  assert (F64.pow2 (d - 1 + e) <= inject_Z (Z.pos m) * F64.pow2 e) as Hl.
  { rewrite pow2_add, (pow2_inject (d - 1)) by (unfold d; lia).
    apply Qmult_le_compat_r; [by apply inject_Z_le|lra]. }
  assert (inject_Z (Z.pos m) * F64.pow2 e < F64.pow2 (d + e)) as Hh.
  { rewrite pow2_add, (pow2_inject d) by (unfold d; lia).
    apply Qmult_lt_compat_r; [done|]. by rewrite <- Zlt_Qlt. }
  split.
  - assert (F64.pow2 a < F64.pow2 (d + e)) as Hlt by lra.
    apply pow2_lt_inv in Hlt. lia.
  - destruct (Z.le_gt_cases (d + e) (b + 1)) as [|Hgt]; [done|]. exfalso.
    assert (F64.pow2 (b + 1) <= F64.pow2 (d - 1 + e)) as Hle by (apply pow2_le; lia).
    assert (F64.pow2 b < F64.pow2 (b + 1)) as Hlt.
    { rewrite pow2_add. change (F64.pow2 1) with 2. pose proof (pow2_pos b). lra. }
    lra.
Qed.

Lemma shl_align_value mx ex ez :
  (ez ≤ ex)%Z →
  Z.pos (fst (shl_align mx ex ez)) = (Z.pos mx * 2 ^ (ex - ez))%Z.
Proof.
  intros Hle. unfold shl_align.
  destruct (ez - ex)%Z as [|p|p] eqn:Hp; [| lia |].
  - replace (ex - ez)%Z with 0%Z by lia. simpl fst. lia.
  - simpl fst. fold (shift_pos p mx). rewrite shift_pos_correct, Z.pow_pos_fold.
    replace (ex - ez)%Z with (Z.pos p) by lia. lia.
Qed.

Lemma aligned_value mx ex ez :
  (ez ≤ ex)%Z →
  inject_Z (Z.pos (fst (shl_align mx ex ez))) * F64.pow2 ez
  == inject_Z (Z.pos mx) * F64.pow2 ex.
Proof.
  intros Hle. rewrite shl_align_value, inject_Z_mult, <- pow2_inject by lia.
  assert (F64.pow2 ex == F64.pow2 (ex - ez) * F64.pow2 ez) as ->.
  { rewrite <- pow2_add. replace (ex - ez + ez)%Z with ex by lia. reflexivity. }
  ring.
Qed.

(** *** Sums and differences of numbers that are not negative *)

Lemma add_value x y :
  F64.normal x → F64.normal y → F64.negative x = false → F64.negative y = false →
  F64.magnitude x + F64.magnitude y <= F64.pow2 1000 →
  let z := F64.add x y in
  F64.normal z ∧ F64.negative z = false ∧
  (F64.magnitude x + F64.magnitude y) * (1 - F64.u) <= F64.magnitude z ∧
  F64.magnitude z <= (F64.magnitude x + F64.magnitude y) * (1 + F64.u).
Proof.
  intros Hx Hy Hsx Hsy Hmax z.
  pose proof (normal_magnitude_bounds x Hx) as [Hxl _].
  pose proof (magnitude_pos y Hy) as Hypos.
  destruct x as [| | |sx mx ex]; try done. destruct y as [| | |sy my ey]; try done.
  cbn [F64.negative] in Hsx, Hsy. subst sx sy.
  destruct Hx as [Hdx Hex]. destruct Hy as [Hdy Hey].
  cbn [F64.magnitude F64.exponent] in *.
  subst z. unfold F64.add, SFadd. cbn [cond_Zopp].
  set (ez := Z.min ex ey).
  pose proof (aligned_value mx ex ez ltac:(lia)) as Hax.
  pose proof (aligned_value my ey ez ltac:(lia)) as Hay.
  set (A := fst (shl_align mx ex ez)) in *. set (B := fst (shl_align my ey ez)) in *.
  change (Z.pos A + Z.pos B)%Z with (Z.pos (A + B)). cbn [binary_normalize].
  assert (inject_Z (Z.pos (A + B)) * F64.pow2 ez
          == inject_Z (Z.pos mx) * F64.pow2 ex + inject_Z (Z.pos my) * F64.pow2 ey) as Hval.
  { rewrite Pos2Z.inj_add, inject_Z_plus, <- Hax, <- Hay. ring. }
  rewrite <- Hval in *.
  assert (F64.pow2 (-1022) <= inject_Z (Z.pos (A + B)) * F64.pow2 ez) as Hlow.
  { apply Qle_trans with (F64.pow2 (ex + 52)); [apply pow2_le; lia|]. lra. }
  pose proof (digits_from_value (A + B) ez (-1022) 1000 Hlow Hmax) as Hd.
  apply binary_round_value; unfold ez; lia.
Qed.

Lemma sub_value x y e0 :
  F64.normal x → F64.normal y → F64.negative x = false → F64.negative y = false →
  F64.magnitude y < F64.magnitude x → F64.magnitude x <= F64.pow2 1000 →
  (-1022 ≤ e0)%Z → (e0 ≤ F64.exponent x)%Z → (e0 ≤ F64.exponent y)%Z →
  let z := F64.sub x y in
  F64.normal z ∧ F64.negative z = false ∧
  (F64.magnitude x - F64.magnitude y) * (1 - F64.u) <= F64.magnitude z ∧
  F64.magnitude z <= (F64.magnitude x - F64.magnitude y) * (1 + F64.u) ∧
  F64.pow2 e0 <= F64.magnitude x - F64.magnitude y.
Proof.
  intros Hx Hy Hsx Hsy Hlt Hmax He0 Hex0 Hey0 z.
  pose proof (magnitude_pos y Hy) as Hypos.
  destruct x as [| | |sx mx ex]; try done. destruct y as [| | |sy my ey]; try done.
  cbn [F64.negative] in Hsx, Hsy. subst sx sy.
  destruct Hx as [Hdx Hex]. destruct Hy as [Hdy Hey].
  cbn [F64.magnitude F64.exponent] in *.
  subst z. unfold F64.sub, SFsub. cbn [cond_Zopp].
  set (ez := Z.min ex ey).
  pose proof (aligned_value mx ex ez ltac:(lia)) as Hax.
  pose proof (aligned_value my ey ez ltac:(lia)) as Hay.
  set (A := fst (shl_align mx ex ez)) in *. set (B := fst (shl_align my ey ez)) in *.
  pose proof (pow2_pos ez) as Hpz.
  assert (Z.pos B < Z.pos A)%Z as HBA.
  { destruct (Z.lt_ge_cases (Z.pos B) (Z.pos A)) as [|Hge]; [done|]. exfalso.
    apply inject_Z_le in Hge.
    assert (inject_Z (Z.pos A) * F64.pow2 ez <= inject_Z (Z.pos B) * F64.pow2 ez)
      by (apply Qmult_le_compat_r; lra).
    lra. }
  assert (∃ M : positive, (Z.pos A - Z.pos B = Z.pos M)%Z) as [M HM].
  { destruct (Z.pos A - Z.pos B)%Z as [|M|M] eqn:HM; [lia| |lia]. by exists M. }
  rewrite HM. cbn [binary_normalize].
  assert (inject_Z (Z.pos M) * F64.pow2 ez
          == inject_Z (Z.pos mx) * F64.pow2 ex - inject_Z (Z.pos my) * F64.pow2 ey) as Hval.
  { rewrite <- HM. unfold Z.sub. rewrite inject_Z_plus, inject_Z_opp, <- Hax, <- Hay. ring. }
  rewrite <- Hval in *.
  assert (F64.pow2 ez <= inject_Z (Z.pos M) * F64.pow2 ez) as Hlow.
  { assert (1 <= inject_Z (Z.pos M)) by (change 1 with (inject_Z 1); apply inject_Z_le; lia).
    rewrite <- (Qmult_1_l (F64.pow2 ez)) at 1. apply Qmult_le_compat_r; lra. }
  assert (inject_Z (Z.pos M) * F64.pow2 ez <= F64.pow2 1000) as Hhigh by lra.
  pose proof (digits_from_value M ez ez 1000 Hlow Hhigh) as Hd.
  assert (F64.pow2 e0 <= F64.pow2 ez) as Hee by (apply pow2_le; unfold ez; lia).
  destruct (binary_round_value false M ez) as (Hn & Hs & Hl & Hh); [unfold ez; lia|lia|].
  repeat split; try done; try lra.
Qed.

(** *** The order of numbers that are not negative *)

Lemma nonnegative_value x :
  nonnegative x → F64.to_Q x == F64.magnitude x ∧ 0 <= F64.magnitude x.
Proof.
  intros [Hz | [Hn Hs]].
  - destruct x as [[|]| | |]; try done; try (by vm_compute).
  - unfold F64.to_Q. rewrite Hs. split; [reflexivity|].
    apply Qlt_le_weak. by apply magnitude_pos.
Qed.

Lemma within_nonnegative lo hi x : within lo hi x → nonnegative x.
Proof. intros [Hz | (Hn & Hs & _)]; [by left|by right]. Qed.

Lemma within_weaken lo hi lo' hi' x :
  lo' <= lo → hi <= hi' → within lo hi x → within lo' hi' x.
Proof.
  intros Hlo Hhi [Hz | (Hn & Hs & Hl & Hh)]; [by left|right].
  repeat split; try done; lra.
Qed.

Lemma normal_order m1 e1 m2 e2 :
  digits2_pos m1 = 53%positive → digits2_pos m2 = 53%positive → (e1 < e2)%Z →
  inject_Z (Z.pos m1) * F64.pow2 e1 < inject_Z (Z.pos m2) * F64.pow2 e2.
Proof.
  intros H1 H2 He.
  pose proof (digits2_pos_bounds m1) as [_ Hhi]. rewrite H1 in Hhi.
  pose proof (digits2_pos_bounds m2) as [Hlo _]. rewrite H2 in Hlo.
  change (2 ^ (53 - 1))%Z with (2 ^ 52)%Z in Hlo.
  pose proof (pow2_pos e1) as Hp1. pose proof (pow2_pos e2) as Hp2.
  assert (inject_Z (Z.pos m1) * F64.pow2 e1 < F64.pow2 (53 + e1)) as Ha.
  { rewrite pow2_add, (pow2_inject 53) by lia.
    apply Qmult_lt_compat_r; [done|]. by rewrite <- Zlt_Qlt. }
  assert (F64.pow2 (52 + e2) <= inject_Z (Z.pos m2) * F64.pow2 e2) as Hb.
  { rewrite pow2_add, (pow2_inject 52) by lia.
    apply Qmult_le_compat_r; [by apply inject_Z_le|lra]. }
  assert (F64.pow2 (53 + e1) <= F64.pow2 (52 + e2)) by (apply pow2_le; lia).
  lra.
Qed.

Lemma ltb_value x y :
  nonnegative x → nonnegative y →
  F64.ltb x y = true ↔ F64.to_Q x < F64.to_Q y.
Proof.
  intros Hx Hy.
  destruct (nonnegative_value x Hx) as [-> Hx0].
  destruct (nonnegative_value y Hy) as [-> Hy0].
  destruct Hx as [Hx | [Hx Hsx]], Hy as [Hy | [Hy Hsy]].
  - destruct x; try done. destruct y; try done.
    all: try (cbn; split; [done|lra]).
  - pose proof (magnitude_pos y Hy). destruct x; try done. destruct y; try done.
    cbn [F64.negative] in Hsy. subst. split; intros _; [exact H|reflexivity].
  - pose proof (magnitude_pos x Hx). destruct x; try done. destruct y; try done.
    cbn [F64.negative] in Hsx. subst. split; [done|].
    change (F64.magnitude (S754_zero s0)) with 0. lra.
  - destruct x as [| | |sx mx ex]; try done. destruct y as [| | |sy my ey]; try done.
    cbn [F64.negative] in Hsx, Hsy. subst sx sy.
    destruct Hx as [Hdx _]. destruct Hy as [Hdy _].
    unfold F64.ltb, SFltb, SFcompare. cbn [F64.magnitude].
    pose proof (pow2_pos ey) as Hpe.
    destruct (Z.compare_spec ex ey) as [->|Hlt|Hgt].
    + change (PosDef.Pos.compare_cont Eq mx my) with (Pos.compare mx my).
      destruct (Pos.compare_spec mx my) as [->|Hm|Hm].
      * split; [done|lra].
      * split; [|done]. intros _. apply Qmult_lt_compat_r; [done|].
        rewrite <- Zlt_Qlt. lia.
      * split; [done|]. intros Hv. exfalso.
        assert (inject_Z (Z.pos my) * F64.pow2 ey < inject_Z (Z.pos mx) * F64.pow2 ey).
        { apply Qmult_lt_compat_r; [done|]. rewrite <- Zlt_Qlt. lia. }
        lra.
    + split; [|done]. intros _. by apply normal_order.
    + split; [done|]. intros Hv. exfalso.
      pose proof (normal_order my ey mx ex Hdy Hdx Hgt). lra.
Qed.

(** A normal number that is not negative passes the guard of
    [scaleServing]. *)
Lemma leb_zero_normal x :
  F64.normal x → F64.negative x = false → F64.leb x F64.zero = false.
Proof. destruct x as [| | |s m e]; try done. cbn. by intros _ ->. Qed.

Local Close Scope Q_scope.
End Sums.
Module Totals.
Import Binary64 Sums.
Local Open Scope Q_scope.

Lemma runningSum_nonnegative acc : runningSum acc → nonnegative acc.
Proof. intros [-> | (Hn & Hs & _)]; [by left|by right]. Qed.

(** One addition of the aggregator: the error grows by a millionth at
    most. *)
Lemma add_field acc v (k Σ : Q) :
  runningSum acc → within (1 # 1000000000) 10000000 v →
  0 <= k → k <= 99 →
  Qabs (F64.to_Q acc - Σ) <= k * (1 # 1000000) → 0 <= Σ → Σ <= k * 10000000 →
  runningSum (F64.add acc v) ∧
  Qabs (F64.to_Q (F64.add acc v) - (Σ + F64.to_Q v)) <= (k + 1) * (1 # 1000000) ∧
  0 <= Σ + F64.to_Q v ∧ Σ + F64.to_Q v <= (k + 1) * 10000000.
Proof.
  intros Hacc Hv Hk0 Hk Herr HS0 HS.
  apply Qabs_Qle_condition in Herr as [Herr1 Herr2].
  destruct (nonnegative_value v (within_nonnegative _ _ _ Hv)) as [Hvq Hv0].
  destruct (nonnegative_value acc (runningSum_nonnegative _ Hacc)) as [Haq Ha0].
  assert (F64.magnitude v <= 10000000) as Hvmax.
  { destruct Hv as [Hz | (_ & _ & _ & Hh)]; [by destruct v|done]. }
  rewrite Hvq, Haq in *.
  destruct Hv as [Hz | (Hn & Hs & Hlo & Hhi)].
  - (* nothing is added *)
    assert (F64.add acc v = acc) as ->.
    { destruct v as [[|]| | |]; try done;
        destruct Hacc as [-> | (Hna & _)]; try done; by destruct acc. }
    assert (F64.magnitude v == 0) as Hv00 by (by destruct v).
    split; [done|]. rewrite Haq, Hv00. split; [|split; lra].
    apply Qabs_Qle_condition. split; lra.
  - destruct Hacc as [-> | (Hna & Hsa & Hla)].
    + (* the first number *)
      assert (F64.add F64.zero v = v) as -> by (by destruct v).
      split.
      { right. repeat split; try done. pow2_num (-31)%Z. lra. }
      rewrite Hvq. change (F64.magnitude F64.zero) with 0 in *.
      split; [|split; lra]. apply Qabs_Qle_condition. split; lra.
    + destruct (add_value acc v Hna Hn Hsa Hs) as (Hnz & Hsz & Hzl & Hzh).
      { pow2_num 1000%Z. lra. }
      set (z := F64.add acc v) in *.
      assert (F64.to_Q z == F64.magnitude z) as -> by (unfold F64.to_Q; by rewrite Hsz).
      unfold runningSum. pow2_num (-31)%Z. u_num.
      split; [right; repeat split; try done; lra|].
      split; [|split; lra]. apply Qabs_Qle_condition. split; lra.
Qed.

Lemma fieldSum_cons value food foods :
  fieldSum value (food :: foods) == F64.to_Q (value food) + fieldSum value foods.
Proof. reflexivity. Qed.

(** A sum of at most a hundred fields, taken from the left. *)
Lemma sum_from (g : float64 → Food.t → float64) (value : Food.t → float64) foods :
  (∀ acc food, runningSum acc → g acc food = F64.add acc (value food)) →
  Forall (λ food, within (1 # 1000000000) 10000000 (value food)) foods →
  ∀ acc (k : nat) (Σ : Q),
    (k + length foods ≤ 100)%nat →
    runningSum acc →
    Qabs (F64.to_Q acc - Σ) <= inject_Z (Z.of_nat k) * (1 # 1000000) →
    0 <= Σ → Σ <= inject_Z (Z.of_nat k) * 10000000 →
    let sum := fold_left g foods acc in
    runningSum sum ∧
    Qabs (F64.to_Q sum - (Σ + fieldSum value foods))
      <= inject_Z (Z.of_nat (k + length foods)) * (1 # 1000000) ∧
    0 <= Σ + fieldSum value foods ∧
    Σ + fieldSum value foods <= inject_Z (Z.of_nat (k + length foods)) * 10000000.
Proof.
  intros Hg Hall. induction Hall as [|food foods Hv _ IH]; intros acc k Σ Hlen Hacc Herr HS0 HS.
  - cbn [fold_left length fieldSum foldr]. rewrite Nat.add_0_r.
    split; [done|]. split; [|split; lra].
    assert (F64.to_Q acc - (Σ + 0) == F64.to_Q acc - Σ) as -> by ring. done.
  - cbn [fold_left length] in *. rewrite (Hg _ _ Hacc).
    assert (0 <= inject_Z (Z.of_nat k) ∧ inject_Z (Z.of_nat k) <= 99) as [Hk0 Hk99].
    { split.
      - change 0 with (inject_Z 0). apply inject_Z_le. lia.
      - change 99 with (inject_Z 99). apply inject_Z_le. lia. }
    destruct (add_field acc (value food) (inject_Z (Z.of_nat k)) Σ Hacc Hv Hk0 Hk99 Herr HS0 HS)
      as (Hacc' & Herr' & HS0' & HS').
    assert (inject_Z (Z.of_nat (S k)) == inject_Z (Z.of_nat k) + 1) as Hsucc.
    { rewrite Nat2Z.inj_succ. unfold Z.succ. by rewrite inject_Z_plus. }
    rewrite <- Hsucc in Herr', HS'.
    destruct (IH _ (S k) _ ltac:(lia) Hacc' Herr' HS0' HS') as (H1 & H2 & H3 & H4).
    replace (k + S (length foods))%nat with (S k + length foods)%nat by lia.
    rewrite fieldSum_cons.
    assert (Σ + (F64.to_Q (value food) + fieldSum value foods)
            == Σ + F64.to_Q (value food) + fieldSum value foods) as -> by ring.
    done.
Qed.

Lemma sum_value (g : float64 → Food.t → float64) (value : Food.t → float64) foods :
  (∀ acc food, runningSum acc → g acc food = F64.add acc (value food)) →
  Forall (λ food, within (1 # 1000000000) 10000000 (value food)) foods →
  (length foods ≤ 100)%nat →
  let sum := fold_left g foods F64.zero in
  runningSum sum ∧
  Qabs (F64.to_Q sum - fieldSum value foods) <= 1 # 10000 ∧
  0 <= fieldSum value foods ∧ fieldSum value foods <= 1000000000.
Proof.
  intros Hg Hall Hlen.
  destruct (sum_from g value foods Hg Hall F64.zero 0 0) as (H1 & H2 & H3 & H4);
    try done; [by left|].
  cbn [Nat.add] in *.
  assert (inject_Z (Z.of_nat (length foods)) <= 100) as Hn.
  { change 100 with (inject_Z 100). apply inject_Z_le. lia. }
  split; [done|].
  assert (0 + fieldSum value foods == fieldSum value foods) as Hz by ring.
  rewrite Hz in *. split; [|split; lra].
  eapply Qle_trans; [exact H2|]. lra.
Qed.

Local Close Scope Q_scope.
End Totals.
Module PassValues.
Import Binary64 Sums Totals.
#[local] Existing Instance go_std.
Local Open Scope Q_scope.

(** *** The aggregated macros as sums *)

Lemma running_add_zero acc : runningSum acc → F64.add acc F64.zero = acc.
Proof. intros [-> | (Hn & _)]; [done|]. by destruct acc. Qed.

Lemma addParsed_add acc field :
  runningSum acc → addParsed acc field = F64.add acc (parseFloatDefault field).
Proof.
  intros Hacc. unfold addParsed, parseFloatDefault.
  destruct (ParseFloat field); [done|]. by rewrite running_add_zero.
Qed.

Lemma Fats_calculateMealMacros foods :
  MacroTarget.Fats (calculateMealMacros foods)
  = fold_left (λ acc food,
                 match Food.Servings food with
                 | serving :: _ => addParsed acc (Serving.Fat serving)
                 | [] => acc
                 end) foods F64.zero.
Proof.
  unfold calculateMealMacros.
  change F64.zero with
    (MacroTarget.Fats (MacroTarget.mk F64.zero F64.zero F64.zero F64.zero)) at 5.
  generalize (MacroTarget.mk F64.zero F64.zero F64.zero F64.zero).
  induction foods as [|food foods IH]; intros t0; [done|].
  cbn [fold_left]. rewrite IH. by destruct (Food.Servings food).
Qed.

Lemma Carbs_calculateMealMacros foods :
  MacroTarget.Carbs (calculateMealMacros foods)
  = fold_left (λ acc food,
                 match Food.Servings food with
                 | serving :: _ => addParsed acc (Serving.Carbohydrate serving)
                 | [] => acc
                 end) foods F64.zero.
Proof.
  unfold calculateMealMacros.
  change F64.zero with
    (MacroTarget.Carbs (MacroTarget.mk F64.zero F64.zero F64.zero F64.zero)) at 5.
  generalize (MacroTarget.mk F64.zero F64.zero F64.zero F64.zero).
  induction foods as [|food foods IH]; intros t0; [done|].
  cbn [fold_left]. rewrite IH. by destruct (Food.Servings food).
Qed.

(** The aggregated fat, carbohydrate and starch of at most a hundred
    foods are within a ten-thousandth of the exact sums. *)
Lemma fat_total foods :
  Forall (λ food, within (1 # 1000000000) 10000000 (fatOf food)) foods →
  (length foods ≤ 100)%nat →
  let sum := MacroTarget.Fats (calculateMealMacros foods) in
  runningSum sum ∧
  Qabs (F64.to_Q sum - fieldSum fatOf foods) <= 1 # 10000 ∧
  0 <= fieldSum fatOf foods ∧ fieldSum fatOf foods <= 1000000000.
Proof.
  intros Hall Hlen. rewrite Fats_calculateMealMacros.
  apply sum_value; [|done..]. intros acc food Hacc. unfold fatOf.
  destruct (Food.Servings food); [by rewrite running_add_zero|by apply addParsed_add].
Qed.

Lemma carb_total foods :
  Forall (λ food, within (1 # 1000000000) 10000000 (carbsOf food)) foods →
  (length foods ≤ 100)%nat →
  let sum := MacroTarget.Carbs (calculateMealMacros foods) in
  runningSum sum ∧
  Qabs (F64.to_Q sum - fieldSum carbsOf foods) <= 1 # 10000 ∧
  0 <= fieldSum carbsOf foods ∧ fieldSum carbsOf foods <= 1000000000.
Proof.
  intros Hall Hlen. rewrite Carbs_calculateMealMacros.
  apply sum_value; [|done..]. intros acc food Hacc. unfold carbsOf.
  destruct (Food.Servings food); [by rewrite running_add_zero|by apply addParsed_add].
Qed.

Lemma starchOf_within food :
  within (1 # 1000000000) 10000000 (carbsOf food) →
  within (1 # 1000000000) 10000000 (starchOf food).
Proof. intros Hc. unfold starchOf. destruct (isStarchyCarb _); [done|by left]. Qed.

Lemma starch_total foods :
  Forall (λ food, within (1 # 1000000000) 10000000 (carbsOf food)) foods →
  (length foods ≤ 100)%nat →
  let sum := starchCarbs foods in
  runningSum sum ∧
  Qabs (F64.to_Q sum - fieldSum starchOf foods) <= 1 # 10000 ∧
  0 <= fieldSum starchOf foods ∧ fieldSum starchOf foods <= 1000000000.
Proof.
  intros Hall Hlen. unfold starchCarbs.
  apply sum_value; [| |done].
  - intros acc food Hacc. unfold starchOf, carbsOf.
    destruct (isStarchyCarb _); [|by rewrite running_add_zero].
    destruct (Food.Servings food); [by rewrite running_add_zero|done].
  - eapply Forall_impl; [exact Hall|]. intros food. apply starchOf_within.
Qed.

Lemma fieldSum_insert value foods i food food' :
  foods !! i = Some food →
  fieldSum value (<[i := food']> foods)
  == fieldSum value foods - F64.to_Q (value food) + F64.to_Q (value food').
Proof.
  revert i. induction foods as [|first foods IH]; intros [|i] Hi; try done.
  - injection Hi as ->. cbn [fieldSum foldr]. cbn. ring.
  - cbn [fieldSum foldr] in *. cbn. fold (fieldSum value (<[i := food']> foods)).
    rewrite (IH i Hi). unfold fieldSum. ring.
Qed.

(** *** One field through a scaling *)

Lemma constants_normal :
  F64.normal F64.one ∧ F64.negative F64.one = false ∧ F64.magnitude F64.one == 1 ∧
  F64.normal (F64.of_Q (95 # 100)) ∧ F64.negative (F64.of_Q (95 # 100)) = false ∧
  F64.normal (F64.of_Q (105 # 100)) ∧ F64.negative (F64.of_Q (105 # 100)) = false ∧
  F64.normal (F64.of_Q (6 # 10)) ∧ F64.negative (F64.of_Q (6 # 10)) = false ∧
  F64.normal (F64.of_Q (8 # 10)) ∧ F64.negative (F64.of_Q (8 # 10)) = false ∧
  F64.normal (F64.of_Q (35 # 100)) ∧ F64.negative (F64.of_Q (35 # 100)) = false.
Proof. vm_compute. repeat split; try done; discriminate. Qed.

Lemma positive_normal lo hi x :
  within lo hi x → F64.gtb x F64.zero = true →
  F64.normal x ∧ F64.negative x = false ∧ lo <= F64.magnitude x ∧ F64.magnitude x <= hi.
Proof.
  intros [Hz | H] Hpos; [|done]. by destruct x.
Qed.

(** A field of at most ten million, multiplied by a factor between a half
    and two, printed and read: the number read is the product, within a
    little more than half a thousandth. *)
Lemma scaled_field a factor :
  within (1 # 1000000000) 10000000 a →
  F64.normal factor → F64.negative factor = false →
  (1 # 2) <= F64.magnitude factor → F64.magnitude factor <= 2 →
  let a' := parseFloatDefault (Sprintf3 (F64.mul a factor)) in
  (F64.is_zero a' ∨
   (F64.normal a' ∧ F64.negative a' = false ∧ (1 # 1000000000) <= F64.magnitude a')) ∧
  Qabs (F64.magnitude a' - F64.magnitude a * F64.magnitude factor) <= 5001 # 10000000.
Proof.
  intros Ha Hf Hsf Hlo Hhi a'.
  assert (F64.is_zero a ∨ F64.normal a) as Ha' by (destruct Ha as [|(? & _)]; auto).
  assert (0 <= F64.magnitude a ∧ F64.magnitude a <= 10000000) as [HA0 HA7].
  { destruct Ha as [Hz | (Hn & _ & Hl & Hh)]; [by destruct a|lra]. }
  assert (-53 ≤ F64.exponent factor ≤ -51)%Z as Hef.
  { apply (exponent_bounds factor (-1) 1 Hf); [pow2_num (-1)%Z|pow2_num 1%Z]; lra. }
  destruct (mul_settled a factor Ha' Hf) as (Hp & Hsp & Hpl & Hph).
  { intros Hn. destruct Ha as [Hz|(_ & _ & Hl & Hh)]; [by destruct a|].
    assert (-82 ≤ F64.exponent a ≤ -28)%Z.
    { apply (exponent_bounds a (-30) 24 Hn); [pow2_num (-30)%Z|pow2_num 24%Z]; lra. }
    lia. }
  set (p := F64.mul a factor) in *.
  assert (0 <= F64.magnitude a * F64.magnitude factor) as HP0
    by (apply Qmult_le_0_compat; lra).
  assert (F64.magnitude a * F64.magnitude factor <= 10000000 * 2) as HP7
    by (apply Qmult_le_both; lra).
  destruct (printed_value p Hp) as (N & HN & Hnl & Hnh & Hr & Hsr & Hrl & Hrh).
  { pow2_num 52%Z. u_num. lra. }
  fold a' in Hr, Hsr, Hrl, Hrh.
  pose proof HN as HNq. rewrite Zle_Qle in HNq. change (inject_Z 0) with 0 in HNq.
  assert (F64.normal a' → F64.normal a ∧ 1 <= inject_Z N) as Hnormal.
  { intros Hn. pose proof (magnitude_pos a' Hn) as Hpos.
    assert (1 <= inject_Z N) as HN1.
    { destruct (Z.eq_dec N 0%Z) as [->|Hne].
      - exfalso. u_num. unfold Qdiv in *. change (inject_Z 0) with 0 in Hrh. lra.
      - assert (1 ≤ N)%Z as Hge by lia. by rewrite Zle_Qle in Hge. }
    split; [|done]. destruct Ha' as [Hz|]; [|done]. exfalso.
    assert (F64.magnitude a == 0) as Hz0 by (by destruct a).
    rewrite Hz0 in Hph. u_num. lra. }
  split.
  - destruct Hr as [Hz|Hn]; [by left|right].
    destruct (Hnormal Hn) as [Han HN1]. split; [done|]. split.
    + rewrite Hsr, Hsp, Hsf, xorb_false_r.
      destruct Ha as [Hz|(_ & Hs & _)]; [by destruct a|done].
    + u_num. unfold Qdiv in *. change (/ 1000) with (1 # 1000) in *. lra.
  - set (P := F64.magnitude a * F64.magnitude factor) in *. clearbody P.
    u_num. unfold Qdiv in *. change (/ 1000) with (1 # 1000) in *.
    apply Qabs_Qle_condition. split; lra.
Qed.
Lemma mult_le_l (c a b : Q) : 0 <= c → a <= b → c * a <= c * b.
Proof.
  intros Hc Hab. rewrite (Qmult_comm c a), (Qmult_comm c b).
  by apply Qmult_le_compat_r.
Qed.

Lemma constants_values :
  F64.magnitude (F64.of_Q (95 # 100)) <= 95000001 # 100000000 ∧
  (94999999 # 100000000) <= F64.magnitude (F64.of_Q (95 # 100)) ∧
  F64.magnitude (F64.of_Q (105 # 100)) <= 105000001 # 100000000 ∧
  (104999999 # 100000000) <= F64.magnitude (F64.of_Q (105 # 100)) ∧
  F64.magnitude (F64.of_Q (6 # 10)) <= 60000001 # 100000000 ∧
  F64.magnitude (F64.of_Q (8 # 10)) <= 80000001 # 100000000 ∧
  (79999999 # 100000000) <= F64.magnitude (F64.of_Q (8 # 10)) ∧
  F64.magnitude (F64.of_Q (35 # 100)) <= 35000001 # 100000000 ∧
  F64.exponent (F64.of_Q (8 # 10)) = (-53)%Z ∧
  F64.exponent (F64.of_Q (95 # 100)) = (-53)%Z ∧
  F64.exponent (F64.of_Q (105 # 100)) = (-52)%Z ∧
  F64.exponent (F64.of_Q (35 # 100)) = (-54)%Z ∧
  F64.exponent F64.one = (-52)%Z.
Proof. vm_compute. repeat split; done. Qed.

(** The quotient of two normal numbers of moderate size. *)
Lemma normal_quotient n f :
  F64.normal n → F64.normal f →
  F64.pow2 (-200) <= F64.magnitude n → F64.magnitude n <= F64.pow2 100 →
  F64.pow2 (-200) <= F64.magnitude f → F64.magnitude f <= F64.pow2 100 →
  let q := F64.div n f in
  F64.normal q ∧ F64.negative q = xorb (F64.negative n) (F64.negative f) ∧
  F64.magnitude n * (1 - F64.u) <= F64.magnitude q * F64.magnitude f ∧
  F64.magnitude q * F64.magnitude f <= F64.magnitude n * (1 + F64.u) ∧
  (-354 ≤ F64.exponent q ≤ 250)%Z.
Proof.
  intros Hn Hf Hnl Hnh Hfl Hfh q.
  pose proof (exponent_bounds n (-200) 100 Hn Hnl Hnh) as Hen.
  pose proof (exponent_bounds f (-200) 100 Hf Hfl Hfh) as Hef.
  pose proof (magnitude_pos f Hf) as Hfpos.
  destruct n as [| | |sn mn en]; try done. destruct f as [| | |sf mf ef]; try done.
  destruct Hn as [Hdn Hrn]. destruct Hf as [Hdf Hrf].
  cbn [F64.exponent] in Hen, Hef.
  destruct (div_value sn mn en sf mf ef) as (Hq & Hs & Hl & Hh).
  { rewrite Hdn, Hdf. lia. }
  { rewrite Hdn, Hdf. lia. }
  fold (F64.div (S754_finite sn mn en) (S754_finite sf mf ef)) in Hq, Hs, Hl, Hh.
  fold q in Hq, Hs, Hl, Hh.
  change (inject_Z (Z.pos mn) * F64.pow2 en) with (F64.magnitude (S754_finite sn mn en)) in *.
  change (inject_Z (Z.pos mf) * F64.pow2 ef) with (F64.magnitude (S754_finite sf mf ef)) in *.
  set (N := F64.magnitude (S754_finite sn mn en)) in *.
  set (F := F64.magnitude (S754_finite sf mf ef)) in *.
  assert (N / F * F == N) as Hdiv by (field; lra).
  assert (N * (1 - F64.u) <= F64.magnitude q * F) as H1.
  { apply (scaled_le (N / F * (1 - F64.u)) (F64.magnitude q) F);
      [rewrite <- Hdiv at 1; ring|reflexivity|done|lra]. }
  assert (F64.magnitude q * F <= N * (1 + F64.u)) as H2.
  { apply (scaled_le (F64.magnitude q) (N / F * (1 + F64.u)) F);
      [reflexivity|rewrite <- Hdiv at 1; ring|done|lra]. }
  split; [done|]. split; [done|]. split; [done|]. split; [done|].
  pose proof (magnitude_pos q Hq) as Hqpos.
  assert (F64.magnitude q * F <= F64.magnitude q * F64.pow2 100) as H3
    by (apply mult_le_l; lra).
  assert (F64.magnitude q * F64.pow2 (-200) <= F64.magnitude q * F) as H4
    by (apply mult_le_l; lra).
  apply (exponent_bounds q (-302) 302 Hq).
  - assert (F64.pow2 (-302) * F64.pow2 100 <= F64.magnitude q * F64.pow2 100) as H5.
    { eapply Qle_trans; [|exact H3]. eapply Qle_trans; [|exact H1].
      pow2_num (-302)%Z. pow2_num 100%Z. pow2_num (-200)%Z. u_num. lra. }
    pow2_num 100%Z. lra.
  - assert (F64.magnitude q * F64.pow2 (-200) <= F64.pow2 302 * F64.pow2 (-200)) as H5.
    { eapply Qle_trans; [exact H4|]. eapply Qle_trans; [exact H2|].
      pow2_num 302%Z. pow2_num 100%Z. pow2_num (-200)%Z. u_num. lra. }
    pow2_num (-200)%Z. lra.
Qed.

(** *** The factor of the fat correction *)

Lemma fat_factor_value T F f :
  within (1 # 1000000000) 10000000 T →
  runningSum F → F64.magnitude F <= 1000000001 →
  F64.normal f → F64.negative f = false →
  (1 # 1000000000) <= F64.magnitude f → F64.magnitude f <= 10000000 →
  let floor := F64.mul T (F64.of_Q (95 # 100)) in
  F64.ltb F floor = true →
  let factor :=
    F64.add F64.one
      (minFloat (F64.of_Q (6 # 10))
         (F64.mul (F64.div (F64.sub floor F) f) (F64.of_Q (8 # 10)))) in
  F64.normal factor ∧ F64.negative factor = false ∧
  1 - F64.u <= F64.magnitude factor ∧ F64.magnitude factor <= 161 # 100 ∧
  F64.magnitude F < F64.magnitude floor ∧ F64.magnitude floor <= F64.magnitude T ∧
  F64.magnitude f * F64.magnitude factor
    <= F64.magnitude f + (81 # 100) * (F64.magnitude floor - F64.magnitude F)
       + (1 # 100000000).
Proof.
  intros HT HF HFmax Hf Hsf Hfl Hfh floor Hlt factor.
  destruct constants_normal
    as (H1n & H1s & H1v & H95n & H95s & _ & _ & H6n & H6s & H8n & H8s & _).
  destruct constants_values as (H95h & H95l & _ & _ & H6h & H8h & H8l & _ & H8e & H95e & _).
  subst floor factor.
  set (k95 := F64.of_Q (95 # 100)) in *. set (k6 := F64.of_Q (6 # 10)) in *.
  set (k8 := F64.of_Q (8 # 10)) in *. set (one := F64.one) in *.
  clearbody k95 k6 k8 one.
  set (floor := F64.mul T k95) in *.
  set (factor := F64.add one (minFloat k6 (F64.mul (F64.div (F64.sub floor F) f) k8))).
  (* the floor *)
  assert (F64.is_zero T ∨ F64.normal T) as HT' by (destruct HT as [|(? & _)]; auto).
  destruct (mul_settled T k95 HT' H95n) as (Hfloor & Hsfloor & HLl & HLh).
  { intros Hn. destruct HT as [Hz|(_ & _ & Hl & Hh)]; [by destruct T|].
    assert (-82 ≤ F64.exponent T ≤ -28)%Z.
    { apply (exponent_bounds T (-30) 24 Hn); [pow2_num (-30)%Z|pow2_num 24%Z]; lra. }
    rewrite H95e. lia. }
  fold floor in Hfloor, Hsfloor, HLl, HLh.
  assert (0 <= F64.magnitude T ∧ F64.magnitude T <= 10000000) as [HT0 HT7].
  { destruct HT as [Hz | (Hn & _ & Hl & Hh)]; [by destruct T|lra]. }
  assert (F64.negative floor = false ∨ F64.is_zero floor) as Hsfloor'.
  { destruct HT as [Hz | (_ & Hs & _)].
    - right. destruct Hfloor as [Hz'|Hn]; [done|]. exfalso.
      pose proof (magnitude_pos floor Hn) as Hpos.
      assert (F64.magnitude T == 0) as Hz0 by (by destruct T).
      rewrite Hz0 in HLh. lra.
    - left. by rewrite Hsfloor, Hs, H95s. }
  assert (nonnegative floor) as Hfloornn.
  { destruct Hfloor as [Hz|Hn]; [by left|].
    destruct Hsfloor' as [Hs|Hz]; [by right|by left]. }
  pose proof (runningSum_nonnegative F HF) as HFnn.
  apply (ltb_value F floor HFnn Hfloornn) in Hlt.
  destruct (nonnegative_value F HFnn) as [HFq HF0].
  destruct (nonnegative_value floor Hfloornn) as [HLq HL0].
  rewrite HFq, HLq in Hlt.
  set (L := F64.magnitude floor) in *. set (Fv := F64.magnitude F) in *.
  set (Tv := F64.magnitude T) in *.
  set (c95 := F64.magnitude k95) in *.
  assert (F64.normal floor ∧ F64.negative floor = false) as [HLn HLs].
  { destruct Hfloornn as [Hz|[? ?]]; [|done]. exfalso.
    assert (L == 0) by (unfold L; by destruct floor). lra. }
  assert (Tv * c95 <= Tv * (95000001 # 100000000)) as HTc by (apply mult_le_l; lra).
  assert (Tv * (94999999 # 100000000) <= Tv * c95) as HTc' by (apply mult_le_l; lra).
  assert (F64.normal T ∧ (1 # 1000000000) <= Tv) as [HTn HTlo].
  { destruct HT as [Hz | (Hn & _ & Hl & _)]; [|done]. exfalso.
    assert (Tv == 0) as Hz0 by (unfold Tv; by destruct T).
    rewrite Hz0 in HLh. u_num. lra. }
  assert (L <= Tv) as HLT by (u_num; lra).
  assert ((9 # 10000000000) <= L) as HLlo by (u_num; lra).
  (* the fat that is missing *)
  set (needed := F64.sub floor F).
  assert (F64.normal needed ∧ F64.negative needed = false ∧
          F64.magnitude needed <= (L - Fv) * (1 + F64.u) ∧
          F64.pow2 (-84) <= F64.magnitude needed) as (HNn & HNs & HNh & HNl).
  { destruct HF as [-> | (HFn & HFs & HFl)].
    - assert (needed = floor) as -> by (unfold needed; by destruct floor).
      change Fv with 0. fold L. split; [done|]. split; [done|].
      pow2_num (-84)%Z. u_num. split; lra.
    - assert (-83 ≤ F64.exponent floor)%Z.
      { apply (exponent_bounds floor (-31) 24 HLn); fold L;
          [pow2_num (-31)%Z|pow2_num 24%Z]; lra. }
      assert (-83 ≤ F64.exponent F)%Z.
      { apply (exponent_bounds F (-31) 31 HFn); fold Fv; [done|pow2_num 31%Z; lra]. }
      destruct (sub_value floor F (-83) HLn HFn HLs HFs) as (Hn & Hs & Hl & Hh & Hbig);
        try done; try lia.
      { fold L. pow2_num 1000%Z. lra. }
      fold needed L Fv in Hn, Hs, Hl, Hh, Hbig.
      split; [done|]. split; [done|]. split; [done|].
      pow2_num (-84)%Z. pow2_num (-83)%Z. u_num. lra. }
  set (Nv := F64.magnitude needed) in *.
  (* the quotient and its four fifths *)
  destruct (normal_quotient needed f HNn Hf) as (Hqn & Hqs & Hql & Hqh & Hqe).
  { fold Nv. pow2_num (-200)%Z. pow2_num (-84)%Z. lra. }
  { fold Nv. pow2_num 100%Z. u_num. lra. }
  { pow2_num (-200)%Z. lra. }
  { pow2_num 100%Z. lra. }
  set (q := F64.div needed f) in *. fold Nv in Hql, Hqh.
  rewrite HNs, Hsf in Hqs. cbn [xorb] in Hqs.
  destruct (mul_value q k8 Hqn H8n) as (Hxn & Hxs & Hxl & Hxh).
  { rewrite H8e. lia. }
  change (SFmul 53 1024 q k8) with (F64.mul q k8) in Hxn, Hxs, Hxl, Hxh.
  set (x := F64.mul q k8) in *.
  rewrite Hqs, H8s in Hxs. cbn [xorb] in Hxs.
  (* the lesser of it and 0.6 *)
  set (m := minFloat k6 x) in *.
  assert (F64.normal m ∧ F64.negative m = false ∧
          F64.magnitude m <= F64.magnitude k6 ∧
          F64.magnitude m <= F64.magnitude x) as (Hmn & Hms & Hm6 & Hmx).
  { unfold m, minFloat.
    pose proof (ltb_value k6 x ltac:(by right) ltac:(by right)) as Hcmp.
    unfold F64.to_Q in Hcmp. rewrite H6s, Hxs in Hcmp.
    destruct (F64.ltb k6 x).
    - assert (F64.magnitude k6 < F64.magnitude x) by (by apply Hcmp).
      split; [done|]. split; [done|]. split; lra.
    - assert (¬ F64.magnitude k6 < F64.magnitude x) as Hnot
        by (intros Hv; apply Hcmp in Hv; discriminate).
      split; [done|]. split; [done|]. split; lra. }
  pose proof (magnitude_pos m Hmn) as Hmpos.
  destruct (add_value one m H1n Hmn H1s Hms) as (Hfn & Hfs & Hfl' & Hfh').
  { rewrite H1v. pow2_num 1000%Z. lra. }
  change (F64.add one m) with factor in Hfn, Hfs, Hfl', Hfh'. rewrite H1v in Hfl', Hfh'.
  set (fv := F64.magnitude f) in *. set (mv := F64.magnitude m) in *.
  set (xv := F64.magnitude x) in *. set (qv := F64.magnitude q) in *.
  set (c8 := F64.magnitude k8) in *.
  set (φ := F64.magnitude factor) in *.
  split; [done|]. split; [done|].
  split; [u_num; lra|]. split; [u_num; lra|]. split; [done|]. split; [done|].
  (* the products with the fat of the food *)
  assert (fv * φ <= fv * ((1 + mv) * (1 + F64.u))) as Hp1 by (apply mult_le_l; lra).
  assert (fv * mv <= fv * xv) as Hp2 by (apply mult_le_l; lra).
  assert (fv * xv <= fv * (qv * c8 * (1 + F64.u))) as Hp3 by (apply mult_le_l; lra).
  assert (qv * fv * c8 <= Nv * (1 + F64.u) * c8) as Hp4.
  { apply Qmult_le_compat_r; [done|]. lra. }
  assert (Nv * (1 + F64.u) * c8 <= Nv * (1 + F64.u) * (80000001 # 100000000)) as Hp5.
  { apply mult_le_l; [|done]. u_num. pose proof (pow2_pos (-84)). lra. }
  assert (fv * (qv * c8 * (1 + F64.u)) == qv * fv * c8 * (1 + F64.u)) as Hr3 by ring.
  assert (fv * ((1 + mv) * (1 + F64.u)) == (fv + fv * mv) * (1 + F64.u)) as Hr1 by ring.
  rewrite Hr3 in Hp3. rewrite Hr1 in Hp1.
  set (fm := fv * mv) in *. set (fx := fv * xv) in *. set (qf := qv * fv * c8) in *.
  set (fφ := fv * φ) in *.
  clearbody fm fx qf fφ. u_num. lra.
Qed.

(** *** The factor of the carbohydrate correction *)

Lemma carb_factor_value T C S :
  within (1 # 1000000000) 10000000 T →
  runningSum C → F64.magnitude C <= 1000000001 →
  runningSum S → F64.magnitude S <= 1000000001 → F64.gtb S F64.zero = true →
  let ceiling := F64.mul T (F64.of_Q (105 # 100)) in
  F64.gtb C ceiling = true →
  let factor :=
    F64.sub F64.one
      (minFloat (F64.of_Q (35 # 100)) (F64.div (F64.sub C ceiling) S)) in
  F64.normal factor ∧ F64.negative factor = false ∧
  (64 # 100) <= F64.magnitude factor ∧ F64.magnitude factor <= 1 + F64.u ∧
  F64.magnitude ceiling < F64.magnitude C ∧ F64.magnitude T <= F64.magnitude ceiling ∧
  ∃ mv : Q,
    0 <= mv ∧ mv <= 36 # 100 ∧ (1 - mv) * (1 - F64.u) <= F64.magnitude factor ∧
    mv * F64.magnitude S
      <= (F64.magnitude C - F64.magnitude ceiling) * (1 + 3 * F64.u).
Proof.
  intros HT HC HCmax HS HSmax HSpos ceiling Hgt factor.
  destruct constants_normal
    as (H1n & H1s & H1v & _ & _ & H105n & H105s & _ & _ & _ & _ & H35n & H35s).
  destruct constants_values
    as (_ & _ & H105h & H105l & _ & _ & _ & H35h & _ & _ & H105e & H35e & H1e).
  subst ceiling factor.
  set (k105 := F64.of_Q (105 # 100)) in *. set (k35 := F64.of_Q (35 # 100)) in *.
  set (one := F64.one) in *. clearbody k105 k35 one.
  set (ceiling := F64.mul T k105) in *.
  set (factor := F64.sub one (minFloat k35 (F64.div (F64.sub C ceiling) S))).
  (* the ceiling *)
  assert (F64.is_zero T ∨ F64.normal T) as HT' by (destruct HT as [|(? & _)]; auto).
  destruct (mul_settled T k105 HT' H105n) as (Hceil & Hsceil & HUl & HUh).
  { intros Hn. destruct HT as [Hz|(_ & _ & Hl & Hh)]; [by destruct T|].
    assert (-82 ≤ F64.exponent T ≤ -28)%Z.
    { apply (exponent_bounds T (-30) 24 Hn); [pow2_num (-30)%Z|pow2_num 24%Z]; lra. }
    rewrite H105e. lia. }
  fold ceiling in Hceil, Hsceil, HUl, HUh.
  assert (0 <= F64.magnitude T ∧ F64.magnitude T <= 10000000) as [HT0 HT7].
  { destruct HT as [Hz | (Hn & _ & Hl & Hh)]; [by destruct T|lra]. }
  assert (nonnegative ceiling) as Hceilnn.
  { destruct Hceil as [Hz|Hn]; [by left|]. right. split; [done|].
    destruct HT as [Hz | (_ & Hs & _)]; [|by rewrite Hsceil, Hs, H105s]. exfalso.
    pose proof (magnitude_pos ceiling Hn) as Hpos.
    assert (F64.magnitude T == 0) as Hz0 by (by destruct T).
    rewrite Hz0 in HUh. lra. }
  pose proof (runningSum_nonnegative C HC) as HCnn.
  unfold F64.gtb in Hgt. fold (F64.ltb ceiling C) in Hgt.
  apply (ltb_value ceiling C Hceilnn HCnn) in Hgt.
  destruct (nonnegative_value C HCnn) as [HCq HC0].
  destruct (nonnegative_value ceiling Hceilnn) as [HUq HU0].
  rewrite HCq, HUq in Hgt.
  set (Uv := F64.magnitude ceiling) in *. set (Cv := F64.magnitude C) in *.
  set (Tv := F64.magnitude T) in *. set (c105 := F64.magnitude k105) in *.
  assert (Tv * (104999999 # 100000000) <= Tv * c105) as HTc by (apply mult_le_l; lra).
  assert (Tv * c105 <= Tv * (105000001 # 100000000)) as HTc' by (apply mult_le_l; lra).
  assert (Tv <= Uv) as HTU by (u_num; lra).
  destruct HC as [-> | (HCn & HCs & HCl)].
  { exfalso. change Cv with 0 in Hgt. lra. }
  fold Cv in HCl.
  (* the excess *)
  set (excess := F64.sub C ceiling).
  assert (F64.normal excess ∧ F64.negative excess = false ∧
          F64.magnitude excess <= (Cv - Uv) * (1 + F64.u) ∧
          F64.pow2 (-84) <= F64.magnitude excess) as (HXn & HXs & HXh & HXl).
  { destruct Hceil as [Hz | Hn].
    - assert (excess = C) as ->.
      { unfold excess. destruct ceiling; try done. by destruct C. }
      assert (Uv == 0) as HU00 by (unfold Uv; by destruct ceiling).
      fold Cv. split; [done|]. split; [done|].
      pow2_num (-84)%Z. pow2_num (-31)%Z. u_num. split; lra.
    - assert (F64.negative ceiling = false) as HUs.
      { destruct Hceilnn as [Hz|[_ ?]]; [by destruct ceiling|done]. }
      assert ((1 # 1000000000) <= Tv) as HTlo.
      { destruct HT as [Hz | (_ & _ & Hl & _)]; [|done]. exfalso.
        pose proof (magnitude_pos ceiling Hn) as Hpos. fold Uv in Hpos.
        assert (Tv == 0) as Hz0 by (unfold Tv; by destruct T).
        rewrite Hz0 in HUh. lra. }
      assert (-83 ≤ F64.exponent ceiling)%Z.
      { apply (exponent_bounds ceiling (-31) 31 Hn); fold Uv;
          [pow2_num (-31)%Z|pow2_num 31%Z]; lra. }
      assert (-83 ≤ F64.exponent C)%Z.
      { apply (exponent_bounds C (-31) 31 HCn); fold Cv; [done|pow2_num 31%Z; lra]. }
      destruct (sub_value C ceiling (-83) HCn Hn HCs HUs) as (Hn' & Hs & Hl & Hh & Hbig);
        try done; try lia.
      { fold Cv. pow2_num 1000%Z. lra. }
      fold excess Cv Uv in Hn', Hs, Hl, Hh, Hbig.
      split; [done|]. split; [done|]. split; [done|].
      pow2_num (-84)%Z. pow2_num (-83)%Z. u_num. lra. }
  set (Xv := F64.magnitude excess) in *.
  (* the starch *)
  destruct HS as [-> | (HSn & HSs & HSl)]; [done|].
  set (Sv := F64.magnitude S) in *.
  destruct (normal_quotient excess S HXn HSn) as (Hqn & Hqs & Hql & Hqh & Hqe).
  { fold Xv. pow2_num (-200)%Z. pow2_num (-84)%Z. lra. }
  { fold Xv. pow2_num 100%Z. u_num. lra. }
  { fold Sv. pow2_num (-200)%Z. pow2_num (-31)%Z. lra. }
  { fold Sv. pow2_num 100%Z. lra. }
  set (q := F64.div excess S) in *. fold Xv Sv in Hql, Hqh.
  rewrite HXs, HSs in Hqs. cbn [xorb] in Hqs.
  (* the lesser of the quotient and 0.35 *)
  set (m := minFloat k35 q) in *.
  assert (F64.normal m ∧ F64.negative m = false ∧
          F64.magnitude m <= F64.magnitude k35 ∧
          F64.magnitude m <= F64.magnitude q ∧
          (-354 ≤ F64.exponent m)%Z) as (Hmn & Hms & Hm35 & Hmq & Hme).
  { unfold m, minFloat.
    pose proof (ltb_value k35 q ltac:(by right) ltac:(by right)) as Hcmp.
    unfold F64.to_Q in Hcmp. rewrite H35s, Hqs in Hcmp.
    destruct (F64.ltb k35 q).
    - assert (F64.magnitude k35 < F64.magnitude q) by (by apply Hcmp).
      split; [done|]. split; [done|]. split; [lra|]. split; [lra|]. lia.
    - assert (¬ F64.magnitude k35 < F64.magnitude q) as Hnot
        by (intros Hv; apply Hcmp in Hv; discriminate).
      split; [done|]. split; [done|]. split; [lra|]. split; [lra|]. lia. }
  pose proof (magnitude_pos m Hmn) as Hmpos.
  destruct (sub_value one m (-354) H1n Hmn H1s Hms) as (Hfn & Hfs & Hfl & Hfh & _);
    try lia.
  { rewrite H1v. lra. }
  { rewrite H1v. pow2_num 1000%Z. lra. }
  change (F64.sub one m) with factor in Hfn, Hfs, Hfl, Hfh. rewrite H1v in Hfl, Hfh.
  set (mv := F64.magnitude m) in *. set (qv := F64.magnitude q) in *.
  set (φ := F64.magnitude factor) in *.
  split; [done|]. split; [done|].
  split; [u_num; lra|]. split; [u_num; lra|]. split; [done|]. split; [done|].
  exists mv. split; [lra|]. split; [lra|]. split; [done|].
  assert (mv * Sv <= qv * Sv) as Hp1.
  { apply Qmult_le_compat_r; [done|]. pose proof (pow2_pos (-31)). lra. }
  set (mS := mv * Sv) in *. set (qS := qv * Sv) in *. clearbody mS qS.
  u_num. lra.
Qed.

(** *** The fields of a scaled food *)

Lemma scaled_food_fields food serving rest factor :
  Food.Servings food = serving :: rest →
  F64.normal factor → F64.negative factor = false →
  let food' := Food.set_Servings (scaleServing serving factor :: rest) food in
  fatOf food' = parseFloatDefault (Sprintf3 (F64.mul (fatOf food) factor)) ∧
  carbsOf food' = parseFloatDefault (Sprintf3 (F64.mul (carbsOf food) factor)).
Proof.
  intros Hs Hn Hpos food'. unfold fatOf, carbsOf. rewrite Hs. subst food'.
  cbn [Food.set_Servings Food.Servings].
  unfold scaleServing. rewrite (leb_zero_normal factor Hn Hpos).
  by destruct serving.
Qed.

(** A field of size at most [bound ≤ 6000000], scaled by a factor between 0.64
    and 1.61: what is read after it is of size at most [1.61 × bound + 1],
    and at least the field less a little more than half a thousandth when
    the factor is at least [1 - u]. *)
Lemma scaled_field_sized bound a factor :
  0 <= bound → bound <= 6000000 →
  within (1 # 1000000000) bound a →
  F64.normal factor → F64.negative factor = false →
  (64 # 100) <= F64.magnitude factor → F64.magnitude factor <= 161 # 100 →
  let a' := parseFloatDefault (Sprintf3 (F64.mul a factor)) in
  within (1 # 1000000000) ((161 # 100) * bound + 1) a' ∧
  F64.to_Q a == F64.magnitude a ∧ F64.to_Q a' == F64.magnitude a' ∧
  0 <= F64.magnitude a ∧ F64.magnitude a <= bound ∧
  Qabs (F64.magnitude a' - F64.magnitude a * F64.magnitude factor) <= 5001 # 10000000.
Proof.
  intros HB0 HB Ha Hf Hsf Hlo Hhi a'.
  assert (within (1 # 1000000000) 10000000 a) as Ha7
    by (eapply within_weaken; [| |exact Ha]; lra).
  destruct (scaled_field a factor Ha7 Hf Hsf) as [Hshape Herr]; [lra..|].
  fold a' in Hshape, Herr.
  destruct (nonnegative_value a (within_nonnegative _ _ _ Ha)) as [Haq Ha0].
  assert (F64.magnitude a <= bound) as HaB.
  { destruct Ha as [Hz | (_ & _ & _ & Hh)]; [|done]. by destruct a. }
  assert (F64.magnitude a * F64.magnitude factor <= bound * (161 # 100)) as Hprod
    by (apply Qmult_le_both; lra).
  pose proof Herr as Herr'. apply Qabs_Qle_condition in Herr' as [He1 He2].
  assert (within (1 # 1000000000) ((161 # 100) * bound + 1) a') as Ha'.
  { destruct Hshape as [Hz | (Hn & Hs & Hl)]; [by left|right].
    split; [done|]. split; [done|]. split; lra. }
  split; [done|]. split; [done|].
  split; [apply (nonnegative_value a' (within_nonnegative _ _ _ Ha'))|].
  done.
Qed.

(** *** The fat correction *)

Lemma sizedMeal_weaken bound bound' target foods :
  bound <= bound' → sizedMeal bound target foods → sizedMeal bound' target foods.
Proof.
  intros Hb (HTf & HTc & Hlen & Hall). repeat split; try done.
  eapply Forall_impl; [exact Hall|]. intros food [Hf Hc].
  split; (eapply within_weaken; [| |eassumption]; lra).
Qed.

Lemma sized_fats bound target foods :
  bound <= 10000000 → sizedMeal bound target foods →
  Forall (λ food, within (1 # 1000000000) 10000000 (fatOf food)) foods.
Proof.
  intros Hb (_ & _ & _ & Hall). eapply Forall_impl; [exact Hall|].
  intros food [Hf _]. eapply within_weaken; [| |exact Hf]; lra.
Qed.

Lemma sized_carbs bound target foods :
  bound <= 10000000 → sizedMeal bound target foods →
  Forall (λ food, within (1 # 1000000000) 10000000 (carbsOf food)) foods.
Proof.
  intros Hb (_ & _ & _ & Hall). eapply Forall_impl; [exact Hall|].
  intros food [_ Hc]. eapply within_weaken; [| |exact Hc]; lra.
Qed.

Lemma running_magnitude sum Σ :
  runningSum sum → Qabs (F64.to_Q sum - Σ) <= 1 # 10000 → Σ <= 1000000000 →
  F64.to_Q sum == F64.magnitude sum ∧ F64.magnitude sum <= 1000000001.
Proof.
  intros Hsum Herr HΣ.
  destruct (nonnegative_value sum (runningSum_nonnegative _ Hsum)) as [Hq _].
  split; [done|]. apply Qabs_Qle_condition in Herr as [_ He]. lra.
Qed.

(** The arithmetic of the fat correction. *)
Lemma fat_step_arithmetic (Fv F'v Σ0 Σ1 f f' fφ L Tv : Q) :
  Qabs (Fv - Σ0) <= 1 # 10000 → Qabs (F'v - Σ1) <= 1 # 10000 →
  Σ1 == Σ0 - f + f' →
  Qabs (f' - fφ) <= 5001 # 10000000 →
  fφ <= f + (81 # 100) * (L - Fv) + (1 # 100000000) →
  f * (1 - F64.u) <= fφ → 0 <= f → f <= 5000000 →
  Fv < L → L <= Tv →
  Qabs (F'v - Tv) <= Qabs (Fv - Tv) + (1 # 1000).
Proof.
  intros H0 H1 HΣ Hf' Hup Hlow Hf0 Hf5 HFL HLT.
  apply Qabs_Qle_condition in H0 as [H0a H0b].
  apply Qabs_Qle_condition in H1 as [H1a H1b].
  apply Qabs_Qle_condition in Hf' as [Hfa Hfb].
  assert (Qabs (Fv - Tv) == Tv - Fv) as ->.
  { rewrite Qabs_neg by lra. ring. }
  u_num. apply Qabs_Qle_condition. split; lra.
Qed.

Lemma fatCorrection_value bound target foods :
  0 <= bound → bound <= 5000000 → sizedMeal bound target foods →
  let totals := calculateMealMacros foods in
  let afterFat := fatCorrection totals target foods in
  sizedMeal ((161 # 100) * bound + 1) target afterFat ∧
  length afterFat = length foods ∧
  fieldSum carbsOf foods - (5002 # 10000000) <= fieldSum carbsOf afterFat ∧
  deviation (MacroTarget.Fats (calculateMealMacros afterFat)) (MacroTarget.Fats target)
    <= deviation (MacroTarget.Fats totals) (MacroTarget.Fats target) + (1 # 1000).
Proof.
  intros HB0 HB Hmeal totals afterFat.
  assert (afterFat = foods →
          sizedMeal ((161 # 100) * bound + 1) target afterFat ∧
          length afterFat = length foods ∧
          fieldSum carbsOf foods - (5002 # 10000000) <= fieldSum carbsOf afterFat ∧
          deviation (MacroTarget.Fats (calculateMealMacros afterFat))
            (MacroTarget.Fats target)
            <= deviation (MacroTarget.Fats totals) (MacroTarget.Fats target) + (1 # 1000))
    as Hsame.
  { intros ->. split; [eapply sizedMeal_weaken; [|exact Hmeal]; lra|].
    split; [done|]. split; [lra|]. fold totals. lra. }
  pose proof (sized_fats bound target foods ltac:(lra) Hmeal) as Hfats.
  destruct Hmeal as (HTf & HTc & Hlen & Hall).
  subst afterFat. unfold fatCorrection in *.
  change (F64.of_Q (1 - tolerance)) with (F64.of_Q (95 # 100)) in *.
  destruct (F64.ltb (MacroTarget.Fats totals)
              (F64.mul (MacroTarget.Fats target) (F64.of_Q (95 # 100)))) eqn:Hlt;
    [|by apply Hsame].
  destruct (0 <=? findBestFatFoodIndex foods)%Z; [|by apply Hsame].
  set (i := Z.to_nat (findBestFatFoodIndex foods)) in *.
  destruct (foods !! i) as [food|] eqn:Hi; [|by apply Hsame].
  destruct (Food.Servings food) as [|serving rest] eqn:Hs; [by apply Hsame|].
  destruct (F64.gtb (parseFloatDefault (Serving.Fat serving)) F64.zero) eqn:Hpos;
    [|by apply Hsame].
  clear Hsame. rewrite (setFirstServing_eq _ _ _ _ _ _ Hi Hs).
  assert (fatOf food = parseFloatDefault (Serving.Fat serving)) as Hfat
    by (unfold fatOf; by rewrite Hs).
  rewrite <- Hfat in *.
  pose proof (Forall_lookup_1 _ _ _ _ Hall Hi) as [Hfw Hcw]. cbv beta in Hfw, Hcw.
  destruct (positive_normal _ _ _ Hfw Hpos) as (Hfn & Hfs & Hfl & Hfh).
  (* the totals before *)
  destruct (fat_total foods Hfats Hlen) as (HF & HFerr & HΣ0 & HΣ9).
  fold totals in HF, HFerr.
  destruct (running_magnitude _ _ HF HFerr HΣ9) as [HFq HFmax].
  (* the factor *)
  assert (within (1 # 1000000000) 10000000 (MacroTarget.Fats target)) as HT7
    by (eapply within_weaken; [| |exact HTf]; lra).
  destruct (fat_factor_value (MacroTarget.Fats target) (MacroTarget.Fats totals)
              (fatOf food) HT7 HF HFmax Hfn Hfs Hfl ltac:(lra) Hlt)
    as (Hφn & Hφs & Hφl & Hφh & HFL & HLT & Hup).
  set (factor := F64.add F64.one _) in *.
  set (floor := F64.mul (MacroTarget.Fats target) (F64.of_Q (95 # 100))) in *.
  clearbody factor floor.
  (* the scaled food *)
  destruct (scaled_food_fields food serving rest factor Hs Hφn Hφs) as [Hfat' Hcarb'].
  set (food' := Food.set_Servings (scaleServing serving factor :: rest) food) in *.
  assert ((64 # 100) <= F64.magnitude factor) as Hφ64 by (u_num; lra).
  destruct (scaled_field_sized bound (fatOf food) factor HB0 ltac:(lra) Hfw Hφn Hφs Hφ64 Hφh)
    as (Hfw' & Hfq & Hfq' & Hf0 & HfB & Hferr).
  destruct (scaled_field_sized bound (carbsOf food) factor HB0 ltac:(lra) Hcw Hφn Hφs Hφ64 Hφh)
    as (Hcw' & Hcq & Hcq' & Hc0 & HcB & Hcerr).
  rewrite <- Hfat' in Hfw', Hfq', Hferr. rewrite <- Hcarb' in Hcw', Hcq', Hcerr.
  clearbody food'.
  assert (sizedMeal ((161 # 100) * bound + 1) target (<[i := food']> foods)) as Hmeal'.
  { split; [done|]. split; [done|]. split; [by rewrite length_insert|].
    apply Forall_insert; [|done].
    eapply Forall_impl; [exact Hall|]. intros other [Hf Hc].
    split; (eapply within_weaken; [| |eassumption]; lra). }
  split; [done|]. split; [by rewrite length_insert|].
  assert (F64.magnitude (fatOf food) * (1 - F64.u)
          <= F64.magnitude (fatOf food) * F64.magnitude factor) as Hflow
    by (apply mult_le_l; lra).
  assert (F64.magnitude (carbsOf food) * (1 - F64.u)
          <= F64.magnitude (carbsOf food) * F64.magnitude factor) as Hclow
    by (apply mult_le_l; lra).
  split.
  - rewrite (fieldSum_insert carbsOf foods i food food' Hi), Hcq, Hcq'.
    apply Qabs_Qle_condition in Hcerr as [Hc1 Hc2].
    set (cφ := F64.magnitude (carbsOf food) * F64.magnitude factor) in *. clearbody cφ.
    u_num. lra.
  - destruct (fat_total (<[i := food']> foods)) as (HF' & HFerr' & _ & _).
    { apply (sized_fats ((161 # 100) * bound + 1) target); [lra|done]. }
    { by rewrite length_insert. }
    pose proof (fieldSum_insert fatOf foods i food food' Hi) as HΣ1.
    rewrite Hfq, Hfq' in HΣ1.
    destruct (nonnegative_value _ (within_nonnegative _ _ _ HTf)) as [HTq _].
    unfold deviation. rewrite HTq.
    rewrite HFq in HFerr |- *.
    apply (fat_step_arithmetic _ _ (fieldSum fatOf foods)
             (fieldSum fatOf (<[i := food']> foods)) (F64.magnitude (fatOf food))
             (F64.magnitude (fatOf food'))
             (F64.magnitude (fatOf food) * F64.magnitude factor)
             (F64.magnitude floor) _); try done; lra.
Qed.

(** *** The carbohydrate correction *)

Lemma count_succ (n : nat) :
  inject_Z (Z.of_nat (S n)) == inject_Z (Z.of_nat n) + 1 ∧ 0 <= inject_Z (Z.of_nat n).
Proof.
  split.
  - rewrite Nat2Z.inj_succ. unfold Z.succ. by rewrite inject_Z_plus.
  - change 0 with (inject_Z 0). apply inject_Z_le. lia.
Qed.

(** The carbohydrate of the meal once the starchy foods are scaled: the
    starch is multiplied by the factor, within a little more than half a
    thousandth for each food. *)
Lemma scaleStarchy_value bound factor foods :
  0 <= bound → bound <= 6000000 →
  F64.normal factor → F64.negative factor = false →
  (64 # 100) <= F64.magnitude factor → F64.magnitude factor <= 161 # 100 →
  Forall (λ food, within (1 # 1000000000) bound (fatOf food) ∧
                  within (1 # 1000000000) bound (carbsOf food)) foods →
  Forall (λ food, within (1 # 1000000000) ((161 # 100) * bound + 1) (fatOf food) ∧
                  within (1 # 1000000000) ((161 # 100) * bound + 1) (carbsOf food))
    (scaleStarchy factor foods) ∧
  Qabs (fieldSum carbsOf (scaleStarchy factor foods)
        - (fieldSum carbsOf foods - fieldSum starchOf foods
           + F64.magnitude factor * fieldSum starchOf foods))
    <= inject_Z (Z.of_nat (length foods)) * (5001 # 10000000).
Proof.
  intros HB0 HB Hφn Hφs Hφl Hφh Hall.
  induction Hall as [|food foods [Hfw Hcw] _ [IH1 IH2]].
  - split; [constructor|].
    cbn [scaleStarchy fmap list_fmap fieldSum foldr length].
    change (inject_Z (Z.of_nat 0)) with 0.
    apply Qabs_Qle_condition. split; lra.
  - cbn [scaleStarchy fmap list_fmap] in *. fold (scaleStarchy factor foods) in *.
    rewrite !fieldSum_cons. cbn [length].
    destruct (count_succ (length foods)) as [-> Hn0].
    apply Qabs_Qle_condition in IH2 as [IHa IHb].
    set (n := inject_Z (Z.of_nat (length foods))) in *.
    set (Σ' := fieldSum carbsOf (scaleStarchy factor foods)) in *.
    set (Σ := fieldSum carbsOf foods) in *. set (Σs := fieldSum starchOf foods) in *.
    set (φ := F64.magnitude factor) in *.
    assert (within (1 # 1000000000) ((161 # 100) * bound + 1) (fatOf food) ∧
            within (1 # 1000000000) ((161 # 100) * bound + 1) (carbsOf food)) as Hkeep.
    { split; (eapply within_weaken; [| |eassumption]; lra). }
    assert (F64.to_Q F64.zero == 0) as Hzero by reflexivity.
    unfold starchOf.
    destruct (isStarchyCarb (Food.FoodName food)).
    2:{ split; [by constructor|]. rewrite Hzero.
        apply Qabs_Qle_condition. split; lra. }
    unfold scaleFirstServing.
    destruct (Food.Servings food) as [|serving rest] eqn:Hs.
    { split; [by constructor|].
      assert (carbsOf food = F64.zero) as -> by (unfold carbsOf; by rewrite Hs).
      rewrite Hzero. apply Qabs_Qle_condition. split; lra. }
    destruct (scaled_food_fields food serving rest factor Hs Hφn Hφs) as [Hfat' Hcarb'].
    set (food' := Food.set_Servings (scaleServing serving factor :: rest) food) in *.
    destruct (scaled_field_sized bound (fatOf food) factor HB0 HB Hfw Hφn Hφs Hφl Hφh)
      as (Hfw' & _).
    destruct (scaled_field_sized bound (carbsOf food) factor HB0 HB Hcw Hφn Hφs Hφl Hφh)
      as (Hcw' & Hcq & Hcq' & Hc0 & HcB & Hcerr).
    rewrite <- Hfat' in Hfw'. rewrite <- Hcarb' in Hcw', Hcq', Hcerr.
    clearbody food'.
    split; [by constructor|].
    rewrite Hcq, Hcq'. apply Qabs_Qle_condition in Hcerr as [Hc1 Hc2]. fold φ in Hc1, Hc2.
    set (c := F64.magnitude (carbsOf food)) in *.
    set (c' := F64.magnitude (carbsOf food')) in *.
    assert (φ * (c + Σs) == c * φ + φ * Σs) as -> by ring.
    set (cφ := c * φ) in *. set (P := φ * Σs) in *. clearbody cφ P.
    apply Qabs_Qle_condition. split; lra.
Qed.

(** The arithmetic of the carbohydrate correction. *)
Lemma carb_step_arithmetic (C1 C1' Σ1 Σ1' SCx Sv φ mv Cv Uv Tv n : Q) :
  Qabs (C1 - Σ1) <= 1 # 10000 → Qabs (C1' - Σ1') <= 1 # 10000 →
  Qabs (Sv - SCx) <= 1 # 10000 →
  Qabs (Σ1' - (Σ1 - SCx + φ * SCx)) <= n * (5001 # 10000000) →
  0 <= SCx → SCx <= 1000000000 → 0 <= n →
  φ <= 1 + F64.u → (1 - mv) * (1 - F64.u) <= φ → 0 <= mv → mv <= 36 # 100 →
  mv * Sv <= (Cv - Uv) * (1 + 3 * F64.u) → Uv < Cv → Tv <= Uv → 0 <= Tv →
  Cv <= Σ1 + (7 # 10000) → Σ1 <= 1000000000 →
  Qabs (C1' - Tv) <= Qabs (C1 - Tv) + (1 # 1000) * (n + 1).
Proof.
  intros H1 H1' HS HΣ HS0 HS9 Hn Hφh Hφl Hm0 Hm36 HmS HUC HTU HT0 HCΣ HΣ9.
  apply Qabs_Qle_condition in H1 as [H1a H1b].
  apply Qabs_Qle_condition in H1' as [H1'a H1'b].
  apply Qabs_Qle_condition in HS as [HSa HSb].
  apply Qabs_Qle_condition in HΣ as [HΣa HΣb].
  pose proof (Qle_Qabs (C1 - Tv)) as Habs. pose proof (Qabs_nonneg (C1 - Tv)) as Habs0.
  assert (SCx * φ <= SCx * (1 + F64.u)) as Hp1 by (apply mult_le_l; lra).
  assert (SCx * ((1 - mv) * (1 - F64.u)) <= SCx * φ) as Hp2 by (apply mult_le_l; lra).
  assert (mv * SCx <= mv * (Sv + (1 # 10000))) as Hp3 by (apply mult_le_l; lra).
  assert (SCx * ((1 - mv) * (1 - F64.u)) == (SCx - mv * SCx) * (1 - F64.u)) as Hr2 by ring.
  assert (mv * (Sv + (1 # 10000)) == mv * Sv + mv * (1 # 10000)) as Hr3 by ring.
  assert (φ * SCx == SCx * φ) as Hr1 by ring.
  rewrite Hr2 in Hp2. rewrite Hr3 in Hp3. rewrite Hr1 in HΣa, HΣb.
  assert (0 <= mv * SCx) as Hp0 by (apply Qmult_le_0_compat; lra).
  set (P := SCx * φ) in *. set (mS := mv * Sv) in *. set (mX := mv * SCx) in *.
  clearbody P mS mX. u_num.
  apply Qabs_Qle_condition. split; lra.
Qed.

Lemma carbCorrection_value bound totals target foods :
  0 <= bound → bound <= 6000000 → sizedMeal bound target foods →
  runningSum (MacroTarget.Carbs totals) →
  F64.magnitude (MacroTarget.Carbs totals) <= 1000000001 →
  F64.magnitude (MacroTarget.Carbs totals) <= fieldSum carbsOf foods + (7 # 10000) →
  let afterCarb := carbCorrection totals target foods in
  sizedMeal ((161 # 100) * bound + 1) target afterCarb ∧
  length afterCarb = length foods ∧
  deviation (MacroTarget.Carbs (calculateMealMacros afterCarb)) (MacroTarget.Carbs target)
    <= deviation (MacroTarget.Carbs (calculateMealMacros foods)) (MacroTarget.Carbs target)
       + (1 # 1000) * inject_Z (Z.of_nat (length foods + 1)).
Proof.
  intros HB0 HB Hmeal HC HCmax HCΣ afterCarb.
  pose proof (sized_carbs bound target foods ltac:(lra) Hmeal) as Hcarbs.
  assert (inject_Z (Z.of_nat (length foods + 1)) == inject_Z (Z.of_nat (length foods)) + 1
          ∧ 0 <= inject_Z (Z.of_nat (length foods))) as [Hcount Hn0].
  { rewrite Nat.add_1_r. apply count_succ. }
  subst afterCarb. rewrite carbCorrection_by_food.
  destruct (F64.gtb (MacroTarget.Carbs totals) (carbCeiling target)
            && F64.gtb (starchCarbs foods) F64.zero) eqn:Hcond.
  2:{ split; [eapply sizedMeal_weaken; [|exact Hmeal]; lra|]. split; [done|].
      rewrite Hcount. lra. }
  apply andb_true_iff in Hcond as [Hgt HSpos].
  destruct Hmeal as (HTf & HTc & Hlen & Hall).
  destruct (starch_total foods Hcarbs Hlen) as (HS & HSerr & HSx0 & HSx9).
  destruct (running_magnitude _ _ HS HSerr HSx9) as [HSq HSmax].
  assert (within (1 # 1000000000) 10000000 (MacroTarget.Carbs target)) as HT7
    by (eapply within_weaken; [| |exact HTc]; lra).
  unfold carbCeiling in *. unfold carbFactor.
  destruct (carb_factor_value (MacroTarget.Carbs target) (MacroTarget.Carbs totals)
              (starchCarbs foods) HT7 HC HCmax HS HSmax HSpos Hgt)
    as (Hφn & Hφs & Hφl & Hφh & HUC & HTU & mv & Hm0 & Hm36 & Hφm & HmS).
  set (factor := F64.sub F64.one _) in *.
  set (ceiling := F64.mul (MacroTarget.Carbs target) (F64.of_Q (105 # 100))) in *.
  clearbody factor ceiling.
  destruct (scaleStarchy_value bound factor foods HB0 HB Hφn Hφs Hφl ltac:(u_num; lra) Hall)
    as [Hall' HΣ].
  assert (sizedMeal ((161 # 100) * bound + 1) target (scaleStarchy factor foods)) as Hmeal'.
  { split; [done|]. split; [done|]. split; [|done].
    unfold scaleStarchy. by rewrite length_fmap. }
  split; [done|]. split; [unfold scaleStarchy; by rewrite length_fmap|].
  destruct (carb_total foods Hcarbs Hlen) as (_ & H1 & HΣ0 & HΣ9).
  destruct (carb_total (scaleStarchy factor foods)) as (_ & H1' & _ & _).
  { apply (sized_carbs ((161 # 100) * bound + 1) target); [lra|done]. }
  { unfold scaleStarchy. by rewrite length_fmap. }
  destruct (nonnegative_value _ (within_nonnegative _ _ _ HTc)) as [HTq HT0].
  unfold deviation. rewrite HTq, Hcount. rewrite HSq in HSerr.
  eapply (carb_step_arithmetic _ _ _ _ (fieldSum starchOf foods)
            (F64.magnitude (starchCarbs foods)) (F64.magnitude factor) mv
            (F64.magnitude (MacroTarget.Carbs totals)) (F64.magnitude ceiling));
    try eassumption; lra.
Qed.

(** *** One pass *)

Lemma rebalancePass_value bound target foods :
  0 <= bound → bound <= 3000000 → sizedMeal bound target foods →
  sizedMeal ((161 # 100) * ((161 # 100) * bound + 1) + 1) target
    (rebalancePass target foods) ∧
  correctionsKeepOwnDeviation target foods.
Proof.
  intros HB0 HB Hmeal. unfold rebalancePass, correctionsKeepOwnDeviation. cbv zeta.
  destruct (fatCorrection_value bound target foods HB0 ltac:(lra) Hmeal)
    as (Hmeal1 & Hlen1 & HΣ & Hfat).
  pose proof (sized_carbs bound target foods ltac:(lra) Hmeal) as Hcarbs.
  destruct Hmeal as (_ & _ & Hlen & _).
  destruct (carb_total foods Hcarbs Hlen) as (HC & HCerr & HΣ0 & HΣ9).
  destruct (running_magnitude _ _ HC HCerr HΣ9) as [HCq HCmax].
  set (totals := calculateMealMacros foods) in *.
  set (afterFat := fatCorrection totals target foods) in *.
  destruct (carbCorrection_value ((161 # 100) * bound + 1) totals target afterFat)
    as (Hmeal2 & _ & Hcarb); try done; try lra.
  { rewrite HCq in HCerr. apply Qabs_Qle_condition in HCerr as [_ He]. lra. }
  rewrite Hlen1 in Hcarb. done.
Qed.

Local Close Scope Q_scope.
End PassValues.

(** C1 (amended).  In each of the two passes of [rebalanceMealFoods], on a
    meal of plain size, each correction keeps the deviation of its own
    macro from the target: the fat correction does not take the aggregated
    fat further from the target fat than it was, and the carbohydrate
    correction does not take the aggregated carbohydrate further from the
    target carbohydrate than the fat correction left it, but for the
    rounding of the fields to three decimals: a thousandth of a gram for
    the fat, and a thousandth for each food and one more for the
    carbohydrate. *)
Theorem corrections_keep_own_deviation (target : MacroTarget.t) (foods : list Food.t) :
  plainMeal (H := go_std) target foods →
  rebalanceMealFoods (H := go_std) foods target
  = rebalancePass (H := go_std) target (rebalancePass (H := go_std) target foods) ∧
  correctionsKeepOwnDeviation (H := go_std) target foods ∧
  correctionsKeepOwnDeviation (H := go_std) target (rebalancePass (H := go_std) target foods).
Proof.
  intros Hmeal. split; [reflexivity|].
  destruct (PassValues.rebalancePass_value 1000000 target foods) as [Hmeal1 Hfirst];
    [done..|].
  split; [exact Hfirst|].
  eapply PassValues.rebalancePass_value; [| |exact Hmeal1]; done.
Qed.

Lemma corrections_keep_own_deviation_witness :
  plainMeal (H := go_std) fatShortTarget avocadoRiceMeal ∧
  rebalanceMealFoods (H := go_std) avocadoRiceMeal fatShortTarget
  = rebalancePass (H := go_std) fatShortTarget
      (rebalancePass (H := go_std) fatShortTarget avocadoRiceMeal) ∧
  correctionsKeepOwnDeviation (H := go_std) fatShortTarget avocadoRiceMeal ∧
  correctionsKeepOwnDeviation (H := go_std) fatShortTarget
    (rebalancePass (H := go_std) fatShortTarget avocadoRiceMeal).
Proof.
  assert (plainMeal (H := go_std) fatShortTarget avocadoRiceMeal) as Hmeal.
  { unfold plainMeal, sizedMeal. split; [moderate_field|]. split; [moderate_field|].
    split; [simpl; lia|].
    repeat (apply Forall_cons; split; [split; moderate_field|]). apply Forall_nil_2. }
  split; [exact Hmeal|].
  apply (corrections_keep_own_deviation fatShortTarget avocadoRiceMeal Hmeal).
Defined.

(** C1 as stated fails, in two ways.  A correction moves the other macro:
    with 10 g of fat against a target of 20 g the first pass scales the
    avocado by 1.6, which takes its carbohydrate from 12 g to 19.2 g,
    further from the target of 10 g.  And the rounding can take the
    corrected macro itself further from its target: 10.0004 g of fat, just
    short of 95% of 10.5268 g, are scaled by a factor so near 1 that the
    product is written as 10.000 g. *)
Lemma fat_correction_raises_carb_deviation :
  calculateMealMacros (H := go_std) avocadoMeal
    = MacroTarget.mk (lit "160") (lit "12") (lit "10") (lit "2") ∧
  calculateMealMacros (H := go_std) (rebalancePass (H := go_std) fatShortTarget avocadoMeal)
    = MacroTarget.mk (lit "256") (lit "19.2") (lit "16") (lit "3.2") ∧
  ¬ passKeepsDeviations (H := go_std) fatShortTarget avocadoMeal ∧
  omap (λ food, Serving.Fat <$> head (Food.Servings food))
    (rebalancePass (H := go_std) nearTarget fineAvocado) = ["10.000"] ∧
  (deviation (MacroTarget.Fats (calculateMealMacros (H := go_std) fineAvocado))
     (MacroTarget.Fats nearTarget)
   < deviation
       (MacroTarget.Fats
          (calculateMealMacros (H := go_std) (rebalancePass (H := go_std) nearTarget fineAvocado)))
       (MacroTarget.Fats nearTarget))%Q ∧
  ¬ passKeepsDeviations (H := go_std) nearTarget fineAvocado.
Proof.
  split; [vm_compute; reflexivity|]. split; [vm_compute; reflexivity|].
  split; [intros [_ Hcarb]; vm_compute in Hcarb; by apply Hcarb|].
  split; [vm_compute; reflexivity|]. split; [vm_compute; reflexivity|].
  intros [Hfat _]. vm_compute in Hfat. by apply Hfat.
Qed.
